(** * QLever core: query planner and result exporter

    A shallow embedding of [src/engine/QueryPlanner.cpp] and
    [src/engine/ExportQueryExecutionTrees.cpp].

    Conventions of the embedding.
    - C++ exceptions ([AD_THROW], [AD_CHECK], [AD_FAIL]) are the [Throw]
      branch of [result].
    - [std::unordered_set<T>] is a [gset T] and [std::unordered_map<K,V>] a
      [gmap K V].  Where the source iterates over such a container the order
      is the one [elements] / [map_to_list] give; the C++ standard leaves it
      unspecified, so nothing below depends on it.
    - [std::set<size_t>] is iterated in increasing order ([sortedIds]).
    - [size_t] values that are only used as indices or column numbers are
      [nat]; cost estimates and the text limit keep the 64-bit range as [N]
      and [Z]. *)

From Stdlib Require Import ZArith NArith String Ascii List Lia Bool.
From stdpp Require Import base option gmap sets list strings pretty sorting
  relations.

#[local] Open Scope string_scope.
#[local] Open Scope list_scope.
#[local] Open Scope nat_scope.

(** ** Exceptions *)

Inductive ExceptionKind :=
| BAD_QUERY              (* ad_semsearch::Exception::BAD_QUERY *)
| NOT_YET_IMPLEMENTED    (* ad_semsearch::Exception::NOT_YET_IMPLEMENTED *)
| CHECK_FAILED           (* a failed AD_CHECK / AD_CHECK_EQ / AD_CHECK_GT *)
| UNDEFINED_BEHAVIOUR.   (* dereferencing end(), indexing out of range *)

Inductive result (A : Type) :=
| Ok (a : A)
| Throw (kind : ExceptionKind) (what : string).
Arguments Ok {A} a.
Arguments Throw {A} kind what.

#[global] Instance result_bind : MBind result :=
  λ A B k m,
    match m with
    | Ok a => k a
    | Throw e w => Throw e w
    end.
#[global] Instance result_ret : MRet result := λ A a, Ok a.

(** Iterating a fallible body over a list, left to right, collecting what each
    step appends; the first exception ends the loop. *)
Fixpoint rconcatMap {A B} (f : A → result (list B)) (l : list A)
  : result (list B) :=
  match l with
  | [] => Ok []
  | x :: rest =>
      ys ← f x ;
      zs ← rconcatMap f rest ;
      Ok (ys ++ zs)
  end.

Fixpoint rfold {A S} (f : S → A → result S) (l : list A) (s : S) : result S :=
  match l with
  | [] => Ok s
  | x :: rest => s' ← f s x ; rfold f rest s'
  end.

(** ** Parser output (ParsedQuery.h; only the fields the planner reads) *)

Record SparqlTriple := mkTriple { _s : string; _p : string; _o : string }.

(** [_ftype] is the enumerator [SparqlFilter::_type]; the planner only passes
    it on to the [Filter] operation. *)
Record SparqlFilter := mkFilter { _ftype : nat; _lhs : string; _rhs : string }.

Record OrderKey := mkOrderKey { _key : string; _desc : bool }.

Record ParsedQuery := mkParsedQuery {
  _whereClauseTriples : list SparqlTriple;
  _filters : list SparqlFilter;
  _orderBy : list OrderKey;
  _distinct : bool;
  _selectedVariables : list string;
  _textLimit : string
}.

(** ** Operator trees (QueryExecutionTree.h and the operations' headers) *)

Inductive OperationType :=
| UNDEFINED | SCAN | JOIN | SORT | ORDER_BY | FILTER | DISTINCT
| TEXT_FOR_ENTITIES | TEXT_FOR_CONTEXTS
| TEXT_WITHOUT_FILTER | TEXT_WITH_FILTER.

#[global] Instance OperationType_eq_dec : EqDecision OperationType.
Proof. solve_decision. Defined.

Inductive ScanType := PSO_BOUND_S | POS_BOUND_O | PSO_FREE_S | POS_FREE_O.

(** An operation together with what the planner hands to its constructor and
    setters.  A [QueryExecutionTree] owns (a copy of) its root operation. *)
Inductive Operation :=
| IndexScan (type : ScanType) (subject predicate object : string)
| Join (left right : QueryExecutionTree) (leftJoinCol rightJoinCol : nat)
| Sort (subtree : QueryExecutionTree) (sortCol : nat)
| OrderBy (subtree : QueryExecutionTree) (sortIndices : list (nat * bool))
| Filter (subtree : QueryExecutionTree) (type : nat) (lhsInd rhsInd : nat)
| Distinct (subtree : QueryExecutionTree) (keepIndices : list nat)
| TextOperationForContexts (words : string) (textLimit : N)
| TextOperationWithoutFilter (words : string) (nofVars : nat)
| TextOperationWithFilter (words : string) (nofVars : nat)
    (filterResult : QueryExecutionTree) (filterColumn : nat)
with QueryExecutionTree :=
| mkQET (type : OperationType) (rootOperation : option Operation)
    (variableColumnMap : gmap string nat) (contextVars : gset string)
    (textLimit : N).

Definition getType (t : QueryExecutionTree) : OperationType :=
  let 'mkQET ty _ _ _ _ := t in ty.
Definition getRootOperation (t : QueryExecutionTree) : option Operation :=
  let 'mkQET _ op _ _ _ := t in op.
Definition getVariableColumnMap (t : QueryExecutionTree) : gmap string nat :=
  let 'mkQET _ _ m _ _ := t in m.
Definition getContextVars (t : QueryExecutionTree) : gset string :=
  let 'mkQET _ _ _ c _ := t in c.
Definition getTextLimitOf (t : QueryExecutionTree) : N :=
  let 'mkQET _ _ _ _ l := t in l.

Definition setOperation (ty : OperationType) (op : Operation)
    (t : QueryExecutionTree) : QueryExecutionTree :=
  let 'mkQET _ _ m c l := t in mkQET ty (Some op) m c l.
Definition setVariableColumns (m : gmap string nat)
    (t : QueryExecutionTree) : QueryExecutionTree :=
  let 'mkQET ty op _ c l := t in mkQET ty op m c l.
Definition setVariableColumn (var : string) (col : nat)
    (t : QueryExecutionTree) : QueryExecutionTree :=
  let 'mkQET ty op m c l := t in mkQET ty op (<[var := col]> m) c l.
Definition setContextVars (c : gset string)
    (t : QueryExecutionTree) : QueryExecutionTree :=
  let 'mkQET ty op m _ l := t in mkQET ty op m c l.
Definition addContextVar (var : string)
    (t : QueryExecutionTree) : QueryExecutionTree :=
  let 'mkQET ty op m c l := t in mkQET ty op m ({[var]} ∪ c) l.
Definition setTextLimit (limit : N)
    (t : QueryExecutionTree) : QueryExecutionTree :=
  let 'mkQET ty op m c _ := t in mkQET ty op m c limit.

Definition varCovered (t : QueryExecutionTree) (var : string) : bool :=
  bool_decide (is_Some (getVariableColumnMap t !! var)).

Definition getVariableColumn (t : QueryExecutionTree) (var : string)
  : result nat :=
  match getVariableColumnMap t !! var with
  | Some c => Ok c
  | None => Throw CHECK_FAILED "Variable could not be mapped to result column."
  end.

Definition SIZE_MAX : N := 18446744073709551615.

(** What the planner asks of the classes that are not part of
    QueryPlanner.cpp: the estimates and sort column an operator tree
    reports, the column map [Join::getVariableColumns] computes, the text
    limit a freshly constructed tree carries, and the relation names of
    Constants.h. *)
Class Operators := {
  getCostEstimate : QueryExecutionTree → N;
  getCostEstimate_size_t : ∀ t, (getCostEstimate t ≤ SIZE_MAX)%N;
  resultSortedOn : QueryExecutionTree → nat;
  joinVariableColumns :
    QueryExecutionTree → QueryExecutionTree → nat → nat → gmap string nat;
  defaultTextLimit : N;
  IN_CONTEXT_RELATION : string;
  HAS_CONTEXT_RELATION : string;
  INTERNAL_TEXT_MATCH_PREDICATE : string
}.

(** ** The planner's own data (QueryPlanner.h) *)

Record Node := mkNode {
  _id : nat;
  _triple : SparqlTriple;
  _variables : gset string;
  _cvar : string;
  _wordPart : string
}.

Record TripleGraph := mkTripleGraph {
  _adjLists : list (list nat);
  _nodeMap : gmap nat Node;
  _nodeStorage : list Node
}.

Record SubtreePlan := mkSubtreePlan {
  _qet : QueryExecutionTree;
  _idsOfIncludedNodes : gset nat;
  _idsOfIncludedFilters : gset nat
}.

Definition isVariable (elem : string) : bool := String.prefix "?" elem.

Definition isWords (elem : string) : bool :=
  negb (isVariable elem) &&
  match elem with
  | EmptyString => false
  | String c _ => negb (Ascii.eqb c "<"%char)
  end.

Definition variablesOf (t : SparqlTriple) : gset string :=
  list_to_set (filter (λ e, isVariable e = true) [_s t; _p t; _o t]).

(** Modelled from the spec: the two [Node] constructors of QueryPlanner.h.
    "Each node owns a triple, its variable set, and optionally (for text
    nodes) a context variable cvar and a word part"; a collapsed text node's
    "variable set is the union of all endpoints involved". *)
Definition NodeOfTriple (id : nat) (t : SparqlTriple) : Node :=
  mkNode id t (variablesOf t) "" "".

Definition endpointVariables (t : SparqlTriple) : gset string :=
  list_to_set (filter (λ e, isVariable e = true) [_s t; _o t]).

Definition NodeOfTextClique `{Operators} (id : nat) (cvar wordPart : string)
    (trips : list SparqlTriple) : Node :=
  mkNode id (mkTriple cvar INTERNAL_TEXT_MATCH_PREDICATE wordPart)
    ({[cvar]} ∪ ⋃ (endpointVariables <$> trips)) cvar wordPart.

Definition sortedIds (s : gset nat) : list nat :=
  merge_sort Nat.le (elements s).

Section Planner.
Context `{ops : Operators}.

Definition emptyTree : QueryExecutionTree :=
  mkQET UNDEFINED None ∅ ∅ defaultTextLimit.

Definition emptyPlan : SubtreePlan := mkSubtreePlan emptyTree ∅ ∅.

Definition planCost (p : SubtreePlan) : N := getCostEstimate (_qet p).

(** *** createTripleGraph *)

Definition addEdge (a b : nat) (adj : list (list nat)) : list (list nat) :=
  alter (λ l, l ++ [a]) b (alter (λ l, l ++ [b]) a adj).

Definition connectNewNode (tg : TripleGraph) (addedNode : Node)
  : list (list nat) :=
  foldl
    (λ adj addedNodevar,
       foldl
         (λ adj i,
            match _nodeMap tg !! i with
            | Some otherNode =>
                if bool_decide (addedNodevar ∈ _variables otherNode)
                then addEdge (_id addedNode) (_id otherNode) adj
                else adj
            | None => adj
            end)
         adj (seq 0 (_id addedNode)))
    (_adjLists tg) (elements (_variables addedNode)).

Definition addTriple (tg : TripleGraph) (t : SparqlTriple) : TripleGraph :=
  let addedNode := NodeOfTriple (length (_nodeStorage tg)) t in
  let tg1 :=
    mkTripleGraph (_adjLists tg ++ [[]])
      (<[_id addedNode := addedNode]> (_nodeMap tg))
      (_nodeStorage tg ++ [addedNode]) in
  mkTripleGraph (connectNewNode tg1 addedNode) (_nodeMap tg1)
    (_nodeStorage tg1).

Definition createTripleGraph (query : ParsedQuery) : TripleGraph :=
  foldl addTriple (mkTripleGraph [] ∅ []) (_whereClauseTriples query).

(** *** seedWithScansAndText *)

Definition getTextLeafPlan (node : Node) : result SubtreePlan :=
  if bool_decide (String.length (_wordPart node) = 0)
  then Throw CHECK_FAILED "node._wordPart.size() > 0"
  else
    let textOp :=
      TextOperationWithoutFilter (_wordPart node)
        (size (_variables node) - 1) in
    let vcmap0 : gmap string nat :=
      <["SCORE(" +:+ _cvar node +:+ ")" := 1]> (<[_cvar node := 0]> ∅) in
    let '(vcmap, _) :=
      foldl
        (λ '(m, index) var,
           if bool_decide (var ≠ _cvar node)
           then (<[var := index]> m, S index)
           else (m, index))
        (vcmap0, 2) (elements (_variables node)) in
    let tree :=
      addContextVar (_cvar node)
        (setVariableColumns vcmap
           (setOperation TEXT_WITHOUT_FILTER textOp emptyTree)) in
    Ok (mkSubtreePlan tree {[_id node]} ∅).

Definition scanPlan (i : nat) (ty : ScanType) (s p o : string)
    (cols : list (string * nat)) : SubtreePlan :=
  let tree :=
    foldl (λ t '(var, col), setVariableColumn var col t)
      (setOperation SCAN (IndexScan ty s p o) emptyTree) cols in
  mkSubtreePlan tree {[i]} ∅.

(** The body of the loop over the nodes: the seeds node [i] contributes. *)
Definition seedNode (i : nat) (node : Node) : result (list SubtreePlan) :=
  if bool_decide (0 < String.length (_cvar node))
  then p ← getTextLeafPlan node ; Ok [p]
  else
    let t := _triple node in
    let n := size (_variables node) in
    if bool_decide (n = 0)
    then Throw BAD_QUERY "Triples should have at least one variable."
    else
      one ←
        (if bool_decide (n = 1)
         then
           if isVariable (_s t)
           then Ok [scanPlan i POS_BOUND_O "" (_p t) (_o t) [(_s t, 0)]]
           else if isVariable (_o t)
           then Ok [scanPlan i PSO_BOUND_S (_s t) (_p t) "" [(_o t, 0)]]
           else Throw NOT_YET_IMPLEMENTED "No predicate vars yet, please."
         else Ok []) ;
      two ←
        (if bool_decide (n = 2)
         then
           if isVariable (_p t)
           then Throw NOT_YET_IMPLEMENTED "No predicate vars yet, please."
           else
             Ok [scanPlan i PSO_FREE_S "" (_p t) "" [(_s t, 0); (_o t, 1)];
                 scanPlan i POS_FREE_O "" (_p t) "" [(_o t, 0); (_s t, 1)]]
         else Ok []) ;
      if bool_decide (3 ≤ n)
      then Throw NOT_YET_IMPLEMENTED
             "Triples should have at most two variables."
      else Ok (one ++ two).

Definition seedWithScansAndText (tg : TripleGraph)
  : result (list SubtreePlan) :=
  rconcatMap
    (λ i,
       match _nodeMap tg !! i with
       | Some node => seedNode i node
       | None => Throw UNDEFINED_BEHAVIOUR "tg._nodeMap.find(i) == end()"
       end)
    (seq 0 (size (_nodeMap tg))).

(** *** connected, getJoinColumns, getPruningKey *)

Definition connected (a b : SubtreePlan) (tg : TripleGraph) : bool :=
  let aSmaller :=
    bool_decide (size (_idsOfIncludedNodes a) < size (_idsOfIncludedNodes b)) in
  let smaller :=
    if aSmaller then _idsOfIncludedNodes a else _idsOfIncludedNodes b in
  let bigger :=
    if aSmaller then _idsOfIncludedNodes b else _idsOfIncludedNodes a in
  if existsb (λ nodeId, bool_decide (nodeId ∈ bigger)) (elements smaller)
  then false
  else
    existsb
      (λ nodeId,
         existsb
           (λ targetNodeId,
              bool_decide (targetNodeId ∉ _idsOfIncludedNodes a) &&
              bool_decide (targetNodeId ∈ _idsOfIncludedNodes b))
           (_adjLists tg !!! nodeId))
      (elements (_idsOfIncludedNodes a)).

Definition getJoinColumns (a b : SubtreePlan) : list (nat * nat) :=
  omap
    (λ '(var, col),
       match getVariableColumnMap (_qet b) !! var with
       | Some colB => Some (col, colB)
       | None => None
       end)
    (map_to_list (getVariableColumnMap (_qet a))).

(** [os << ' ' << ind] for every id of the ordered set. *)
Definition showIds (ids : list nat) : string :=
  foldl (λ os ind, os +:+ " " +:+ pretty ind) "" ids.

Definition getPruningKey (plan : SubtreePlan) (orderedOnCol : nat) : string :=
  let orderedVar :=
    match
      List.find (λ '(_, col), bool_decide (col = orderedOnCol))
        (map_to_list (getVariableColumnMap (_qet plan)))
    with
    | Some (var, _) => var
    | None => ""
    end in
  orderedVar +:+ showIds (sortedIds (_idsOfIncludedNodes plan)).

(** *** merge *)

Definition isTextWithoutFilter (p : SubtreePlan) : bool :=
  bool_decide (getType (_qet p) = TEXT_WITHOUT_FILTER).

(** The plan that turns a join with a text leaf into a text operation with
    filter (the block guarded by the two [getType] tests). *)
Definition textWithFilterPlan (a b : SubtreePlan) (jc : nat * nat)
  : result SubtreePlan :=
  let textPlan := if isTextWithoutFilter a then a else b in
  let otherPlan := if isTextWithoutFilter a then b else a in
  let otherPlanJc := if isTextWithoutFilter a then jc.2 else jc.1 in
  match elements (_idsOfIncludedNodes textPlan),
        getRootOperation (_qet textPlan),
        elements (getContextVars (_qet textPlan)) with
  | textNode :: _, Some (TextOperationWithoutFilter words nofVars),
    cvar :: _ =>
      let textOp :=
        TextOperationWithFilter words nofVars (_qet otherPlan) otherPlanJc in
      let otherMap := getVariableColumnMap (_qet otherPlan) in
      let '(vcmap1, colN) :=
        foldl
          (λ '(m, colN) '(var, col),
             if bool_decide (var = cvar) ||
                bool_decide (var = "SCORE(" +:+ cvar +:+ ")")
             then (<[var := col]> m, colN)
             else if bool_decide (otherMap !! var = None)
             then (<[var := colN]> m, S colN)
             else (m, colN))
          (∅, 2) (map_to_list (getVariableColumnMap (_qet textPlan))) in
      let vcmap :=
        foldl (λ m '(var, col), <[var := colN + col]> m) vcmap1
          (map_to_list otherMap) in
      let tree :=
        addContextVar cvar
          (setContextVars (getContextVars (_qet otherPlan))
             (setVariableColumns vcmap
                (setOperation TEXT_WITH_FILTER textOp emptyTree))) in
      Ok (mkSubtreePlan tree
            ({[textNode]} ∪ _idsOfIncludedNodes otherPlan) ∅)
  | _, _, _ =>
      Throw UNDEFINED_BEHAVIOUR "text plan without node, operation or cvar"
  end.

(** [left] / [right]: the side itself when it is sorted on its join column,
    a sort on that column otherwise. *)
Definition sortedOn (t : QueryExecutionTree) (col : nat) : QueryExecutionTree :=
  if bool_decide (resultSortedOn t = col)
  then t
  else
    setOperation SORT (Sort t col)
      (setVariableColumns (getVariableColumnMap t) emptyTree).

Definition joinPlan (a b : SubtreePlan) (jc : nat * nat) : SubtreePlan :=
  let left := sortedOn (_qet a) jc.1 in
  let right := sortedOn (_qet b) jc.2 in
  let tree :=
    setOperation JOIN (Join left right jc.1 jc.2)
      (setVariableColumns (joinVariableColumns left right jc.1 jc.2)
         emptyTree) in
  mkSubtreePlan tree
    (_idsOfIncludedNodes a ∪ _idsOfIncludedNodes b)
    (_idsOfIncludedFilters a).

(** The body of the double loop of [merge] for one pair: the plans it adds
    to [candidates], each with the key it is filed under, in order. *)
Definition mergePair (tg : TripleGraph) (a b : SubtreePlan)
  : result (list (string * SubtreePlan)) :=
  if connected a b tg
  then
    match getJoinColumns a b with
    | [jc] =>
        textCandidates ←
          (if xorb (isTextWithoutFilter a) (isTextWithoutFilter b)
           then
             plan ← textWithFilterPlan a b jc;
             Ok [(getPruningKey plan jc.1, plan)]
           else Ok []);
        let plan := joinPlan a b jc in
        Ok (textCandidates ++ [(getPruningKey plan jc.1, plan)])
    | _ =>
        Throw NOT_YET_IMPLEMENTED
          "Joins should happen on one variable only, for now. No cyclic queries either, currently."
    end
  else Ok [].

Definition mergeCandidates (a b : list SubtreePlan) (tg : TripleGraph)
  : result (list (string * SubtreePlan)) :=
  rconcatMap (λ ai, rconcatMap (λ bj, mergePair tg ai bj) b) a.

(** [candidates[key].emplace_back(plan)] *)
Definition addCandidate (candidates : gmap string (list SubtreePlan))
    (kp : string * SubtreePlan) : gmap string (list SubtreePlan) :=
  <[kp.1 := default [] (candidates !! kp.1) ++ [kp.2]]> candidates.

Definition collectCandidates (emitted : list (string * SubtreePlan))
  : gmap string (list SubtreePlan) :=
  foldl addCandidate ∅ emitted.

(** The loop that finds [minIndex]: the cost and index of the best plan so
    far, over the plans from index [i] on. *)
Fixpoint minIndexFrom (plans : list SubtreePlan) (i : nat)
    (minCost : N) (minIndex : nat) : nat :=
  match plans with
  | [] => minIndex
  | p :: rest =>
      if (planCost p <? minCost)%N
      then minIndexFrom rest (S i) (planCost p) i
      else minIndexFrom rest (S i) minCost minIndex
  end.

Definition minIndexOf (plans : list SubtreePlan) : nat :=
  minIndexFrom plans 0 SIZE_MAX 0.

(** The pruning loop, with the key of each group kept beside the plan that
    survives.  A group is never empty, so [it->second[minIndex]] exists. *)
Definition prunedWithKeys (candidates : gmap string (list SubtreePlan))
  : list (string * SubtreePlan) :=
  omap (λ '(key, plans), (key,.) <$> plans !! minIndexOf plans)
    (map_to_list candidates).

Definition merge (a b : list SubtreePlan) (tg : TripleGraph)
  : result (list SubtreePlan) :=
  emitted ← mergeCandidates a b tg;
  Ok ((prunedWithKeys (collectCandidates emitted)).*2).

(** *** applyFiltersIfPossible *)

(** The inner loop for [row[n]].  [plan] is a reference to [row[n]], so a
    filter applied earlier in the loop is part of the plan the next filter
    sees. *)
Definition applyFiltersToPlan (filters : list SparqlFilter)
    (plan : SubtreePlan) : SubtreePlan :=
  foldl
    (λ plan '(i, f),
       if bool_decide (i ∈ _idsOfIncludedFilters plan)
       then plan
       else
         match getVariableColumnMap (_qet plan) !! _lhs f,
               getVariableColumnMap (_qet plan) !! _rhs f with
         | Some lhsInd, Some rhsInd =>
             let tree :=
               setContextVars (getContextVars (_qet plan))
                 (setOperation FILTER
                    (Filter (_qet plan) (_ftype f) lhsInd rhsInd)
                    (setVariableColumns (getVariableColumnMap (_qet plan))
                       emptyTree)) in
             mkSubtreePlan tree (_idsOfIncludedNodes plan)
               ({[i]} ∪ _idsOfIncludedFilters plan)
         | _, _ => plan
         end)
    plan (imap (λ i f, (i, f)) filters).

Definition applyFiltersIfPossible (row : list SubtreePlan)
    (filters : list SparqlFilter) : list SubtreePlan :=
  applyFiltersToPlan filters <$> row.

(** *** fillDpTab *)

(** One round of the inner loop: [dpTab] already ends with the row for [k]. *)
Definition fillDpStep (tg : TripleGraph) (filters : list SparqlFilter)
    (k : nat) (dpTab : list (list SubtreePlan)) (i : nat)
  : result (list (list SubtreePlan)) :=
  newPlans ← merge (dpTab !!! (i - 1)) (dpTab !!! (k - i - 1)) tg;
  let dpTab1 := alter (λ row, row ++ newPlans) (k - 1) dpTab in
  Ok (alter (λ row, applyFiltersIfPossible row filters)
        (length dpTab1 - 1) dpTab1).

Definition fillDpRow (tg : TripleGraph) (filters : list SparqlFilter)
    (dpTab : list (list SubtreePlan)) (k : nat)
  : result (list (list SubtreePlan)) :=
  rfold (fillDpStep tg filters k) (seq 1 (k / 2)) (dpTab ++ [[]]).

Definition fillDpTab (tg : TripleGraph) (filters : list SparqlFilter)
  : result (list (list SubtreePlan)) :=
  seeds ← seedWithScansAndText tg;
  rfold (fillDpRow tg filters) (seq 2 (size (_nodeMap tg) - 1))
    [applyFiltersIfPossible seeds filters].

(** *** Text cliques *)

Definition isTextNode (tg : TripleGraph) (i : nat) : bool :=
  match _nodeMap tg !! i with
  | Some node =>
      bool_decide (_p (_triple node) = IN_CONTEXT_RELATION) ||
      bool_decide (_p (_triple node) = HAS_CONTEXT_RELATION)
  | None => false
  end.

(** The triples of the text nodes, by node id, in increasing id order. *)
Definition textTriples (tg : TripleGraph) : list (nat * SparqlTriple) :=
  omap
    (λ i,
       if isTextNode tg i
       then (λ node, (i, _triple node)) <$> _nodeMap tg !! i
       else None)
    (seq 0 (length (_adjLists tg))).

Definition findContextVars (tg : TripleGraph) : result (gset string) :=
  rfold
    (λ contextVars '(_, t),
       c1 ←
         (if negb (isVariable (_s t))
          then
            if isVariable (_o t)
            then Ok ({[_o t]} ∪ contextVars)
            else Throw BAD_QUERY "Triples need at least one variable."
          else Ok contextVars);
       if negb (isVariable (_o t))
       then
         if isVariable (_s t)
         then Ok ({[_s t]} ∪ c1)
         else Throw BAD_QUERY "Triples need at least one variable."
       else Ok c1)
    (textTriples tg) ∅.

Definition pushBack (key : string) (i : nat) (m : gmap string (list nat))
  : gmap string (list nat) :=
  <[key := default [] (m !! key) ++ [i]]> m.

Definition identifyTextCliques (tg : TripleGraph)
  : result (gmap string (list nat)) :=
  contextVars ← findContextVars tg;
  rfold
    (λ m '(i, t),
       m1 ←
         (if bool_decide (_s t ∈ contextVars)
          then
            if bool_decide (_o t ∈ contextVars)
            then Throw CHECK_FAILED "0 == contextVars.count(_triple._o)"
            else Ok (pushBack (_s t) i m)
          else Ok m);
       if bool_decide (_o t ∈ contextVars)
       then
         if bool_decide (_s t ∈ contextVars)
         then Throw CHECK_FAILED "0 == contextVars.count(_triple._s)"
         else Ok (pushBack (_o t) i m1)
       else Ok m1)
    (textTriples tg) ∅.

Definition appendWord (wordPart word : string) : string :=
  (if bool_decide (0 < String.length wordPart) then wordPart +:+ " "
   else wordPart) +:+ word.

(** The first loop of [collapseTextCliques]: one new text node per clique,
    the map from removed node ids to the id of the text node replacing
    them, and per text node the set of old ids it was adjacent to. *)
Definition collapseClique (tg : TripleGraph)
    (st : list Node * gmap nat nat * list (gset nat))
    (clique : string * list nat)
  : list Node * gmap nat nat * list (gset nat) :=
  let '(textNodes, removedNodeIds, tnAdjSetsToOldIds) := st in
  let '(cvar, nids) := clique in
  let id := length textNodes in
  let '(removed, adjNodes, trips, wordPart) :=
    foldl
      (λ '(removed, adjNodes, trips, wordPart) nid,
         let triple :=
           match _nodeMap tg !! nid with
           | Some node => _triple node
           | None => mkTriple "" "" ""
           end in
         let w1 :=
           if bool_decide (_s triple = cvar) && negb (isVariable (_o triple))
           then appendWord wordPart (_o triple) else wordPart in
         let w2 :=
           if bool_decide (_o triple = cvar) && negb (isVariable (_s triple))
           then appendWord w1 (_s triple) else w1 in
         (<[nid := id]> removed,
          list_to_set (_adjLists tg !!! nid) ∪ adjNodes,
          trips ++ [triple], w2))
      (removedNodeIds, ∅, [], "") nids in
  (textNodes ++ [NodeOfTextClique id cvar wordPart trips], removed,
   tnAdjSetsToOldIds ++ [adjNodes]).

Definition withId (id : nat) (n : Node) : Node :=
  mkNode id (_triple n) (_variables n) (_cvar n) (_wordPart n).

Definition collapseTextCliques (tg : TripleGraph) : result TripleGraph :=
  cvarsToTextNodes ← identifyTextCliques tg;
  if bool_decide (size cvarsToTextNodes = 0)
  then Ok tg
  else
    let '(textNodes, removedNodeIds, tnAdjSetsToOldIds) :=
      foldl (collapseClique tg) ([], ∅, []) (map_to_list cvarsToTextNodes) in
    let oldAdjLists := _adjLists tg in
    (* Storage and ids. *)
    let '(storage, nodeMap, idMapOldToNew, idMapNewToOld) :=
      foldl
        (λ '(storage, nodeMap, oldToNew, newToOld) n,
           if bool_decide (removedNodeIds !! _id n = None)
           then
             let id := length storage in
             (storage ++ [withId id n], <[id := withId id n]> nodeMap,
              <[_id n := id]> oldToNew, <[id := _id n]> newToOld)
           else (storage, nodeMap, oldToNew, newToOld))
        (textNodes,
         foldl (λ m tn, <[_id tn := tn]> m) (∅ : gmap nat Node) textNodes,
         (∅ : gmap nat nat), (∅ : gmap nat nat))
        (_nodeStorage tg) in
    (* Adjacency lists, first of the new text nodes ... *)
    let textAdj :=
      imap
        (λ i (nodes : gset nat),
           sortedIds
             (list_to_set
                (omap
                   (λ nid,
                      match removedNodeIds !! nid with
                      | None => Some (default 0 (idMapOldToNew !! nid))
                      | Some j => if bool_decide (j ≠ i) then Some j else None
                      end)
                   (sortedIds nodes))))
        tnAdjSetsToOldIds in
    (* ... then of the remaining nodes. *)
    let regularAdj :=
      (λ i,
         let oldId := default 0 (idMapNewToOld !! i) in
         sortedIds
           (list_to_set
              ((λ nid,
                  match removedNodeIds !! nid with
                  | None => default 0 (idMapOldToNew !! nid)
                  | Some j => j
                  end) <$> oldAdjLists !!! oldId)))
        <$> seq (length textNodes) (size nodeMap - length textNodes) in
    Ok (mkTripleGraph (textAdj ++ regularAdj) nodeMap storage).

Definition isPureTextQuery (tg : TripleGraph) : bool :=
  match _nodeStorage tg with
  | [node] => bool_decide (0 < String.length (_cvar node))
  | _ => false
  end.

Definition pureTextQuery (tg : TripleGraph) : result SubtreePlan :=
  match _nodeStorage tg with
  | node :: _ =>
      let tree :=
        addContextVar (_cvar node)
          (setVariableColumn ("SCORE(" +:+ _cvar node +:+ ")") 1
             (setVariableColumn (_cvar node) 0
                (setOperation TEXT_FOR_CONTEXTS
                   (TextOperationForContexts (_wordPart node) 1)
                   emptyTree))) in
      Ok (mkSubtreePlan tree {[0]} ∅)
  | [] => Throw UNDEFINED_BEHAVIOUR "tg._nodeStorage.begin() == end()"
  end.

(** *** getTextLimit *)

Definition isSpace (c : ascii) : bool :=
  let n := nat_of_ascii c in
  bool_decide (n = 32) || (bool_decide (9 ≤ n) && bool_decide (n ≤ 13)).

Definition digitValue (c : ascii) : option Z :=
  let n := nat_of_ascii c in
  if bool_decide (48 ≤ n) && bool_decide (n ≤ 57)
  then Some (Z.of_nat n - 48)%Z
  else None.

Fixpoint skipSpaces (s : string) : string :=
  match s with
  | String c rest => if isSpace c then skipSpaces rest else s
  | EmptyString => s
  end.

Fixpoint readDigits (acc : Z) (s : string) : Z :=
  match s with
  | String c rest =>
      match digitValue c with
      | Some d => readDigits (10 * acc + d) rest
      | None => acc
      end
  | EmptyString => acc
  end.

(** The range of a 64-bit [long]. *)
Definition LONG_MAX : Z := 2 ^ 63 - 1.
Definition LONG_MIN : Z := - 2 ^ 63.

(** [atol] of the C library: leading white space, an optional sign, then
    the longest run of decimal digits.  The result is a [long].  For a
    numeral whose value does not fit the C standard leaves the result
    undefined; glibc's [atol] is [strtol], which returns [LONG_MAX] or
    [LONG_MIN] there, and the model does the same. *)
Definition atol (s : string) : Z :=
  let value :=
    match skipSpaces s with
    | String "-"%char rest => (- readDigits 0 rest)%Z
    | String "+"%char rest => readDigits 0 rest
    | s' => readDigits 0 s'
    end in
  Z.max LONG_MIN (Z.min LONG_MAX value).

(** [static_cast<size_t>] of a [long]. *)
Definition toSizeT (z : Z) : N := Z.to_N (z mod 2 ^ 64).

Definition getTextLimit (textLimitString : string) : N :=
  if bool_decide (String.length textLimitString = 0)
  then 1%N
  else toSizeT (atol textLimitString).

(** *** getOrderByRow and createExecutionTree *)

Definition wrapPlan (ty : OperationType) (op : Operation)
    (previous : SubtreePlan) : SubtreePlan :=
  let tree :=
    setContextVars (getContextVars (_qet previous))
      (setOperation ty op
         (setVariableColumns (getVariableColumnMap (_qet previous))
            emptyTree)) in
  mkSubtreePlan tree (_idsOfIncludedNodes previous)
    (_idsOfIncludedFilters previous).

Definition orderByPlan (pq : ParsedQuery) (previous : SubtreePlan)
  : result SubtreePlan :=
  match _orderBy pq with
  | [ord] =>
      if negb (_desc ord)
      then
        col ← getVariableColumn (_qet previous) (_key ord);
        if bool_decide (col = resultSortedOn (_qet previous))
        then Ok previous
        else Ok (wrapPlan SORT (Sort (_qet previous) col) previous)
      else
        col ← getVariableColumn (_qet previous) (_key ord);
        Ok (wrapPlan ORDER_BY (OrderBy (_qet previous) [(col, _desc ord)])
              previous)
  | ords =>
      sortIndices ←
        rconcatMap
          (λ ord,
             col ← getVariableColumn (_qet previous) (_key ord);
             Ok [(col, _desc ord)])
          ords;
      Ok (wrapPlan ORDER_BY (OrderBy (_qet previous) sortIndices) previous)
  end.

Definition getOrderByRow (pq : ParsedQuery) (dpTab : list (list SubtreePlan))
  : result (list SubtreePlan) :=
  rconcatMap (λ previous, p ← orderByPlan pq previous; Ok [p])
    (default [] (last dpTab)).

Definition distinctKeepIndices (pq : ParsedQuery) (t : QueryExecutionTree)
  : list nat :=
  omap (λ var, getVariableColumnMap t !! var) (_selectedVariables pq).

Definition createExecutionTree (pq : ParsedQuery)
  : result QueryExecutionTree :=
  tg ← collapseTextCliques (createTripleGraph pq);
  dpTab ←
    (if isPureTextQuery tg
     then plan ← pureTextQuery tg; Ok [[plan]]
     else fillDpTab tg (_filters pq));
  finalTab ←
    (if bool_decide (0 < length (_orderBy pq))
     then row ← getOrderByRow pq dpTab; Ok (dpTab ++ [row])
     else Ok dpTab);
  match last finalTab with
  | None => Throw UNDEFINED_BEHAVIOUR "finalTab.back() of an empty table"
  | Some [] => Throw CHECK_FAILED "lastRow.size() > 0"
  | Some ((first :: others) as lastRow) =>
      let minInd := minIndexFrom others 1 (planCost first) 0 in
      match lastRow !! minInd with
      | None => Throw UNDEFINED_BEHAVIOUR "lastRow[minInd]"
      | Some best =>
          if _distinct pq
          then
            let distinct :=
              Distinct (_qet best) (distinctKeepIndices pq (_qet best)) in
            Ok (setOperation DISTINCT distinct (_qet best))
          else Ok (setTextLimit (getTextLimit (_textLimit pq)) (_qet best))
      end
  end.

End Planner.


(** ** Triple-graph connectivity (the vocabulary of the plan invariants) *)

Definition adjacent (tg : TripleGraph) (x y : nat) : Prop :=
  y ∈ _adjLists tg !!! x ∨ x ∈ _adjLists tg !!! y.

(** The subgraph induced by [nodes] is connected: any two of its nodes are
    joined by a path that stays inside [nodes]. *)
Definition inducedConnected (tg : TripleGraph) (nodes : gset nat) : Prop :=
  ∀ x y, x ∈ nodes → y ∈ nodes →
    rtc (λ u v, u ∈ nodes ∧ v ∈ nodes ∧ adjacent tg u v) x y.

(** ** What the merged candidates and the rows of the table satisfy *)

(** The plans emitted under [key], in the order they were emitted. *)
Definition group (key : string) (emitted : list (string * SubtreePlan))
  : list SubtreePlan :=
  (filter (λ kp, kp.1 = key) emitted).*2.

(** What holds of a plan [p] of row [k] (rows counted from 0) over the
    earlier rows: it covers [k + 1] nodes that induce a connected subgraph,
    and from the second row on it is not a bare text operation and joins
    two connected plans of earlier rows. *)
Definition planGood (tg : TripleGraph) (earlier : list (list SubtreePlan))
    (k : nat) (p : SubtreePlan) : Prop :=
  size (_idsOfIncludedNodes p) = S k ∧
  inducedConnected tg (_idsOfIncludedNodes p) ∧
  (0 < k → getType (_qet p) ≠ TEXT_WITHOUT_FILTER) ∧
  (0 < k → ∃ i j rowa rowb a b,
     i + j + 1 = k ∧ earlier !! i = Some rowa ∧ earlier !! j = Some rowb ∧
     a ∈ rowa ∧ b ∈ rowb ∧ connected a b tg = true ∧
     _idsOfIncludedNodes p = _idsOfIncludedNodes a ∪ _idsOfIncludedNodes b).

Definition tabGood (tg : TripleGraph) (tab : list (list SubtreePlan)) : Prop :=
  ∀ k row p, tab !! k = Some row → p ∈ row → planGood tg (take k tab) k p.


(** ** A concrete engine for running the planner on examples

    The estimates, sort columns and join column map of the operations live
    in classes outside QueryPlanner.cpp.  The instance below fills them in
    the simplest way that respects what the planner relies on: the cost of
    a tree is the number of operations in it (capped to [size_t]), a scan
    is sorted on column 0, a sort on its sort column, a join on its left
    join column, a filter or distinct like its input, and a join keeps the
    columns of its left input followed by those of the right input without
    the right join column. *)
Module Demo.

Fixpoint opSize (op : Operation) : N :=
  match op with
  | IndexScan _ _ _ _ => 1
  | Join l r _ _ => 1 + treeSize l + treeSize r
  | Sort t _ => 1 + treeSize t
  | OrderBy t _ => 1 + treeSize t
  | Filter t _ _ _ => 1 + treeSize t
  | Distinct t _ => 1 + treeSize t
  | TextOperationForContexts _ _ => 1
  | TextOperationWithoutFilter _ _ => 1
  | TextOperationWithFilter _ _ t _ => 1 + treeSize t
  end%N
with treeSize (t : QueryExecutionTree) : N :=
  match t with
  | mkQET _ (Some op) _ _ _ => opSize op
  | mkQET _ None _ _ _ => 0
  end%N.

Fixpoint sortColumnOfOp (op : Operation) : nat :=
  match op with
  | Join _ _ leftJoinCol _ => leftJoinCol
  | Sort _ sortCol => sortCol
  | Filter t _ _ _ => sortColumnOf t
  | Distinct t _ => sortColumnOf t
  | OrderBy _ ((col, _) :: _) => col
  | _ => 0
  end
with sortColumnOf (t : QueryExecutionTree) : nat :=
  match t with
  | mkQET _ (Some op) _ _ _ => sortColumnOfOp op
  | mkQET _ None _ _ _ => 0
  end.

Definition joinColumns (l r : QueryExecutionTree) (jl jr : nat)
  : gmap string nat :=
  let leftSize := size (getVariableColumnMap l) in
  foldl
    (λ m '(var, col),
       if bool_decide (col < jr) then <[var := leftSize + col]> m
       else if bool_decide (jr < col) then <[var := leftSize + col - 1]> m
       else m)
    (getVariableColumnMap l) (map_to_list (getVariableColumnMap r)).

#[local] Instance operators : Operators := {|
  getCostEstimate t := N.min SIZE_MAX (treeSize t);
  getCostEstimate_size_t t := N.le_min_l SIZE_MAX (treeSize t);
  resultSortedOn := sortColumnOf;
  joinVariableColumns := joinColumns;
  defaultTextLimit := 1%N;
  IN_CONTEXT_RELATION := "<in-context>";
  HAS_CONTEXT_RELATION := "<has-context>";
  INTERNAL_TEXT_MATCH_PREDICATE := "<text-match>"
|}.

(** SELECT ?x WHERE { ?x <p1> ?a . ?x <p2> ?b . ?x <p3> ?c . ?x <p4> ?d } *)
Definition starQuery : ParsedQuery :=
  mkParsedQuery
    [mkTriple "?x" "<p1>" "?a"; mkTriple "?x" "<p2>" "?b";
     mkTriple "?x" "<p3>" "?c"; mkTriple "?x" "<p4>" "?d"]
    [] [] false ["?x"] "".

(** SELECT ?x ?y WHERE { ?x <p> ?y . ?y <q> <o> } *)
Definition joinQuery : ParsedQuery :=
  mkParsedQuery
    [mkTriple "?x" "<p>" "?y"; mkTriple "?y" "<q>" "<o>"]
    [] [] false ["?x"; "?y"] "".

(** SELECT DISTINCT ?x WHERE { ?x <p> <o> } TEXTLIMIT 5 *)
Definition distinctQuery : ParsedQuery :=
  mkParsedQuery [mkTriple "?x" "<p>" "<o>"] [] [] true ["?x"] "5".

(** The same query without DISTINCT. *)
Definition plainQuery : ParsedQuery :=
  mkParsedQuery [mkTriple "?x" "<p>" "<o>"] [] [] false ["?x"] "5".


End Demo.

(** * The result exporter (ExportQueryExecutionTrees.cpp) *)
Module ExportQueryExecutionTrees.

(** ** Identifiers and results (ValueId.h, IdTable.h, Result.h)

    An [Id] is a 64-bit word: a datatype tag and a payload.  The payload of a
    [Double] and of a [Date] is kept as its bit pattern; their formatting is
    part of [Environment]. *)

Inductive Datatype :=
| Undefined | Bool | Int | Double | VocabIndex | LocalVocabIndex
| TextRecordIndex | Date | WordVocabIndex | BlankNodeIndex.

#[global] Instance Datatype_eq_dec : EqDecision Datatype.
Proof. solve_decision. Defined.

Inductive Id :=
| makeUndefined
| makeFromBool (b : bool)
| makeFromInt (i : Z)
| makeFromDouble (bits : N)
| makeFromVocabIndex (index : nat)
| makeFromLocalVocabIndex (index : nat)
| makeFromTextRecordIndex (index : nat)
| makeFromDate (bits : N)
| makeFromWordVocabIndex (index : nat)
| makeFromBlankNodeIndex (index : N).

Definition getDatatype (id : Id) : Datatype :=
  match id with
  | makeUndefined => Undefined
  | makeFromBool _ => Bool
  | makeFromInt _ => Int
  | makeFromDouble _ => Double
  | makeFromVocabIndex _ => VocabIndex
  | makeFromLocalVocabIndex _ => LocalVocabIndex
  | makeFromTextRecordIndex _ => TextRecordIndex
  | makeFromDate _ => Date
  | makeFromWordVocabIndex _ => WordVocabIndex
  | makeFromBlankNodeIndex _ => BlankNodeIndex
  end.

Record LiteralOrIri := mkLiteralOrIri {
  toStringRepresentation : string;
  getContent : string;
  isLiteral : bool
}.

(** Rows of ids; [idAt table row column] is [idTable(row, column)]. *)
Definition IdTable := list (list Id).

Definition idAt (table : IdTable) (row column : nat) : Id :=
  default makeUndefined (table !! row ≫= λ r, r !! column).

Record Result := mkResult {
  idTable : IdTable;
  localVocab : nat → LiteralOrIri
}.

(** A nullable [const char*] is an [option string]. *)
Definition StringAndType := (string * option string)%type.

(** ** JSON values (nlohmann::json)

    A default-constructed value is [null]; [j[key] = v] turns a [null] into
    an object and otherwise adds or replaces the member; [emplace_back]
    turns a [null] into an array.  Members are kept in insertion order, as
    [ordered_json] does.  The source also uses [nlohmann::json], which keeps
    the members sorted by key, and converts between the two; they agree on
    the members an object has, and the order of the list carries no further
    meaning here. *)
#[warnings="-register-all"]
Inductive Json :=
| JNull
| JString (s : string)
| JNumber (n : Z)
| JArray (items : list Json)
| JObject (members : list (string * Json)).

Fixpoint setMember (key : string) (v : Json) (members : list (string * Json))
  : list (string * Json) :=
  match members with
  | [] => [(key, v)]
  | (k, old) :: rest =>
      if bool_decide (k = key) then (k, v) :: rest
      else (k, old) :: setMember key v rest
  end.

Definition jsonSet (key : string) (v : Json) (j : Json) : Json :=
  match j with
  | JNull => JObject [(key, v)]
  | JObject members => JObject (setMember key v members)
  | other => other     (* a type error in the library; no call below gets here *)
  end.

Definition jsonStrings (l : list string) : Json := JArray (JString <$> l).

(** ** What the exporter asks of the rest of the engine: the vocabularies
    of the index, RdfEscaping, the formatting of doubles and dates, the raw
    bytes of an id, and [nlohmann::json::dump]. *)
Class Environment := {
  fractionalPartIsZero : N → bool;      (* std::modf(d, &dIntPart) == 0.0 *)
  formatFixedPrecision0 : N → string;   (* ss << std::fixed << std::setprecision(0) << d *)
  formatDefault : N → string;           (* ss << d *)
  dateToStringAndType : N → StringAndType;
  indexToString : nat → string;         (* Index::indexToString(VocabIndex) *)
  wordIndexToString : nat → string;     (* Index::indexToString(WordVocabIndex) *)
  getTextExcerpt : nat → string;
  fromStringRepresentation : string → LiteralOrIri;
  escapeForCsv : string → string;
  escapeForTsv : string → string;
  escapeForXml : string → string;
  validRDFLiteralFromNormalized : string → string;
  idBytes : Id → string;                (* the sizeof(Id) bytes of the id *)
  dump : Json → string
}.

(** Modelled from the spec: the datatype IRIs of Constants.h, which the spec
    calls xsd:int, xsd:decimal and xsd:boolean. *)
Definition XSD_INT_TYPE : string := "http://www.w3.org/2001/XMLSchema#int".
Definition XSD_DECIMAL_TYPE : string :=
  "http://www.w3.org/2001/XMLSchema#decimal".
Definition XSD_BOOLEAN_TYPE : string :=
  "http://www.w3.org/2001/XMLSchema#boolean".

(** ** LIMIT and OFFSET

    Modelled from the spec: [LimitOffsetClause] (parser/data/LimitOffsetClause.h)
    "compute the row range [actualOffset, upperBound) from the LIMIT/OFFSET
    clause clamped to the actual row count"; both may be unset. *)
Record LimitOffsetClause := mkLimitOffset {
  _limit : option nat;
  _offset : nat
}.

Definition actualOffset (c : LimitOffsetClause) (totalSize : nat) : nat :=
  _offset c `min` totalSize.

Definition upperBound (c : LimitOffsetClause) (actualSize : nat) : nat :=
  match _limit c with
  | Some limit => (_offset c + limit) `min` actualSize
  | None => actualSize
  end.

(** [std::views::iota(first, last)] *)
Definition getRowIndices (limitOffset : LimitOffsetClause) (result : Result)
  : list nat :=
  let n := length (idTable result) in
  seq (actualOffset limitOffset n)
    (upperBound limitOffset n - actualOffset limitOffset n).

(** ** Exceptions, cancellation and generators *)

Inductive Exception :=
| CancellationException (operation : option string)
| RuntimeError (what : string)        (* AD_THROW *)
| CheckFailed (what : string).        (* AD_CONTRACT_CHECK, AD_CORRECTNESS_CHECK, AD_FAIL *)

(** Modelled from the spec: the cancellation handle (util/CancellationHandle.h).
    Other threads set it; the exporter only polls it, and "if set, the
    generator terminates by raising a cancellation error".  [handle k] is
    what the poll number [k] of one export reads. *)
Definition CancellationHandle := nat → bool.

(** One run of a generator or function: what it [co_yield]ed, how often the
    handle has been polled when it ends, and how it ends. *)
Record Run (Y A : Type) := mkRun {
  yielded : list Y;
  polls : nat;
  outcome : Exception + A
}.
Arguments mkRun {Y A} yielded polls outcome.
Arguments yielded {Y A} r.
Arguments polls {Y A} r.
Arguments outcome {Y A} r.

(** A computation that may yield values of type [Y], poll the handle, throw,
    or return an [A]; it is run from a given number of earlier polls. *)
Definition Gen (Y A : Type) := CancellationHandle → nat → Run Y A.

Definition ret {Y A} (a : A) : Gen Y A := λ _ n, mkRun [] n (inr a).

Definition bind {Y A B} (m : Gen Y A) (k : A → Gen Y B) : Gen Y B :=
  λ handle n,
    let r := m handle n in
    match outcome r with
    | inl e => mkRun (yielded r) (polls r) (inl e)
    | inr a =>
        let r' := k a handle (polls r) in
        mkRun (yielded r ++ yielded r') (polls r') (outcome r')
    end.

#[global] Instance Gen_ret {Y} : MRet (Gen Y) := λ A, ret.
#[global] Instance Gen_bind {Y} : MBind (Gen Y) := λ A B k m, bind m k.

Definition co_yield {Y} (y : Y) : Gen Y () := λ _ n, mkRun [y] n (inr ()).

Definition throw {Y A} (e : Exception) : Gen Y A := λ _ n, mkRun [] n (inl e).

Definition throwIfCancelled {Y} : Gen Y () :=
  λ handle n,
    mkRun [] (S n)
      (if handle n then inl (CancellationException None) else inr ()).

Definition yieldAll {Y} (ys : list Y) : Gen Y () :=
  λ _ n, mkRun ys n (inr ()).

(** A pure step that may throw. *)
Definition lift {Y A} (r : Exception + A) : Gen Y A :=
  λ _ n, mkRun [] n r.

(** [for (x : l) body] *)
Fixpoint forEach {Y A} (l : list A) (body : A → Gen Y ()) : Gen Y () :=
  match l with
  | [] => ret ()
  | x :: rest => bind (body x) (λ _, forEach rest body)
  end.

(** [for (auto& y : generator) { co_yield ... }] for a loop body that only
    yields: every value of the inner generator is replaced by what the body
    yields for it; polls and the way the generator ends are the inner ones. *)
Definition forEachYielded {Y Z A} (generator : Gen Y A) (body : Y → list Z)
  : Gen Z A :=
  λ handle n,
    let r := generator handle n in
    mkRun (yielded r ≫= body) (polls r) (outcome r).

(** Running a generator to its end into a container: its values on normal
    completion, its exception otherwise. *)
Definition collect {Y Z} (generator : Gen Y ()) : Gen Z (list Y) :=
  λ handle n,
    let r := generator handle n in
    mkRun [] (polls r)
      (match outcome r with
       | inl e => inl e
       | inr _ => inr (yielded r)
       end).

(** [try { ... } catch (CancellationException& e) { e.setOperation(op); throw; }] *)
Definition setOperationOnCancel {Y A} (op : string) (m : Gen Y A) : Gen Y A :=
  λ handle n,
    let r := m handle n in
    mkRun (yielded r) (polls r)
      (match outcome r with
       | inl (CancellationException _) => inl (CancellationException (Some op))
       | other => other
       end).

(** ** Strings (std::string_view) *)

(** [size_t] subtraction wraps around. *)
Definition sizeSub (a b : N) : N := ((a + 2 ^ 64 - b) mod 2 ^ 64)%N.

Definition size (s : string) : N := N.of_nat (String.length s).

(** [s.substr(pos, count)]; [pos <= s.size()] at every call below. *)
Definition substr (s : string) (pos count : N) : string :=
  String.substring (N.to_nat pos)
    (N.to_nat (N.min count (size s - pos))) s.

Definition npos : N := 18446744073709551615.

(** [s.substr(pos)] *)
Definition substrFrom (s : string) (pos : N) : string := substr s pos npos.

(** [s[i]]; reading at or past the end is undefined in C++, the model reads
    a NUL there (what the terminator of a [std::string] gives at [size()]). *)
Definition charAt (s : string) (i : N) : ascii :=
  default "000"%char (String.get (N.to_nat i) s).

Fixpoint rfindFrom (c : ascii) (s : string) (i : N) (found : option N)
  : option N :=
  match s with
  | EmptyString => found
  | String d rest =>
      rfindFrom c rest (i + 1) (if Ascii.eqb d c then Some i else found)
  end.

(** [s.rfind(c)]: the last position of [c], [None] for [npos]. *)
Definition rfind (s : string) (c : ascii) : option N := rfindFrom c s 0 None.

Definition starts_with (s prefix : string) : bool := String.prefix prefix s.

Definition quote : ascii := "034"%char.

Definition strJoin (sep : string) (l : list string) : string :=
  String.concat sep l.

Definition newline : string := String "010"%char "".
Definition tab : string := String "009"%char "".

(** ** Queries and trees as the exporter sees them *)

Inductive PositionInTriple := SUBJECT | PREDICATE | OBJECT.

Record ConstructQueryExportContext := mkContext {
  _row : nat;
  _res : Result
}.

(** A term of a CONSTRUCT template: all the exporter uses is [evaluate]. *)
Record GraphTerm := mkGraphTerm {
  evaluate : ConstructQueryExportContext → PositionInTriple → option string
}.

Definition Triples := list (GraphTerm * GraphTerm * GraphTerm).

Record StringTriple := mkStringTriple {
  subject_ : string;
  predicate_ : string;
  object_ : string
}.

Record SelectClause := mkSelectClause {
  getSelectedVariablesAsStrings : list string
}.

Record VariableAndColumnIndex := mkColumn {
  variable_ : string;
  columnIndex_ : nat
}.

Definition ColumnIndicesAndTypes := list (option VariableAndColumnIndex).

Inductive QueryClause :=
| Select (selectClause : SelectClause)
| Construct (triples_ : Triples).

Record ParsedQuery := mkParsedQuery {
  _originalString : string;
  _clause : QueryClause;
  _limitOffset : LimitOffsetClause
}.

(** The operator tree, reduced to what the exporter calls on it. *)
Record QueryExecutionTree := mkTree {
  getResult : Result;
  selectedVariablesToColumnIndices :
    SelectClause → bool → ColumnIndicesAndTypes;
  collectWarnings : list string;
  getRuntimeInfoWholeQuery : Json;
  runtimeInfo : LimitOffsetClause → Json
}.

(** [requestTimer.msecs().count()] at its first and at its second reading. *)
Record Timer := mkTimer { firstReading : nat; secondReading : nat }.

Inductive MediaType :=
| csv | tsv | octetStream | turtle | sparqlXml | sparqlJson | qleverJson.

#[global] Instance MediaType_eq_dec : EqDecision MediaType.
Proof. solve_decision. Defined.

Section Exporter.
Context `{env : Environment}.

(** ** CONSTRUCT: the generated triples *)

Definition evaluateTriple (res : Result) (i : nat)
    (triple : GraphTerm * GraphTerm * GraphTerm) : option StringTriple :=
  let context := mkContext i res in
  let '(s, p, o) := triple in
  match evaluate s context SUBJECT, evaluate p context PREDICATE,
        evaluate o context OBJECT with
  | Some subject, Some predicate, Some object =>
      Some (mkStringTriple subject predicate object)
  | _, _, _ => None
  end.

Definition constructQueryResultToTriples (qet : QueryExecutionTree)
    (constructTriples : Triples) (limitAndOffset : LimitOffsetClause)
    (res : Result) : Gen StringTriple () :=
  forEach (getRowIndices limitAndOffset res)
    (λ i,
       forEach constructTriples
         (λ triple,
            match evaluateTriple res i triple with
            | None => ret ()                                   (* continue *)
            | Some t => _ ← co_yield t; throwIfCancelled
            end)).

Definition turtleChunks (triple : StringTriple) : list string :=
  [subject_ triple; " "; predicate_ triple; " ";
   (if starts_with (object_ triple) (String quote EmptyString)
    then validRDFLiteralFromNormalized (object_ triple)
    else object_ triple);
   " ." +:+ newline].

(** [constructQueryResultToStream<turtle>] *)
Definition constructQueryResultToStream_turtle (qet : QueryExecutionTree)
    (constructTriples : Triples) (limitAndOffset : LimitOffsetClause)
    (result : Result) : Gen string () :=
  forEachYielded
    (constructQueryResultToTriples qet constructTriples limitAndOffset result)
    turtleChunks.

Definition tripleToJson (triple : StringTriple) : Json :=
  JArray [JString (subject_ triple); JString (predicate_ triple);
          JString (object_ triple)].

Definition constructQueryResultBindingsToQLeverJSON
    (qet : QueryExecutionTree) (constructTriples : Triples)
    (limitAndOffset : LimitOffsetClause) (res : Result) : Gen string Json :=
  jsonArray ←
    collect
      (constructQueryResultToTriples qet constructTriples limitAndOffset res);
  mret (JArray (tripleToJson <$> jsonArray)).

Definition constructQueryResultBindingsToQLeverJSONStream
    (qet : QueryExecutionTree) (constructTriples : Triples)
    (limitAndOffset : LimitOffsetClause) (res : Result) : Gen string () :=
  forEachYielded
    (constructQueryResultToTriples qet constructTriples limitAndOffset res)
    (λ triple, [dump (tripleToJson triple)]).

(** ** Resolving identifiers *)

Definition idToStringAndTypeForEncodedValue (id : Id)
  : Exception + option StringAndType :=
  match id with
  | makeUndefined => inr None
  | makeFromDouble d =>
      inr (Some (if fractionalPartIsZero d then formatFixedPrecision0 d
                 else formatDefault d,
                 Some XSD_DECIMAL_TYPE))
  | makeFromBool b =>
      inr (Some (if b then ("true", Some XSD_BOOLEAN_TYPE)
                 else ("false", Some XSD_BOOLEAN_TYPE)))
  | makeFromInt i => inr (Some (pretty i, Some XSD_INT_TYPE))
  | makeFromDate d => inr (Some (dateToStringAndType d))
  | makeFromBlankNodeIndex n => inr (Some ("_:bn" +:+ pretty n, None))
  | _ => inl (CheckFailed "AD_FAIL()")
  end.

Definition getLiteralOrIriFromVocabIndex (id : Id) (localVocab : nat → LiteralOrIri)
  : Exception + LiteralOrIri :=
  match id with
  | makeFromLocalVocabIndex i => inr (localVocab i)
  | makeFromVocabIndex i => inr (fromStringRepresentation (indexToString i))
  | _ => inl (CheckFailed "AD_FAIL()")
  end.

(** [idToStringAndType<removeQuotesAndAngleBrackets, onlyReturnLiterals>] *)
Definition idToStringAndType (removeQuotesAndAngleBrackets onlyReturnLiterals : bool)
    (escapeFunction : string → string)
    (id : Id) (localVocab : nat → LiteralOrIri)
  : Exception + option StringAndType :=
  let datatype := getDatatype id in
  if onlyReturnLiterals &&
     negb (bool_decide (datatype = VocabIndex ∨ datatype = LocalVocabIndex))
  then inr None
  else
    let handleIriOrLiteral (word : LiteralOrIri) : option StringAndType :=
      if onlyReturnLiterals && negb (isLiteral word) then None
      else if removeQuotesAndAngleBrackets
      then Some (escapeFunction (getContent word), None)
      else Some (escapeFunction (toStringRepresentation word), None) in
    match id with
    | makeFromWordVocabIndex i =>
        inr (Some (escapeFunction (wordIndexToString i), None))
    | makeFromVocabIndex _ | makeFromLocalVocabIndex _ =>
        match getLiteralOrIriFromVocabIndex id localVocab with
        | inl e => inl e
        | inr word => inr (handleIriOrLiteral word)
        end
    | makeFromTextRecordIndex i =>
        inr (Some (escapeFunction (getTextExcerpt i), None))
    | _ => idToStringAndTypeForEncodedValue id
    end.

(** The instantiation with the default template arguments
    ([false], [false], [std::identity]). *)
Definition idToStringAndTypeDefault (id : Id) (localVocab : nat → LiteralOrIri)
  : Exception + option StringAndType :=
  idToStringAndType false false (λ s, s) id localVocab.

(** ** QLever JSON rows *)

Definition qleverJsonValue (res : Result) (rowIndex : nat)
    (opt : option VariableAndColumnIndex) : Exception + Json :=
  match opt with
  | None => inr JNull
  | Some column =>
      match idToStringAndTypeDefault
              (idAt (idTable res) rowIndex (columnIndex_ column))
              (localVocab res) with
      | inl e => inl e
      | inr None => inr JNull
      | inr (Some (stringValue, Some xsdType)) =>
          inr (JString (String quote stringValue +:+ String quote "^^<"
                        +:+ xsdType +:+ ">"))
      | inr (Some (stringValue, None)) => inr (JString stringValue)
      end
  end.

Fixpoint mapM {A B} (f : A → Exception + B) (l : list A)
  : Exception + list B :=
  match l with
  | [] => inr []
  | x :: rest =>
      match f x with
      | inl e => inl e
      | inr y =>
          match mapM f rest with
          | inl e => inl e
          | inr ys => inr (y :: ys)
          end
      end
  end.

Definition idTableToQLeverJSONRow (columns : ColumnIndicesAndTypes)
    (res : Result) (rowIndex : nat) : Exception + Json :=
  match mapM (qleverJsonValue res rowIndex) columns with
  | inl e => inl e
  | inr row => inr (JArray row)
  end.

(** A loop that appends one JSON value per row to an array and polls. *)
Fixpoint appendRows {Y} (rows : list nat) (row : nat → Exception + Json)
    (json : list Json) : Gen Y (list Json) :=
  match rows with
  | [] => ret json
  | i :: rest =>
      bind (lift (row i))
        (λ r, bind throwIfCancelled
                (λ _, appendRows rest row (json ++ [r])))
  end.

Definition idTableToQLeverJSONArray (qet : QueryExecutionTree)
    (limitAndOffset : LimitOffsetClause) (columns : ColumnIndicesAndTypes)
    (result : Result) : Gen string Json :=
  json ←
    appendRows (getRowIndices limitAndOffset result)
      (idTableToQLeverJSONRow columns result) [];
  mret (JArray json).

Definition idTableToQLeverJSONBindingsStream (qet : QueryExecutionTree)
    (limitAndOffset : LimitOffsetClause) (columns : ColumnIndicesAndTypes)
    (result : Result) : Gen string () :=
  forEach (getRowIndices limitAndOffset result)
    (λ rowIndex,
       row ← lift (idTableToQLeverJSONRow columns result rowIndex);
       _ ← co_yield (dump row);
       throwIfCancelled).

(** ** SPARQL JSON bindings *)

Definition literalBinding (value : string) : Json :=
  jsonSet "type" (JString "literal") (jsonSet "value" (JString value) JNull).

Definition stringAndTypeToBinding (entitystr : string)
    (xsdType : option string) : Exception + Json :=
  match xsdType with
  | Some ty => inr (jsonSet "datatype" (JString ty) (literalBinding entitystr))
  | None =>
      if starts_with entitystr "<"
      then
        (* Strip the <> surrounding the iri. *)
        inr (jsonSet "type" (JString "uri")
               (jsonSet "value"
                  (JString (substr entitystr 1 (sizeSub (size entitystr) 2)))
                  JNull))
      else if starts_with entitystr "_:"
      then
        inr (jsonSet "type" (JString "bnode")
               (jsonSet "value" (JString (substrFrom entitystr 2)) JNull))
      else
        match rfind entitystr quote with
        | None =>
            (* TEXT entries are currently not surrounded by quotes *)
            inr (literalBinding entitystr)
        | Some quotePos =>
            let b := literalBinding (substr entitystr 1 (sizeSub quotePos 1)) in
            if (quotePos <? sizeSub (size entitystr) 1)%N &&
               Ascii.eqb (charAt entitystr (quotePos + 1)) "@"
            then
              inr (jsonSet "xml:lang"
                     (JString (substrFrom entitystr (quotePos + 2))) b)
            else if (quotePos <? sizeSub (size entitystr) 2)%N &&
                    Ascii.eqb (charAt entitystr (quotePos + 1)) "^"
            then
              if negb (Ascii.eqb (charAt entitystr (quotePos + 2)) "^")
              then inl (CheckFailed "entitystr[quotePos + 2] == '^'")
              else if (size entitystr <? quotePos + 5)%N
              then inl (CheckFailed "datatype.size() >= quotePos + 5")
              else
                (* remove the <angledBrackets> around the datatype IRI *)
                let datatype := substrFrom entitystr (quotePos + 4) in
                inr (jsonSet "datatype"
                       (JString (substr datatype 0 (size datatype - 1))) b)
            else inr b
        end
  end.

(** [std::erase(columns, std::nullopt)] *)
Definition eraseNullopt (columns : ColumnIndicesAndTypes)
  : list VariableAndColumnIndex :=
  omap id columns.

(** The loop over the columns of one row that fills [binding]. *)
Fixpoint fillBinding (res : Result) (rowIndex : nat)
    (columns : list VariableAndColumnIndex) (binding : Json)
  : Exception + Json :=
  match columns with
  | [] => inr binding
  | column :: rest =>
      match idToStringAndTypeDefault
              (idAt (idTable res) rowIndex (columnIndex_ column))
              (localVocab res) with
      | inl e => inl e
      | inr None => fillBinding res rowIndex rest binding      (* continue *)
      | inr (Some (stringValue, xsdType)) =>
          match stringAndTypeToBinding stringValue xsdType with
          | inl e => inl e
          | inr b =>
              fillBinding res rowIndex rest
                (jsonSet (variable_ column) b binding)
          end
      end
  end.

(** [nlohmann::ordered_json binding;] (and [binding = {}]) is [null]. *)
Definition rowBinding (res : Result) (columns : list VariableAndColumnIndex)
    (rowIndex : nat) : Exception + Json :=
  fillBinding res rowIndex columns JNull.

(** [var.substr(1)] when [var] starts with '?'. *)
Definition stripQuestionMark (var : string) : string :=
  if starts_with var "?" then substrFrom var 1 else var.

Definition sparqlJsonDocument (vars : list string) (bindings : list Json)
  : Json :=
  jsonSet "results" (jsonSet "bindings" (JArray bindings) JNull)
    (jsonSet "head" (jsonSet "vars" (jsonStrings vars) JNull) JNull).

Definition selectQueryResultToSparqlJSON (qet : QueryExecutionTree)
    (selectClause : SelectClause) (limitAndOffset : LimitOffsetClause)
    (result : Result) : Gen string Json :=
  let columns :=
    eraseNullopt (selectedVariablesToColumnIndices qet selectClause false) in
  let selectedVars :=
    stripQuestionMark <$> getSelectedVariablesAsStrings selectClause in
  if bool_decide (columns = [])
  then mret (sparqlJsonDocument selectedVars [])
  else
    bindings ←
      appendRows (getRowIndices limitAndOffset result)
        (rowBinding result columns) [];
    mret (sparqlJsonDocument selectedVars bindings).

Definition selectQueryResultBindingsToQLeverJSON (qet : QueryExecutionTree)
    (selectClause : SelectClause) (limitAndOffset : LimitOffsetClause)
    (result : Result) : Gen string Json :=
  idTableToQLeverJSONArray qet limitAndOffset
    (selectedVariablesToColumnIndices qet selectClause true) result.

Definition selectQueryResultBindingsToQLeverJSONStream
    (qet : QueryExecutionTree) (selectClause : SelectClause)
    (limitAndOffset : LimitOffsetClause) (result : Result) : Gen string () :=
  idTableToQLeverJSONBindingsStream qet limitAndOffset
    (selectedVariablesToColumnIndices qet selectClause true) result.

(** ** SELECT as a stream: binary, CSV, TSV *)

Definition octetStreamRow (res : Result) (columns : ColumnIndicesAndTypes)
    (i : nat) : list string :=
  omap
    (λ columnIndex : option VariableAndColumnIndex,
       (λ c, idBytes (idAt (idTable res) i (columnIndex_ c))) <$> columnIndex)
    columns.

(** The values and separators of one CSV or TSV row. *)
Fixpoint separatedRow (format : MediaType) (res : Result) (i : nat)
    (columns : ColumnIndicesAndTypes) : Exception + list string :=
  let separator := if bool_decide (format = tsv) then tab else "," in
  let escapeFunction :=
    if bool_decide (format = tsv) then escapeForTsv else escapeForCsv in
  match columns with
  | [] => inr []
  | column :: rest =>
      let value : Exception + list string :=
        match column with
        | None => inr []
        | Some val =>
            match idToStringAndType (bool_decide (format = csv)) false
                    escapeFunction (idAt (idTable res) i (columnIndex_ val))
                    (localVocab res) with
            | inl e => inl e
            | inr None => inr []
            | inr (Some (str, _)) => inr [str]
            end
        end in
      match value, separatedRow format res i rest with
      | inl e, _ => inl e
      | _, inl e => inl e
      | inr v, inr others =>
          inr (v ++ [if bool_decide (rest = []) then newline else separator]
                 ++ others)
      end
  end.

(** The header line: the variable names joined by the separator, then a
    newline (two [co_yield]s). *)
Definition separatedHeader (format : MediaType) (selectClause : SelectClause)
  : list string :=
  let separator := if bool_decide (format = tsv) then tab else "," in
  let variables :=
    (if bool_decide (format = csv) then (λ var, substrFrom var 1)
     else (λ var, var)) <$> getSelectedVariablesAsStrings selectClause in
  [strJoin separator variables; newline].

(** [selectQueryResultToStream<format>], the primary template. *)
Definition selectQueryResultToStream (format : MediaType)
    (qet : QueryExecutionTree) (selectClause : SelectClause)
    (limitAndOffset : LimitOffsetClause) : Gen string () :=
  if bool_decide (format = turtle)
  then throw (CheckFailed "format != MediaType::turtle")
  else
    let result := getResult qet in
    let selectedColumnIndices :=
      selectedVariablesToColumnIndices qet selectClause true in
    if bool_decide (format = octetStream)
    then
      forEach (getRowIndices limitAndOffset result)
        (λ i,
           _ ← yieldAll (octetStreamRow result selectedColumnIndices i);
           throwIfCancelled)
    else
      _ ← yieldAll (separatedHeader format selectClause);
      forEach (getRowIndices limitAndOffset result)
        (λ i,
           row ← lift (separatedRow format result i selectedColumnIndices);
           _ ← yieldAll row;
           throwIfCancelled).

(** ** SELECT as a stream: SPARQL XML *)

Definition xmlLiteralOrIri (entitystr : string) : Exception + string :=
  if starts_with entitystr "<"
  then
    inr ("<uri>"
         +:+ escapeForXml (substr entitystr 1 (sizeSub (size entitystr) 2))
         +:+ "</uri>")
  else if starts_with entitystr "_:"
  then inr ("<bnode>" +:+ substrFrom entitystr 2 +:+ "</bnode>")
  else
    match rfind entitystr quote with
    | None => inr ("<literal>" +:+ escapeForXml entitystr +:+ "</literal>")
    | Some quotePos =>
        let innerValue := substr entitystr 1 (sizeSub quotePos 1) in
        if (quotePos <? sizeSub (size entitystr) 1)%N &&
           Ascii.eqb (charAt entitystr (quotePos + 1)) "@"
        then
          inr ("<literal xml:lang=" +:+ String quote ""
               +:+ substrFrom entitystr (quotePos + 2)
               +:+ String quote ">" +:+ escapeForXml innerValue
               +:+ "</literal>")
        else if (quotePos <? sizeSub (size entitystr) 2)%N &&
                Ascii.eqb (charAt entitystr (quotePos + 1)) "^"
        then
          if negb (Ascii.eqb (charAt entitystr (quotePos + 2)) "^")
          then inl (CheckFailed "entitystr[quotePos + 2] == '^'")
          else if (size entitystr <? quotePos + 5)%N
          then inl (CheckFailed "datatype.size() >= quotePos + 5")
          else
            let datatype := substrFrom entitystr (quotePos + 4) in
            inr ("<literal datatype=" +:+ String quote ""
                 +:+ escapeForXml (substr datatype 0 (size datatype - 1))
                 +:+ String quote ">" +:+ escapeForXml innerValue
                 +:+ "</literal>")
        else inr ("<literal>" +:+ escapeForXml innerValue +:+ "</literal>")
    end.

Definition idToXMLBinding (variable : string) (id : Id)
    (localVocab : nat → LiteralOrIri) : Exception + string :=
  match idToStringAndTypeDefault id localVocab with
  | inl e => inl e
  | inr None => inr ""
  | inr (Some (stringValue, xsdType)) =>
      let opening :=
        newline +:+ "    <binding name=" +:+ String quote "" +:+ variable
        +:+ String quote ">" in
      match xsdType with
      | None =>
          match xmlLiteralOrIri stringValue with
          | inl e => inl e
          | inr inner => inr (opening +:+ inner +:+ "</binding>")
          end
      | Some ty =>
          inr (opening +:+ "<literal datatype=" +:+ String quote "" +:+ ty
               +:+ String quote ">" +:+ stringValue +:+ "</literal>"
               +:+ "</binding>")
      end
  end.

Definition xmlRow (res : Result) (columns : ColumnIndicesAndTypes) (i : nat)
  : Exception + list string :=
  match
    mapM (λ val, idToXMLBinding (variable_ val)
                   (idAt (idTable res) i (columnIndex_ val)) (localVocab res))
      (omap id columns)
  with
  | inl e => inl e
  | inr bindings =>
      inr ([newline +:+ "  <result>"] ++ bindings
             ++ [newline +:+ "  </result>"])
  end.

(** The bindings of a row are yielded one by one, so the ones before a
    failing one are already out when the exception leaves the generator. *)
Fixpoint yieldBindings (res : Result) (i : nat)
    (columns : list VariableAndColumnIndex) : Gen string () :=
  match columns with
  | [] => ret ()
  | val :: rest =>
      bind
        (lift (idToXMLBinding (variable_ val)
                 (idAt (idTable res) i (columnIndex_ val)) (localVocab res)))
        (λ b, bind (co_yield b) (λ _, yieldBindings res i rest))
  end.

(** Everything yielded before the first row, and after the last one. *)
Definition xmlPreamble (selectClause : SelectClause) : list string :=
  ["<?xml version=" +:+ String quote "1.0" +:+ String quote "?>"
   +:+ newline
   +:+ "<sparql xmlns=" +:+ String quote
         "http://www.w3.org/2005/sparql-results#"
   +:+ String quote ">";
   newline +:+ "<head>"]
  ++ ((λ var,
         newline +:+ "  <variable name=" +:+ String quote (substrFrom var 1)
         +:+ String quote "/>")
        <$> getSelectedVariablesAsStrings selectClause)
  ++ [newline +:+ "</head>"; newline +:+ "<results>"].

Definition xmlEpilogue : list string :=
  [newline +:+ "</results>"; newline +:+ "</sparql>"].

(** [selectQueryResultToStream<sparqlXml>] *)
Definition selectQueryResultToStream_sparqlXml (qet : QueryExecutionTree)
    (selectClause : SelectClause) (limitAndOffset : LimitOffsetClause)
  : Gen string () :=
  _ ← yieldAll (xmlPreamble selectClause);
  let result := getResult qet in
  let selectedColumnIndices :=
    selectedVariablesToColumnIndices qet selectClause false in
  _ ← forEach (getRowIndices limitAndOffset result)
        (λ i,
           _ ← co_yield (newline +:+ "  <result>");
           _ ← yieldBindings result i (omap id selectedColumnIndices);
           _ ← co_yield (newline +:+ "  </result>");
           throwIfCancelled);
  yieldAll xmlEpilogue.

(** ** SELECT as a stream: SPARQL JSON *)

Definition sparqlJsonRowChunk (res : Result)
    (columns : list VariableAndColumnIndex) (i : nat) : Exception + string :=
  match rowBinding res columns i with
  | inl e => inl e
  | inr binding =>
      inr ((if bool_decide (i = 0) then "" else ",") +:+ dump binding)
  end.

Definition sparqlJsonPreamble (selectClause : SelectClause) : string :=
  let vars :=
    (λ var, substrFrom var 1) <$> getSelectedVariablesAsStrings selectClause in
  "{" +:+ String quote "head" +:+ String quote ":{"
  +:+ String quote "vars" +:+ String quote ":"
  +:+ dump (jsonStrings vars)
  +:+ "}," +:+ String quote "results" +:+ String quote ":{"
  +:+ String quote "bindings" +:+ String quote ":[".

(** [selectQueryResultToStream<sparqlJson>] *)
Definition selectQueryResultToStream_sparqlJson (qet : QueryExecutionTree)
    (selectClause : SelectClause) (limitAndOffset : LimitOffsetClause)
  : Gen string () :=
  let result := getResult qet in
  _ ← co_yield (sparqlJsonPreamble selectClause);
  let columns :=
    eraseNullopt (selectedVariablesToColumnIndices qet selectClause false) in
  if bool_decide (columns = [])
  then co_yield "]}}"
  else
    _ ← forEach (getRowIndices limitAndOffset result)
          (λ i,
             chunk ← lift (sparqlJsonRowChunk result columns i);
             _ ← co_yield chunk;
             throwIfCancelled);
    co_yield "]}}".

(** ** CONSTRUCT as a stream *)

Definition separatedTriple (format : MediaType) (triple : StringTriple)
  : list string :=
  let escapeFunction :=
    if bool_decide (format = tsv) then escapeForTsv else escapeForCsv in
  let sep := if bool_decide (format = tsv) then tab else "," in
  [escapeFunction (subject_ triple); sep;
   escapeFunction (predicate_ triple); sep;
   escapeFunction (object_ triple); newline].

(** [constructQueryResultToStream<format>], the primary template
    (instantiated for octetStream, csv, tsv, sparqlXml and sparqlJson). *)
Definition constructQueryResultToStream (format : MediaType)
    (qet : QueryExecutionTree) (constructTriples : Triples)
    (limitAndOffset : LimitOffsetClause) (result : Result) : Gen string () :=
  if bool_decide (format = octetStream)
  then throw (RuntimeError
                "Binary export is not supported for CONSTRUCT queries")
  else if bool_decide (format = sparqlXml)
  then throw (RuntimeError
                "XML export is currently not supported for CONSTRUCT queries")
  else
    forEachYielded
      (constructQueryResultToTriples qet constructTriples limitAndOffset
         result)
      (separatedTriple format).

(** ** Entry points *)

Definition selectedOf (query : ParsedQuery) : list string :=
  match _clause query with
  | Select selectClause => getSelectedVariablesAsStrings selectClause
  | Construct _ => ["?subject"; "?predicate"; "?object"]
  end.

Definition msString (ms : nat) : string := pretty ms +:+ "ms".

Definition qleverJsonPreamble (query : ParsedQuery) (qet : QueryExecutionTree)
  : Json :=
  jsonSet "runtimeInformation"
    (jsonSet "query_execution_tree" (runtimeInfo qet (_limitOffset query))
       (jsonSet "meta" (getRuntimeInfoWholeQuery qet) JNull))
    (jsonSet "selected" (jsonStrings (selectedOf query))
       (jsonSet "warnings" (jsonStrings (collectWarnings qet))
          (jsonSet "status" (JString "OK")
             (jsonSet "query" (JString (_originalString query)) JNull)))).

Definition jsonTimes (total computeResult : nat) : Json :=
  jsonSet "computeResult" (JString (msString computeResult))
    (jsonSet "total" (JString (msString total)) JNull).

Definition arraySize (j : Json) : nat :=
  match j with
  | JArray items => length items
  | JObject members => length members
  | JNull => 0
  | _ => 1
  end.

Definition computeQueryResultAsQLeverJSON (query : ParsedQuery)
    (qet : QueryExecutionTree) (requestTimer : Timer) : Gen string Json :=
  let result := getResult qet in
  let resultSize := length (idTable result) in
  res ←
    match _clause query with
    | Select selectClause =>
        selectQueryResultBindingsToQLeverJSON qet selectClause
          (_limitOffset query) result
    | Construct triples =>
        constructQueryResultBindingsToQLeverJSON qet triples
          (_limitOffset query) result
    end;
  let size :=
    match _clause query with
    | Select _ => resultSize
    | Construct _ => arraySize res
    end in
  mret (jsonSet "time"
          (jsonTimes (secondReading requestTimer) (firstReading requestTimer))
          (jsonSet "resultsize" (JNumber (Z.of_nat size))
             (jsonSet "res" res (qleverJsonPreamble query qet)))).

(** The dispatch [compute.template operator()<format>()] of
    [computeResultAsStream]: the specialisations where they exist, the
    primary templates otherwise. *)
Definition computeStream (format : MediaType) (parsedQuery : ParsedQuery)
    (qet : QueryExecutionTree) : Gen string () :=
  let limitAndOffset := _limitOffset parsedQuery in
  match _clause parsedQuery with
  | Select selectClause =>
      match format with
      | sparqlXml =>
          selectQueryResultToStream_sparqlXml qet selectClause limitAndOffset
      | sparqlJson =>
          selectQueryResultToStream_sparqlJson qet selectClause limitAndOffset
      | _ => selectQueryResultToStream format qet selectClause limitAndOffset
      end
  | Construct triples =>
      match format with
      | turtle =>
          constructQueryResultToStream_turtle qet triples limitAndOffset
            (getResult qet)
      | _ =>
          constructQueryResultToStream format qet triples limitAndOffset
            (getResult qet)
      end
  end.

Definition computeResultAsStream (parsedQuery : ParsedQuery)
    (qet : QueryExecutionTree) (mediaType : MediaType) : Gen string () :=
  match mediaType with
  | qleverJson =>
      (* not one of the media types of the ConstexprSwitch *)
      throw (CheckFailed "ConstexprSwitch: unsupported media type")
  | _ =>
      setOperationOnCancel "Stream query export"
        (computeStream mediaType parsedQuery qet)
  end.

Definition computeSelectQueryResultAsSparqlJSON (query : ParsedQuery)
    (qet : QueryExecutionTree) : Gen string Json :=
  match _clause query with
  | Construct _ =>
      throw (RuntimeError
        "SPARQL-compliant JSON format is only supported for SELECT queries")
  | Select selectClause =>
      selectQueryResultToSparqlJSON qet selectClause (_limitOffset query)
        (getResult qet)
  end.

Definition computeResultAsJSON (parsedQuery : ParsedQuery)
    (qet : QueryExecutionTree) (requestTimer : Timer) (mediaType : MediaType)
  : Gen string Json :=
  setOperationOnCancel "Query export"
    (match mediaType with
     | qleverJson => computeQueryResultAsQLeverJSON parsedQuery qet requestTimer
     | sparqlJson => computeSelectQueryResultAsSparqlJSON parsedQuery qet
     | _ => throw (CheckFailed "AD_FAIL()")
     end).

(** [prefixStr.substr(0, prefixStr.size() - 1)] *)
Definition dropLast (s : string) : string := substr s 0 (sizeSub (size s) 1).

Definition commaSeparated (bindings : list string) : list string :=
  mjoin (imap (λ k b, if bool_decide (0 < k) then [","; b] else [b]) bindings).

(** [for (std::string& b : bindings) { if (resultSize > 0) co_yield ",";
    co_yield b; ++resultSize; }] followed by the suffix with the number of
    bindings seen. *)
Definition yieldBindingsAndSuffix (bindings : Gen string ())
    (requestTimer : Timer) : Gen string () :=
  λ handle n,
    let r := bindings handle n in
    let resultSize := length (yielded r) in
    match outcome r with
    | inl e => mkRun (commaSeparated (yielded r)) (polls r) (inl e)
    | inr _ =>
        let jsonSuffix :=
          jsonSet "time"
            (jsonTimes (secondReading requestTimer)
               (firstReading requestTimer))
            (jsonSet "resultsize" (JNumber (Z.of_nat resultSize)) JNull) in
        mkRun
          (commaSeparated (yielded r)
             ++ ["]," +:+ substrFrom (dump jsonSuffix) 1])
          (polls r) (inr ())
    end.

Definition computeResultAsQLeverJSONStream (query : ParsedQuery)
    (qet : QueryExecutionTree) (requestTimer : Timer) : Gen string () :=
  let result := getResult qet in
  _ ← co_yield (dropLast (dump (qleverJsonPreamble query qet))
                +:+ "," +:+ String quote "res" +:+ String quote ":[");
  yieldBindingsAndSuffix
    (match _clause query with
     | Select selectClause =>
         selectQueryResultBindingsToQLeverJSONStream qet selectClause
           (_limitOffset query) result
     | Construct triples =>
         constructQueryResultBindingsToQLeverJSONStream qet triples
           (_limitOffset query) result
     end)
    requestTimer.

(** ** The entry points seen from outside

    What a caller observes of one export with respect to cancellation: how
    often the handle was polled and whether (and how) the export failed. *)

Inductive ExportCall :=
| AsStream (mediaType : MediaType)        (* computeResultAsStream *)
| AsJSON (mediaType : MediaType)          (* computeResultAsJSON *)
| AsQLeverJSONStream.                     (* computeResultAsQLeverJSONStream *)

Definition ending {Y A} (r : Run Y A) : option Exception :=
  match outcome r with
  | inl e => Some e
  | inr _ => None
  end.

Definition summary {Y A} (r : Run Y A) : nat * option Exception :=
  (polls r, ending r).

Definition runExport (call : ExportCall) (query : ParsedQuery)
    (qet : QueryExecutionTree) (requestTimer : Timer)
    (handle : CancellationHandle) (n : nat) : nat * option Exception :=
  match call with
  | AsStream mediaType =>
      summary (computeResultAsStream query qet mediaType handle n)
  | AsJSON mediaType =>
      summary (computeResultAsJSON query qet requestTimer mediaType handle n)
  | AsQLeverJSONStream =>
      summary (computeResultAsQLeverJSONStream query qet requestTimer handle n)
  end.

(** The operation name the entry point puts on a cancellation. *)
Definition operationOf (call : ExportCall) : option string :=
  match call with
  | AsStream _ => Some "Stream query export"
  | AsJSON _ => Some "Query export"
  | AsQLeverJSONStream => None
  end.

(** The combinations of entry point, media type and query form that reach a
    loop over the rows (the others fail before the first row). *)
Definition reachesRows (call : ExportCall) (query : ParsedQuery) : bool :=
  match call, _clause query with
  | AsStream (csv | tsv | octetStream | sparqlXml | sparqlJson), Select _ => true
  | AsStream (turtle | csv | tsv | sparqlJson), Construct _ => true
  | AsJSON qleverJson, _ => true
  | AsJSON sparqlJson, Select _ => true
  | AsQLeverJSONStream, _ => true
  | _, _ => false
  end.

(** The triples a CONSTRUCT export generates: for every row of the range,
    the template triples all of whose terms evaluate. *)
Definition generatedTriples (constructTriples : Triples)
    (limitAndOffset : LimitOffsetClause) (res : Result) : list StringTriple :=
  i ← getRowIndices limitAndOffset res;
  omap (evaluateTriple res i) constructTriples.

Definition succeeds {A} (r : Exception + A) : bool :=
  match r with
  | inr _ => true
  | inl _ => false
  end.

(** No row of the range fails to render (only the SPARQL XML and SPARQL
    JSON renderers have checks that can fail). *)
Definition rowsRender (call : ExportCall) (query : ParsedQuery)
    (qet : QueryExecutionTree) : bool :=
  let rows := getRowIndices (_limitOffset query) (getResult qet) in
  match call, _clause query with
  | AsStream sparqlXml, Select selectClause =>
      succeeds
        (mapM (xmlRow (getResult qet)
                 (selectedVariablesToColumnIndices qet selectClause false))
           rows)
  | (AsStream sparqlJson | AsJSON sparqlJson), Select selectClause =>
      succeeds
        (mapM (rowBinding (getResult qet)
                 (eraseNullopt
                    (selectedVariablesToColumnIndices qet selectClause false)))
           rows)
  | _, _ => true
  end.

(** The number of places at which the export polls the handle. *)
Definition pollPoints (call : ExportCall) (query : ParsedQuery)
    (qet : QueryExecutionTree) : nat :=
  let rows := getRowIndices (_limitOffset query) (getResult qet) in
  match _clause query with
  | Construct triples =>
      length (generatedTriples triples (_limitOffset query) (getResult qet))
  | Select selectClause =>
      match call with
      | AsStream sparqlJson | AsJSON sparqlJson =>
          if bool_decide
               (eraseNullopt
                  (selectedVariablesToColumnIndices qet selectClause false)
                = [])
          then 0
          else length rows
      | _ => length rows
      end
  end.

(** *** The exports in closed form

    What a caller sees of one export: the chunks in the order they were
    yielded, how often the handle was polled, and the exception that ended
    the export, if any. *)
Definition observe {A} (r : Run string A)
  : list string * nat * option Exception :=
  (yielded r, polls r, ending r).

Definition exportRun (call : ExportCall) (query : ParsedQuery)
    (qet : QueryExecutionTree) (requestTimer : Timer)
    (handle : CancellationHandle) (n : nat)
  : list string * nat * option Exception :=
  match call with
  | AsStream mediaType =>
      observe (computeResultAsStream query qet mediaType handle n)
  | AsJSON mediaType =>
      observe (computeResultAsJSON query qet requestTimer mediaType handle n)
  | AsQLeverJSONStream =>
      observe (computeResultAsQLeverJSONStream query qet requestTimer handle n)
  end.

(** The chunks of a row that renders. *)
Definition rendered {A} (r : Exception + list A) : list A :=
  match r with
  | inr chunks => chunks
  | inl _ => []
  end.

(** The bindings of the QLever JSON stream, each but the first with the
    comma that is yielded before it. *)
Definition commaGroups (bindings : list string) : list (list string) :=
  imap (λ k b, if bool_decide (0 < k) then [","; b] else [b]) bindings.

(** What is yielded before the first row. *)
Definition preamble (call : ExportCall) (query : ParsedQuery)
    (qet : QueryExecutionTree) : list string :=
  match call, _clause query with
  | AsStream sparqlXml, Select selectClause => xmlPreamble selectClause
  | AsStream sparqlJson, Select selectClause =>
      [sparqlJsonPreamble selectClause]
  | AsStream octetStream, Select _ => []
  | AsStream format, Select selectClause =>
      separatedHeader format selectClause
  | AsQLeverJSONStream, _ =>
      [dropLast (dump (qleverJsonPreamble query qet))
       +:+ "," +:+ String quote "res" +:+ String quote ":["]
  | _, _ => []
  end.

(** What is yielded for each exported row of a SELECT query, or for each
    generated triple of a CONSTRUCT query: nothing by the buffered exports,
    which return their document at the end. *)
Definition rowChunks (call : ExportCall) (query : ParsedQuery)
    (qet : QueryExecutionTree) : list (list string) :=
  let res := getResult qet in
  let rows := getRowIndices (_limitOffset query) res in
  match _clause query with
  | Select selectClause =>
      let columns := selectedVariablesToColumnIndices qet selectClause true in
      let bound :=
        eraseNullopt
          (selectedVariablesToColumnIndices qet selectClause false) in
      match call with
      | AsStream octetStream => octetStreamRow res columns <$> rows
      | AsStream sparqlXml =>
          (λ i,
             rendered
               (xmlRow res
                  (selectedVariablesToColumnIndices qet selectClause false) i))
            <$> rows
      | AsStream sparqlJson =>
          if bool_decide (bound = [])
          then []
          else
            (λ i,
               match sparqlJsonRowChunk res bound i with
               | inr chunk => [chunk]
               | inl _ => []
               end) <$> rows
      | AsStream format =>
          (λ i, rendered (separatedRow format res i columns)) <$> rows
      | AsJSON sparqlJson =>
          if bool_decide (bound = []) then [] else (λ _, []) <$> rows
      | AsJSON _ => (λ _, []) <$> rows
      | AsQLeverJSONStream =>
          commaGroups
            ((λ i,
                match idTableToQLeverJSONRow columns res i with
                | inr row => dump row
                | inl _ => ""
                end) <$> rows)
      end
  | Construct triples =>
      let generated := generatedTriples triples (_limitOffset query) res in
      match call with
      | AsStream turtle => turtleChunks <$> generated
      | AsStream format => separatedTriple format <$> generated
      | AsJSON _ => (λ _, []) <$> generated
      | AsQLeverJSONStream =>
          commaGroups ((λ triple, dump (tripleToJson triple)) <$> generated)
      end
  end.

(** What is yielded after the last row, when the export gets there. *)
Definition epilogue (call : ExportCall) (query : ParsedQuery)
    (qet : QueryExecutionTree) (requestTimer : Timer) : list string :=
  match call, _clause query with
  | AsStream sparqlXml, Select _ => xmlEpilogue
  | AsStream sparqlJson, Select _ => ["]}}"]
  | AsQLeverJSONStream, _ =>
      ["]," +:+
       substrFrom
         (dump
            (jsonSet "time"
               (jsonTimes (secondReading requestTimer)
                  (firstReading requestTimer))
               (jsonSet "resultsize"
                  (JNumber (Z.of_nat (pollPoints call query qet))) JNull)))
         1]
  | _, _ => []
  end.

(** [pollLoop points handle n]: [points] polls in a row, starting after [n]
    earlier ones, up to the first that finds the handle set. *)
Fixpoint pollLoop (points : nat) (handle : CancellationHandle) (n : nat)
  : nat * option Exception :=
  match points with
  | 0 => (n, None)
  | S rest =>
      if handle n then (S n, Some (CancellationException None))
      else pollLoop rest handle (S n)
  end.

Definition tagged (op : option string) (s : nat * option Exception)
  : nat * option Exception :=
  match s with
  | (n, Some (CancellationException _)) => (n, Some (CancellationException op))
  | other => other
  end.

End Exporter.

(** The handle is never set. *)
Definition notCancelled (handle : CancellationHandle) : Prop :=
  ∀ k, handle k = false.

(** After [n] earlier polls, the [j] next ones find the handle unset and the
    one after them finds it set. *)
Definition firstSetAt (handle : CancellationHandle) (n j : nat) : Prop :=
  (∀ k, k < j → handle (n + k) = false) ∧ handle (n + j) = true.

(** A loop body that yields [chunks x] and then polls the handle. *)
Definition pollsAfter {Y A} (body : A → Gen Y ()) (chunks : A → list Y)
    (l : list A) (handle : CancellationHandle) : Prop :=
  ∀ x n, x ∈ l →
    body x handle n =
    mkRun (chunks x) (S n)
      (if handle n then inl (CancellationException None) else inr ()).

(** The string that is one double quote. *)
Definition quoteMark : string := String quote "".

(** The string has no double quote in it. *)
Definition hasNoQuote (s : string) : Prop :=
  quote ∉ list_ascii_of_string s.

End ExportQueryExecutionTrees.

(** ** A concrete environment for running the exporter on examples

    Identity escaping, decimal formatting of payload bits, vocabulary
    entries named after their index, and a plain JSON printer. *)
Module ExportDemo.
Import ExportQueryExecutionTrees.

Fixpoint dumpJson (j : Json) : string :=
  match j with
  | JNull => "null"
  | JString s => String quote s +:+ String quote EmptyString
  | JNumber n => pretty n
  | JArray items => "[" +:+ strJoin "," (map dumpJson items) +:+ "]"
  | JObject members =>
      "{" +:+
      strJoin ","
        (map (λ kv : string * Json,
                String quote kv.1 +:+ String quote ":" +:+ dumpJson kv.2)
           members)
      +:+ "}"
  end.

#[local] Instance environment : Environment := {|
  fractionalPartIsZero _ := true;
  formatFixedPrecision0 := pretty;
  formatDefault := pretty;
  dateToStringAndType bits :=
    (pretty bits, Some "http://www.w3.org/2001/XMLSchema#dateTime");
  indexToString i := "<iri" +:+ pretty i +:+ ">";
  wordIndexToString i := "word" +:+ pretty i;
  getTextExcerpt i := "excerpt" +:+ pretty i;
  fromStringRepresentation s := mkLiteralOrIri s s false;
  escapeForCsv s := s;
  escapeForTsv s := s;
  escapeForXml s := s;
  validRDFLiteralFromNormalized s := s;
  idBytes _ := "8 bytes";
  dump := dumpJson
|}.

Definition neverCancelled : CancellationHandle := λ _, false.
Definition alwaysCancelled : CancellationHandle := λ _, true.

Definition emptyLocalVocab : nat → LiteralOrIri :=
  λ _, mkLiteralOrIri EmptyString EmptyString false.

(** A tree over [res] whose variable-to-column map is [bound]:
    [selectedVariablesToColumnIndices] gives the column of every selected
    variable that is bound and [nullopt] for the others. *)
Definition treeOf (res : Result) (bound : list (string * nat))
  : QueryExecutionTree :=
  mkTree res
    (λ selectClause includeQuestionMark,
       (λ var,
          (λ col : nat,
             mkColumn (if includeQuestionMark then var else substrFrom var 1)
               col) <$> (list_to_map bound : gmap string nat) !! var)
         <$> getSelectedVariablesAsStrings selectClause)
    [] JNull (λ _, JNull).

Definition noLimit : LimitOffsetClause := mkLimitOffset None 0.

(** One row whose only column holds an undefined id. *)
Definition undefinedRow : Result := mkResult [[makeUndefined]] emptyLocalVocab.

(** SELECT ?x over a tree that binds ?x to column 0. *)
Definition selectX : ParsedQuery :=
  mkParsedQuery "SELECT ?x" (Select (mkSelectClause ["?x"])) noLimit.

(** SELECT ?y over a tree that only binds ?x. *)
Definition selectY : ParsedQuery :=
  mkParsedQuery "SELECT ?y" (Select (mkSelectClause ["?y"])) noLimit.

Definition constant (s : string) : GraphTerm := mkGraphTerm (λ _ _, Some s).
Definition unbound : GraphTerm := mkGraphTerm (λ _ _, None).

(** CONSTRUCT { <s> <p> <o> } *)
Definition constructConstant : ParsedQuery :=
  mkParsedQuery "CONSTRUCT { <s> <p> <o> }"
    (Construct [(constant "<s>", constant "<p>", constant "<o>")]) noLimit.

(** CONSTRUCT { ?u <p> <o> } where ?u is unbound in every row. *)
Definition constructUnbound : ParsedQuery :=
  mkParsedQuery "CONSTRUCT { ?u <p> <o> }"
    (Construct [(unbound, constant "<p>", constant "<o>")]) noLimit.

(** Five rows of integers 0..4 in column 0. *)
Definition fiveRows : Result :=
  mkResult ((λ i, [makeFromInt (Z.of_nat i)]) <$> seq 0 5) emptyLocalVocab.

Definition timer : Timer := mkTimer 1 2.

(** LIMIT 2 OFFSET 2 *)
Definition limit2offset2 : LimitOffsetClause := mkLimitOffset (Some 2) 2.

(** A handle that is set between the polls [j - 1] and [j]. *)
Definition setFrom (j : nat) : CancellationHandle := λ k, bool_decide (j ≤ k).

(** Text records with double quotes in them: record 0 is the text
    [He said "hi"], record 1 the text [see "x"@home], every other record
    the text [note "a"^b]. *)
Definition quotedExcerpt (i : nat) : string :=
  match i with
  | 0 => "He said " +:+ String quote "hi" +:+ String quote ""
  | 1 => "see " +:+ String quote "x" +:+ String quote "@home"
  | _ => "note " +:+ String quote "a" +:+ String quote "^b"
  end.

(** The environment above with these text records. *)
Definition quotingEnvironment : Environment := {|
  fractionalPartIsZero _ := true;
  formatFixedPrecision0 := pretty;
  formatDefault := pretty;
  dateToStringAndType bits :=
    (pretty bits, Some "http://www.w3.org/2001/XMLSchema#dateTime");
  indexToString i := "<iri" +:+ pretty i +:+ ">";
  wordIndexToString i := "word" +:+ pretty i;
  getTextExcerpt := quotedExcerpt;
  fromStringRepresentation s := mkLiteralOrIri s s false;
  escapeForCsv s := s;
  escapeForTsv s := s;
  escapeForXml s := s;
  validRDFLiteralFromNormalized s := s;
  idBytes _ := "8 bytes";
  dump := dumpJson
|}.

(** One row whose only column holds the text record [i]. *)
Definition textRow (i : nat) : Result :=
  mkResult [[makeFromTextRecordIndex i]] emptyLocalVocab.

End ExportDemo.

(** * Further vocabulary for the properties of the exporter *)

(** Reading the member [key] of an object; [None] when the value is no
    object or has no such member. *)
Definition jsonGet (key : string) (j : ExportQueryExecutionTrees.Json)
  : option ExportQueryExecutionTrees.Json :=
  match j with
  | ExportQueryExecutionTrees.JObject members =>
      snd <$> List.find (λ kv : string * _, bool_decide (kv.1 = key)) members
  | _ => None
  end.

(** All chunks of a stream, one after the other. *)
Definition streamText (chunks : list string) : string :=
  String.concat "" chunks.

(** * Further vocabulary for the properties of the planner *)

Section PlannerVocabulary.
Context `{ops : Operators}.

(** The body of the inner loop of [applyFiltersIfPossible] for filter [i]. *)
Definition applyFilter (plan : SubtreePlan) (indexed : nat * SparqlFilter)
  : SubtreePlan :=
  let '(i, f) := indexed in
  if bool_decide (i ∈ _idsOfIncludedFilters plan)
  then plan
  else
    match getVariableColumnMap (_qet plan) !! _lhs f,
          getVariableColumnMap (_qet plan) !! _rhs f with
    | Some lhsInd, Some rhsInd =>
        let tree :=
          setContextVars (getContextVars (_qet plan))
            (setOperation FILTER
               (Filter (_qet plan) (_ftype f) lhsInd rhsInd)
               (setVariableColumns (getVariableColumnMap (_qet plan))
                  emptyTree)) in
        mkSubtreePlan tree (_idsOfIncludedNodes plan)
          ({[i]} ∪ _idsOfIncludedFilters plan)
    | _, _ => plan
    end.

(** Both variables of the filter have a column in the plan. *)
Definition filterApplies (plan : SubtreePlan) (f : SparqlFilter) : Prop :=
  is_Some (getVariableColumnMap (_qet plan) !! _lhs f) ∧
  is_Some (getVariableColumnMap (_qet plan) !! _rhs f).

(** The sort indices of an ORDER BY list over a plan: the column of every
    key together with its direction. *)
Definition sortIndicesOf (previous : SubtreePlan) (ords : list OrderKey)
    (sortIndices : list (nat * bool)) : Prop :=
  Forall2
    (λ ord ci,
       getVariableColumnMap (_qet previous) !! _key ord = Some ci.1 ∧
       ci.2 = _desc ord)
    ords sortIndices.

(** [plan] is what [getOrderByRow] makes of [previous]: the same nodes,
    filters, columns and context variables; for a single ascending key the
    plan itself when it is sorted on the key's column and a SORT on that
    column otherwise; in all other cases an ORDER_BY on the columns of the
    keys. *)
Definition orderedLike (pq : ParsedQuery) (previous plan : SubtreePlan)
  : Prop :=
  _idsOfIncludedNodes plan = _idsOfIncludedNodes previous ∧
  _idsOfIncludedFilters plan = _idsOfIncludedFilters previous ∧
  getVariableColumnMap (_qet plan) = getVariableColumnMap (_qet previous) ∧
  getContextVars (_qet plan) = getContextVars (_qet previous) ∧
  ∃ sortIndices,
    sortIndicesOf previous (_orderBy pq) sortIndices ∧
    match sortIndices with
    | [(col, false)] =>
        if bool_decide (col = resultSortedOn (_qet previous))
        then plan = previous
        else getType (_qet plan) = SORT ∧
             getRootOperation (_qet plan) = Some (Sort (_qet previous) col)
    | _ =>
        getType (_qet plan) = ORDER_BY ∧
        getRootOperation (_qet plan)
        = Some (OrderBy (_qet previous) sortIndices)
    end.

End PlannerVocabulary.

(** The triples number [x] and [y] of the list have a variable in common. *)
Definition shareVariable (triples : list SparqlTriple) (x y : nat) : Prop :=
  ∃ tx ty v,
    triples !! x = Some tx ∧ triples !! y = Some ty ∧
    v ∈ variablesOf tx ∧ v ∈ variablesOf ty.

(** The body of the loop over the earlier nodes in [createTripleGraph]:
    an edge between the added node [id] and the node [i] when the latter
    has the variable. *)
Definition connectVar (nodeMap : gmap nat Node) (id : nat)
    (addedNodevar : string) (adj : list (list nat)) (i : nat)
  : list (list nat) :=
  match nodeMap !! i with
  | Some otherNode =>
      if bool_decide (addedNodevar ∈ _variables otherNode)
      then addEdge id (_id otherNode) adj
      else adj
  | None => adj
  end.

(** What [createTripleGraph] has built after the triples [triples]: a node
    per triple, and an adjacency entry for every two different triples
    that share a variable. *)
Definition graphOf (triples : list SparqlTriple) (tg : TripleGraph) : Prop :=
  length (_adjLists tg) = length triples ∧
  size (_nodeMap tg) = length triples ∧
  _nodeStorage tg = imap NodeOfTriple triples ∧
  (∀ i, _nodeMap tg !! i = NodeOfTriple i <$> triples !! i) ∧
  ∀ x y, y ∈ _adjLists tg !!! x ↔ x ≠ y ∧ shareVariable triples x y.

(** The triples [seedWithScansAndText] has scans for: one variable, in
    subject or object position, or two variables with a predicate that is
    not a variable. *)
Definition supportedTriple (t : SparqlTriple) : Prop :=
  (size (variablesOf t) = 1 ∧
   (isVariable (_s t) = true ∨ isVariable (_o t) = true)) ∨
  (size (variablesOf t) = 2 ∧ isVariable (_p t) = false).

(** * The text nodes of a graph and the graph search *)

Section GraphVocabulary.
Context `{ops : Operators}.

(** Node [i] of the graph is a text node and [t] is its triple. *)
Definition textNodeTriple (tg : TripleGraph) (i : nat) (t : SparqlTriple)
  : Prop :=
  i < length (_adjLists tg) ∧ isTextNode tg i = true ∧
  _triple <$> _nodeMap tg !! i = Some t.

(** What the first loop of [identifyTextCliques] takes for a context
    variable: the variable end of a text triple whose other end is none. *)
Definition contextVarOf (t : SparqlTriple) (v : string) : Prop :=
  (v = _o t ∧ isVariable (_s t) = false ∧ isVariable (_o t) = true) ∨
  (v = _s t ∧ isVariable (_o t) = false ∧ isVariable (_s t) = true).

End GraphVocabulary.

(** ** bfsLeaveOut *)

(** The body of the loop over the neighbours of the dequeued node. *)
Definition visitNeighbor (leaveOut : gset nat) (st : gset nat * list nat)
    (v : nat) : gset nat * list nat :=
  let '(visited, queue) := st in
  if bool_decide (v ∉ visited) && bool_decide (v ∉ leaveOut)
  then ({[v]} ∪ visited, queue ++ [v])
  else (visited, queue).

(** The [while (!queue.empty())] loop. Every iteration dequeues a node that
    was not dequeued before and indexes [_adjLists] with it, so a graph
    with [fuel] adjacency lists allows [fuel] iterations; the branch for
    [fuel = 0] is there to make the recursion structural. *)
Fixpoint bfsLoop (adjLists : list (list nat)) (leaveOut : gset nat)
    (fuel : nat) (queue : list nat) (visited : gset nat) (res : list nat)
  : result (list nat) :=
  match queue with
  | [] => Ok res
  | n :: queue =>
      match adjLists !! n, fuel with
      | None, _ => Throw UNDEFINED_BEHAVIOUR "_adjLists[n]"
      | Some neighbors, S fuel =>
          let '(visited, queue) :=
            foldl (visitNeighbor leaveOut) (visited, queue) neighbors in
          bfsLoop adjLists leaveOut fuel queue visited (res ++ [n])
      | Some _, 0 => Throw UNDEFINED_BEHAVIOUR "bfsLeaveOut: out of steps"
      end
  end.

Definition bfsLeaveOut (tg : TripleGraph) (startNode : nat)
    (leaveOut : gset nat) : result (list nat) :=
  bfsLoop (_adjLists tg) leaveOut (length (_adjLists tg))
    [startNode] {[startNode]} [].

(** An edge the search follows: to a neighbour that is not left out. *)
Definition bfsEdge (tg : TripleGraph) (leaveOut : gset nat) (x y : nat)
  : Prop :=
  y ∈ _adjLists tg !!! x ∧ y ∉ leaveOut.

(** ** The graph restricted to some of its nodes *)

(** The body of the first loop of the constructor
    [TripleGraph(other, keepNodes)]: node [i], when it is kept, is copied
    and gets the next free id. *)
Definition keepNode (other : TripleGraph) (keep : gset nat)
    (st : list Node * gmap nat Node * gmap nat nat) (i : nat)
  : result (list Node * gmap nat Node * gmap nat nat) :=
  let '(storage, nodeMap, idChange) := st in
  if bool_decide (i ∈ keep)
  then
    match _nodeMap other !! i with
    | Some node =>
        let id := size nodeMap in
        Ok (storage ++ [withId id node], <[id := withId id node]> nodeMap,
            <[i := id]> idChange)
    | None => Throw UNDEFINED_BEHAVIOUR "other._nodeMap.find(i) == end()"
    end
  else Ok st.

(** The second loop: the adjacency lists of the kept nodes, with the kept
    neighbours under their new ids. [idChange[v]] is [operator[]] of a
    map, which gives 0 for a key it does not have. *)
Definition keepAdjLists (other : TripleGraph) (keep : gset nat)
    (idChange : gmap nat nat) : list (list nat) :=
  foldl
    (λ adjLists i,
       if bool_decide (i ∈ keep)
       then
         adjLists ++
         [foldl
            (λ adjList v,
               if bool_decide (v ∈ keep)
               then adjList ++ [default 0 (idChange !! v)]
               else adjList)
            [] (_adjLists other !!! i)]
       else adjLists)
    [] (seq 0 (length (_adjLists other))).

Definition TripleGraph_keepNodes (other : TripleGraph) (keepNodes : list nat)
  : result TripleGraph :=
  let keep : gset nat := list_to_set keepNodes in
  st ← rfold (keepNode other keep) (seq 0 (size (_nodeMap other))) ([], ∅, ∅);
  let '(storage, nodeMap, idChange) := st in
  Ok (mkTripleGraph (keepAdjLists other keep idChange) nodeMap storage).

(** The number of kept ids below [i]: the id the constructor gives to the
    kept node [i]. *)
Definition newId (keep : gset nat) (i : nat) : nat :=
  length (filter (λ j, j ∈ keep) (seq 0 i)).

(** ** pickFilters *)

Definition pickFilters (tg : TripleGraph) (origFilters : list SparqlFilter)
    (nodes : list nat) : result (list SparqlFilter) :=
  coveredVariables ←
    rfold
      (λ (covered : gset string) n,
         match _nodeMap tg !! n with
         | Some node => Ok (_variables node ∪ covered)
         | None => Throw UNDEFINED_BEHAVIOUR "_nodeMap.find(n) == end()"
         end)
      nodes ∅;
  Ok (foldl
        (λ ret f,
           if bool_decide (_lhs f ∈ coveredVariables) ||
              bool_decide (_rhs f ∈ coveredVariables)
           then ret ++ [f]
           else ret)
        [] origFilters).

(** * Loops that yield and poll, in closed form *)

Module ExportForms.
Import ExportQueryExecutionTrees.

(** How far a loop over [len] rows gets that polls the handle once after
    each row, started after [n] earlier polls: the number of rows whose
    chunks were yielded, the number of polls, and the way the loop ends. *)
Fixpoint progress (len : nat) (handle : CancellationHandle) (n : nat)
  : nat * nat * (Exception + ()) :=
  match len with
  | 0 => (0, n, inr ())
  | S rest =>
      if handle n
      then (1, S n, inl (CancellationException None))
      else
        let '(k, p, o) := progress rest handle (S n) in
        (S k, p, o)
  end.

(** What is seen of an export that yields [pre], then the chunks of row
    after row with a poll after each, and [post] when no poll ended it. *)
Definition closedForm (pre : list string) (rows : list (list string))
    (post : list string) (handle : CancellationHandle) (n : nat)
  : list string * nat * option Exception :=
  let '(k, p, o) := progress (length rows) handle n in
  match o with
  | inl e => (pre ++ concat (take k rows), p, Some e)
  | inr _ => (pre ++ concat (take k rows) ++ post, p, None)
  end.

(** [setOperationOnCancel] as it shows in what is seen of the export. *)
Definition retag (operation : string)
    (seen : list string * nat * option Exception)
  : list string * nat * option Exception :=
  match seen with
  | (chunks, p, Some (CancellationException _)) =>
      (chunks, p, Some (CancellationException (Some operation)))
  | other => other
  end.

End ExportForms.

(** * Properties of the query planner *)

(** ** The [result] monad and pruning in [merge] *)

Lemma rbind_Ok {A B} (m : result A) (k : A → result B) (b : B) :
  m ≫= k = Ok b → ∃ a, m = Ok a ∧ k a = Ok b.
Proof. destruct m as [a|e w]; [eauto|discriminate]. Qed.

Lemma rconcatMap_Ok {A B} (f : A → result (list B)) (l : list A) (out : list B) :
  rconcatMap f l = Ok out →
  ∀ y, y ∈ out ↔ ∃ x ys, x ∈ l ∧ f x = Ok ys ∧ y ∈ ys.
Proof.
  revert out. induction l as [|x rest IH]; simpl; intros out Hout y.
  - injection Hout as <-. split.
    + intros Hy. inversion Hy.
    + intros (x & ys & Hx & _). inversion Hx.
  - apply rbind_Ok in Hout as (ys & Hys & Hout).
    apply rbind_Ok in Hout as (zs & Hzs & Hout).
    injection Hout as <-. rewrite elem_of_app, (IH zs Hzs y). split.
    + intros [Hy|(x' & ys' & Hx' & Hf & Hy)].
      * exists x, ys. split_and!; [left|done..].
      * exists x', ys'. split_and!; [by right|done..].
    + intros (x' & ys' & Hx' & Hf & Hy).
      apply elem_of_cons in Hx' as [->|Hx'].
      * left. congruence.
      * right. eauto.
Qed.

Section MergeProofs.
Context `{ops : Operators}.

Lemma foldl_addCandidate_lookup emitted (m : gmap string (list SubtreePlan)) key :
  foldl addCandidate m emitted !! key =
    match m !! key, group key emitted with
    | None, [] => None
    | o, g => Some (default [] o ++ g)
    end.
Proof.
  revert m. induction emitted as [|[k p] rest IH]; intros m; simpl.
  - unfold group. simpl. destruct (m !! key); simpl.
    + by rewrite app_nil_r.
    + done.
  - rewrite IH. unfold addCandidate, group. simpl.
    rewrite filter_cons. simpl. destruct (decide (k = key)) as [Heq|Hne]; [subst k|].
    + rewrite lookup_insert_eq. simpl.
      destruct (m !! key) as [g0|]; simpl.
      * by rewrite <- app_assoc.
      * done.
    + by rewrite lookup_insert_ne.
Qed.

Lemma collectCandidates_lookup emitted key g :
  collectCandidates emitted !! key = Some g ↔ (g = group key emitted ∧ g ≠ []).
Proof.
  unfold collectCandidates. rewrite foldl_addCandidate_lookup, lookup_empty.
  destruct (group key emitted) as [|p g'] eqn:Hg; simpl.
  - split; [done|]. intros [-> ?]. done.
  - split; [intros [= <-]; done|]. intros [-> _]. done.
Qed.

Lemma elem_of_group key emitted p :
  p ∈ group key emitted ↔ (key, p) ∈ emitted.
Proof.
  unfold group. rewrite list_elem_of_fmap. split.
  - intros ([k q] & -> & Hin). apply list_elem_of_filter in Hin as [Hk Hin].
    simpl in *. by subst.
  - intros Hin. exists (key, p). split; [done|].
    apply list_elem_of_filter. done.
Qed.

Lemma minIndexFrom_spec plans i minCost minIndex :
  let j := minIndexFrom plans i minCost minIndex in
  (j = minIndex ∧ ∀ q, q ∈ plans → (minCost ≤ planCost q)%N) ∨
  (∃ p, plans !! (j - i) = Some p ∧ i ≤ j ∧ (planCost p < minCost)%N ∧
        ∀ q, q ∈ plans → (planCost p ≤ planCost q)%N).
Proof.
  revert i minCost minIndex.
  induction plans as [|p rest IH]; intros i minCost minIndex; simpl.
  - left. split; [done|]. intros q Hq. inversion Hq.
  - destruct (N.ltb_spec (planCost p) minCost) as [Hlt|Hge].
    + destruct (IH (S i) (planCost p) i) as [[Hj Hall]|(p' & Hp' & Hle & Hlt' & Hall)].
      * right. exists p. rewrite Hj, Nat.sub_diag. split_and!; [done|lia|done|].
        intros q [->|Hq]%elem_of_cons; [lia|by apply Hall].
      * right. exists p'. split_and!.
        -- replace (minIndexFrom rest (S i) (planCost p) i - i)
             with (S (minIndexFrom rest (S i) (planCost p) i - S i)) by lia.
           done.
        -- lia.
        -- lia.
        -- intros q [->|Hq]%elem_of_cons; [lia|by apply Hall].
    + destruct (IH (S i) minCost minIndex) as [[Hj Hall]|(p' & Hp' & Hle & Hlt' & Hall)].
      * left. split; [done|].
        intros q [->|Hq]%elem_of_cons; [lia|by apply Hall].
      * right. exists p'. split_and!.
        -- replace (minIndexFrom rest (S i) minCost minIndex - i)
             with (S (minIndexFrom rest (S i) minCost minIndex - S i)) by lia.
           done.
        -- lia.
        -- done.
        -- intros q [->|Hq]%elem_of_cons; [lia|by apply Hall].
Qed.



Lemma elem_of_prunedWithKeys candidates key p :
  (key, p) ∈ prunedWithKeys candidates ↔
  ∃ plans, candidates !! key = Some plans ∧ plans !! minIndexOf plans = Some p.
Proof.
  unfold prunedWithKeys. rewrite list_elem_of_omap. split.
  - intros ([k plans] & Hin & Hsome). apply elem_of_map_to_list in Hin.
    destruct (plans !! minIndexOf plans) as [q|] eqn:Hq; simpl in Hsome; [|done].
    injection Hsome as -> ->. eauto.
  - intros (plans & Hlook & Hmin). exists (key, plans).
    split; [by apply elem_of_map_to_list|]. by rewrite Hmin.
Qed.


Lemma merge_plans_emitted a b tg plans :
  merge a b tg = Ok plans →
  ∃ emitted,
    mergeCandidates a b tg = Ok emitted ∧
    ∀ p, p ∈ plans → ∃ key, (key, p) ∈ emitted.
Proof.
  unfold merge. intros Hm. apply rbind_Ok in Hm as (emitted & Hem & Hm).
  injection Hm as <-. exists emitted. split; [done|].
  intros p Hp. apply list_elem_of_fmap in Hp as ([key p'] & -> & Hp).
  exists key. simpl.
  apply elem_of_prunedWithKeys in Hp as (g & Hg & Hmin).
  apply collectCandidates_lookup in Hg as [-> _].
  apply elem_of_group. by eapply list_elem_of_lookup_2.
Qed.

End MergeProofs.

(** ** Connectivity and the rows of the table *)

Lemma rfold_invariant {A S} (P : S → Prop) (f : S → A → result S) l s s' :
  P s →
  (∀ s x s', x ∈ l → P s → f s x = Ok s' → P s') →
  rfold f l s = Ok s' → P s'.
Proof.
  revert s. induction l as [|x rest IH]; simpl; intros s Hs Hstep Hrun.
  - by injection Hrun as <-.
  - apply rbind_Ok in Hrun as (s1 & Hf & Hrun).
    apply (IH s1); [|intros; eapply Hstep; [by right|done..]|done].
    eapply Hstep; [by left|done..].
Qed.

Lemma existsb_elem_of {A} (f : A → bool) (l : list A) :
  existsb f l = true ↔ ∃ x, x ∈ l ∧ f x = true.
Proof.
  rewrite existsb_exists. by setoid_rewrite list_elem_of_In.
Qed.

Lemma existsb_false_elem_of {A} (f : A → bool) (l : list A) :
  existsb f l = false ↔ ∀ x, x ∈ l → f x = false.
Proof.
  rewrite <-not_true_iff_false, existsb_elem_of. split.
  - intros Hno x Hx. destruct (f x) eqn:Hfx; [|done]. destruct Hno; eauto.
  - intros Hall (x & Hx & Hfx). rewrite (Hall x Hx) in Hfx. done.
Qed.

Section Connectivity.
Context (tg : TripleGraph).

Lemma inducedConnected_singleton x : inducedConnected tg {[x]}.
Proof.
  intros u v ->%elem_of_singleton ->%elem_of_singleton. apply rtc_refl.
Qed.

Lemma inducedConnected_union (A B : gset nat) n t :
  inducedConnected tg A → inducedConnected tg B →
  n ∈ A → t ∈ B → adjacent tg n t →
  inducedConnected tg (A ∪ B).
Proof.
  intros HA HB Hn Ht Hadj.
  assert (∀ x y, x ∈ A → y ∈ A →
    rtc (λ u v, u ∈ A ∪ B ∧ v ∈ A ∪ B ∧ adjacent tg u v) x y) as HA'.
  { intros x y Hx Hy. eapply rtc_subrel; [|by apply HA].
    intros u v (? & ? & ?). set_solver. }
  assert (∀ x y, x ∈ B → y ∈ B →
    rtc (λ u v, u ∈ A ∪ B ∧ v ∈ A ∪ B ∧ adjacent tg u v) x y) as HB'.
  { intros x y Hx Hy. eapply rtc_subrel; [|by apply HB].
    intros u v (? & ? & ?). set_solver. }
  assert (adjacent tg t n) as Hadj' by (destruct Hadj; [by right|by left]).
  intros x y [Hx|Hx]%elem_of_union [Hy|Hy]%elem_of_union.
  - by apply HA'.
  - etrans; [by apply (HA' x n)|]. etrans; [|by apply (HB' t y)].
    apply rtc_once. set_solver.
  - etrans; [by apply (HB' x t)|]. etrans; [|by apply (HA' n y)].
    apply rtc_once. set_solver.
  - by apply HB'.
Qed.

Lemma connected_true a b :
  connected a b tg = true →
  _idsOfIncludedNodes a ## _idsOfIncludedNodes b ∧
  ∃ n t, n ∈ _idsOfIncludedNodes a ∧ t ∈ _idsOfIncludedNodes b ∧
         t ∈ _adjLists tg !!! n.
Proof.
  unfold connected.
  lazymatch goal with
  | |- (if ?c then _ else _) = _ → _ => destruct c eqn:Hoverlap
  end; [done|].
  intros Hedge. split.
  - rewrite existsb_false_elem_of in Hoverlap.
    intros x Hxa Hxb. case_bool_decide.
    + specialize (Hoverlap x). rewrite elem_of_elements in Hoverlap.
      specialize (Hoverlap Hxa). by apply bool_decide_eq_false in Hoverlap.
    + specialize (Hoverlap x). rewrite elem_of_elements in Hoverlap.
      specialize (Hoverlap Hxb). by apply bool_decide_eq_false in Hoverlap.
  - apply existsb_elem_of in Hedge as (n & Hn & Hedge).
    apply existsb_elem_of in Hedge as (t & Ht & Hcond).
    apply andb_true_iff in Hcond as [_ Htb%bool_decide_eq_true].
    exists n, t. by rewrite elem_of_elements in Hn.
Qed.

Lemma connected_iff a b :
  connected a b tg = true ↔
  _idsOfIncludedNodes a ## _idsOfIncludedNodes b ∧
  ∃ n t, n ∈ _idsOfIncludedNodes a ∧ t ∈ _idsOfIncludedNodes b ∧
         t ∈ _adjLists tg !!! n.
Proof.
  split; [apply connected_true|].
  intros (Hdisj & n & t & Hn & Ht & Hadj). unfold connected.
  lazymatch goal with
  | |- (if ?c then _ else _) = _ => destruct c eqn:Hoverlap
  end.
  - apply existsb_elem_of in Hoverlap as (x & Hx & Hxb%bool_decide_eq_true).
    rewrite elem_of_elements in Hx. case_bool_decide; set_solver.
  - apply existsb_elem_of. exists n. split; [by apply elem_of_elements|].
    apply existsb_elem_of. exists t. split; [done|].
    apply andb_true_iff. split; apply bool_decide_eq_true; set_solver.
Qed.
End Connectivity.

Section DpProofs.
Context `{ops : Operators}.
Implicit Types (p a b : SubtreePlan) (tg : TripleGraph).

Abbreviation nodes := _idsOfIncludedNodes.

Lemma applyFiltersToPlan_nodes filters p :
  nodes (applyFiltersToPlan filters p) = nodes p ∧
  (getType (_qet (applyFiltersToPlan filters p)) = getType (_qet p) ∨
   getType (_qet (applyFiltersToPlan filters p)) = FILTER).
Proof.
  unfold applyFiltersToPlan.
  generalize (imap (λ i f, (i, f)) filters). intros l.
  assert (∀ q, nodes q = nodes p →
    (getType (_qet q) = getType (_qet p) ∨ getType (_qet q) = FILTER) →
    let r := foldl
      (λ plan '(i, f),
         if bool_decide (i ∈ _idsOfIncludedFilters plan)
         then plan
         else
           match getVariableColumnMap (_qet plan) !! _lhs f,
                 getVariableColumnMap (_qet plan) !! _rhs f with
           | Some lhsInd, Some rhsInd =>
               let tree :=
                 setContextVars (getContextVars (_qet plan))
                   (setOperation FILTER
                      (Filter (_qet plan) (_ftype f) lhsInd rhsInd)
                      (setVariableColumns (getVariableColumnMap (_qet plan))
                         emptyTree)) in
               mkSubtreePlan tree (_idsOfIncludedNodes plan)
                 ({[i]} ∪ _idsOfIncludedFilters plan)
           | _, _ => plan
           end) q l in
    nodes r = nodes p ∧
    (getType (_qet r) = getType (_qet p) ∨ getType (_qet r) = FILTER)) as H.
  { induction l as [|[i f] l IH]; intros q Hq Hty; simpl; [done|].
    apply IH.
    - case_bool_decide; [done|]. repeat case_match; done.
    - case_bool_decide; [done|]. repeat case_match; try done. by right. }
  apply H; auto.
Qed.

Lemma seedNode_nodes i node seeds p :
  seedNode i node = Ok seeds → p ∈ seeds → size (nodes p) = 1.
Proof.
  unfold seedNode. intros Hseed Hp.
  destruct (bool_decide (0 < String.length (_cvar node))).
  - apply rbind_Ok in Hseed as (q & Hq & Hseed). injection Hseed as <-.
    apply list_elem_of_singleton in Hp as ->.
    unfold getTextLeafPlan in Hq. case_bool_decide; [done|].
    destruct (foldl _ _ _) as [vcmap n]. injection Hq as <-.
    exact (size_singleton (C:=gset nat) _).
  - case_bool_decide; [done|].
    apply rbind_Ok in Hseed as (one & Hone & Hseed).
    apply rbind_Ok in Hseed as (two & Htwo & Hseed).
    case_bool_decide; [done|]. injection Hseed as <-.
    assert (∀ q, q ∈ one → size (nodes q) = 1) as H1.
    { intros q Hq. repeat case_match; simplify_eq/=;
        repeat (apply elem_of_cons in Hq as [->|Hq]); try (by inversion Hq);
        exact (size_singleton (C:=gset nat) _). }
    assert (∀ q, q ∈ two → size (nodes q) = 1) as H2.
    { intros q Hq. repeat case_match; simplify_eq/=;
        repeat (apply elem_of_cons in Hq as [->|Hq]); try (by inversion Hq);
        exact (size_singleton (C:=gset nat) _). }
    apply elem_of_app in Hp as [Hp|Hp]; auto.
Qed.

Lemma seedWithScansAndText_nodes tg seeds p :
  seedWithScansAndText tg = Ok seeds → p ∈ seeds → size (nodes p) = 1.
Proof.
  unfold seedWithScansAndText. intros Hseeds Hp.
  apply (rconcatMap_Ok _ _ _ Hseeds) in Hp as (i & ys & _ & Hi & Hp).
  destruct (_nodeMap tg !! i); [|done]. by eapply seedNode_nodes.
Qed.

Lemma size_1_inducedConnected tg (X : gset nat) :
  size X = 1 → inducedConnected tg X.
Proof.
  intros (x & ->%leibniz_equiv)%size_1_elem_of. apply inducedConnected_singleton.
Qed.

Lemma planGood_applyFilters tg earlier k filters p :
  planGood tg earlier k p →
  planGood tg earlier k (applyFiltersToPlan filters p).
Proof.
  intros (Hsize & Hconn & Hty & Hsplit).
  destruct (applyFiltersToPlan_nodes filters p) as [Hn Ht].
  unfold planGood. rewrite Hn. split_and!; [done..| |done].
  intros Hk. destruct Ht as [->| ->]; [by apply Hty|done].
Qed.

Lemma mergePair_plans tg a b out key p :
  mergePair tg a b = Ok out → (key, p) ∈ out →
  connected a b tg = true ∧
  (getType (_qet p) = JOIN ∨ getType (_qet p) = TEXT_WITH_FILTER) ∧
  (nodes p = nodes a ∪ nodes b ∨
   ∃ x, (getType (_qet a) = TEXT_WITHOUT_FILTER ∧
         elements (nodes a) !! 0 = Some x ∧ nodes p = {[x]} ∪ nodes b) ∨
        (getType (_qet b) = TEXT_WITHOUT_FILTER ∧
         elements (nodes b) !! 0 = Some x ∧ nodes p = {[x]} ∪ nodes a)).
Proof.
  unfold mergePair. destruct (connected a b tg) eqn:Hconn; [|intros [= <-] Hin; inversion Hin].
  destruct (getJoinColumns a b) as [|jc [|]] eqn:Hjcs; [done| |done].
  intros Hout Hin. apply rbind_Ok in Hout as (tc & Htc & Hout).
  injection Hout as <-. split; [done|].
  apply elem_of_app in Hin as [Hin|Hin].
  - destruct (xorb _ _) eqn:Hxor; [|injection Htc as <-; inversion Hin].
    apply rbind_Ok in Htc as (tp & Htp & Htc). injection Htc as <-.
    apply list_elem_of_singleton in Hin. injection Hin as -> ->.
    unfold textWithFilterPlan, isTextWithoutFilter in *.
    destruct (bool_decide (getType (_qet a) = TEXT_WITHOUT_FILTER)) eqn:Ha.
    + apply bool_decide_eq_true in Ha.
      destruct (elements (nodes a)) as [|x xs] eqn:Hel; [done|].
      repeat (case_match; try done). simplify_eq/=.
      split; [by right|]. right. exists x. left. done.
    + destruct (bool_decide (getType (_qet b) = TEXT_WITHOUT_FILTER)) eqn:Hb;
        [|done].
      apply bool_decide_eq_true in Hb.
      destruct (elements (nodes b)) as [|x xs] eqn:Hel; [done|].
      repeat (case_match; try done). simplify_eq/=.
      split; [by right|]. right. exists x. right. done.
  - apply list_elem_of_singleton in Hin. injection Hin as -> ->.
    split; [by left|]. by left.
Qed.

Lemma size_1_head (X : gset nat) x :
  size X = 1 → elements X !! 0 = Some x → X = {[x]}.
Proof.
  intros (y & ->%leibniz_equiv)%size_1_elem_of. rewrite elements_singleton.
  by intros [= ->].
Qed.

Lemma merge_rows_good tg earlier i j rowa rowb plans p :
  earlier !! i = Some rowa → earlier !! j = Some rowb →
  (∀ a, a ∈ rowa → planGood tg (take i earlier) i a) →
  (∀ b, b ∈ rowb → planGood tg (take j earlier) j b) →
  merge rowa rowb tg = Ok plans → p ∈ plans →
  planGood tg earlier (i + j + 1) p.
Proof.
  intros Hrowa Hrowb Hgooda Hgoodb Hmerge Hp.
  apply merge_plans_emitted in Hmerge as (emitted & Hem & Hkept).
  apply Hkept in Hp as [key Hp].
  unfold mergeCandidates in Hem.
  apply (rconcatMap_Ok _ _ _ Hem) in Hp as (a & outa & Ha & Hrow & Hp).
  apply (rconcatMap_Ok _ _ _ Hrow) in Hp as (b & out & Hb & Hpair & Hp).
  destruct (mergePair_plans _ _ _ _ _ _ Hpair Hp) as (Hconn & Hty & Hnodes).
  destruct (Hgooda a Ha) as (Hsa & Hca & Htya & _).
  destruct (Hgoodb b Hb) as (Hsb & Hcb & Htyb & _).
  destruct (connected_true _ _ _ Hconn) as (Hdisj & n & t & Hn & Ht & Hadj).
  assert (nodes p = nodes a ∪ nodes b) as Hunion.
  { destruct Hnodes as [?|(x & [(Hta & Hx & Hnp)|(Htb & Hx & Hnp)])]; [done|..].
    - assert (i = 0) as -> by (destruct i; [done|]; exfalso; apply Htya; [lia|done]).
      by rewrite Hnp, (size_1_head _ _ Hsa Hx).
    - assert (j = 0) as -> by (destruct j; [done|]; exfalso; apply Htyb; [lia|done]).
      rewrite Hnp, (size_1_head _ _ Hsb Hx). apply (comm_L (∪)). }
  unfold planGood. rewrite Hunion. split_and!.
  - rewrite size_union by done. lia.
  - eapply inducedConnected_union; [done..|by left].
  - intros _. destruct Hty as [-> | ->]; done.
  - intros _. exists i, j, rowa, rowb, a, b. done.
Qed.

Lemma fillDpStep_good tg filters k tab i tab' :
  2 ≤ k → 1 ≤ i ≤ k / 2 →
  length tab = k → tabGood tg tab →
  fillDpStep tg filters k tab i = Ok tab' →
  length tab' = k ∧ tabGood tg tab' ∧ take (k - 1) tab' = take (k - 1) tab.
Proof.
  intros Hk Hi Hlen Hgood. unfold fillDpStep. intros Hstep.
  apply rbind_Ok in Hstep as (newPlans & Hmerge & Hstep).
  injection Hstep as <-. rewrite !length_alter, Hlen.
  assert (k / 2 ≤ k - 1) as Hhalf.
  { pose proof (Nat.Div0.div_lt_upper_bound k 2 k). lia. }
  assert (i - 1 < k - 1 ∧ k - i - 1 < k - 1) as [Hia Hib] by lia.
  destruct (lookup_lt_is_Some_2 tab (i - 1)) as [rowa Hrowa]; [lia|].
  destruct (lookup_lt_is_Some_2 tab (k - i - 1)) as [rowb Hrowb]; [lia|].
  destruct (lookup_lt_is_Some_2 tab (k - 1)) as [rowk Hrowk]; [lia|].
  rewrite (list_lookup_total_correct _ _ _ Hrowa) in Hmerge.
  rewrite (list_lookup_total_correct _ _ _ Hrowb) in Hmerge.
  split; [done|]. split.
  - intros idx row p Hrow Hp.
    destruct (decide (idx = k - 1)) as [->|Hne].
    + rewrite !take_alter_ge by lia.
      rewrite list_lookup_alter_eq, list_lookup_alter_eq, Hrowk in Hrow.
      simpl in Hrow. injection Hrow as <-.
      unfold applyFiltersIfPossible in Hp.
      apply list_elem_of_fmap in Hp as (q & -> & Hq).
      apply planGood_applyFilters.
      apply elem_of_app in Hq as [Hq|Hq]; [by eapply Hgood|].
      assert (i - 1 + (k - i - 1) + 1 = k - 1) as Hidx by lia.
      rewrite <-Hidx at 2.
      eapply (merge_rows_good tg (take (k - 1) tab) (i - 1) (k - i - 1));
        [by rewrite lookup_take_lt|by rewrite lookup_take_lt| | |done|done].
      * intros a Ha. rewrite take_take, Nat.min_l by lia. by eapply Hgood.
      * intros b Hb. rewrite take_take, Nat.min_l by lia. by eapply Hgood.
    + rewrite !list_lookup_alter_ne in Hrow by done.
      assert (idx < k - 1) as Hidx.
      { apply lookup_lt_Some in Hrow. lia. }
      rewrite !take_alter_ge by lia. by eapply Hgood.
  - by rewrite !take_alter_ge by lia.
Qed.

Lemma tabGood_snoc_nil tg tab : tabGood tg tab → tabGood tg (tab ++ [[]]).
Proof.
  intros Hgood k row p Hrow Hp.
  destruct (decide (k < length tab)) as [Hlt|Hge].
  - rewrite lookup_app_l in Hrow by done.
    rewrite take_app_le by lia. by eapply Hgood.
  - rewrite lookup_app_r in Hrow by lia.
    destruct (k - length tab); simpl in Hrow; [|done].
    injection Hrow as <-. inversion Hp.
Qed.

Lemma fillDpRow_good tg filters tab k tab' :
  2 ≤ k → length tab = k - 1 → tabGood tg tab →
  fillDpRow tg filters tab k = Ok tab' →
  length tab' = k ∧ tabGood tg tab'.
Proof.
  intros Hk Hlen Hgood. unfold fillDpRow. intros Hrun.
  apply (rfold_invariant (λ t, length t = k ∧ tabGood tg t) _ _ _ _) in Hrun;
    [done| |].
  - split; [rewrite length_app; simpl; lia|by apply tabGood_snoc_nil].
  - intros t i t' Hi [Hl Hg] Hstep. apply elem_of_seq in Hi.
    destruct (fillDpStep_good tg filters k t i t') as (? & ? & _);
      [done|lia|done..].
Qed.

Lemma fillDpRows_good tg filters n start tab tab' :
  2 ≤ start → length tab = start - 1 → tabGood tg tab →
  rfold (fillDpRow tg filters) (seq start n) tab = Ok tab' →
  tabGood tg tab'.
Proof.
  revert start tab. induction n as [|n IH]; simpl; intros start tab Hs Hlen Hgood Hrun.
  - by injection Hrun as <-.
  - apply rbind_Ok in Hrun as (tab1 & Hrow & Hrun).
    destruct (fillDpRow_good _ _ _ _ _ Hs Hlen Hgood Hrow) as [Hlen1 Hgood1].
    apply (IH (S start) tab1); [lia|lia|done|done].
Qed.

Lemma fillDpTab_good tg filters tab :
  fillDpTab tg filters = Ok tab → tabGood tg tab.
Proof.
  unfold fillDpTab. intros Hrun.
  apply rbind_Ok in Hrun as (seeds & Hseeds & Hrun).
  eapply (fillDpRows_good tg filters _ 2 [applyFiltersIfPossible seeds filters]);
    [lia|reflexivity| |exact Hrun].
  intros k row p Hrow Hp. destruct k; simpl in Hrow; [|done].
  injection Hrow as <-. apply list_elem_of_fmap in Hp as (q & -> & Hq).
  apply planGood_applyFilters.
  pose proof (seedWithScansAndText_nodes _ _ _ Hseeds Hq) as Hsize.
  unfold planGood. split_and!; [done|by apply size_1_inducedConnected|lia|lia].
Qed.

(** C2.  Every plan in row [k] of the table that [fillDpTab] returns (rows
    are counted from 0 here, so this is row [k + 1] of the specification)
    covers exactly [k + 1] nodes, and these nodes induce a connected
    subgraph of the triple graph.  From the second row on, the plan joins a
    plan [a] and a plan [b] of two earlier rows whose sizes add up, whose
    node sets are disjoint, and with a graph edge from a node of [a] to a
    node of [b]. *)
Theorem fillDpTab_rows_cover_connected_node_sets tg filters tab :
  fillDpTab tg filters = Ok tab →
  ∀ k row p, tab !! k = Some row → p ∈ row →
    size (nodes p) = S k ∧
    inducedConnected tg (nodes p) ∧
    (0 < k → ∃ i j rowa rowb a b,
       i + j + 1 = k ∧ tab !! i = Some rowa ∧ tab !! j = Some rowb ∧
       a ∈ rowa ∧ b ∈ rowb ∧
       nodes p = nodes a ∪ nodes b ∧
       nodes a ## nodes b ∧
       ∃ n t, n ∈ nodes a ∧ t ∈ nodes b ∧ t ∈ _adjLists tg !!! n).
Proof.
  intros Hrun k row p Hrow Hp.
  destruct (fillDpTab_good _ _ _ Hrun k row p Hrow Hp) as (Hs & Hc & _ & Hsplit).
  split_and!; [done..|]. intros Hk.
  destruct (Hsplit Hk) as (i & j & rowa & rowb & a & b & Hij & Ha & Hb & Hina & Hinb & Hconn & Hn).
  apply lookup_take_Some in Ha as [Ha _]. apply lookup_take_Some in Hb as [Hb _].
  destruct (connected_true _ _ _ Hconn) as [Hdisj Hedge].
  exists i, j, rowa, rowb, a, b. done.
Qed.
End DpProofs.

(** ** Seeding *)

Section SeedProofs.
Context `{ops : Operators}.




End SeedProofs.


(** A variable as predicate is not supported: the node of [<s> ?p <o>] is
    refused. *)
Lemma predicate_variable_is_refused :
  seedNode (ops:=Demo.operators) 0
    (NodeOfTriple 0 (mkTriple "<s>" "?p" "<o>"))
  = Throw NOT_YET_IMPLEMENTED "No predicate vars yet, please.".
Proof. vm_compute. reflexivity. Qed.

(** ** The text limit and the planner on concrete queries *)

Lemma digitValue_pretty_N_char d :
  (d < 10)%N → digitValue (pretty_N_char d) = Some (Z.of_N d).
Proof.
  intros Hd.
  assert (d = 0 ∨ d = 1 ∨ d = 2 ∨ d = 3 ∨ d = 4 ∨ d = 5 ∨ d = 6 ∨ d = 7 ∨
          d = 8 ∨ d = 9)%N as Hcases by lia.
  repeat (destruct Hcases as [->|Hcases]; [reflexivity|]). by subst.
Qed.

Lemma readDigits_pretty_N_go x s :
  readDigits 0 (pretty_N_go x s) = readDigits (Z.of_N x) s.
Proof.
  revert s. induction (N.lt_wf_0 x) as [x _ IH]; intros s.
  destruct (decide (x = 0)%N) as [->|Hx].
  - by rewrite pretty_N_go_0.
  - rewrite pretty_N_go_step by lia.
    rewrite IH by (apply N.div_lt; lia). simpl.
    rewrite digitValue_pretty_N_char by (apply N.mod_lt; lia).
    f_equal. rewrite <-N2Z.inj_mul with (n := 10%N), <-N2Z.inj_add.
    f_equal. rewrite (N.div_mod x 10) at 3 by lia. lia.
Qed.

Lemma pretty_N_go_head x s :
  (0 < x)%N → ∃ c rest, pretty_N_go x s = String c rest ∧ is_Some (digitValue c).
Proof.
  revert s. induction (N.lt_wf_0 x) as [x _ IH]; intros s Hx.
  rewrite pretty_N_go_step by done.
  destruct (decide (x `div` 10 = 0)%N) as [Hz|Hnz].
  - rewrite Hz, pretty_N_go_0. eexists _, _. split; [done|].
    rewrite digitValue_pretty_N_char by (apply N.mod_lt; lia). by eexists.
  - apply IH; [apply N.div_lt; lia|by apply N.neq_0_lt_0].
Qed.

Lemma digit_not_space_or_sign c :
  is_Some (digitValue c) →
  isSpace c = false ∧ c ≠ "-"%char ∧ c ≠ "+"%char.
Proof.
  unfold digitValue, isSpace. intros [d Hd].
  destruct (bool_decide (48 ≤ nat_of_ascii c) && bool_decide (nat_of_ascii c ≤ 57))
    eqn:Hrange; [|done].
  apply andb_true_iff in Hrange as [Hlo%bool_decide_eq_true Hhi%bool_decide_eq_true].
  split_and!.
  - apply orb_false_iff. split.
    + apply bool_decide_eq_false. lia.
    + apply andb_false_iff. right. apply bool_decide_eq_false. lia.
  - intros ->. vm_compute in Hlo. lia.
  - intros ->. vm_compute in Hlo. lia.
Qed.

Lemma long_in_range z :
  (LONG_MIN ≤ z ≤ LONG_MAX)%Z → Z.max LONG_MIN (Z.min LONG_MAX z) = z.
Proof. unfold LONG_MIN, LONG_MAX. lia. Qed.

Lemma atol_unsigned c rest :
  isSpace c = false → c ≠ "-"%char → c ≠ "+"%char →
  atol (String c rest)
  = Z.max LONG_MIN (Z.min LONG_MAX (readDigits 0 (String c rest))).
Proof.
  intros Hsp Hm Hp. unfold atol. cbn [skipSpaces]. rewrite Hsp.
  destruct c as [[] [] [] [] [] [] [] []]; try done.
Qed.

Lemma atol_pretty (n : N) :
  (Z.of_N n ≤ LONG_MAX)%Z → atol (pretty n) = Z.of_N n.
Proof.
  intros Hn. unfold pretty, pretty_N. case_decide as Hz; [by subst|].
  destruct (pretty_N_go_head n "") as (c & rest & Hs & Hc); [lia|].
  destruct (digit_not_space_or_sign c Hc) as (Hsp & Hm & Hp).
  rewrite Hs, atol_unsigned by done.
  rewrite <- Hs, readDigits_pretty_N_go. simpl.
  apply long_in_range. unfold LONG_MIN. lia.
Qed.

(** [getTextLimit] gives 1 for the empty string and reads back every
    decimal numeral whose value fits a [long], the result type of
    [atol]. *)
Theorem getTextLimit_parses_decimal :
  getTextLimit "" = 1%N ∧
  ∀ n : N, (Z.of_N n ≤ LONG_MAX)%Z → getTextLimit (pretty n) = n.
Proof.
  split; [reflexivity|]. intros n Hn. unfold getTextLimit.
  case_bool_decide as Hlen.
  - exfalso. unfold pretty, pretty_N in Hlen. case_decide; [done|].
    destruct (pretty_N_go_head n "") as (c & rest & Hs & _); [lia|].
    by rewrite Hs in Hlen.
  - rewrite atol_pretty by done. unfold toSizeT, LONG_MAX in *.
    rewrite Z.mod_small by lia. lia.
Qed.

Section TextLimit.
Context `{ops : Operators}.

Lemma createExecutionTree_cases pq t :
  createExecutionTree pq = Ok t →
  ∃ best,
    t = if _distinct pq
        then setOperation DISTINCT
               (Distinct (_qet best) (distinctKeepIndices pq (_qet best)))
               (_qet best)
        else setTextLimit (getTextLimit (_textLimit pq)) (_qet best).
Proof.
  unfold createExecutionTree. intros Hrun.
  apply rbind_Ok in Hrun as (tg & _ & Hrun).
  apply rbind_Ok in Hrun as (dpTab & _ & Hrun).
  apply rbind_Ok in Hrun as (finalTab & _ & Hrun).
  destruct (last finalTab) as [[|first others]|]; [done| |done].
  destruct (_ !! _) as [best|]; [|done].
  exists best. destruct (_distinct pq); by injection Hrun as <-.
Qed.

(** Without DISTINCT the returned tree carries the parsed text limit. *)
Theorem createExecutionTree_textLimit_without_distinct pq t :
  _distinct pq = false →
  createExecutionTree pq = Ok t →
  getTextLimitOf t = getTextLimit (_textLimit pq).
Proof.
  intros Hd Hrun. destruct (createExecutionTree_cases _ _ Hrun) as [best ->].
  rewrite Hd. by destruct (_qet best).
Qed.
End TextLimit.

(** C6.  The text limit of a DISTINCT query is not attached: for the query
    [distinctQuery], whose text-limit string is ["5"], [createExecutionTree]
    returns the DISTINCT tree with the default text limit; the same query
    without DISTINCT gets the text limit 5. *)
Theorem createExecutionTree_distinct_drops_textLimit :
  getTextLimit (_textLimit Demo.distinctQuery) = 5%N ∧
  (∃ t, createExecutionTree (ops:=Demo.operators) Demo.distinctQuery = Ok t ∧
        getType t = DISTINCT ∧
        getTextLimitOf t = defaultTextLimit (Operators:=Demo.operators)) ∧
  (∃ t, createExecutionTree (ops:=Demo.operators) Demo.plainQuery = Ok t ∧
        getType t = SCAN ∧ getTextLimitOf t = 5%N).
Proof.
  split_and!.
  - reflexivity.
  - eexists. split; [vm_compute; reflexivity|]. split; reflexivity.
  - eexists. split; [vm_compute; reflexivity|]. split; reflexivity.
Qed.



(** The table of [?x <p> ?y . ?y <q> <o>] has two rows that satisfy the
    invariant. *)
Lemma fillDpTab_rows_witness :
  ∃ tab,
    fillDpTab (ops:=Demo.operators) (createTripleGraph Demo.joinQuery) [] = Ok tab ∧
    length tab = 2 ∧
    ∀ k row p, tab !! k = Some row → p ∈ row →
      size (_idsOfIncludedNodes p) = S k ∧
      inducedConnected (createTripleGraph Demo.joinQuery) (_idsOfIncludedNodes p).
Proof.
  eexists. split; [vm_compute; reflexivity|]. split; [reflexivity|].
  intros k row p Hrow Hp.
  destruct (fillDpTab_rows_cover_connected_node_sets (ops:=Demo.operators)
              (createTripleGraph Demo.joinQuery) [] _ ltac:(vm_compute; reflexivity)
              k row p Hrow Hp) as (Hs & Hc & _).
  split; [exact Hs|exact Hc].
Defined.

(** * Further properties of the query planner *)

(** ** applyFiltersIfPossible *)

Section FilterProofs.
Context `{ops : Operators}.
Implicit Types (p : SubtreePlan).

Lemma applyFiltersToPlan_fold filters p :
  applyFiltersToPlan filters p
  = foldl applyFilter p (imap (λ i f, (i, f)) filters).
Proof.
  unfold applyFiltersToPlan. f_equal.
Qed.

Lemma applyFilter_frame p i f :
  let q := applyFilter p (i, f) in
  _idsOfIncludedNodes q = _idsOfIncludedNodes p ∧
  getVariableColumnMap (_qet q) = getVariableColumnMap (_qet p) ∧
  getContextVars (_qet q) = getContextVars (_qet p) ∧
  (∀ j, j ∈ _idsOfIncludedFilters q ↔
        j ∈ _idsOfIncludedFilters p ∨ (j = i ∧ filterApplies p f)).
Proof.
  unfold applyFilter, filterApplies. case_bool_decide as Hin.
  - split_and!; [done..|]. intros j. split; [by left|].
    intros [?|[-> _]]; done.
  - destruct (getVariableColumnMap (_qet p) !! _lhs f) as [l|] eqn:Hl;
      [destruct (getVariableColumnMap (_qet p) !! _rhs f) as [r|] eqn:Hr|].
    + cbn. split_and!; [done| | |].
      * by destruct (_qet p).
      * by destruct (_qet p).
      * intros j. rewrite elem_of_union, elem_of_singleton.
        split; [intros [->|?]; [right|left]; eauto|].
        intros [?|[-> _]]; auto.
    + split_and!; [done..|]. intros j. split; [by left|].
      intros [?|[_ [_ [? [=]]]]]; done.
    + split_and!; [done..|]. intros j. split; [by left|].
      intros [?|[_ [[? [=]] _]]]; done.
Qed.

Lemma filterApplies_frame p q f :
  getVariableColumnMap (_qet q) = getVariableColumnMap (_qet p) →
  filterApplies q f ↔ filterApplies p f.
Proof. unfold filterApplies. by intros ->. Qed.

Lemma foldl_applyFilter_frame (l : list (nat * SparqlFilter)) p :
  let q := foldl applyFilter p l in
  _idsOfIncludedNodes q = _idsOfIncludedNodes p ∧
  getVariableColumnMap (_qet q) = getVariableColumnMap (_qet p) ∧
  getContextVars (_qet q) = getContextVars (_qet p) ∧
  (∀ j, j ∈ _idsOfIncludedFilters q ↔
        j ∈ _idsOfIncludedFilters p ∨
        ∃ f, (j, f) ∈ l ∧ filterApplies p f).
Proof.
  revert p. induction l as [|[i f] l IH]; intros p; cbn [foldl].
  - split_and!; [done..|]. intros j. split; [by left|].
    intros [?|(f & Hf & _)]; [done|]. by apply elem_of_nil in Hf.
  - destruct (IH (applyFilter p (i, f))) as (Hn & Hm & Hc & Hf).
    destruct (applyFilter_frame p i f) as (Hn1 & Hm1 & Hc1 & Hf1).
    split_and!; [congruence..|].
    intros j. rewrite Hf, Hf1. split.
    + intros [[?|[-> Happ]]|(g & Hg & Happ)].
      * by left.
      * right. exists f. split; [by left|done].
      * right. exists g. split; [by right|]. by eapply filterApplies_frame.
    + intros [?|(g & Hg & Happ)]; [by left; left|].
      apply elem_of_cons in Hg as [[= -> ->]|Hg].
      * left. by right.
      * right. exists g. split; [done|]. by eapply filterApplies_frame.
Qed.

Lemma elem_of_indexed {A} (l : list A) i x :
  (i, x) ∈ imap (λ i x, (i, x)) l ↔ l !! i = Some x.
Proof.
  rewrite elem_of_lookup_imap. split.
  - by intros (j & y & [= -> ->] & Hl).
  - intros Hl. by exists i, x.
Qed.

Lemma foldl_applyFilter_done (l : list (nat * SparqlFilter)) p :
  (∀ i f, (i, f) ∈ l → i ∈ _idsOfIncludedFilters p ∨ ¬ filterApplies p f) →
  foldl applyFilter p l = p.
Proof.
  induction l as [|[i f] l IH]; intros Hl; [done|]. cbn [foldl].
  assert (applyFilter p (i, f) = p) as ->.
  { destruct (Hl i f) as [Hin|Hno]; [by left|..]; unfold applyFilter.
    - by rewrite bool_decide_eq_true_2.
    - case_bool_decide; [done|]. unfold filterApplies in Hno.
      destruct (_ !! _lhs f); [|done]. destruct (_ !! _rhs f); [|done].
      destruct Hno; eauto. }
  apply IH. intros j g Hg. apply Hl. by right.
Qed.

(** [applyFiltersIfPossible] keeps the number of plans and, plan by plan,
    the covered nodes, the column map and the context variables.
    Afterwards a plan includes filter [i] exactly when it included it
    before or both variables of filter [i] have a column in the plan.
    Applying the filters a second time changes nothing. *)
Theorem applyFiltersIfPossible_applies_every_filter_once row filters :
  let row' := applyFiltersIfPossible row filters in
  length row' = length row ∧
  (∀ n p, row !! n = Some p →
     ∃ p', row' !! n = Some p' ∧
       _idsOfIncludedNodes p' = _idsOfIncludedNodes p ∧
       getVariableColumnMap (_qet p') = getVariableColumnMap (_qet p) ∧
       getContextVars (_qet p') = getContextVars (_qet p) ∧
       ∀ i, i ∈ _idsOfIncludedFilters p' ↔
            i ∈ _idsOfIncludedFilters p ∨
            ∃ f, filters !! i = Some f ∧ filterApplies p f) ∧
  applyFiltersIfPossible row' filters = row'.
Proof.
  unfold applyFiltersIfPossible. split_and!.
  - by rewrite length_fmap.
  - intros n p Hp. exists (applyFiltersToPlan filters p).
    rewrite list_lookup_fmap, Hp. split; [done|].
    rewrite applyFiltersToPlan_fold.
    destruct (foldl_applyFilter_frame (imap (λ i f, (i, f)) filters) p)
      as (Hn & Hm & Hc & Hf).
    split_and!; [done..|]. intros i. rewrite Hf.
    by setoid_rewrite elem_of_indexed.
  - rewrite <- list_fmap_compose. apply list_fmap_ext. intros _ p _. cbn.
    rewrite !applyFiltersToPlan_fold.
    destruct (foldl_applyFilter_frame (imap (λ i f, (i, f)) filters) p)
      as (Hn & Hm & Hc & Hf).
    apply foldl_applyFilter_done. intros i f Hif.
    destruct (decide (filterApplies p f)) as [Happ|Hno].
    + left. apply Hf. right. eauto.
    + right. by rewrite filterApplies_frame.
Qed.

End FilterProofs.

(** ** getOrderByRow *)

Lemma rconcatMap_throws {A B} (f : A → result (list B)) (l : list A) x kind what :
  x ∈ l → f x = Throw kind what →
  ∃ kind' what', rconcatMap f l = Throw kind' what'.
Proof.
  induction l as [|y l IH]; intros Hx Hf; [by apply elem_of_nil in Hx|].
  cbn [rconcatMap]. apply elem_of_cons in Hx as [<-|Hx].
  - rewrite Hf. cbn. eauto.
  - destruct (f y) as [ys|k w]; cbn; [|eauto].
    destruct (IH Hx Hf) as (k & w & ->). cbn. eauto.
Qed.

Section OrderByProofs.
Context `{ops : Operators}.
Implicit Types (p : SubtreePlan).

Lemma wrapPlan_frame ty op previous :
  let plan := wrapPlan ty op previous in
  getType (_qet plan) = ty ∧
  getRootOperation (_qet plan) = Some op ∧
  _idsOfIncludedNodes plan = _idsOfIncludedNodes previous ∧
  _idsOfIncludedFilters plan = _idsOfIncludedFilters previous ∧
  getVariableColumnMap (_qet plan) = getVariableColumnMap (_qet previous) ∧
  getContextVars (_qet plan) = getContextVars (_qet previous).
Proof. unfold wrapPlan. by destruct (_qet previous). Qed.

Lemma sortIndices_result previous (ords : list OrderKey) :
  match rconcatMap
          (λ ord, col ← getVariableColumn (_qet previous) (_key ord);
                  Ok [(col, _desc ord)]) ords with
  | Ok sortIndices => sortIndicesOf previous ords sortIndices
  | Throw kind _ =>
      kind = CHECK_FAILED ∧
      ∃ ord, ord ∈ ords ∧
             getVariableColumnMap (_qet previous) !! _key ord = None
  end.
Proof.
  unfold sortIndicesOf. induction ords as [|ord ords IH]; cbn [rconcatMap].
  - constructor.
  - unfold getVariableColumn.
    destruct (getVariableColumnMap (_qet previous) !! _key ord) as [col|]
      eqn:Hcol; cbn.
    + destruct (rconcatMap _ ords) as [sortIndices|kind what]; cbn.
      * by constructor.
      * destruct IH as (-> & o & Ho & Hnone). split; [done|].
        exists o. split; [by right|done].
    + split; [done|]. exists ord. split; [by left|done].
Qed.

Lemma orderByPlan_result pq previous :
  match orderByPlan pq previous with
  | Ok plan => orderedLike pq previous plan
  | Throw kind _ =>
      kind = CHECK_FAILED ∧
      ∃ ord, ord ∈ _orderBy pq ∧
             getVariableColumnMap (_qet previous) !! _key ord = None
  end.
Proof.
  unfold orderByPlan, orderedLike.
  destruct (_orderBy pq) as [|ord [|ord' ords]] eqn:Hords.
  - cbn. destruct (wrapPlan_frame ORDER_BY (OrderBy (_qet previous) [])
                     previous) as (? & ? & ? & ? & ? & ?).
    split_and!; [done..|]. exists []. split; [constructor|done].
  - unfold getVariableColumn.
    destruct (getVariableColumnMap (_qet previous) !! _key ord) as [col|]
      eqn:Hcol.
    + destruct (_desc ord) eqn:Hdesc; cbn.
      * destruct (wrapPlan_frame ORDER_BY
                    (OrderBy (_qet previous) [(col, true)]) previous)
          as (? & ? & ? & ? & ? & ?).
        split_and!; [done..|]. exists [(col, true)].
        split; [|done]. by repeat constructor.
      * case_bool_decide as Hsorted.
        -- split_and!; [done..|]. exists [(col, false)].
           split; [by repeat constructor|].
           by rewrite bool_decide_eq_true_2.
        -- destruct (wrapPlan_frame SORT (Sort (_qet previous) col) previous)
             as (? & ? & ? & ? & ? & ?).
           split_and!; [done..|]. exists [(col, false)].
           split; [by repeat constructor|].
           by rewrite bool_decide_eq_false_2.
    + assert (∃ ord0, ord0 ∈ [ord] ∧
                getVariableColumnMap (_qet previous) !! _key ord0 = None)
        by (exists ord; split; [by left|done]).
      by destruct (_desc ord); cbn.
  - pose proof (sortIndices_result previous (ord :: ord' :: ords)) as Hsi.
    destruct (rconcatMap _ (ord :: ord' :: ords)) as [sortIndices|kind what];
      cbn; [|done].
    destruct (wrapPlan_frame ORDER_BY (OrderBy (_qet previous) sortIndices)
                previous) as (? & ? & ? & ? & ? & ?).
    split_and!; [done..|]. exists sortIndices. split; [done|].
    unfold sortIndicesOf in Hsi.
    inversion Hsi as [|? [c b] ? ? _ Hrest]; subst.
    inversion Hrest; subst. by destruct b.
Qed.

(** [getOrderByRow] returns one plan for every plan of the last row of the
    table, in the same order, each one [orderedLike] its original.  It
    fails only with a failed check, and only when some ORDER BY key has no
    column in some plan of the last row. *)
Theorem getOrderByRow_sorts_every_plan_of_the_last_row pq dpTab :
  let previousRow := default [] (last dpTab) in
  match getOrderByRow pq dpTab with
  | Ok added => Forall2 (orderedLike pq) previousRow added
  | Throw kind _ =>
      kind = CHECK_FAILED ∧
      ∃ previous ord,
        previous ∈ previousRow ∧ ord ∈ _orderBy pq ∧
        getVariableColumnMap (_qet previous) !! _key ord = None
  end.
Proof.
  intros previousRow. unfold getOrderByRow. fold previousRow.
  induction previousRow as [|previous row IH]; cbn [rconcatMap].
  - constructor.
  - pose proof (orderByPlan_result pq previous) as Hplan.
    destruct (orderByPlan pq previous) as [plan|kind what]; cbn.
    + destruct (rconcatMap _ row) as [added|kind what]; cbn.
      * by constructor.
      * destruct IH as (-> & q & ord & Hq & Hord & Hnone). split; [done|].
        exists q, ord. split; [by right|done].
    + destruct Hplan as (-> & ord & Hord & Hnone). split; [done|].
      exists previous, ord. split; [by left|done].
Qed.

End OrderByProofs.

(** ** createTripleGraph *)

Section GraphProofs.
Context `{ops : Operators}.

Lemma length_addEdge a b adj : length (addEdge a b adj) = length adj.
Proof. unfold addEdge. by rewrite !length_alter. Qed.

Lemma elem_of_addEdge a b adj x y :
  a < length adj → b < length adj → a ≠ b →
  y ∈ addEdge a b adj !!! x ↔
  y ∈ adj !!! x ∨ (x = a ∧ y = b) ∨ (x = b ∧ y = a).
Proof.
  intros Ha Hb Hab. unfold addEdge.
  rewrite !list_lookup_total_alter, length_alter.
  repeat case_decide; rewrite ?elem_of_app, ?list_elem_of_singleton;
    naive_solver lia.
Qed.

Section Connect.
Variables (nodeMap : gmap nat Node) (id : nat).
Hypothesis nodes_below :
  ∀ i, i < id → ∃ node, nodeMap !! i = Some node ∧ _id node = i.

Lemma connectVar_fold v (ids : list nat) adj :
  id < length adj → (∀ i, i ∈ ids → i < id) →
  let adj' := foldl (connectVar nodeMap id v) adj ids in
  length adj' = length adj ∧
  ∀ x y, y ∈ adj' !!! x ↔
    y ∈ adj !!! x ∨
    ∃ i node, i ∈ ids ∧ nodeMap !! i = Some node ∧ v ∈ _variables node ∧
              ((x = id ∧ y = i) ∨ (x = i ∧ y = id)).
Proof.
  revert adj. induction ids as [|i ids IH]; intros adj Hid His; cbn [foldl].
  - split; [done|]. intros x y. split; [by left|].
    intros [?|(i & node & Hi & _)]; [done|]. by apply elem_of_nil in Hi.
  - assert (i < id) as Hi by (apply His; by left).
    destruct (nodes_below i Hi) as (node & Hnode & Hnid).
    assert (length (connectVar nodeMap id v adj i) = length adj) as Hlen.
    { unfold connectVar. rewrite Hnode. case_bool_decide; [|done].
      apply length_addEdge. }
    destruct (IH (connectVar nodeMap id v adj i)) as [Hlen' Hmem];
      [lia|intros j Hj; apply His; by right|].
    split; [lia|]. intros x y. rewrite Hmem.
    assert (y ∈ connectVar nodeMap id v adj i !!! x ↔
            y ∈ adj !!! x ∨
            (v ∈ _variables node ∧ ((x = id ∧ y = i) ∨ (x = i ∧ y = id))))
      as ->.
    { unfold connectVar. rewrite Hnode. case_bool_decide as Hv.
      - rewrite Hnid, elem_of_addEdge by lia. naive_solver.
      - naive_solver. }
    split.
    + intros [[?|[Hv Hxy]]|(j & nj & Hj & Hnj & Hvj & Hxy)].
      * by left.
      * right. exists i, node. split; [by left|done].
      * right. exists j, nj. split; [by right|done].
    + intros [?|(j & nj & Hj & Hnj & Hvj & Hxy)]; [by left; left|].
      apply elem_of_cons in Hj as [->|Hj].
      * left. right. by simplify_eq.
      * right. exists j, nj. done.
Qed.

Lemma connectVars_fold (vs : list string) adj :
  id < length adj →
  let adj' :=
    foldl (λ adj v, foldl (connectVar nodeMap id v) adj (seq 0 id)) adj vs in
  length adj' = length adj ∧
  ∀ x y, y ∈ adj' !!! x ↔
    y ∈ adj !!! x ∨
    ∃ v i node, v ∈ vs ∧ i < id ∧ nodeMap !! i = Some node ∧
                v ∈ _variables node ∧
                ((x = id ∧ y = i) ∨ (x = i ∧ y = id)).
Proof.
  revert adj. induction vs as [|v vs IH]; intros adj Hid; cbn [foldl].
  - split; [done|]. intros x y. split; [by left|].
    intros [?|(v & i & node & Hv & _)]; [done|]. by apply elem_of_nil in Hv.
  - destruct (connectVar_fold v (seq 0 id) adj Hid) as [Hlen Hmem];
      [intros i Hi%elem_of_seq; lia|].
    destruct (IH (foldl (connectVar nodeMap id v) adj (seq 0 id))) as [Hlen' Hmem'];
      [lia|].
    split; [lia|]. intros x y. rewrite Hmem', Hmem. split.
    + intros [[?|(i & node & Hi%elem_of_seq & Hn & Hv & Hxy)]
             |(w & i & node & Hw & Hi & Hn & Hv & Hxy)].
      * by left.
      * right. exists v, i, node. split; [by left|]. split; [lia|done].
      * right. exists w, i, node. split; [by right|done].
    + intros [?|(w & i & node & Hw & Hi & Hn & Hv & Hxy)]; [by left; left|].
      apply elem_of_cons in Hw as [->|Hw].
      * left. right. exists i, node. split; [apply elem_of_seq; lia|done].
      * right. exists w, i, node. done.
Qed.

End Connect.

Lemma connectNewNode_fold tg addedNode :
  connectNewNode tg addedNode
  = foldl (λ adj v, foldl (connectVar (_nodeMap tg) (_id addedNode) v) adj
                      (seq 0 (_id addedNode)))
      (_adjLists tg) (elements (_variables addedNode)).
Proof. reflexivity. Qed.

Lemma graphOf_nil : graphOf [] (mkTripleGraph [] ∅ []).
Proof.
  split_and!; [done..|]. intros x y. cbn. split.
  - intros Hy. rewrite lookup_total_nil in Hy. by apply elem_of_nil in Hy.
  - intros (_ & tx & ty & v & Hx & _). done.
Qed.

Lemma shareVariable_snoc triples t x y :
  shareVariable (triples ++ [t]) x y ↔
  shareVariable triples x y ∨
  (x = length triples ∧ y = length triples ∧ variablesOf t ≠ ∅) ∨
  (x = length triples ∧ y < length triples ∧
   ∃ ty v, triples !! y = Some ty ∧ v ∈ variablesOf t ∧ v ∈ variablesOf ty) ∨
  (y = length triples ∧ x < length triples ∧
   ∃ tx v, triples !! x = Some tx ∧ v ∈ variablesOf t ∧ v ∈ variablesOf tx).
Proof.
  unfold shareVariable. split.
  - intros (tx & ty & v & Hx & Hy & Hvx & Hvy).
    apply lookup_app_Some in Hx as [Hx|[Hxl Hx]];
      apply lookup_app_Some in Hy as [Hy|[Hyl Hy]].
    + left. eauto 10.
    + apply list_lookup_singleton_Some in Hy as [Hy <-].
      apply lookup_lt_Some in Hx as Hxl.
      right; right; right. split; [lia|]. split; [done|]. eauto.
    + apply list_lookup_singleton_Some in Hx as [Hx <-].
      apply lookup_lt_Some in Hy as Hyl.
      right; right; left. split; [lia|]. split; [done|]. eauto.
    + apply list_lookup_singleton_Some in Hx as [Hx <-].
      apply list_lookup_singleton_Some in Hy as [Hy <-].
      right; left. split; [lia|]. split; [lia|]. set_solver.
  - intros [(tx & ty & v & Hx & Hy & Hv)
           |[(-> & -> & Hne)
            |[(-> & Hy & ty & v & Hty & Hv)|(-> & Hx & tx & v & Htx & Hv)]]].
    + exists tx, ty, v. rewrite !lookup_app_l by (by eapply lookup_lt_Some).
      done.
    + apply set_choose_L in Hne as [v Hv]. exists t, t, v.
      rewrite lookup_app_r, Nat.sub_diag by done. done.
    + exists t, ty, v. rewrite lookup_app_r, Nat.sub_diag by done.
      rewrite lookup_app_l by done. done.
    + exists tx, t, v. rewrite (lookup_app_r _ _ (length triples)),
        Nat.sub_diag by done.
      rewrite lookup_app_l by done. naive_solver.
Qed.

Lemma graphOf_addTriple triples tg t :
  graphOf triples tg → graphOf (triples ++ [t]) (addTriple tg t).
Proof.
  intros (Hlen & Hsize & Hstorage & Hmap & Hadj).
  assert (length (_nodeStorage tg) = length triples) as Hn
    by (by rewrite Hstorage, length_imap).
  unfold addTriple. rewrite Hn. cbn [_id NodeOfTriple].
  set (id := length triples).
  set (nodeMap := <[id := NodeOfTriple id t]> (_nodeMap tg)).
  assert (∀ i, nodeMap !! i = NodeOfTriple i <$> (triples ++ [t]) !! i)
    as Hmap'.
  { intros i. unfold nodeMap. destruct (decide (i = id)) as [->|Hi].
    - rewrite lookup_insert_eq. unfold id.
      by rewrite lookup_app_r, Nat.sub_diag.
    - rewrite lookup_insert_ne by done. rewrite Hmap.
      destruct (decide (i < id)).
      + by rewrite lookup_app_l.
      + rewrite !lookup_ge_None_2; [done|rewrite length_app; simpl|]; unfold id in *; lia. }
  assert (∀ i, i < id → ∃ node, nodeMap !! i = Some node ∧ _id node = i)
    as Hbelow.
  { intros i Hi. rewrite Hmap'. rewrite lookup_app_l by done.
    destruct (lookup_lt_is_Some_2 triples i Hi) as [ti ->]. eauto. }
  rewrite connectNewNode_fold. cbn [_adjLists _nodeMap _id _variables NodeOfTriple].
  fold id. fold nodeMap.
  destruct (connectVars_fold nodeMap id Hbelow (elements (variablesOf t))
              (_adjLists tg ++ [[]])) as [Hlen' Hmem].
  { rewrite length_app. simpl. unfold id. lia. }
  split_and!.
  - cbn [_adjLists]. rewrite Hlen', !length_app. simpl. unfold id. lia.
  - cbn [_nodeMap]. unfold nodeMap. rewrite map_size_insert_None.
    + rewrite Hsize, length_app. simpl. lia.
    + rewrite Hmap. unfold id. by rewrite lookup_ge_None_2.
  - cbn [_nodeStorage]. rewrite Hstorage, imap_app. cbn [imap].
    by rewrite Nat.add_0_r.
  - exact Hmap'.
  - intros x y. cbn [_adjLists]. rewrite Hmem, shareVariable_snoc.
    assert (y ∈ (_adjLists tg ++ [[]]) !!! x ↔ x ≠ y ∧ shareVariable triples x y)
      as ->.
    { rewrite <- Hadj. rewrite !list_lookup_total_alt.
      destruct (decide (x < length (_adjLists tg))).
      - by rewrite lookup_app_l.
      - rewrite (lookup_ge_None_2 (_adjLists tg)) by lia.
        destruct (decide (x = length (_adjLists tg))) as [->|].
        + by rewrite lookup_app_r, Nat.sub_diag.
        + rewrite lookup_ge_None_2; [done|]. rewrite length_app. simpl. lia. }
    assert (∀ v, v ∈ elements (variablesOf t) ↔ v ∈ variablesOf t) as Hel
      by (intros; apply elem_of_elements).
    split.
    + intros [[Hxy Hs]|(v & i & node & Hv & Hi & Hnode & Hvn & Hxy)].
      * split; [done|]. by left.
      * rewrite Hmap', lookup_app_l in Hnode by done.
        destruct (triples !! i) as [ti|] eqn:Hti; [|done].
        injection Hnode as <-. cbn in Hvn. apply Hel in Hv.
        destruct Hxy as [[-> ->]|[-> ->]].
        -- split; [unfold id in *; lia|]. right; right; left.
           split; [done|]. split; [done|]. eauto.
        -- split; [unfold id in *; lia|]. right; right; right.
           split; [done|]. split; [done|]. eauto.
    + intros [Hxy [Hs|[(-> & -> & _)|[(-> & Hy & ty & v & Hty & Hv & Hvy)
                                     |(-> & Hx & tx & v & Htx & Hv & Hvx)]]]].
      * left. done.
      * done.
      * right. exists v, y, (NodeOfTriple y ty). apply Hel in Hv.
        rewrite Hmap', lookup_app_l, Hty by done. naive_solver.
      * right. exists v, x, (NodeOfTriple x tx). apply Hel in Hv.
        rewrite Hmap', lookup_app_l, Htx by done. naive_solver.
Qed.

Lemma graphOf_foldl triples tg more :
  graphOf triples tg → graphOf (triples ++ more) (foldl addTriple tg more).
Proof.
  revert triples tg. induction more as [|t more IH]; intros triples tg Hg.
  - by rewrite app_nil_r.
  - cbn [foldl]. replace (triples ++ t :: more) with ((triples ++ [t]) ++ more)
      by (by rewrite <- app_assoc).
    apply IH. by apply graphOf_addTriple.
Qed.

Lemma createTripleGraph_graphOf pq :
  graphOf (_whereClauseTriples pq) (createTripleGraph pq).
Proof.
  exact (graphOf_foldl [] (mkTripleGraph [] ∅ []) (_whereClauseTriples pq)
           graphOf_nil).
Qed.

(** The graph of a query has one node and one adjacency list per triple,
    node [i] holding triple [i].  [y] is in the adjacency list of [x]
    exactly when [x] and [y] are different triples that share a variable;
    so adjacency is symmetric and no node is adjacent to itself. *)
Theorem createTripleGraph_links_the_triples_that_share_a_variable pq :
  let triples := _whereClauseTriples pq in
  let tg := createTripleGraph pq in
  length (_adjLists tg) = length triples ∧
  size (_nodeMap tg) = length triples ∧
  _nodeStorage tg = imap NodeOfTriple triples ∧
  (∀ i, _nodeMap tg !! i = NodeOfTriple i <$> triples !! i) ∧
  (∀ x y, y ∈ _adjLists tg !!! x ↔ x ≠ y ∧ shareVariable triples x y) ∧
  (∀ x y, y ∈ _adjLists tg !!! x → x ∈ _adjLists tg !!! y) ∧
  (∀ x, x ∉ _adjLists tg !!! x).
Proof.
  intros triples tg.
  pose proof (createTripleGraph_graphOf pq) as Hg.
  change (graphOf triples tg) in Hg.
  destruct Hg as (Hlen & Hsize & Hstorage & Hmap & Hadj).
  split_and!; try done.
  - intros x y. rewrite !Hadj. intros [Hxy (tx & ty & v & ? & ? & ? & ?)].
    split; [done|]. exists ty, tx, v. done.
  - intros x. rewrite Hadj. naive_solver.
Qed.

End GraphProofs.

(** ** seedWithScansAndText on the graph of a query *)

Lemma rconcatMap_result {A B} (f : A → result (list B)) (l : list A) :
  match rconcatMap f l with
  | Ok out => ∃ parts, Forall2 (λ x ys, f x = Ok ys) l parts ∧ out = mjoin parts
  | Throw kind what => ∃ x, x ∈ l ∧ f x = Throw kind what
  end.
Proof.
  induction l as [|x l IH]; cbn [rconcatMap].
  - exists []. split; [constructor|done].
  - destruct (f x) as [ys|kind what] eqn:Hx; cbn.
    + destruct (rconcatMap f l) as [zs|kind what]; cbn.
      * destruct IH as (parts & Hparts & ->). exists (ys :: parts).
        split; [by constructor|done].
      * destruct IH as (y & Hy & Hfy). exists y. split; [by right|done].
    + exists x. split; [by left|done].
Qed.

Section SeedErrors.
Context `{ops : Operators}.
Implicit Types (p : SubtreePlan).

Lemma scanPlan_frame i ty s pr o cols :
  let plan := scanPlan i ty s pr o cols in
  getType (_qet plan) = SCAN ∧
  getRootOperation (_qet plan) = Some (IndexScan ty s pr o) ∧
  _idsOfIncludedNodes plan = {[i]} ∧ _idsOfIncludedFilters plan = ∅.
Proof.
  unfold scanPlan. cbn [_qet _idsOfIncludedNodes _idsOfIncludedFilters].
  split_and!; [| |done..].
  - induction cols as [|[var col] cols IH] using rev_ind; [done|].
    rewrite foldl_snoc. by destruct (foldl _ _ cols).
  - induction cols as [|[var col] cols IH] using rev_ind; [done|].
    rewrite foldl_snoc. by destruct (foldl _ _ cols).
Qed.

Lemma seedNode_result i node :
  String.length (_cvar node) = 0 →
  let t := _triple node in
  let n := size (_variables node) in
  match seedNode i node with
  | Ok plans =>
      (∀ p, p ∈ plans →
         getType (_qet p) = SCAN ∧
         _idsOfIncludedNodes p = {[i]} ∧ _idsOfIncludedFilters p = ∅) ∧
      ((n = 1 ∧ length plans = 1 ∧
        (isVariable (_s t) = true ∨ isVariable (_o t) = true)) ∨
       (n = 2 ∧ length plans = 2 ∧ isVariable (_p t) = false))
  | Throw kind _ =>
      (kind = BAD_QUERY ∧ n = 0) ∨
      (kind = NOT_YET_IMPLEMENTED ∧
       ((n = 1 ∧ isVariable (_s t) = false ∧ isVariable (_o t) = false) ∨
        (n = 2 ∧ isVariable (_p t) = true) ∨ 3 ≤ n))
  end.
Proof.
  intros Hcvar t n. unfold seedNode. fold t. fold n.
  rewrite bool_decide_eq_false_2 by lia.
  assert (∀ ty s pr o cols plans,
            (∀ p, p ∈ plans →
               getType (_qet p) = SCAN ∧
               _idsOfIncludedNodes p = {[i]} ∧ _idsOfIncludedFilters p = ∅) →
            ∀ p, p ∈ scanPlan i ty s pr o cols :: plans →
               getType (_qet p) = SCAN ∧
               _idsOfIncludedNodes p = {[i]} ∧ _idsOfIncludedFilters p = ∅)
    as Hscan.
  { intros ty s pr o cols plans Hplans p [->|Hp]%elem_of_cons; [|by apply Hplans].
    destruct (scanPlan_frame i ty s pr o cols) as (? & _ & ? & ?). done. }
  assert (∀ p, p ∈ [] →
            getType (_qet p) = SCAN ∧
            _idsOfIncludedNodes p = {[i]} ∧ _idsOfIncludedFilters p = ∅)
    as Hnil by (intros p Hp; by apply elem_of_nil in Hp).
  destruct (bool_decide_reflect (n = 0)) as [H0|H0];
    destruct (bool_decide_reflect (n = 1)) as [H1|H1];
    destruct (bool_decide_reflect (n = 2)) as [H2|H2];
    destruct (bool_decide_reflect (3 ≤ n)) as [H3|H3]; try lia;
    destruct (isVariable (_s t)) eqn:Hs, (isVariable (_o t)) eqn:Ho,
      (isVariable (_p t)) eqn:Hp; cbn;
    first
      [ by left
      | right; split; [done|]; first [by left|by right; left|by right; right]
      | split;
        [ first [by apply Hscan|by apply Hscan, Hscan]
        | first [left; by auto|right; by auto] ] ].
Qed.

Lemma supportedTriple_seedNode i t :
  match seedNode i (NodeOfTriple i t) with
  | Ok plans =>
      supportedTriple t ∧ length plans = size (variablesOf t) ∧
      ∀ p, p ∈ plans →
        getType (_qet p) = SCAN ∧
        _idsOfIncludedNodes p = {[i]} ∧ _idsOfIncludedFilters p = ∅
  | Throw kind _ =>
      ¬ supportedTriple t ∧ (kind = BAD_QUERY ∨ kind = NOT_YET_IMPLEMENTED)
  end.
Proof.
  pose proof (seedNode_result i (NodeOfTriple i t)
                eq_refl) as Hseed.
  cbn [_triple _variables NodeOfTriple] in Hseed. unfold supportedTriple.
  destruct (seedNode i (NodeOfTriple i t)) as [plans|kind what].
  - destruct Hseed as [Hplans [(Hn & Hlen & Hso)|(Hn & Hlen & Hp)]].
    + split_and!; [by left|congruence|done].
    + split_and!; [by right|congruence|done].
  - destruct Hseed as [[-> Hn]|[-> Hn]].
    + split; [|by left]. intros [[? _]|[? _]]; lia.
    + split; [|by right].
      intros [[Hsize [Hs|Ho]]|[Hsize Hp]];
        destruct Hn as [(Hn & Hs' & Ho')|[(Hn & Hpv)|Hn]]; congruence || lia.
Qed.

(** On the graph of a query [seedWithScansAndText] succeeds only if every
    triple is supported, and then returns as many plans as the triples have
    variables in total, each a scan without filters that covers one node.
    It fails only with BAD_QUERY or NOT_YET_IMPLEMENTED, and only when some
    triple is not supported. *)
Theorem seedWithScansAndText_of_created_graph pq :
  let triples := _whereClauseTriples pq in
  match seedWithScansAndText (createTripleGraph pq) with
  | Ok seeds =>
      Forall supportedTriple triples ∧
      length seeds = sum_list ((λ t, size (variablesOf t)) <$> triples) ∧
      ∀ p, p ∈ seeds →
        getType (_qet p) = SCAN ∧ _idsOfIncludedFilters p = ∅ ∧
        ∃ i, i < length triples ∧ _idsOfIncludedNodes p = {[i]}
  | Throw kind _ =>
      (kind = BAD_QUERY ∨ kind = NOT_YET_IMPLEMENTED) ∧
      ∃ t, t ∈ triples ∧ ¬ supportedTriple t
  end.
Proof.
  intros triples.
  destruct (createTripleGraph_graphOf pq) as (_ & Hsize & _ & Hmap & _).
  fold triples in Hsize, Hmap.
  unfold seedWithScansAndText. rewrite Hsize.
  set (f := λ i, match _nodeMap (createTripleGraph pq) !! i with
                 | Some node => seedNode i node
                 | None => Throw UNDEFINED_BEHAVIOUR
                             "tg._nodeMap.find(i) == end()"
                 end).
  assert (∀ i t, triples !! i = Some t → f i = seedNode i (NodeOfTriple i t))
    as Hf.
  { intros i t Hi. unfold f. by rewrite Hmap, Hi. }
  pose proof (rconcatMap_result f (seq 0 (length triples))) as Hres.
  destruct (rconcatMap f (seq 0 (length triples))) as [seeds|kind what].
  - destruct Hres as (parts & Hparts & ->).
    assert (∀ i t, triples !! i = Some t →
              ∃ plans, parts !! i = Some plans ∧
                       seedNode i (NodeOfTriple i t) = Ok plans) as Hpart.
    { intros i t Hi.
      assert (seq 0 (length triples) !! i = Some i) as Hseq.
      { apply lookup_seq. split; [done|]. by eapply lookup_lt_Some. }
      destruct (Forall2_lookup_l _ _ _ _ _ Hparts Hseq) as (plans & Hp & Hfi).
      exists plans. split; [done|]. by rewrite <- (Hf _ _ Hi). }
    assert (length parts = length triples) as Hlen.
    { apply Forall2_length in Hparts. by rewrite length_seq in Hparts. }
    split_and!.
    + apply Forall_lookup. intros i t Hi.
      destruct (Hpart i t Hi) as (plans & _ & Hseed).
      pose proof (supportedTriple_seedNode i t) as Hs. rewrite Hseed in Hs.
      apply Hs.
    + rewrite length_join. f_equal.
      apply list_eq. intros i. rewrite !list_lookup_fmap.
      destruct (triples !! i) as [t|] eqn:Hi.
      * destruct (Hpart i t Hi) as (plans & -> & Hseed).
        pose proof (supportedTriple_seedNode i t) as Hs. rewrite Hseed in Hs.
        cbn. f_equal. apply Hs.
      * rewrite lookup_ge_None_2; [done|].
        apply lookup_ge_None_1 in Hi. lia.
    + intros p Hp. apply list_elem_of_join in Hp as (plans & Hp & Hplans).
      apply list_elem_of_lookup in Hplans as [i Hi].
      destruct (lookup_lt_is_Some_2 triples i) as [t Ht];
        [rewrite <- Hlen; by eapply lookup_lt_Some|].
      destruct (Hpart i t Ht) as (plans' & Hi' & Hseed).
      assert (plans' = plans) as -> by congruence.
      pose proof (supportedTriple_seedNode i t) as Hs. rewrite Hseed in Hs.
      destruct Hs as (_ & _ & Hall). destruct (Hall p Hp) as (? & ? & ?).
      split_and!; [done..|]. exists i. split; [by eapply lookup_lt_Some|done].
  - destruct Hres as (i & Hi%elem_of_seq & Hfi).
    destruct (lookup_lt_is_Some_2 triples i) as [t Ht]; [lia|].
    rewrite (Hf _ _ Ht) in Hfi.
    pose proof (supportedTriple_seedNode i t) as Hs. rewrite Hfi in Hs.
    destruct Hs as [Hno Hkind]. split; [done|].
    exists t. split; [by eapply list_elem_of_lookup_2|done].
Qed.

End SeedErrors.

(** ** More on the text limit *)

Lemma append_String c (a b : string) : String c a +:+ b = String c (a +:+ b).
Proof. reflexivity. Qed.

Lemma pretty_N_go_app x s : pretty_N_go x s = pretty_N_go x "" +:+ s.
Proof.
  revert s. induction (N.lt_wf_0 x) as [x _ IH]; intros s.
  destruct (decide (x = 0)%N) as [->|Hx].
  - by rewrite !pretty_N_go_0.
  - rewrite (pretty_N_go_step x s), (pretty_N_go_step x "") by lia.
    assert (x `div` 10 < x)%N as Hlt by (apply N.div_lt; lia).
    rewrite (IH _ Hlt (String (pretty_N_char (x `mod` 10)) s)).
    rewrite (IH _ Hlt (String (pretty_N_char (x `mod` 10)) "")).
    generalize (pretty_N_go (x `div` 10) ""). intros a.
    induction a as [|c a IHa]; [done|].
    rewrite !append_String. by rewrite IHa.
Qed.

Lemma readDigits_stops acc rest :
  match rest with
  | String c _ => digitValue c = None
  | EmptyString => True
  end →
  readDigits acc rest = acc.
Proof. destruct rest as [|c rest]; [done|]. simpl. by intros ->. Qed.

Lemma readDigits_pretty (n : N) rest :
  match rest with
  | String c _ => digitValue c = None
  | EmptyString => True
  end →
  readDigits 0 (pretty n +:+ rest) = Z.of_N n.
Proof.
  intros Hrest. unfold pretty, pretty_N. case_decide as Hn.
  - subst. rewrite append_String. simpl. by apply readDigits_stops.
  - rewrite <- pretty_N_go_app, readDigits_pretty_N_go.
    by apply readDigits_stops.
Qed.

Lemma pretty_head (n : N) rest :
  ∃ c tail, pretty n +:+ rest = String c tail ∧ is_Some (digitValue c).
Proof.
  unfold pretty, pretty_N. case_decide as Hn.
  - eexists _, _. split; [reflexivity|]. by eexists.
  - destruct (pretty_N_go_head n "") as (c & tail & -> & Hc); [lia|].
    rewrite append_String. eauto.
Qed.

Lemma atol_digits c tail :
  is_Some (digitValue c) →
  atol (String c tail)
  = Z.max LONG_MIN (Z.min LONG_MAX (readDigits 0 (String c tail))).
Proof.
  intros Hc. destruct (digit_not_space_or_sign c Hc) as (Hsp & Hm & Hp).
  by apply atol_unsigned.
Qed.

(** [getTextLimit] reads a leading decimal numeral whose value fits a
    [long] and ignores what follows it; a negative numeral [-n] within the
    range of [long] wraps around to [2^64 - n]; a string that starts with
    neither white space, a sign nor a digit gives 0; leading white space is
    skipped, and white space alone gives 0. *)
Theorem getTextLimit_edge_cases :
  (∀ (n : N) rest,
     (Z.of_N n ≤ LONG_MAX)%Z →
     match rest with
     | String c _ => digitValue c = None
     | EmptyString => True
     end →
     getTextLimit (pretty n +:+ rest) = n) ∧
  (∀ n : N, (0 < n)%N → (LONG_MIN ≤ - Z.of_N n)%Z →
     getTextLimit ("-" +:+ pretty n) = (2 ^ 64 - n)%N) ∧
  (∀ c rest,
     isSpace c = false → digitValue c = None →
     c ≠ "-"%char → c ≠ "+"%char →
     getTextLimit (String c rest) = 0%N) ∧
  (∀ c s, isSpace c = true → s ≠ "" →
     getTextLimit (String c s) = getTextLimit s) ∧
  (∀ c, isSpace c = true → getTextLimit (String c "") = 0%N).
Proof.
  split_and!.
  - intros n rest Hn Hrest. unfold getTextLimit.
    destruct (pretty_head n rest) as (c & tail & Hs & Hc).
    rewrite Hs. rewrite bool_decide_eq_false_2 by (simpl; lia).
    rewrite atol_digits by done. rewrite <- Hs, readDigits_pretty by done.
    rewrite long_in_range by (unfold LONG_MIN; lia).
    unfold toSizeT, LONG_MAX in *. rewrite Z.mod_small by lia. lia.
  - intros n Hpos Hn. unfold getTextLimit.
    rewrite bool_decide_eq_false_2 by (simpl; lia).
    unfold atol. rewrite append_String. cbn [skipSpaces isSpace].
    replace (isSpace "-") with false by reflexivity. cbv zeta.
    pose proof (readDigits_pretty n "" I) as Hd.
    assert (pretty n +:+ "" = pretty n) as Happ.
    { generalize (pretty n). intros a. induction a as [|c a IH]; [done|].
      by rewrite append_String, IH. }
    rewrite Happ in Hd. change ("" +:+ pretty n) with (pretty n). rewrite Hd.
    rewrite long_in_range by (unfold LONG_MAX; lia).
    unfold toSizeT, LONG_MIN in *.
    replace (- Z.of_N n)%Z with ((2 ^ 64 - Z.of_N n) + (-1) * 2 ^ 64)%Z by lia.
    rewrite Z.mod_add by lia. rewrite Z.mod_small by lia. lia.
  - intros c rest Hsp Hd Hm Hp. unfold getTextLimit.
    rewrite bool_decide_eq_false_2 by (simpl; lia).
    rewrite atol_unsigned by done.
    assert (readDigits 0 (String c rest) = 0%Z) as -> by (simpl; by rewrite Hd).
    reflexivity.
  - intros c s Hsp Hs. unfold getTextLimit.
    rewrite bool_decide_eq_false_2 by (simpl; lia).
    rewrite bool_decide_eq_false_2 by (destruct s; [done|simpl; lia]).
    unfold atol. cbn [skipSpaces]. by rewrite Hsp.
  - intros c Hsp. unfold getTextLimit, atol.
    rewrite bool_decide_eq_false_2 by (simpl; lia).
    cbn [skipSpaces]. rewrite Hsp. reflexivity.
Qed.

Section EdgeCases.
Context `{ops : Operators}.

(** ** Queries without text triples, and without any triple *)

Lemma collapseTextCliques_without_text_node tg :
  (∀ i, isTextNode tg i = false) → collapseTextCliques tg = Ok tg.
Proof.
  intros Hno. unfold collapseTextCliques, identifyTextCliques, findContextVars.
  assert (textTriples tg = []) as ->.
  { unfold textTriples. induction (seq 0 (length (_adjLists tg))) as [|i l IH];
      [done|]. cbn. by rewrite Hno. }
  reflexivity.
Qed.

(** When no triple of the query has one of the two text predicates,
    collapsing the text cliques leaves the graph of the query as it is, and
    the query is not taken for a pure text query. *)
Theorem query_without_text_triples_is_planned_on_its_triple_graph pq :
  (∀ t, t ∈ _whereClauseTriples pq →
        _p t ≠ IN_CONTEXT_RELATION ∧ _p t ≠ HAS_CONTEXT_RELATION) →
  let tg := createTripleGraph pq in
  collapseTextCliques tg = Ok tg ∧ isPureTextQuery tg = false.
Proof.
  intros Hno tg.
  destruct (createTripleGraph_graphOf pq) as (_ & _ & Hstorage & Hmap & _).
  fold tg in Hstorage, Hmap. split.
  - apply collapseTextCliques_without_text_node. intros i.
    unfold isTextNode. rewrite Hmap.
    destruct (_whereClauseTriples pq !! i) as [t|] eqn:Hi; [|done]. cbn.
    destruct (Hno t) as [H1 H2]; [by eapply list_elem_of_lookup_2|].
    by rewrite !bool_decide_eq_false_2.
  - unfold isPureTextQuery. rewrite Hstorage.
    destruct (_whereClauseTriples pq) as [|t [|t' l]]; done.
Qed.

(** A query without triples is refused by the check that the last row of
    the table is not empty. *)
Theorem query_without_triples_is_refused pq :
  _whereClauseTriples pq = [] →
  createExecutionTree pq = Throw CHECK_FAILED "lastRow.size() > 0".
Proof.
  intros Hnil. unfold createExecutionTree, createTripleGraph. rewrite Hnil.
  cbn [foldl].
  rewrite collapseTextCliques_without_text_node by done.
  cbn. destruct (_orderBy pq) as [|ord ords]; reflexivity.
Qed.

End EdgeCases.

Section MergeAndSelect.
Context `{ops : Operators}.
Implicit Types (p a b : SubtreePlan) (tg : TripleGraph).

(** ** connected *)

(** [connected a b tg] holds exactly when the node sets of [a] and [b] are
    disjoint and some node of [a] has a node of [b] in its adjacency list.
    On a graph with symmetric adjacency lists, in particular on the graph
    of a query, [connected] does not depend on the order of the two
    plans. *)
Theorem connected_is_symmetric_on_created_graphs :
  (∀ tg a b,
     connected a b tg = true ↔
     _idsOfIncludedNodes a ## _idsOfIncludedNodes b ∧
     ∃ n t, n ∈ _idsOfIncludedNodes a ∧ t ∈ _idsOfIncludedNodes b ∧
            t ∈ _adjLists tg !!! n) ∧
  (∀ tg a b,
     (∀ x y, y ∈ _adjLists tg !!! x → x ∈ _adjLists tg !!! y) →
     connected a b tg = connected b a tg) ∧
  (∀ pq a b,
     connected a b (createTripleGraph pq)
     = connected b a (createTripleGraph pq)).
Proof.
  assert (∀ tg a b,
            (∀ x y, y ∈ _adjLists tg !!! x → x ∈ _adjLists tg !!! y) →
            connected a b tg = connected b a tg) as Hsym.
  { intros tg a b Hadj.
    destruct (connected a b tg) eqn:Hab, (connected b a tg) eqn:Hba;
      try reflexivity.
    - apply connected_iff in Hab as (Hdisj & n & t & Hn & Ht & Hedge).
      rewrite <- Hba. symmetry. apply connected_iff. split; [done|].
      exists t, n. auto.
    - apply connected_iff in Hba as (Hdisj & n & t & Hn & Ht & Hedge).
      rewrite <- Hab. apply connected_iff. split; [done|].
      exists t, n. auto. }
  split_and!.
  - intros tg a b. apply connected_iff.
  - exact Hsym.
  - intros pq a b. apply Hsym.
    destruct (createTripleGraph_graphOf pq) as (_ & _ & _ & _ & Hadj).
    intros x y. rewrite !Hadj.
    intros [Hxy (tx & ty & v & ? & ? & ? & ?)].
    split; [done|]. exists ty, tx, v. done.
Qed.

(** ** getJoinColumns and merge *)

Lemma elem_of_getJoinColumns a b c1 c2 :
  (c1, c2) ∈ getJoinColumns a b ↔
  ∃ var, getVariableColumnMap (_qet a) !! var = Some c1 ∧
         getVariableColumnMap (_qet b) !! var = Some c2.
Proof.
  unfold getJoinColumns. rewrite list_elem_of_omap. split.
  - intros ([var col] & Hin & Hsome). apply elem_of_map_to_list in Hin.
    destruct (getVariableColumnMap (_qet b) !! var) as [colB|] eqn:Hb; [|done].
    injection Hsome as <- <-. eauto.
  - intros (var & Ha & Hb). exists (var, c1).
    split; [by apply elem_of_map_to_list|]. by rewrite Hb.
Qed.

Lemma mergePair_result tg a b :
  match mergePair tg a b with
  | Ok out =>
      ∀ key p, (key, p) ∈ out →
        connected a b tg = true ∧
        ∃ jc, getJoinColumns a b = [jc] ∧
              (p = joinPlan a b jc ∨ textWithFilterPlan a b jc = Ok p)
  | Throw kind _ =>
      connected a b tg = true ∧
      (kind = NOT_YET_IMPLEMENTED ∧ length (getJoinColumns a b) ≠ 1 ∨
       kind = UNDEFINED_BEHAVIOUR ∧
       xorb (isTextWithoutFilter a) (isTextWithoutFilter b) = true)
  end.
Proof.
  unfold mergePair. destruct (connected a b tg) eqn:Hconn.
  2:{ intros key p Hin. by apply elem_of_nil in Hin. }
  destruct (getJoinColumns a b) as [|jc [|jc' jcs]] eqn:Hjcs.
  - split; [done|]. left. done.
  - destruct (xorb _ _) eqn:Hxor.
    + destruct (textWithFilterPlan a b jc) as [plan|kind what] eqn:Htext; cbn.
      * intros key p [Hin|Hin]%elem_of_cons.
        -- injection Hin as -> ->. split; [done|]. exists jc. auto.
        -- apply list_elem_of_singleton in Hin. injection Hin as -> ->.
           split; [done|]. exists jc. auto.
      * split; [done|]. right. split; [|done].
        unfold textWithFilterPlan in Htext.
        repeat (case_match; try discriminate Htext); by simplify_eq.
    + cbn. intros key p Hin. apply list_elem_of_singleton in Hin.
      injection Hin as -> ->. split; [done|]. exists jc. auto.
  - split; [done|]. left. split; [done|]. simpl. lia.
Qed.

(** Every plan [merge] returns stems from a plan [ai] of the first and a
    plan [bj] of the second argument that are connected and have exactly
    one pair of join columns, the columns of a common variable; it is their
    join or a text operation with filter.  If a connected pair has no or
    several pairs of join columns, [merge] fails.  The join has each side
    sorted on its join column, covers the nodes of both sides and takes the
    filters of the left side only. *)
Theorem merge_joins_on_exactly_one_variable (a b : list SubtreePlan) tg :
  (∀ plans, merge a b tg = Ok plans →
     ∀ p, p ∈ plans →
       ∃ ai bj c1 c2,
         ai ∈ a ∧ bj ∈ b ∧ connected ai bj tg = true ∧
         getJoinColumns ai bj = [(c1, c2)] ∧
         (∃ var, getVariableColumnMap (_qet ai) !! var = Some c1 ∧
                 getVariableColumnMap (_qet bj) !! var = Some c2) ∧
         (p = joinPlan ai bj (c1, c2) ∨
          textWithFilterPlan ai bj (c1, c2) = Ok p)) ∧
  (∀ ai bj,
     ai ∈ a → bj ∈ b → connected ai bj tg = true →
     length (getJoinColumns ai bj) ≠ 1 →
     ∃ kind what, merge a b tg = Throw kind what) ∧
  (∀ ai bj c1 c2,
     let plan := joinPlan ai bj (c1, c2) in
     getType (_qet plan) = JOIN ∧
     getRootOperation (_qet plan)
     = Some (Join (sortedOn (_qet ai) c1) (sortedOn (_qet bj) c2) c1 c2) ∧
     _idsOfIncludedNodes plan = _idsOfIncludedNodes ai ∪ _idsOfIncludedNodes bj ∧
     _idsOfIncludedFilters plan = _idsOfIncludedFilters ai).
Proof.
  split_and!.
  - intros plans Hmerge p Hp.
    apply merge_plans_emitted in Hmerge as (emitted & Hem & Hkept).
    apply Hkept in Hp as [key Hp]. unfold mergeCandidates in Hem.
    apply (rconcatMap_Ok _ _ _ Hem) in Hp as (ai & outa & Hai & Hrow & Hp).
    apply (rconcatMap_Ok _ _ _ Hrow) in Hp as (bj & out & Hbj & Hpair & Hp).
    pose proof (mergePair_result tg ai bj) as Hres. rewrite Hpair in Hres.
    destruct (Hres key p Hp) as (Hconn & [c1 c2] & Hjc & Hplan).
    exists ai, bj, c1, c2. split_and!; try done.
    apply elem_of_getJoinColumns. rewrite Hjc. by left.
  - intros ai bj Hai Hbj Hconn Hlen. unfold merge, mergeCandidates.
    assert (∃ kind what, mergePair tg ai bj = Throw kind what)
      as (kind & what & Hpair).
    { pose proof (mergePair_result tg ai bj) as Hres.
      unfold mergePair in *. rewrite Hconn in *.
      destruct (getJoinColumns ai bj) as [|jc [|jc' jcs]]; [eauto|done|eauto]. }
    destruct (rconcatMap_throws (λ bj, mergePair tg ai bj) b bj kind what
                Hbj Hpair) as (kind' & what' & Hrow).
    destruct (rconcatMap_throws
                (λ ai, rconcatMap (λ bj, mergePair tg ai bj) b) a ai
                kind' what' Hai Hrow) as (kind'' & what'' & ->).
    cbn. eauto.
  - intros ai bj c1 c2. unfold joinPlan. cbn. done.
Qed.

(** ** The plan [createExecutionTree] selects *)

Lemma minIndexFrom_first_cheapest first others :
  ∃ best,
    (first :: others) !! minIndexFrom others 1 (planCost first) 0 = Some best ∧
    ∀ q, q ∈ first :: others → (planCost best ≤ planCost q)%N.
Proof.
  destruct (minIndexFrom_spec others 1 (planCost first) 0)
    as [[-> Hall]|(p & Hp & Hle & Hlt & Hall)].
  - exists first. split; [done|].
    intros q [->|Hq]%elem_of_cons; [lia|by apply Hall].
  - exists p. split.
    + set (j := minIndexFrom others 1 (planCost first) 0) in *.
      destruct j as [|j]; [lia|]. replace (S j - 1) with j in Hp by lia. done.
    + intros q [->|Hq]%elem_of_cons; [lia|by apply Hall].
Qed.

(** When [createExecutionTree] returns a tree, the tree is built from a
    plan of least cost estimate of the final row: the last row of the
    table, or the row [getOrderByRow] adds to it when the query has ORDER
    BY keys.  The tree is the plan's tree with the text limit of the query,
    or a DISTINCT on top of the plan's tree. *)
Theorem createExecutionTree_selects_a_cheapest_plan pq t :
  createExecutionTree pq = Ok t →
  ∃ tg dpTab lastRow best,
    collapseTextCliques (createTripleGraph pq) = Ok tg ∧
    (if isPureTextQuery tg
     then ∃ plan, pureTextQuery tg = Ok plan ∧ dpTab = [[plan]]
     else fillDpTab tg (_filters pq) = Ok dpTab) ∧
    (if bool_decide (0 < length (_orderBy pq))
     then getOrderByRow pq dpTab = Ok lastRow
     else last dpTab = Some lastRow) ∧
    best ∈ lastRow ∧
    (∀ q, q ∈ lastRow → (planCost best ≤ planCost q)%N) ∧
    t = if _distinct pq
        then setOperation DISTINCT
               (Distinct (_qet best) (distinctKeepIndices pq (_qet best)))
               (_qet best)
        else setTextLimit (getTextLimit (_textLimit pq)) (_qet best).
Proof.
  unfold createExecutionTree. intros Hrun.
  apply rbind_Ok in Hrun as (tg & Htg & Hrun).
  apply rbind_Ok in Hrun as (dpTab & Hdp & Hrun).
  apply rbind_Ok in Hrun as (finalTab & Hfinal & Hrun).
  destruct (last finalTab) as [[|first others]|] eqn:Hlast; [done| |done].
  destruct (minIndexFrom_first_cheapest first others) as (best & Hbest & Hmin).
  rewrite Hbest in Hrun.
  exists tg, dpTab, (first :: others), best. split_and!.
  - done.
  - destruct (isPureTextQuery tg); [|done].
    apply rbind_Ok in Hdp as (plan & Hplan & [= <-]). eauto.
  - case_bool_decide.
    + apply rbind_Ok in Hfinal as (row & Hrow & [= <-]).
      rewrite last_snoc in Hlast. by injection Hlast as ->.
    + by injection Hfinal as ->.
  - by eapply list_elem_of_lookup_2.
  - done.
  - by destruct (_distinct pq); injection Hrun as <-.
Qed.

End MergeAndSelect.

Section TextLeaf.
Context `{ops : Operators}.

(** ** getTextLeafPlan *)

Lemma length_append (a b : string) :
  String.length (a +:+ b) = String.length a + String.length b.
Proof.
  induction a as [|c a IH]; [done|].
  rewrite append_String. simpl. by rewrite IH.
Qed.

Lemma textColumns_fold (cvar : string) (l : list string)
    (m0 : gmap string nat) (i0 : nat) :
  NoDup l →
  ∃ m index,
    foldl
      (λ '(m, index) var,
         if bool_decide (var ≠ cvar)
         then (<[var := index]> m, S index)
         else (m, index))
      (m0, i0) l = (m, index) ∧
    index = i0 + length (filter (λ v, v ≠ cvar) l) ∧
    (∀ v, v ∉ l ∨ v = cvar → m !! v = m0 !! v) ∧
    (∀ v, v ∈ l → v ≠ cvar → ∃ k, m !! v = Some k ∧ i0 ≤ k < index).
Proof.
  revert m0 i0. induction l as [|x l IH]; intros m0 i0 Hnd.
  - exists m0, i0. cbn. split_and!; [done|lia|done|].
    intros v Hv. by apply elem_of_nil in Hv.
  - apply NoDup_cons in Hnd as [Hx Hnd]. cbn [foldl].
    case_bool_decide as Hc.
    + destruct (IH (<[x := i0]> m0) (S i0) Hnd)
        as (m & index & -> & Hindex & Hold & Hnew).
      exists m, index. split_and!; [done| | |].
      * rewrite filter_cons_True by done. simpl. lia.
      * intros v Hv. rewrite Hold.
        -- apply lookup_insert_ne. intros ->.
           destruct Hv as [Hv| ->]; [|done]. apply Hv. by left.
        -- destruct Hv as [Hv|Hv]; [left|by right].
           intros Hin. apply Hv. by right.
      * intros v [->|Hv]%elem_of_cons Hvc.
        -- exists i0. split; [|lia].
           rewrite Hold by (by left). apply lookup_insert_eq.
        -- destruct (Hnew v Hv Hvc) as (k & Hk & Hrange).
           exists k. split; [done|lia].
    + subst x.
      destruct (IH m0 i0 Hnd) as (m & index & -> & Hindex & Hold & Hnew).
      exists m, index. split_and!; [done| | |].
      * rewrite filter_cons_False by (intros Hne; by apply Hne). done.
      * intros v Hv. apply Hold.
        destruct Hv as [Hv|Hv]; [left|by right].
        intros Hin. apply Hv. by right.
      * intros v [->|Hv]%elem_of_cons Hvc; [done|]. by apply Hnew.
Qed.

Lemma textColumns_fold_injective (cvar : string) (l : list string)
    (m0 : gmap string nat) (i0 : nat) m index :
  NoDup l →
  foldl
    (λ '(m, index) var,
       if bool_decide (var ≠ cvar)
       then (<[var := index]> m, S index)
       else (m, index))
    (m0, i0) l = (m, index) →
  ∀ v w k, v ∈ l → w ∈ l → v ≠ cvar → w ≠ cvar →
           m !! v = Some k → m !! w = Some k → v = w.
Proof.
  revert m0 i0. induction l as [|x l IH]; intros m0 i0 Hnd Hfold v w k Hv Hw.
  { by apply elem_of_nil in Hv. }
  apply NoDup_cons in Hnd as [Hx Hnd]. cbn [foldl] in Hfold.
  case_bool_decide as Hc.
  - destruct (textColumns_fold cvar l (<[x := i0]> m0) (S i0) Hnd)
      as (m' & index' & Hfold' & _ & Hold & Hnew).
    rewrite Hfold in Hfold'. injection Hfold' as <- <-.
    assert (m !! x = Some i0) as Hmx.
    { rewrite Hold by (by left). apply lookup_insert_eq. }
    apply elem_of_cons in Hv as [->|Hv], Hw as [->|Hw];
      intros Hvc Hwc Hkv Hkw.
    + done.
    + destruct (Hnew w Hw Hwc) as (k' & Hk' & Hrange).
      rewrite Hmx in Hkv. rewrite Hkw in Hk'. simplify_eq. lia.
    + destruct (Hnew v Hv Hvc) as (k' & Hk' & Hrange).
      rewrite Hmx in Hkw. rewrite Hkv in Hk'. simplify_eq. lia.
    + by eapply (IH _ _ Hnd Hfold v w k).
  - subst x.
    apply elem_of_cons in Hv as [->|Hv], Hw as [->|Hw];
      intros Hvc Hwc Hkv Hkw; try done.
    by eapply (IH _ _ Hnd Hfold v w k).
Qed.

(** [getTextLeafPlan] fails exactly when the node has no word part.
    Otherwise the plan covers the node alone, without filters, with the
    context variable as its only context variable; the context variable is
    column 0, its score column 1 (unless a variable of the node has the
    name of the score column), and the other variables of the node get
    pairwise different columns from 2 on; no other name has a column. *)
Theorem getTextLeafPlan_numbers_the_columns node :
  match getTextLeafPlan node with
  | Ok plan =>
      let m := getVariableColumnMap (_qet plan) in
      let score := "SCORE(" +:+ _cvar node +:+ ")" in
      _wordPart node ≠ "" ∧
      getType (_qet plan) = TEXT_WITHOUT_FILTER ∧
      _idsOfIncludedNodes plan = {[_id node]} ∧
      _idsOfIncludedFilters plan = ∅ ∧
      getContextVars (_qet plan) = {[_cvar node]} ∧
      m !! _cvar node = Some 0 ∧
      (score ∉ _variables node → m !! score = Some 1) ∧
      (∀ v, v ∈ _variables node → v ≠ _cvar node →
            ∃ k, m !! v = Some k ∧
                 2 ≤ k < 2 + size (_variables node ∖ {[_cvar node]})) ∧
      (∀ v w k, v ∈ _variables node → w ∈ _variables node →
                m !! v = Some k → m !! w = Some k → v = w) ∧
      (∀ v, is_Some (m !! v) ↔
            v = _cvar node ∨ v = score ∨ v ∈ _variables node)
  | Throw kind what =>
      _wordPart node = "" ∧ kind = CHECK_FAILED ∧
      what = "node._wordPart.size() > 0"
  end.
Proof.
  unfold getTextLeafPlan. case_bool_decide as Hlen.
  { split; [|done]. by destruct (_wordPart node). }
  set (score := "SCORE(" +:+ _cvar node +:+ ")").
  set (m0 := <[score := 1]> (<[_cvar node := 0]> (∅ : gmap string nat))).
  assert (score ≠ _cvar node) as Hscore.
  { intros Heq. apply (f_equal String.length) in Heq. unfold score in Heq.
    rewrite !length_append in Heq. simpl in Heq. lia. }
  pose proof (NoDup_elements (_variables node)) as Hnd.
  destruct (textColumns_fold (_cvar node) (elements (_variables node)) m0 2 Hnd)
    as (m & index & Hfold & Hindex & Hold & Hnew).
  pose proof (textColumns_fold_injective _ _ _ _ _ _ Hnd Hfold) as Hinj.
  rewrite Hfold. cbn.
  assert (m !! _cvar node = Some 0) as Hcvar.
  { rewrite Hold by (by right). unfold m0.
    rewrite lookup_insert_ne by done. apply lookup_insert_eq. }
  assert (length (filter (λ v, v ≠ _cvar node) (elements (_variables node)))
          = size (_variables node ∖ {[_cvar node]})) as Hsize.
  { unfold size, set_size. cbn. apply Permutation_length.
    apply NoDup_Permutation.
    - by apply NoDup_filter.
    - apply NoDup_elements.
    - intros v. rewrite list_elem_of_filter, !elem_of_elements. set_solver. }
  split_and!.
  - intros Hw. rewrite Hw in Hlen. by apply Hlen.
  - done.
  - done.
  - done.
  - unfold emptyTree. cbn. set_solver.
  - done.
  - intros Hnot. rewrite Hold.
    + unfold m0. apply lookup_insert_eq.
    + left. by rewrite elem_of_elements.
  - intros v Hv Hvc.
    destruct (Hnew v) as (k & Hk & Hrange);
      [by rewrite elem_of_elements|done|].
    exists k. split; [done|]. rewrite <- Hsize. lia.
  - intros v w k Hv Hw Hkv Hkw.
    destruct (decide (v = _cvar node)) as [->|Hvc],
             (decide (w = _cvar node)) as [->|Hwc]; [done| | |].
    + destruct (Hnew w) as (k' & Hk' & Hrange);
        [by rewrite elem_of_elements|done|].
      rewrite Hcvar in Hkv. rewrite Hkw in Hk'. simplify_eq. lia.
    + destruct (Hnew v) as (k' & Hk' & Hrange);
        [by rewrite elem_of_elements|done|].
      rewrite Hcvar in Hkw. rewrite Hkv in Hk'. simplify_eq. lia.
    + apply (Hinj v w k); by rewrite ?elem_of_elements.
  - intros v. split.
    + intros Hsome.
      destruct (decide (v ∈ _variables node)) as [Hin|Hnot]; [auto|].
      rewrite Hold in Hsome by (left; by rewrite elem_of_elements).
      unfold m0 in Hsome.
      apply lookup_insert_is_Some in Hsome as [<-|[_ Hsome]]; [auto|].
      apply lookup_insert_is_Some in Hsome as [<-|[_ Hsome]]; [auto|].
      by apply is_Some_None in Hsome.
    + intros [->|[->|Hin]].
      * by rewrite Hcvar.
      * destruct (decide (score ∈ _variables node)) as [Hin|Hnot].
        -- destruct (Hnew score) as (k & -> & _);
             [by rewrite elem_of_elements|done|done].
        -- rewrite Hold by (left; by rewrite elem_of_elements).
           unfold m0. by rewrite lookup_insert_eq.
      * destruct (decide (v = _cvar node)) as [->|Hvc]; [by rewrite Hcvar|].
        destruct (Hnew v) as (k & -> & _);
          [by rewrite elem_of_elements|done|done].
Qed.

End TextLeaf.

Section TextCliques.
Context `{ops : Operators}.

(** ** identifyTextCliques *)

Lemma omap_seq_sorted {B} (f : nat → option (nat * B)) start n :
  (∀ i x, f i = Some x → x.1 = i) →
  StronglySorted lt (omap f (seq start n)).*1 ∧
  Forall (λ i, start ≤ i) (omap f (seq start n)).*1.
Proof.
  intros Hf. revert start. induction n as [|n IH]; intros start; cbn.
  { split; constructor. }
  destruct (IH (S start)) as [Hsorted Hall].
  destruct (f start) as [x|] eqn:Hx; cbn.
  - apply Hf in Hx. rewrite Hx. split.
    + constructor; [done|]. eapply Forall_impl; [exact Hall|]. cbn. lia.
    + constructor; [done|]. eapply Forall_impl; [exact Hall|]. cbn. lia.
  - split; [done|]. eapply Forall_impl; [exact Hall|]. cbn. lia.
Qed.

Lemma elem_of_textTriples tg i t :
  (i, t) ∈ textTriples tg ↔ textNodeTriple tg i t.
Proof.
  unfold textTriples, textNodeTriple. rewrite list_elem_of_omap. split.
  - intros (j & Hj & Hsome). apply elem_of_seq in Hj.
    destruct (isTextNode tg j) eqn:Htext; [|done].
    destruct (_nodeMap tg !! j) as [node|] eqn:Hnode; [|done].
    injection Hsome as <- <-. rewrite Hnode. split_and!; [lia|done..].
  - intros (Hi & Htext & Ht). exists i. split; [apply elem_of_seq; lia|].
    rewrite Htext. destruct (_nodeMap tg !! i) as [node|]; [|done].
    by injection Ht as <-.
Qed.

Lemma textTriples_sorted tg : StronglySorted lt (textTriples tg).*1.
Proof.
  unfold textTriples. apply omap_seq_sorted. intros i x Hx.
  destruct (isTextNode tg i); [|done].
  destruct (_nodeMap tg !! i); [|done]. by injection Hx as <-.
Qed.

Lemma filter_fst_sorted {B} (P : nat * B → Prop) `{∀ x, Decision (P x)}
    (l : list (nat * B)) :
  StronglySorted lt l.*1 → StronglySorted lt (filter P l).*1.
Proof.
  induction l as [|[i t] tt IH]; intros Hsorted; [constructor|].
  cbn in Hsorted. apply StronglySorted_inv in Hsorted as [Hs Hall].
  rewrite filter_cons. case_decide; [|by apply IH].
  cbn. constructor; [by apply IH|].
  apply Forall_fmap, Forall_forall. intros [j u] Hj%list_elem_of_filter.
  destruct Hj as [_ Hj]. rewrite Forall_fmap, Forall_forall in Hall.
  by apply (Hall (j, u)).
Qed.

Lemma findContextVars_fold (tt : list (nat * SparqlTriple)) (c0 : gset string) :
  match
    rfold
      (λ contextVars '(_, t),
         c1 ←
           (if negb (isVariable (_s t))
            then
              if isVariable (_o t)
              then Ok ({[_o t]} ∪ contextVars)
              else Throw BAD_QUERY "Triples need at least one variable."
            else Ok contextVars);
         if negb (isVariable (_o t))
         then
           if isVariable (_s t)
           then Ok ({[_s t]} ∪ c1)
           else Throw BAD_QUERY "Triples need at least one variable."
         else Ok c1)
      tt c0
  with
  | Ok c =>
      (∀ v, v ∈ c ↔ v ∈ c0 ∨ ∃ i t, (i, t) ∈ tt ∧ contextVarOf t v) ∧
      (∀ i t, (i, t) ∈ tt →
              isVariable (_s t) = true ∨ isVariable (_o t) = true)
  | Throw kind what =>
      kind = BAD_QUERY ∧ what = "Triples need at least one variable." ∧
      ∃ i t, (i, t) ∈ tt ∧
             isVariable (_s t) = false ∧ isVariable (_o t) = false
  end.
Proof.
  revert c0. induction tt as [|[i t] tt IH]; intros c0.
  { cbn. split; [|intros i t Hin; by apply elem_of_nil in Hin].
    intros v. split; [auto|]. intros [Hv|(i & t & Hin & _)]; [done|].
    by apply elem_of_nil in Hin. }
  cbn [rfold].
  destruct (isVariable (_s t)) eqn:Hs, (isVariable (_o t)) eqn:Ho; cbn.
  - specialize (IH c0). destruct (rfold _ tt c0) as [c|kind what].
    + destruct IH as [Hc Hvars]. split.
      * intros v. rewrite Hc. split.
        -- intros [Hv|(j & u & Hin & Hcv)]; [by left|].
           right. exists j, u. split; [by right|done].
        -- intros [Hv|(j & u & [Heq|Hin]%elem_of_cons & Hcv)]; [by left| |].
           ++ injection Heq as -> ->. unfold contextVarOf in Hcv.
              rewrite Hs, Ho in Hcv. naive_solver.
           ++ right. eauto.
      * intros j u [Heq|Hin]%elem_of_cons; [|by eapply Hvars].
        injection Heq as -> ->. auto.
    + destruct IH as (-> & -> & j & u & Hin & Hno). split_and!; [done..|].
      exists j, u. split; [by right|done].
  - specialize (IH ({[_s t]} ∪ c0)).
    destruct (rfold _ tt _) as [c|kind what].
    + destruct IH as [Hc Hvars]. split.
      * intros v. rewrite Hc, elem_of_union, elem_of_singleton. split.
        -- intros [[->|Hv]|(j & u & Hin & Hcv)]; [|by left|].
           ++ right. exists i, t. split; [by left|]. right. done.
           ++ right. exists j, u. split; [by right|done].
        -- intros [Hv|(j & u & [Heq|Hin]%elem_of_cons & Hcv)]; [auto| |].
           ++ injection Heq as -> ->. unfold contextVarOf in Hcv.
              rewrite Hs, Ho in Hcv. naive_solver.
           ++ right. eauto.
      * intros j u [Heq|Hin]%elem_of_cons; [|by eapply Hvars].
        injection Heq as -> ->. auto.
    + destruct IH as (-> & -> & j & u & Hin & Hno). split_and!; [done..|].
      exists j, u. split; [by right|done].
  - specialize (IH ({[_o t]} ∪ c0)).
    destruct (rfold _ tt _) as [c|kind what].
    + destruct IH as [Hc Hvars]. split.
      * intros v. rewrite Hc, elem_of_union, elem_of_singleton. split.
        -- intros [[->|Hv]|(j & u & Hin & Hcv)]; [|by left|].
           ++ right. exists i, t. split; [by left|]. left. done.
           ++ right. exists j, u. split; [by right|done].
        -- intros [Hv|(j & u & [Heq|Hin]%elem_of_cons & Hcv)]; [auto| |].
           ++ injection Heq as -> ->. unfold contextVarOf in Hcv.
              rewrite Hs, Ho in Hcv. naive_solver.
           ++ right. eauto.
      * intros j u [Heq|Hin]%elem_of_cons; [|by eapply Hvars].
        injection Heq as -> ->. auto.
    + destruct IH as (-> & -> & j & u & Hin & Hno). split_and!; [done..|].
      exists j, u. split; [by right|done].
  - split_and!; [done..|]. exists i, t. split; [by left|done].
Qed.

Lemma pushBack_lookup key i (m : gmap string (list nat)) key' :
  default [] (pushBack key i m !! key')
  = default [] (m !! key') ++ (if bool_decide (key' = key) then [i] else []).
Proof.
  unfold pushBack. case_bool_decide as Hk.
  - subst key'. by rewrite lookup_insert_eq.
  - rewrite lookup_insert_ne by done. by rewrite app_nil_r.
Qed.

Lemma pushBack_is_Some key i (m : gmap string (list nat)) key' :
  is_Some (pushBack key i m !! key') ↔ key' = key ∨ is_Some (m !! key').
Proof.
  unfold pushBack. rewrite lookup_insert_is_Some.
  destruct (decide (key = key')); naive_solver.
Qed.

Lemma cliques_fold (cv : gset string) (tt : list (nat * SparqlTriple))
    (m0 : gmap string (list nat)) :
  match
    rfold
      (λ m '(i, t),
         m1 ←
           (if bool_decide (_s t ∈ cv)
            then
              if bool_decide (_o t ∈ cv)
              then Throw CHECK_FAILED "0 == contextVars.count(_triple._o)"
              else Ok (pushBack (_s t) i m)
            else Ok m);
         if bool_decide (_o t ∈ cv)
         then
           if bool_decide (_s t ∈ cv)
           then Throw CHECK_FAILED "0 == contextVars.count(_triple._s)"
           else Ok (pushBack (_o t) i m1)
         else Ok m1)
      tt m0
  with
  | Ok m =>
      (∀ i t, (i, t) ∈ tt → ¬ (_s t ∈ cv ∧ _o t ∈ cv)) ∧
      (∀ key,
         default [] (m !! key)
         = default [] (m0 !! key)
           ++ (filter (λ it, key ∈ cv ∧ (key = _s it.2 ∨ key = _o it.2)) tt).*1) ∧
      (∀ key,
         is_Some (m !! key) ↔
         is_Some (m0 !! key) ∨
         ∃ i t, (i, t) ∈ tt ∧ key ∈ cv ∧ (key = _s t ∨ key = _o t))
  | Throw kind what =>
      kind = CHECK_FAILED ∧
      ∃ i t, (i, t) ∈ tt ∧ _s t ∈ cv ∧ _o t ∈ cv
  end.
Proof.
  revert m0. induction tt as [|[i t] tt IH]; intros m0.
  { cbn. split_and!.
    - intros i t Hin. by apply elem_of_nil in Hin.
    - intros key. by rewrite app_nil_r.
    - intros key. split; [auto|]. intros [Hv|(i & t & Hin & _)]; [done|].
      by apply elem_of_nil in Hin. }
  cbn [rfold].
  assert (∀ m1 : gmap string (list nat),
    (∀ key, default [] (m1 !! key)
            = default [] (m0 !! key)
              ++ (if bool_decide (key ∈ cv ∧ (key = _s t ∨ key = _o t))
                  then [i] else [])) →
    (∀ key, is_Some (m1 !! key) ↔
            is_Some (m0 !! key) ∨ key ∈ cv ∧ (key = _s t ∨ key = _o t)) →
    ¬ (_s t ∈ cv ∧ _o t ∈ cv) →
    match rfold
      (λ m '(i, t),
         m1 ←
           (if bool_decide (_s t ∈ cv)
            then
              if bool_decide (_o t ∈ cv)
              then Throw CHECK_FAILED "0 == contextVars.count(_triple._o)"
              else Ok (pushBack (_s t) i m)
            else Ok m);
         if bool_decide (_o t ∈ cv)
         then
           if bool_decide (_s t ∈ cv)
           then Throw CHECK_FAILED "0 == contextVars.count(_triple._s)"
           else Ok (pushBack (_o t) i m1)
         else Ok m1)
      tt m1
    with
    | Ok m =>
        (∀ i0 t0, (i0, t0) ∈ (i, t) :: tt → ¬ (_s t0 ∈ cv ∧ _o t0 ∈ cv)) ∧
        (∀ key,
           default [] (m !! key)
           = default [] (m0 !! key)
             ++ (filter (λ it, key ∈ cv ∧ (key = _s it.2 ∨ key = _o it.2))
                   ((i, t) :: tt)).*1) ∧
        (∀ key,
           is_Some (m !! key) ↔
           is_Some (m0 !! key) ∨
           ∃ i0 t0, (i0, t0) ∈ (i, t) :: tt ∧ key ∈ cv ∧
                    (key = _s t0 ∨ key = _o t0))
    | Throw kind what =>
        kind = CHECK_FAILED ∧
        ∃ i0 t0, (i0, t0) ∈ (i, t) :: tt ∧ _s t0 ∈ cv ∧ _o t0 ∈ cv
    end) as Hstep.
  { intros m1 Hdef Hsome Hnot. specialize (IH m1).
    destruct (rfold _ tt m1) as [m|kind what].
    - destruct IH as (Hok & Hm & Hdom). split_and!.
      + intros j u [Heq|Hin]%elem_of_cons; [|by eapply Hok].
        by injection Heq as -> ->.
      + intros key. rewrite Hm, Hdef, <- app_assoc. f_equal.
        rewrite filter_cons. cbn [snd].
        case_bool_decide as Hk.
        * by rewrite decide_True by done.
        * by rewrite decide_False by done.
      + intros key. rewrite Hdom, Hsome. split.
        * intros [[Hv|Hv]|(j & u & Hin & Hv)]; [by left| |].
          -- right. exists i, t. split; [by left|done].
          -- right. exists j, u. split; [by right|done].
        * intros [Hv|(j & u & [Heq|Hin]%elem_of_cons & Hv)]; [auto| |].
          -- injection Heq as -> ->. auto.
          -- right. eauto.
    - destruct IH as (-> & j & u & Hin & Hboth). split; [done|].
      exists j, u. split; [by right|done]. }
  destruct (decide (_s t ∈ cv)) as [Hs|Hs], (decide (_o t ∈ cv)) as [Ho|Ho].
  - rewrite !bool_decide_eq_true_2 by done. cbn. split; [done|].
    exists i, t. split; [by left|done].
  - rewrite (bool_decide_eq_true_2 _ Hs), (bool_decide_eq_false_2 _ Ho). cbn.
    apply Hstep.
    + intros key. rewrite pushBack_lookup. f_equal.
      repeat case_bool_decide; naive_solver.
    + intros key. rewrite pushBack_is_Some. naive_solver.
    + naive_solver.
  - rewrite (bool_decide_eq_true_2 _ Ho), (bool_decide_eq_false_2 _ Hs). cbn.
    apply Hstep.
    + intros key. rewrite pushBack_lookup. f_equal.
      repeat case_bool_decide; naive_solver.
    + intros key. rewrite pushBack_is_Some. naive_solver.
    + naive_solver.
  - rewrite (bool_decide_eq_false_2 _ Ho), (bool_decide_eq_false_2 _ Hs). cbn.
    apply Hstep.
    + intros key. rewrite bool_decide_eq_false_2 by naive_solver.
      by rewrite app_nil_r.
    + intros key. naive_solver.
    + naive_solver.
Qed.

(** When [identifyTextCliques] succeeds, the context variables are the
    variable ends of the text triples whose other end is no variable; every
    text triple has a variable end and not two context variables as ends;
    the map has an entry for exactly the context variables, and the entry
    of a context variable lists, in increasing order, the text nodes that
    have it as subject or object.  It fails with BAD_QUERY only for a text
    triple without variable end, and with a failed check only for a text
    triple between two context variables. *)
Theorem identifyTextCliques_groups_text_nodes_by_context_variable tg :
  match identifyTextCliques tg with
  | Ok cliques =>
      ∃ contextVars,
        findContextVars tg = Ok contextVars ∧
        (∀ v, v ∈ contextVars ↔
              ∃ i t, textNodeTriple tg i t ∧ contextVarOf t v) ∧
        (∀ i t, textNodeTriple tg i t →
                (isVariable (_s t) = true ∨ isVariable (_o t) = true) ∧
                ¬ (_s t ∈ contextVars ∧ _o t ∈ contextVars)) ∧
        (∀ cvar, is_Some (cliques !! cvar) ↔ cvar ∈ contextVars) ∧
        (∀ cvar ids,
           cliques !! cvar = Some ids →
           StronglySorted lt ids ∧
           ∀ i, i ∈ ids ↔
                ∃ t, textNodeTriple tg i t ∧ (cvar = _s t ∨ cvar = _o t))
  | Throw kind what =>
      (kind = BAD_QUERY ∧ what = "Triples need at least one variable." ∧
       ∃ i t, textNodeTriple tg i t ∧
              isVariable (_s t) = false ∧ isVariable (_o t) = false) ∨
      (kind = CHECK_FAILED ∧
       ∃ contextVars i t,
         findContextVars tg = Ok contextVars ∧ textNodeTriple tg i t ∧
         _s t ∈ contextVars ∧ _o t ∈ contextVars)
  end.
Proof.
  unfold identifyTextCliques.
  pose proof (findContextVars_fold (textTriples tg) ∅) as Hcv.
  fold (findContextVars tg) in Hcv.
  destruct (findContextVars tg) as [cv|kind what] eqn:Hfind; cbn.
  2:{ left. destruct Hcv as (-> & -> & i & t & Hin & Hno).
      split_and!; [done..|]. exists i, t.
      by rewrite <- elem_of_textTriples. }
  destruct Hcv as [Hcv Hvars].
  pose proof (cliques_fold cv (textTriples tg) ∅) as Hcl.
  destruct (rfold _ (textTriples tg) ∅) as [cliques|kind what].
  2:{ right. destruct Hcl as (-> & i & t & Hin & Hboth). split; [done|].
      exists cv, i, t. by rewrite <- elem_of_textTriples. }
  destruct Hcl as (Hok & Hm & Hdom).
  assert (∀ v, v ∈ cv ↔ ∃ i t, textNodeTriple tg i t ∧ contextVarOf t v)
    as Hcv'.
  { intros v. rewrite Hcv. split.
    - intros [Hv|(i & t & Hin & Hv)]; [set_solver|].
      exists i, t. by rewrite <- elem_of_textTriples.
    - intros (i & t & Hin & Hv). right. exists i, t.
      by rewrite elem_of_textTriples. }
  exists cv. split_and!; [done|done| | |].
  - intros i t Hin. apply elem_of_textTriples in Hin. split; eauto.
  - intros cvar. rewrite Hdom, lookup_empty. split.
    + intros [Hv|(i & t & _ & Hv & _)]; [by apply is_Some_None in Hv|done].
    + intros Hv. right.
      destruct (proj1 (Hcv' cvar) Hv) as (i & t & Hin & Hof).
      exists i, t. rewrite elem_of_textTriples. split_and!; [done..|].
      destruct Hof as [(-> & _)|(-> & _)]; auto.
  - intros cvar ids Hids.
    assert (cvar ∈ cv) as Hin.
    { destruct (proj1 (Hdom cvar) (mk_is_Some _ _ Hids))
        as [Hv|(i & t & _ & Hv & _)]; [|done].
      rewrite lookup_empty in Hv. by apply is_Some_None in Hv. }
    specialize (Hm cvar).
    rewrite Hids, lookup_empty in Hm. cbn in Hm. subst ids.
    split.
    + apply filter_fst_sorted, textTriples_sorted.
    + intros i. rewrite list_elem_of_fmap. split.
      * intros ([j t] & -> & Hj%list_elem_of_filter). cbn in *.
        exists t. rewrite <- elem_of_textTriples. naive_solver.
      * intros (t & Ht & Hend). exists (i, t). split; [done|].
        apply list_elem_of_filter. cbn.
        by rewrite elem_of_textTriples.
Qed.

End TextCliques.

(** ** bfsLeaveOut *)

Lemma visitNeighbors_fold leaveOut neighbors visited queue :
  ∃ added,
    foldl (visitNeighbor leaveOut) (visited, queue) neighbors
    = (list_to_set added ∪ visited, queue ++ added) ∧
    NoDup added ∧
    (∀ v, v ∈ added → v ∈ neighbors ∧ (v ∉ visited) ∧ (v ∉ leaveOut)) ∧
    (∀ v, v ∈ neighbors → v ∉ leaveOut → v ∈ visited ∨ v ∈ added).
Proof.
  revert visited queue.
  induction neighbors as [|v neighbors IH]; intros visited queue.
  { exists []. cbn. rewrite app_nil_r, union_empty_l_L.
    split_and!; [done|constructor|set_solver|set_solver]. }
  cbn [foldl]. unfold visitNeighbor at 2.
  destruct (decide ((v ∉ visited) ∧ (v ∉ leaveOut))) as [[Hv Hl]|Hno].
  - rewrite !bool_decide_eq_true_2 by done. cbn [andb].
    destruct (IH ({[v]} ∪ visited) (queue ++ [v]))
      as (added & -> & Hnd & Hnew & Hall).
    exists (v :: added). split_and!.
    + rewrite <- app_assoc. cbn. f_equal. set_solver.
    + constructor; [|done]. intros Hin. apply Hnew in Hin. set_solver.
    + intros w [->|Hw]%elem_of_cons; [set_solver|].
      apply Hnew in Hw. set_solver.
    + intros w [->|Hw]%elem_of_cons Hwl; [set_solver|].
      destruct (Hall w Hw Hwl); set_solver.
  - assert (bool_decide (v ∉ visited) && bool_decide (v ∉ leaveOut) = false)
      as ->.
    { apply andb_false_iff. rewrite !bool_decide_eq_false.
      destruct (decide (v ∉ visited)); [right|left]; naive_solver. }
    destruct (IH visited queue) as (added & -> & Hnd & Hnew & Hall).
    exists added. split_and!; [done|done| |].
    + intros w Hw. apply Hnew in Hw. set_solver.
    + intros w [->|Hw]%elem_of_cons Hwl; [|by apply Hall].
      left. destruct (decide (v ∈ visited)); [done|]. naive_solver.
Qed.

Lemma NoDup_bounded_length (l : list nat) n :
  NoDup l → (∀ x, x ∈ l → x < n) → length l ≤ n.
Proof.
  intros Hnd Hlt. trans (length (seq 0 n)); [|by rewrite length_seq].
  apply submseteq_length, NoDup_submseteq; [done|].
  intros x Hx. apply elem_of_seq. specialize (Hlt x Hx). lia.
Qed.

Lemma rtc_closed {A} (R : relation A) (P : A → Prop) x :
  P x → (∀ y z, P y → R y z → P z) → ∀ z, rtc R x z → P z.
Proof.
  intros Hx Hstep. apply rtc_ind_r; [done|].
  intros y z _ Hyz Hy. by eapply Hstep.
Qed.

Section Search.
Context (tg : TripleGraph) (startNode : nat) (leaveOut : gset nat).

Let reach (y : nat) : Prop := rtc (bfsEdge tg leaveOut) startNode y.

Lemma bfsLoop_spec fuel queue visited res :
  NoDup (res ++ queue) →
  (∀ x, x ∈ visited ↔ x ∈ res ++ queue) →
  (∀ x, x ∈ res ++ queue → reach x) →
  (∀ x, x ∈ res →
        x < length (_adjLists tg) ∧
        ∀ y, bfsEdge tg leaveOut x y → y ∈ visited) →
  startNode ∈ res ++ queue →
  length (_adjLists tg) ≤ fuel + length res →
  match bfsLoop (_adjLists tg) leaveOut fuel queue visited res with
  | Ok r =>
      NoDup r ∧ (∀ y, y ∈ r ↔ reach y) ∧
      (∀ y, y ∈ r → y < length (_adjLists tg)) ∧
      ∃ rest, r = res ++ queue ++ rest
  | Throw kind what =>
      kind = UNDEFINED_BEHAVIOUR ∧ what = "_adjLists[n]" ∧
      ∃ y, reach y ∧ length (_adjLists tg) ≤ y
  end.
Proof.
  revert queue visited res.
  induction fuel as [|fuel IH]; intros queue visited res
    Hnd Hvis Hreach Hclosed Hstart Hfuel.
  - destruct queue as [|n queue]; cbn.
    + rewrite app_nil_r in *. split_and!; [done| | |exists []; cbn; by rewrite ?app_nil_r].
      * intros y. split; [apply Hreach|].
        revert y. apply rtc_closed; [done|].
        intros x y Hx Hxy. apply Hvis. by apply (Hclosed x).
      * intros y Hy. by apply Hclosed.
    + destruct (_adjLists tg !! n) as [neighbors|] eqn:Hn.
      * exfalso. apply lookup_lt_Some in Hn.
        assert (length (n :: res) ≤ length (_adjLists tg)) as Hlen.
        { apply NoDup_bounded_length.
          - apply NoDup_app in Hnd as (Hres & Hdisj & Hq).
            constructor; [|done]. intros Hin. apply (Hdisj n Hin). by left.
          - intros x [->|Hx]%elem_of_cons; [done|]. by apply Hclosed. }
        simpl in Hlen. lia.
      * apply lookup_ge_None in Hn. split_and!; [done..|].
        exists n. split; [|done]. apply Hreach. set_solver.
  - destruct queue as [|n queue]; cbn [bfsLoop].
    + rewrite app_nil_r in *. split_and!; [done| | |exists []; cbn; by rewrite ?app_nil_r].
      * intros y. split; [apply Hreach|].
        revert y. apply rtc_closed; [done|].
        intros x y Hx Hxy. apply Hvis. by apply (Hclosed x).
      * intros y Hy. by apply Hclosed.
    + destruct (_adjLists tg !! n) as [neighbors|] eqn:Hn.
      2:{ apply lookup_ge_None in Hn. split_and!; [done..|].
          exists n. split; [|done]. apply Hreach. set_solver. }
      destruct (visitNeighbors_fold leaveOut neighbors visited queue)
        as (added & -> & Hadded_nd & Hadded & Hall).
      assert ((n ∉ res) ∧ (n ∉ queue) ∧ NoDup res ∧ NoDup queue ∧
              ∀ x, x ∈ res → x ∉ queue) as (Hnres & Hnq & Hres & Hq & Hdisj).
      { apply NoDup_app in Hnd as (Hres & Hdisj & Hq).
        apply NoDup_cons in Hq as [Hnq Hq]. split_and!; [|done..|].
        - intros Hin. apply (Hdisj n Hin). by left.
        - intros x Hx Hxq. apply (Hdisj x Hx). by right. }
      assert (n < length (_adjLists tg)) as Hnlt by by eapply lookup_lt_Some.
      assert (length (n :: res) ≤ length (_adjLists tg)) as Hlen.
      { apply NoDup_bounded_length.
        - by constructor.
        - intros x [->|Hx]%elem_of_cons; [done|]. by apply Hclosed. }
      assert (NoDup ((res ++ [n]) ++ queue ++ added)) as H1.
      { assert ((res ++ [n]) ++ queue ++ added = (res ++ n :: queue) ++ added)
          as -> by (by rewrite <- !app_assoc).
        apply NoDup_app. split_and!; [done| |done].
        intros x Hx Hxn. apply Hadded in Hxn as (_ & Hxv & _).
        apply Hxv, Hvis. done. }
      assert (∀ x, x ∈ list_to_set added ∪ visited ↔
                   x ∈ (res ++ [n]) ++ queue ++ added) as H2.
      { intros x. rewrite elem_of_union, elem_of_list_to_set, Hvis.
        rewrite !elem_of_app, elem_of_cons, list_elem_of_singleton.
        tauto. }
      assert (∀ x, x ∈ (res ++ [n]) ++ queue ++ added → reach x) as H3.
      { intros x. rewrite !elem_of_app, list_elem_of_singleton.
        intros [[Hx| ->]|[Hx|Hx]].
        - apply Hreach. set_solver.
        - apply Hreach. set_solver.
        - apply Hreach. set_solver.
        - apply Hadded in Hx as (Hx & _ & Hxl).
          apply rtc_r with n; [apply Hreach; set_solver|].
          split; [|done]. by rewrite (list_lookup_total_correct _ _ _ Hn). }
      assert (∀ x, x ∈ res ++ [n] →
                   x < length (_adjLists tg) ∧
                   ∀ y, bfsEdge tg leaveOut x y →
                        y ∈ list_to_set added ∪ visited) as H4.
      { intros x [Hx| ->%list_elem_of_singleton]%elem_of_app.
        - destruct (Hclosed x Hx) as [Hxlt Hxe]. split; [done|].
          intros y Hy. apply elem_of_union. right. by apply Hxe.
        - split; [done|]. intros y [Hy Hyl].
          rewrite (list_lookup_total_correct _ _ _ Hn) in Hy.
          rewrite elem_of_union, elem_of_list_to_set.
          destruct (Hall y Hy Hyl); auto. }
      assert (startNode ∈ (res ++ [n]) ++ queue ++ added) as H5.
      { revert Hstart. rewrite !elem_of_app, elem_of_cons,
          list_elem_of_singleton. tauto. }
      assert (length (_adjLists tg) ≤ fuel + length (res ++ [n])) as H6.
      { rewrite length_app. simpl in *. lia. }
      specialize (IH (queue ++ added) (list_to_set added ∪ visited)
                    (res ++ [n]) H1 H2 H3 H4 H5 H6).
      destruct (bfsLoop _ _ fuel (queue ++ added) _ (res ++ [n]))
        as [r|kind what]; [|done].
      destruct IH as (Hr & Hall_r & Hlt & rest & ->).
      split_and!; [done..|]. exists (added ++ rest).
      by rewrite <- !app_assoc.
Qed.

End Search.

Lemma bfsLeaveOut_spec tg startNode leaveOut :
  match bfsLeaveOut tg startNode leaveOut with
  | Ok res =>
      NoDup res ∧ head res = Some startNode ∧
      (∀ y, y ∈ res ↔ rtc (bfsEdge tg leaveOut) startNode y) ∧
      (∀ y, y ∈ res → y < length (_adjLists tg))
  | Throw kind what =>
      kind = UNDEFINED_BEHAVIOUR ∧ what = "_adjLists[n]" ∧
      ∃ y, rtc (bfsEdge tg leaveOut) startNode y ∧ length (_adjLists tg) ≤ y
  end.
Proof.
  unfold bfsLeaveOut.
  pose proof (bfsLoop_spec tg startNode leaveOut (length (_adjLists tg))
                [startNode] {[startNode]} []) as Hloop.
  destruct (bfsLoop _ _ _ _ _ _) as [res|kind what].
  - destruct Hloop as (Hnd & Hall & Hlt & rest & ->).
    + cbn. apply NoDup_singleton.
    + intros x. cbn. set_solver.
    + intros x ->%list_elem_of_singleton. done.
    + intros x Hx. by apply elem_of_nil in Hx.
    + cbn. set_solver.
    + simpl. lia.
    + done.
  - apply Hloop.
    + cbn. apply NoDup_singleton.
    + intros x. cbn. set_solver.
    + intros x ->%list_elem_of_singleton. done.
    + intros x Hx. by apply elem_of_nil in Hx.
    + cbn. set_solver.
    + simpl. lia.
Qed.

(** [bfsLeaveOut] returns, without repetition and starting with the start
    node, exactly the nodes that can be reached from the start node along
    adjacency entries that are not left out (the start node itself also
    when it is left out); all of them are nodes of the graph.  The only
    failure is indexing [_adjLists] out of range, with a node that can be
    reached; the loop never needs more rounds than the graph has
    adjacency lists. *)
Theorem bfsLeaveOut_returns_the_reachable_nodes tg startNode leaveOut :
  match bfsLeaveOut tg startNode leaveOut with
  | Ok res =>
      NoDup res ∧ head res = Some startNode ∧
      (∀ y, y ∈ res ↔ rtc (bfsEdge tg leaveOut) startNode y) ∧
      (∀ y, y ∈ res → y < length (_adjLists tg))
  | Throw kind what =>
      kind = UNDEFINED_BEHAVIOUR ∧ what = "_adjLists[n]" ∧
      ∃ y, rtc (bfsEdge tg leaveOut) startNode y ∧ length (_adjLists tg) ≤ y
  end.
Proof. apply bfsLeaveOut_spec. Qed.

(** ** The graph restricted to some of its nodes *)

Lemma rfold_app {A S} (f : S → A → result S) l1 l2 s :
  rfold f (l1 ++ l2) s = rfold f l1 s ≫= rfold f l2.
Proof.
  revert s. induction l1 as [|x l1 IH]; intros s; [done|].
  cbn. destruct (f s x) as [s'|kind what]; [apply IH|done].
Qed.

Lemma newId_S keep i :
  newId keep (S i) = newId keep i + (if bool_decide (i ∈ keep) then 1 else 0).
Proof.
  unfold newId. rewrite seq_S, filter_app, length_app.
  change (0 + i) with i. rewrite filter_cons, filter_nil. case_bool_decide.
  - by rewrite decide_True.
  - by rewrite decide_False.
Qed.

Lemma newId_mono keep i n : i ≤ n → newId keep i ≤ newId keep n.
Proof.
  induction 1 as [|n _ IH]; [done|]. rewrite newId_S. lia.
Qed.

Lemma newId_lt keep i n : i < n → i ∈ keep → newId keep i < newId keep n.
Proof.
  intros Hlt Hi. apply Nat.lt_le_trans with (newId keep (S i)).
  - rewrite newId_S, bool_decide_eq_true_2 by done. lia.
  - by apply newId_mono.
Qed.

Lemma newId_inj keep i j :
  i ∈ keep → j ∈ keep → newId keep i = newId keep j → i = j.
Proof.
  intros Hi Hj Heq. destruct (Nat.lt_trichotomy i j) as [Hlt|[->|Hlt]].
  - pose proof (newId_lt keep i j Hlt Hi). lia.
  - done.
  - pose proof (newId_lt keep j i Hlt Hj). lia.
Qed.

Lemma newId_surj keep n j :
  j < newId keep n → ∃ x, x < n ∧ x ∈ keep ∧ newId keep x = j.
Proof.
  induction n as [|n IH]; [unfold newId; simpl; lia|].
  rewrite newId_S. case_bool_decide as Hn.
  - intros Hj. destruct (decide (j = newId keep n)) as [->|Hne].
    + exists n. split_and!; [lia|done..].
    + destruct IH as (x & Hx & Hk & Heq); [lia|].
      exists x. split_and!; [lia|done..].
  - intros Hj. destruct IH as (x & Hx & Hk & Heq); [lia|].
    exists x. split_and!; [lia|done..].
Qed.

Lemma keepNodes_loop other keep n :
  (∀ i, i < n → is_Some (_nodeMap other !! i)) →
  ∃ storage nodeMap idChange,
    rfold (keepNode other keep) (seq 0 n) ([], ∅, ∅)
    = Ok (storage, nodeMap, idChange) ∧
    length storage = newId keep n ∧
    size nodeMap = newId keep n ∧
    (∀ j, is_Some (nodeMap !! j) ↔ j < newId keep n) ∧
    (∀ i, idChange !! i
          = if bool_decide (i < n ∧ i ∈ keep)
            then Some (newId keep i) else None) ∧
    (∀ i node,
       i < n → i ∈ keep → _nodeMap other !! i = Some node →
       nodeMap !! newId keep i = Some (withId (newId keep i) node) ∧
       storage !! newId keep i = Some (withId (newId keep i) node)).
Proof.
  induction n as [|n IH]; intros Hnodes.
  { exists [], ∅, ∅. cbn. split_and!; [done..| | |].
    - intros j. rewrite lookup_empty. unfold newId. simpl.
      split; [by intros ?%is_Some_None|lia].
    - intros i. rewrite lookup_empty, bool_decide_eq_false_2; [done|lia].
    - intros i node Hi. lia. }
  destruct IH as (storage & nodeMap & idChange & Hrun & Hlen & Hsize & Hdom
                  & Hid & Hkept); [intros i Hi; apply Hnodes; lia|].
  rewrite seq_S, rfold_app, Hrun.
  pose proof (newId_S keep n) as HS.
  cbn -[newId]. case_bool_decide as Hn.
  - destruct (Hnodes n) as [node Hnode]; [lia|]. rewrite Hnode.
    cbn -[newId]. rewrite Hsize.
    eexists _, _, _. split; [done|]. split_and!.
    + rewrite length_app. simpl. lia.
    + rewrite map_size_insert_None; [lia|].
      apply eq_None_not_Some. rewrite Hdom. lia.
    + intros j. rewrite lookup_insert_is_Some, Hdom, HS.
      destruct (decide (newId keep n = j)); naive_solver lia.
    + intros i. destruct (decide (n = i)) as [<-|Hne].
      * rewrite lookup_insert_eq, bool_decide_eq_true_2; [done|].
        split; [lia|done].
      * rewrite lookup_insert_ne, Hid by done.
        destruct (decide (i < n ∧ i ∈ keep)) as [Hy|Hno].
        -- rewrite !bool_decide_eq_true_2; [done| |done]. naive_solver lia.
        -- rewrite !bool_decide_eq_false_2; [done| |done]. naive_solver lia.
    + intros i node' Hi Hik Hnode'.
      destruct (decide (i = n)) as [->|Hne].
      * rewrite Hnode in Hnode'. injection Hnode' as <-.
        rewrite lookup_insert_eq. split; [done|].
        rewrite lookup_app_r by lia. by rewrite Hlen, Nat.sub_diag.
      * assert (i < n) as Hlt by lia.
        pose proof (newId_lt keep i n Hlt Hik) as Hnew.
        destruct (Hkept i node' Hlt Hik Hnode') as [Hm Hs].
        rewrite lookup_insert_ne by lia. split; [done|].
        rewrite lookup_app_l by lia. done.
  - rewrite Nat.add_0_r in HS.
    eexists _, _, _. split; [done|]. rewrite HS.
    split_and!; [done..| |].
    + intros i. rewrite Hid.
      destruct (decide (i = n)) as [->|Hne].
      * rewrite !bool_decide_eq_false_2; [done| |]; naive_solver lia.
      * destruct (decide (i < n ∧ i ∈ keep)) as [Hy|Hno].
        -- rewrite !bool_decide_eq_true_2; [done| |done]. naive_solver lia.
        -- rewrite !bool_decide_eq_false_2; [done| |done]. naive_solver lia.
    + intros i node' Hi Hik Hnode'.
      assert (i ≠ n) by (by intros ->). apply Hkept; [lia|done..].
Qed.

Lemma keepNeighbours_fold (keep : gset nat) (change : nat → nat) l acc :
  foldl
    (λ adjList v,
       if bool_decide (v ∈ keep) then adjList ++ [change v] else adjList)
    acc l
  = acc ++ (change <$> filter (λ v, v ∈ keep) l).
Proof.
  revert acc. induction l as [|v l IH]; intros acc.
  { cbn. by rewrite app_nil_r. }
  cbn [foldl]. rewrite IH, filter_cons. case_bool_decide.
  - rewrite decide_True by done. by rewrite <- app_assoc.
  - by rewrite decide_False.
Qed.

Lemma keepAdjLists_loop other (keep : gset nat) (idChange : gmap nat nat) n :
  let acc :=
    foldl
      (λ adjLists i,
         if bool_decide (i ∈ keep)
         then
           adjLists ++
           [foldl
              (λ adjList v,
                 if bool_decide (v ∈ keep)
                 then adjList ++ [default 0 (idChange !! v)]
                 else adjList)
              [] (_adjLists other !!! i)]
         else adjLists)
      [] (seq 0 n) in
  length acc = newId keep n ∧
  ∀ x, x < n → x ∈ keep →
       acc !! newId keep x
       = Some ((λ v, default 0 (idChange !! v))
                 <$> filter (λ v, v ∈ keep) (_adjLists other !!! x)).
Proof.
  induction n as [|n IH]; cbn zeta.
  { split; [done|]. intros x Hx. lia. }
  cbn zeta in IH. destruct IH as [Hlen Hacc].
  rewrite seq_S, foldl_app. cbn [foldl]. rewrite newId_S.
  change (0 + n) with n.
  case_bool_decide as Hn.
  - rewrite (keepNeighbours_fold keep (λ v, default 0 (idChange !! v))).
    cbn [app]. split; [rewrite length_app, Hlen; cbn [length]; lia|].
    intros x Hx Hk. destruct (decide (x = n)) as [->|Hne].
    + rewrite lookup_app_r by lia. by rewrite Hlen, Nat.sub_diag.
    + assert (x < n) as Hlt by lia.
      pose proof (newId_lt keep x n Hlt Hk).
      rewrite lookup_app_l by lia. by apply Hacc.
  - rewrite Nat.add_0_r. split; [done|]. intros x Hx Hk.
    assert (x ≠ n) by (by intros ->). apply Hacc; [lia|done].
Qed.

Lemma TripleGraph_keepNodes_spec other keepNodes :
  (∀ i, i < size (_nodeMap other) → is_Some (_nodeMap other !! i)) →
  (∀ x y, y ∈ _adjLists other !!! x → y < size (_nodeMap other)) →
  length (_adjLists other) = size (_nodeMap other) →
  ∃ g,
    TripleGraph_keepNodes other keepNodes = Ok g ∧
    size (_nodeMap g) = newId (list_to_set keepNodes) (size (_nodeMap other)) ∧
    length (_nodeStorage g) = size (_nodeMap g) ∧
    length (_adjLists g) = size (_nodeMap g) ∧
    (∀ j, j < size (_nodeMap g) → is_Some (_nodeMap g !! j)) ∧
    (∀ x' y', y' ∈ _adjLists g !!! x' → y' < size (_nodeMap g)) ∧
    (∀ i node,
       i < size (_nodeMap other) → i ∈ keepNodes →
       _nodeMap other !! i = Some node →
       let id := newId (list_to_set keepNodes) i in
       _nodeMap g !! id = Some (withId id node) ∧
       _nodeStorage g !! id = Some (withId id node)) ∧
    (∀ x,
       x < size (_nodeMap other) → x ∈ keepNodes →
       _adjLists g !!! newId (list_to_set keepNodes) x
       = newId (list_to_set keepNodes)
           <$> filter (λ v, v ∈ keepNodes) (_adjLists other !!! x)) ∧
    (∀ x y,
       x < size (_nodeMap other) → x ∈ keepNodes → y ∈ keepNodes →
       newId (list_to_set keepNodes) y
         ∈ _adjLists g !!! newId (list_to_set keepNodes) x ↔
       y ∈ _adjLists other !!! x).
Proof.
  intros Hnodes Hrange Hlen. unfold TripleGraph_keepNodes.
  set (keep := list_to_set keepNodes : gset nat).
  set (n := size (_nodeMap other)) in *.
  destruct (keepNodes_loop other keep n Hnodes)
    as (storage & nodeMap & idChange & -> & Hslen & Hsize & Hdom & Hid & Hkept).
  cbn. eexists. split; [done|]. cbn.
  destruct (keepAdjLists_loop other keep idChange (length (_adjLists other)))
    as [Halen Hadj].
  fold (keepAdjLists other keep idChange) in Halen, Hadj.
  assert (∀ x, x < n → x ∈ keep →
               keepAdjLists other keep idChange !!! newId keep x
               = newId keep <$> filter (λ v, v ∈ keepNodes)
                                  (_adjLists other !!! x)) as Hadj'.
  { intros x Hx Hk. apply list_lookup_total_correct.
    rewrite Hadj by (by rewrite ?Hlen).
    f_equal.
    assert (filter (λ v, v ∈ keep) (_adjLists other !!! x)
            = filter (λ v, v ∈ keepNodes) (_adjLists other !!! x)) as ->.
    { apply list_filter_iff. intros v. unfold keep.
      by rewrite elem_of_list_to_set. }
    apply list_fmap_ext. intros i v Hv.
    apply list_elem_of_lookup_2, list_elem_of_filter in Hv as [Hvk Hv].
    rewrite Hid, bool_decide_eq_true_2; [done|].
    split; [by eapply Hrange|]. unfold keep. by rewrite elem_of_list_to_set. }
  split_and!.
  - done.
  - by rewrite Hslen, Hsize.
  - by rewrite Halen, Hlen, Hsize.
  - intros j Hj. apply Hdom. by rewrite <- Hsize.
  - intros x' y' Hy'. rewrite Hsize.
    destruct (decide (x' < newId keep n)) as [Hx'|Hx'].
    + destruct (newId_surj keep n x' Hx') as (x & Hx & Hk & <-).
      rewrite Hadj' in Hy' by done.
      apply list_elem_of_fmap in Hy' as (v & -> & Hv%list_elem_of_filter).
      destruct Hv as [Hvk Hv]. apply newId_lt; [by eapply Hrange|].
      unfold keep. by rewrite elem_of_list_to_set.
    + rewrite list_lookup_total_alt, lookup_ge_None_2 in Hy'.
      * by apply elem_of_nil in Hy'.
      * rewrite Halen, Hlen. fold n. lia.
  - intros i node Hi Hk Hnode. cbn zeta. apply Hkept; [done| |done].
    unfold keep. by rewrite elem_of_list_to_set.
  - intros x Hx Hk. apply Hadj'; [done|].
    unfold keep. by rewrite elem_of_list_to_set.
  - intros x y Hx Hxk Hyk. rewrite Hadj'.
    2: done. 2: unfold keep; by rewrite elem_of_list_to_set.
    rewrite list_elem_of_fmap. split.
    + intros (v & Heq & Hv%list_elem_of_filter). destruct Hv as [Hvk Hv].
      apply newId_inj in Heq as ->; [done| |];
        unfold keep; by rewrite elem_of_list_to_set.
    + intros Hy. exists y. split; [done|]. by apply list_elem_of_filter.
Qed.

(** On a graph whose node ids are [0 .. n-1], with one adjacency list per
    node and all entries below [n], the constructor
    [TripleGraph(other, keepNodes)] builds a graph of the same kind on the
    kept nodes: the kept node [i] becomes node [newId i], the number of
    kept nodes below it, with the same triple and variables; its adjacency
    list is that of [i] restricted to the kept nodes, under their new ids,
    in the same order; so two kept nodes are adjacent in the new graph
    exactly when they were in the old one. *)
Theorem TripleGraph_keepNodes_is_the_induced_subgraph other keepNodes :
  (∀ i, i < size (_nodeMap other) → is_Some (_nodeMap other !! i)) →
  (∀ x y, y ∈ _adjLists other !!! x → y < size (_nodeMap other)) →
  length (_adjLists other) = size (_nodeMap other) →
  ∃ g,
    TripleGraph_keepNodes other keepNodes = Ok g ∧
    size (_nodeMap g) = newId (list_to_set keepNodes) (size (_nodeMap other)) ∧
    length (_nodeStorage g) = size (_nodeMap g) ∧
    length (_adjLists g) = size (_nodeMap g) ∧
    (∀ j, j < size (_nodeMap g) → is_Some (_nodeMap g !! j)) ∧
    (∀ x' y', y' ∈ _adjLists g !!! x' → y' < size (_nodeMap g)) ∧
    (∀ i node,
       i < size (_nodeMap other) → i ∈ keepNodes →
       _nodeMap other !! i = Some node →
       let id := newId (list_to_set keepNodes) i in
       _nodeMap g !! id = Some (withId id node) ∧
       _nodeStorage g !! id = Some (withId id node)) ∧
    (∀ x,
       x < size (_nodeMap other) → x ∈ keepNodes →
       _adjLists g !!! newId (list_to_set keepNodes) x
       = newId (list_to_set keepNodes)
           <$> filter (λ v, v ∈ keepNodes) (_adjLists other !!! x)) ∧
    (∀ x y,
       x < size (_nodeMap other) → x ∈ keepNodes → y ∈ keepNodes →
       newId (list_to_set keepNodes) y
         ∈ _adjLists g !!! newId (list_to_set keepNodes) x ↔
       y ∈ _adjLists other !!! x).
Proof. apply TripleGraph_keepNodes_spec. Qed.

(** ** pickFilters *)

Lemma coveredVariables_fold tg nodes (c0 : gset string) :
  match
    rfold
      (λ (covered : gset string) n,
         match _nodeMap tg !! n with
         | Some node => Ok (_variables node ∪ covered)
         | None => Throw UNDEFINED_BEHAVIOUR "_nodeMap.find(n) == end()"
         end)
      nodes c0
  with
  | Ok covered =>
      (∀ n, n ∈ nodes → is_Some (_nodeMap tg !! n)) ∧
      ∀ v, v ∈ covered ↔
           v ∈ c0 ∨ ∃ n node, n ∈ nodes ∧ _nodeMap tg !! n = Some node ∧
                              v ∈ _variables node
  | Throw kind what =>
      kind = UNDEFINED_BEHAVIOUR ∧ ∃ n, n ∈ nodes ∧ _nodeMap tg !! n = None
  end.
Proof.
  revert c0. induction nodes as [|n nodes IH]; intros c0; cbn [rfold].
  { split; [intros n Hn; by apply elem_of_nil in Hn|].
    intros v. split; [auto|]. intros [Hv|(n & node & Hn & _)]; [done|].
    by apply elem_of_nil in Hn. }
  destruct (_nodeMap tg !! n) as [node|] eqn:Hnode; cbn.
  2:{ split; [done|]. exists n. split; [by left|done]. }
  specialize (IH (_variables node ∪ c0)).
  destruct (rfold _ nodes _) as [covered|kind what].
  - destruct IH as [Hall Hcov]. split.
    + intros m [->|Hm]%elem_of_cons; [by rewrite Hnode|by apply Hall].
    + intros v. rewrite Hcov, elem_of_union. split.
      * intros [[Hv|Hv]|(m & node' & Hm & Hnode' & Hv)]; [|by left|].
        -- right. exists n, node. split; [by left|done].
        -- right. exists m, node'. split; [by right|done].
      * intros [Hv|(m & node' & [->|Hm]%elem_of_cons & Hnode' & Hv)];
          [auto| |].
        -- rewrite Hnode in Hnode'. injection Hnode' as <-. auto.
        -- right. eauto.
  - destruct IH as (-> & m & Hm & Hnone). split; [done|].
    exists m. split; [by right|done].
Qed.

Lemma pickFilters_fold (covered : gset string) origFilters acc :
  foldl
    (λ ret f,
       if bool_decide (_lhs f ∈ covered) || bool_decide (_rhs f ∈ covered)
       then ret ++ [f]
       else ret)
    acc origFilters
  = acc ++ filter (λ f, _lhs f ∈ covered ∨ _rhs f ∈ covered) origFilters.
Proof.
  revert acc. induction origFilters as [|f l IH]; intros acc.
  { cbn. by rewrite app_nil_r. }
  cbn [foldl]. rewrite IH, filter_cons.
  destruct (decide (_lhs f ∈ covered ∨ _rhs f ∈ covered)) as [Hy|Hn].
  - assert (bool_decide (_lhs f ∈ covered) || bool_decide (_rhs f ∈ covered)
            = true) as ->.
    { apply orb_true_iff. rewrite !bool_decide_eq_true. done. }
    by rewrite <- app_assoc.
  - assert (bool_decide (_lhs f ∈ covered) || bool_decide (_rhs f ∈ covered)
            = false) as ->; [|done].
    apply orb_false_iff. rewrite !bool_decide_eq_false. tauto.
Qed.

Lemma pickFilters_spec tg origFilters nodes :
  match pickFilters tg origFilters nodes with
  | Ok ret =>
      (∀ n, n ∈ nodes → is_Some (_nodeMap tg !! n)) ∧
      ∃ covered : gset string,
        (∀ v, v ∈ covered ↔
              ∃ n node, n ∈ nodes ∧ _nodeMap tg !! n = Some node ∧
                        v ∈ _variables node) ∧
        ret = filter (λ f, _lhs f ∈ covered ∨ _rhs f ∈ covered) origFilters
  | Throw kind what =>
      kind = UNDEFINED_BEHAVIOUR ∧ ∃ n, n ∈ nodes ∧ _nodeMap tg !! n = None
  end.
Proof.
  unfold pickFilters. pose proof (coveredVariables_fold tg nodes ∅) as Hcov.
  destruct (rfold _ nodes ∅) as [covered|kind what]; cbn; [|done].
  destruct Hcov as [Hall Hcov]. split; [done|]. exists covered. split.
  - intros v. rewrite Hcov. set_solver.
  - by rewrite pickFilters_fold.
Qed.

(** [pickFilters] returns, in their order, the filters that have their
    left or their right side among the variables of the given nodes; one
    side is enough.  It fails exactly when one of the node ids is not in
    [_nodeMap]. *)
Theorem pickFilters_keeps_the_filters_that_touch_a_node tg origFilters nodes :
  match pickFilters tg origFilters nodes with
  | Ok ret =>
      (∀ n, n ∈ nodes → is_Some (_nodeMap tg !! n)) ∧
      ∃ covered : gset string,
        (∀ v, v ∈ covered ↔
              ∃ n node, n ∈ nodes ∧ _nodeMap tg !! n = Some node ∧
                        v ∈ _variables node) ∧
        ret = filter (λ f, _lhs f ∈ covered ∨ _rhs f ∈ covered) origFilters
  | Throw kind what =>
      kind = UNDEFINED_BEHAVIOUR ∧ ∃ n, n ∈ nodes ∧ _nodeMap tg !! n = None
  end.
Proof. apply pickFilters_spec. Qed.

(** ** One part of a created graph *)

Lemma newId_length (l : list nat) n :
  NoDup l → (∀ x, x ∈ l → x < n) →
  newId (list_to_set l) n = length l.
Proof.
  intros Hnd Hlt. unfold newId. apply Permutation_length, NoDup_Permutation.
  - apply NoDup_filter, NoDup_seq.
  - done.
  - intros x. rewrite list_elem_of_filter, elem_of_list_to_set, elem_of_seq.
    split; [tauto|]. intros Hx. specialize (Hlt x Hx). split; [done|lia].
Qed.

(** On the graph of a query the three steps of cutting out a part work
    together without failure: the nodes reached from a triple of the query
    are closed under sharing a variable, up to the nodes left out; the
    graph restricted to them has one node per reached triple, with the
    triple unchanged, and two of them adjacent exactly when the triples are
    different and share a variable; and the picked filters are the filters
    of the query with one side among the variables of the reached
    triples. *)
Theorem part_of_a_created_graph pq startNode leaveOut :
  startNode < length (_whereClauseTriples pq) →
  ∃ reachable g filters,
    bfsLeaveOut (createTripleGraph pq) startNode leaveOut = Ok reachable ∧
    TripleGraph_keepNodes (createTripleGraph pq) reachable = Ok g ∧
    pickFilters (createTripleGraph pq) (_filters pq) reachable = Ok filters ∧
    size (_nodeMap g) = length reachable ∧
    length (_adjLists g) = length reachable ∧
    (∀ x y, x ∈ reachable → x ≠ y →
            shareVariable (_whereClauseTriples pq) x y →
            y ∈ reachable ∨ y ∈ leaveOut) ∧
    (∀ x, x ∈ reachable →
          ∃ t, _whereClauseTriples pq !! x = Some t ∧
               _nodeMap g !! newId (list_to_set reachable) x
               = Some (NodeOfTriple (newId (list_to_set reachable) x) t)) ∧
    (∀ x y, x ∈ reachable → y ∈ reachable →
            newId (list_to_set reachable) y
              ∈ _adjLists g !!! newId (list_to_set reachable) x ↔
            x ≠ y ∧ shareVariable (_whereClauseTriples pq) x y) ∧
    (∀ f, f ∈ filters ↔
          f ∈ _filters pq ∧
          ∃ x t, x ∈ reachable ∧ _whereClauseTriples pq !! x = Some t ∧
                 (_lhs f ∈ variablesOf t ∨ _rhs f ∈ variablesOf t)).
Proof.
  intros Hstart.
  destruct (createTripleGraph_graphOf pq)
    as (Halen & Hsize & Hstorage & Hnode & Hadj).
  set (tg := createTripleGraph pq) in *.
  set (triples := _whereClauseTriples pq) in *.
  assert (∀ x y, y ∈ _adjLists tg !!! x → y < size (_nodeMap tg)) as Hrange.
  { intros x y Hy. apply Hadj in Hy as (_ & tx & ty & v & _ & Hy & _).
    rewrite Hsize. by eapply lookup_lt_Some. }
  assert (∀ i, i < size (_nodeMap tg) → is_Some (_nodeMap tg !! i)) as Hnodes.
  { intros i Hi. rewrite Hnode. rewrite Hsize in Hi.
    destruct (lookup_lt_is_Some_2 triples i Hi) as [t ->]. by eexists. }
  pose proof (bfsLeaveOut_spec tg startNode leaveOut) as Hbfs.
  destruct (bfsLeaveOut tg startNode leaveOut) as [reachable|kind what].
  2:{ exfalso. destruct Hbfs as (_ & _ & y & Hy & Hlen).
      apply rtc_inv_r in Hy as [->|(x & _ & Hxy & _)].
      - rewrite Halen in Hlen. lia.
      - apply Hrange in Hxy. rewrite Halen, <- Hsize in Hlen. lia. }
  destruct Hbfs as (Hnd & Hhead & Hreach & Hlt).
  rewrite Halen in Hlt.
  destruct (TripleGraph_keepNodes_spec tg reachable Hnodes Hrange)
    as (g & Hg & Hgsize & Hgstore & Hgadj & Hgnodes & Hgrange & Hgnode
        & Hglist & Hgedge); [by rewrite Halen, Hsize|].
  pose proof (pickFilters_spec tg (_filters pq) reachable) as Hpick.
  destruct (pickFilters tg (_filters pq) reachable) as [filters|kind what]
    eqn:Hpf.
  2:{ exfalso. destruct Hpick as (_ & n & Hn & Hnone).
      destruct (Hnodes n) as [node Hsome]; [rewrite Hsize; by apply Hlt|].
      by rewrite Hsome in Hnone. }
  destruct Hpick as (_ & covered & Hcov & Hfilters). subst filters.
  rewrite Hsize in Hgsize.
  rewrite (newId_length reachable (length triples) Hnd Hlt) in Hgsize.
  exists reachable, g, (filter (λ f, _lhs f ∈ covered ∨ _rhs f ∈ covered)
                          (_filters pq)).
  split_and!; [done..| by rewrite Hgadj | | | |].
  - intros x y Hx Hxy Hshare.
    destruct (decide (y ∈ leaveOut)) as [Hl|Hl]; [by right|left].
    apply Hreach. apply rtc_r with x; [by apply Hreach|].
    split; [|done]. by apply Hadj.
  - intros x Hx. specialize (Hlt x Hx).
    destruct (lookup_lt_is_Some_2 triples x Hlt) as [t Ht].
    exists t. split; [done|].
    destruct (Hgnode x (NodeOfTriple x t)) as [Hm _];
      [by rewrite Hsize|done|by rewrite Hnode, Ht|].
    exact Hm.
  - intros x y Hx Hy. rewrite Hgedge; [apply Hadj| |done..].
    rewrite Hsize. by apply Hlt.
  - intros f. rewrite list_elem_of_filter. split.
    + intros [Hf Hin]. split; [done|].
      assert (∃ v, (v = _lhs f ∨ v = _rhs f) ∧ v ∈ covered)
        as (v & Hv & Hvc) by (destruct Hf; eauto).
      apply Hcov in Hvc as (x & node & Hx & Hxnode & Hvn).
      rewrite Hnode in Hxnode.
      destruct (triples !! x) as [t|] eqn:Ht; [|done].
      injection Hxnode as <-. exists x, t. split_and!; [done..|].
      cbn in Hvn. destruct Hv as [->| ->]; auto.
    + intros [Hin (x & t & Hx & Ht & Hf)]. split; [|done].
      assert (∀ v, v ∈ variablesOf t → v ∈ covered) as Hin_cov.
      { intros v Hv. apply Hcov. exists x, (NodeOfTriple x t).
        split_and!; [done| |done]. by rewrite Hnode, Ht. }
      destruct Hf; [left|right]; by apply Hin_cov.
Qed.

(** ** The properties at the example queries *)

(** The query [?x <p> ?y . ?y <q> <o>] has no text triple. *)
Lemma query_without_text_triples_witness :
  (∀ t, t ∈ _whereClauseTriples Demo.joinQuery →
        _p t ≠ "<in-context>" ∧ _p t ≠ "<has-context>") ∧
  collapseTextCliques (ops:=Demo.operators) (createTripleGraph Demo.joinQuery)
  = Ok (createTripleGraph Demo.joinQuery) ∧
  isPureTextQuery (createTripleGraph Demo.joinQuery) = false.
Proof.
  assert (∀ t, t ∈ _whereClauseTriples Demo.joinQuery →
               _p t ≠ "<in-context>" ∧ _p t ≠ "<has-context>") as Hno.
  { intros t Ht. cbn in Ht.
    apply elem_of_cons in Ht as [->|Ht]; [by split|].
    apply list_elem_of_singleton in Ht as ->. by split. }
  split; [exact Hno|].
  exact (query_without_text_triples_is_planned_on_its_triple_graph
           (ops:=Demo.operators) Demo.joinQuery Hno).
Defined.

(** The query with an empty WHERE clause. *)
Lemma query_without_triples_witness :
  createExecutionTree (ops:=Demo.operators)
    (mkParsedQuery [] [] [] false ["?x"] "")
  = Throw CHECK_FAILED "lastRow.size() > 0".
Proof.
  apply (query_without_triples_is_refused (ops:=Demo.operators)).
  reflexivity.
Defined.

(** The query [?x <p> <o>] with text limit 5. *)
Lemma createExecutionTree_selects_witness :
  ∃ t tg dpTab lastRow best,
    createExecutionTree (ops:=Demo.operators) Demo.plainQuery = Ok t ∧
    collapseTextCliques (ops:=Demo.operators)
      (createTripleGraph Demo.plainQuery) = Ok tg ∧
    fillDpTab (ops:=Demo.operators) tg [] = Ok dpTab ∧
    last dpTab = Some lastRow ∧
    best ∈ lastRow ∧
    (∀ q, q ∈ lastRow →
          (planCost (ops:=Demo.operators) best
           ≤ planCost (ops:=Demo.operators) q)%N) ∧
    t = setTextLimit 5 (_qet best).
Proof.
  eexists.
  edestruct (createExecutionTree_selects_a_cheapest_plan (ops:=Demo.operators)
               Demo.plainQuery _ ltac:(vm_compute; reflexivity))
    as (tg & dpTab & lastRow & best & Htg & Hdp & Hlast & Hbest & Hmin & Ht).
  exists tg, dpTab, lastRow, best.
  split; [vm_compute; reflexivity|]. split; [exact Htg|].
  assert (isPureTextQuery tg = false) as Hpure.
  { vm_compute in Htg. injection Htg as <-. reflexivity. }
  rewrite Hpure in Hdp.
  split; [exact Hdp|]. split; [exact Hlast|]. split; [exact Hbest|].
  split; [exact Hmin|]. exact Ht.
Defined.

(** Keeping node 1 of the graph of [?x <p> ?y . ?y <q> <o>]: one node,
    without neighbours, with the second triple. *)
Lemma TripleGraph_keepNodes_witness :
  ∃ g,
    TripleGraph_keepNodes (createTripleGraph Demo.joinQuery) [1] = Ok g ∧
    size (_nodeMap g) = 1 ∧ length (_adjLists g) = 1 ∧
    _adjLists g !!! 0 = [] ∧
    _nodeMap g !! 0
    = Some (NodeOfTriple 0 (mkTriple "?y" "<q>" "<o>")).
Proof.
  assert (∀ i, i < size (_nodeMap (createTripleGraph Demo.joinQuery)) →
               is_Some (_nodeMap (createTripleGraph Demo.joinQuery) !! i))
    as H1.
  { intros i Hi. vm_compute in Hi.
    destruct i as [|[|i]]; [by eexists..|lia]. }
  assert (∀ x y, y ∈ _adjLists (createTripleGraph Demo.joinQuery) !!! x →
                 y < size (_nodeMap (createTripleGraph Demo.joinQuery)))
    as H2.
  { intros x y Hy. destruct x as [|[|x]]; vm_compute in Hy |- *.
    - apply list_elem_of_singleton in Hy as ->. lia.
    - apply list_elem_of_singleton in Hy as ->. lia.
    - by apply elem_of_nil in Hy. }
  destruct (TripleGraph_keepNodes_is_the_induced_subgraph
              (createTripleGraph Demo.joinQuery) [1] H1 H2 eq_refl)
    as (g & Hg & Hsize & _ & Hlen & _ & _ & Hnode & Hadj & _).
  exists g. split; [exact Hg|]. split; [exact Hsize|].
  split; [rewrite Hlen; exact Hsize|]. split.
  - refine (Hadj 1 _ _); [vm_compute; lia|by left].
  - exact (proj1 (Hnode 1 (NodeOfTriple 1 (mkTriple "?y" "<q>" "<o>"))
                    ltac:(vm_compute; lia) ltac:(by left)
                    ltac:(vm_compute; reflexivity))).
Defined.

(** In the star query, leaving out node 0, the nodes 1, 2 and 3 are reached
    from node 1. *)
Lemma part_of_a_created_graph_witness :
  ∃ g,
    bfsLeaveOut (createTripleGraph Demo.starQuery) 1 {[0]} = Ok [1; 2; 3] ∧
    TripleGraph_keepNodes (createTripleGraph Demo.starQuery) [1; 2; 3] = Ok g ∧
    pickFilters (createTripleGraph Demo.starQuery) [] [1; 2; 3] = Ok [] ∧
    size (_nodeMap g) = 3.
Proof.
  destruct (part_of_a_created_graph Demo.starQuery 1
              {[0]} ltac:(simpl; lia))
    as (reachable & g & filters & Hbfs & Hg & Hpick & Hsize & _).
  assert (reachable = [1; 2; 3]) as ->.
  { vm_compute in Hbfs. by injection Hbfs as <-. }
  assert (filters = []) as ->.
  { vm_compute in Hpick. by injection Hpick as <-. }
  exists g. split; [exact Hbfs|]. split; [exact Hg|]. split; [exact Hpick|].
  exact Hsize.
Defined.

(** The text limit ["42"]. *)
Lemma getTextLimit_parses_decimal_witness :
  (Z.of_N 42 ≤ LONG_MAX)%Z ∧ getTextLimit "42" = 42%N.
Proof.
  assert (Hn : (Z.of_N 42 ≤ LONG_MAX)%Z) by (unfold LONG_MAX; lia).
  split; [exact Hn|].
  exact (proj2 getTextLimit_parses_decimal 42%N Hn).
Defined.

(** The text limits ["5 per text"] and ["-1"]. *)
Lemma getTextLimit_edge_cases_witness :
  (Z.of_N 5 ≤ LONG_MAX)%Z ∧ getTextLimit "5 per text" = 5%N ∧
  getTextLimit "-1" = (2 ^ 64 - 1)%N.
Proof.
  assert (Hn : (Z.of_N 5 ≤ LONG_MAX)%Z) by (unfold LONG_MAX; lia).
  split; [exact Hn|]. split.
  - exact (proj1 getTextLimit_edge_cases 5%N " per text" Hn eq_refl).
  - refine (proj1 (proj2 getTextLimit_edge_cases) 1%N _ _);
      [lia|unfold LONG_MIN; lia].
Defined.

(** * Properties of the result exporter *)

Import ExportQueryExecutionTrees.

(** ** Resolving identifiers *)

Section Resolution.
Context `{env : Environment}.

(** C9.  [idToStringAndType] (with [onlyReturnLiterals] off, whatever the
    other template arguments) resolves the undefined id to none, an integer
    to its decimal numeral with [xsd:int], a boolean to ["true"] or
    ["false"] with [xsd:boolean], a double to the fixed-point format with no
    decimals when its fractional part is zero and to the default format
    otherwise, with [xsd:decimal], and the blank node [n] to ["_:bn<n>"]
    with no datatype; on all ids with these tags it agrees with
    [idToStringAndTypeForEncodedValue]. *)
Theorem idToStringAndType_encoded_values
    (removeQuotesAndAngleBrackets : bool) (escapeFunction : string → string)
    (localVocab : nat → LiteralOrIri) :
  let resolve id :=
    idToStringAndType removeQuotesAndAngleBrackets false escapeFunction id
      localVocab in
  resolve makeUndefined = inr None ∧
  (∀ i, resolve (makeFromInt i) = inr (Some (pretty i, Some XSD_INT_TYPE))) ∧
  (∀ b, resolve (makeFromBool b) =
          inr (Some (if b then "true" else "false", Some XSD_BOOLEAN_TYPE))) ∧
  (∀ d, resolve (makeFromDouble d) =
          inr (Some (if fractionalPartIsZero d then formatFixedPrecision0 d
                     else formatDefault d,
                     Some XSD_DECIMAL_TYPE))) ∧
  (∀ n, resolve (makeFromBlankNodeIndex n) =
          inr (Some ("_:bn" +:+ pretty n, None))) ∧
  (∀ id, getDatatype id ∈ [Undefined; Int; Bool; Double; BlankNodeIndex] →
         resolve id = idToStringAndTypeForEncodedValue id).
Proof.
  simpl. split_and!.
  - reflexivity.
  - reflexivity.
  - by intros [].
  - reflexivity.
  - reflexivity.
  - intros id Hid. destruct id; try reflexivity;
      repeat (apply elem_of_cons in Hid as [Hid|Hid]; [discriminate Hid|]);
      by apply elem_of_nil in Hid.
Qed.

Lemma idToStringAndType_never_throws rq ol esc id lv :
  ∃ r, idToStringAndType rq ol esc id lv = inr r.
Proof.
  unfold idToStringAndType.
  destruct ol, id; simpl; repeat case_match; eauto.
Qed.
End Resolution.

(** ** Strings *)

Lemma length_app_string (a b : string) :
  String.length (a +:+ b) = String.length a + String.length b.
Proof. induction a as [|c a IH]; simpl; [done|]. by rewrite IH. Qed.

Lemma string_app_assoc (a b c : string) : (a +:+ b) +:+ c = a +:+ b +:+ c.
Proof.
  induction a as [|x a IH]; [done|].
  change (String x ((a +:+ b) +:+ c) = String x (a +:+ b +:+ c)).
  by f_equal.
Qed.

Lemma substring_0_app (a b : string) :
  String.substring 0 (String.length a) (a +:+ b) = a.
Proof. induction a as [|c a IH]; simpl; [by destruct b|]. by rewrite IH. Qed.

Lemma substring_skip (a b : string) n :
  String.substring (String.length a) n (a +:+ b) = String.substring 0 n b.
Proof. induction a as [|c a IH]; simpl; [done|]. by rewrite IH. Qed.

Lemma substring_0_length (a : string) :
  String.substring 0 (String.length a) a = a.
Proof. induction a as [|c a IH]; simpl; [done|]. by rewrite IH. Qed.

Lemma get_skip (a b : string) n :
  String.get (String.length a + n) (a +:+ b) = String.get n b.
Proof. induction a as [|c a IH]; simpl; [done|]. by rewrite IH. Qed.

Lemma rfindFrom_no_quote s i found :
  hasNoQuote s → rfindFrom quote s i found = found.
Proof.
  revert i found. induction s as [|c s IH]; intros i found Hno; simpl; [done|].
  unfold hasNoQuote in Hno. simpl in Hno. apply not_elem_of_cons in Hno as [Hc Hno].
  rewrite IH by done. destruct (Ascii.eqb_spec c quote); [by subst|done].
Qed.

Lemma rfindFrom_app a b i found :
  rfindFrom quote (a +:+ b) i found =
  rfindFrom quote b (i + N.of_nat (String.length a)) (rfindFrom quote a i found).
Proof.
  revert i found. induction a as [|c a IH]; intros i found; simpl.
  - by rewrite N.add_0_r.
  - rewrite IH. f_equal. lia.
Qed.

Lemma rfind_quoted value suffix :
  hasNoQuote suffix →
  rfind (String quote value +:+ String quote suffix) quote =
    Some (1 + size value)%N.
Proof.
  intros Hno. unfold rfind. simpl. rewrite rfindFrom_app. simpl.
  rewrite rfindFrom_no_quote by done. unfold size. done.
Qed.

Lemma size_app a b : size (a +:+ b) = (size a + size b)%N.
Proof. unfold size. rewrite length_app_string. lia. Qed.

Lemma size_String c a : size (String c a) = (1 + size a)%N.
Proof. unfold size. simpl. lia. Qed.

Lemma sizeSub_small a b : (b ≤ a)%N → (a < 2 ^ 64)%N → sizeSub a b = (a - b)%N.
Proof.
  intros Hle Hlt. unfold sizeSub.
  replace (a + 2 ^ 64 - b)%N with ((a - b) + 1 * 2 ^ 64)%N by lia.
  rewrite N.Div0.mod_add. apply N.mod_small. lia.
Qed.

(** [s.substr(size(a), size(b))] of [a b c] is [b]. *)
Lemma substr_middle a b c count :
  count = size b →
  substr (a +:+ b +:+ c) (size a) count = b.
Proof.
  intros ->. unfold substr. rewrite !size_app.
  rewrite N.min_l by lia. unfold size. rewrite !Nat2N.id.
  rewrite substring_skip. apply substring_0_app.
Qed.

Lemma substrFrom_skip a b :
  (size (a +:+ b) < 2 ^ 64)%N → substrFrom (a +:+ b) (size a) = b.
Proof.
  intros Hlt. unfold substrFrom, substr. rewrite size_app in *.
  rewrite N.min_r by (unfold npos; lia).
  replace (size a + size b - size a)%N with (size b) by lia.
  unfold size. rewrite !Nat2N.id, substring_skip. apply substring_0_length.
Qed.

Lemma charAt_skip a b n :
  charAt (a +:+ b) (size a + N.of_nat n) = default "000"%char (String.get n b).
Proof.
  unfold charAt, size. rewrite <-Nat2N.inj_add, Nat2N.id. by rewrite get_skip.
Qed.

Lemma prefix_lt_false s : hasNoQuote (String quote s) → False.
Proof. unfold hasNoQuote. simpl. intros H. apply H. by left. Qed.

Lemma starts_with_app (p s : string) : starts_with (p +:+ s) p = true.
Proof.
  unfold starts_with. induction p as [|c p IH].
  - by destruct s.
  - change (String.prefix (String c p) (String c (p +:+ s)) = true).
    simpl. by destruct (ascii_dec c c).
Qed.

(** ** SPARQL JSON bindings *)

Lemma quoted_shape value suffix :
  String quote value +:+ String quote suffix
  = quoteMark +:+ value +:+ String quote suffix.
Proof. reflexivity. Qed.

Lemma quoted_size value suffix :
  size (String quote value +:+ String quote suffix)
  = (2 + size value + size suffix)%N.
Proof. rewrite quoted_shape, !size_app, size_String. unfold quoteMark, size. simpl. lia. Qed.

Lemma quoted_value value suffix :
  (size (String quote value +:+ String quote suffix) < 2 ^ 64)%N →
  substr (String quote value +:+ String quote suffix) 1
    (sizeSub (1 + size value) 1) = value.
Proof.
  intros Hlt. rewrite quoted_size in Hlt. rewrite quoted_shape.
  apply (substr_middle quoteMark value (String quote suffix)).
  rewrite sizeSub_small by lia. lia.
Qed.

(** The string from the character after the closing quote on. *)
Lemma quoted_tail value suffix n :
  charAt (String quote value +:+ String quote suffix)
    (1 + size value + 1 + N.of_nat n)
  = default "000"%char (String.get n suffix).
Proof.
  replace (String quote value +:+ String quote suffix)
    with ((quoteMark +:+ value +:+ quoteMark) +:+ suffix).
  2:{ by rewrite !string_app_assoc. }
  replace (1 + size value + 1)%N with (size (quoteMark +:+ value +:+ quoteMark)).
  2:{ rewrite !size_app. unfold quoteMark, size. simpl. lia. }
  apply charAt_skip.
Qed.

Lemma quoted_suffix_from value pre post :
  (size (String quote value +:+ String quote (pre +:+ post)) < 2 ^ 64)%N →
  substrFrom (String quote value +:+ String quote (pre +:+ post))
    (1 + size value + 1 + size pre) = post.
Proof.
  intros Hlt.
  assert (String quote value +:+ String quote (pre +:+ post)
          = (quoteMark +:+ value +:+ quoteMark +:+ pre) +:+ post) as Hshape.
  { by rewrite !string_app_assoc. }
  rewrite Hshape in Hlt |- *.
  replace (1 + size value + 1 + size pre)%N
    with (size (quoteMark +:+ value +:+ quoteMark +:+ pre)).
  2:{ rewrite !size_app. unfold quoteMark, size. simpl. lia. }
  by apply substrFrom_skip.
Qed.

(** With no datatype, [stringAndTypeToBinding] turns [<iri>] into a uri
    binding with value [iri]; [_:label] into a bnode binding with value
    [label]; a string that starts with a double quote, with [value] up to
    its last double quote, into a literal binding with value [value], where
    a rest [@lang] after the last quote goes under ["xml:lang"] and a rest
    [^^<iri>] under ["datatype"]; and a string without double quote that
    starts with neither [<] nor [_:] into a literal binding whose value is
    the whole string. *)
Lemma stringAndTypeToBinding_decodes :
  (∀ iri, (size iri + 2 < 2 ^ 64)%N →
     stringAndTypeToBinding ("<" +:+ iri +:+ ">") None =
       inr (JObject [("value", JString iri); ("type", JString "uri")])) ∧
  (∀ label, (size label + 2 < 2 ^ 64)%N →
     stringAndTypeToBinding ("_:" +:+ label) None =
       inr (JObject [("value", JString label); ("type", JString "bnode")])) ∧
  (∀ value suffix,
     let s := String quote value +:+ String quote suffix in
     hasNoQuote suffix → (size s < 2 ^ 64)%N →
     (suffix = "" →
        stringAndTypeToBinding s None =
          inr (JObject [("value", JString value);
                        ("type", JString "literal")])) ∧
     (∀ lang, suffix = "@" +:+ lang →
        stringAndTypeToBinding s None =
          inr (JObject [("value", JString value);
                        ("type", JString "literal");
                        ("xml:lang", JString lang)])) ∧
     (∀ iri, suffix = "^^<" +:+ iri +:+ ">" →
        stringAndTypeToBinding s None =
          inr (JObject [("value", JString value);
                        ("type", JString "literal");
                        ("datatype", JString iri)]))) ∧
  (∀ s, hasNoQuote s → starts_with s "<" = false →
     starts_with s "_:" = false →
     stringAndTypeToBinding s None =
       inr (JObject [("value", JString s); ("type", JString "literal")])).
Proof.
  split_and!.
  - intros iri Hlt. unfold stringAndTypeToBinding.
    rewrite starts_with_app.
    replace (substr ("<" +:+ iri +:+ ">") 1 (sizeSub (size ("<" +:+ iri +:+ ">")) 2))
      with iri; [reflexivity|].
    symmetry. apply (substr_middle "<" iri ">").
    rewrite !size_app. change (size "<") with 1%N. change (size ">") with 1%N.
    rewrite sizeSub_small by lia. lia.
  - intros label Hlt. unfold stringAndTypeToBinding.
    replace (starts_with ("_:" +:+ label) "<") with false by reflexivity.
    rewrite starts_with_app.
    replace (substrFrom ("_:" +:+ label) 2) with label; [reflexivity|].
    symmetry. apply (substrFrom_skip "_:" label).
    rewrite size_app. change (size "_:") with 2%N. lia.
  - intros value suffix s Hno Hlt. subst s.
    pose proof (quoted_size value suffix) as Hsize.
    unfold stringAndTypeToBinding.
    replace (starts_with (String quote value +:+ String quote suffix) "<")
      with false by reflexivity.
    replace (starts_with (String quote value +:+ String quote suffix) "_:")
      with false by reflexivity.
    rewrite rfind_quoted by done. rewrite quoted_value by done.
    rewrite !sizeSub_small by lia. rewrite Hsize.
    split_and!.
    + intros ->. change (size "") with 0%N.
      replace (1 + size value <? 2 + size value + 0 - 1)%N with false
        by (symmetry; apply N.ltb_ge; lia).
      replace (1 + size value <? 2 + size value + 0 - 2)%N with false
        by (symmetry; apply N.ltb_ge; lia).
      reflexivity.
    + intros lang ->.
      replace (1 + size value <? 2 + size value + size ("@" +:+ lang) - 1)%N with true
        by (symmetry; apply N.ltb_lt; rewrite size_app; change (size "@") with 1%N; lia).
      pose proof (quoted_tail value ("@" +:+ lang) 0) as Hc.
      change (String.get 0 ("@" +:+ lang)) with (Some "@"%char) in Hc.
      rewrite N.add_0_r in Hc. rewrite Hc. simpl andb. cbv iota.
      pose proof (quoted_suffix_from value "@" lang Hlt) as Hs.
      replace (1 + size value + 2)%N with (1 + size value + 1 + size "@")%N
        by (change (size "@") with 1%N; lia).
      rewrite Hs. reflexivity.
    + intros iri ->.
      pose proof (quoted_tail value ("^^<" +:+ iri +:+ ">") 0) as Hc0.
      pose proof (quoted_tail value ("^^<" +:+ iri +:+ ">") 1) as Hc1.
      change (String.get 0 ("^^<" +:+ iri +:+ ">")) with (Some "^"%char) in Hc0.
      change (String.get 1 ("^^<" +:+ iri +:+ ">")) with (Some "^"%char) in Hc1.
      rewrite N.add_0_r in Hc0.
      replace (1 + size value + 1 + N.of_nat 1)%N with (1 + size value + 2)%N in Hc1 by lia.
      rewrite Hc0, Hc1. rewrite andb_false_r.
      assert (size ("^^<" +:+ iri +:+ ">") = 4 + size iri)%N as Hsuf.
      { rewrite !size_app. change (size "^^<") with 3%N.
        change (size ">") with 1%N. lia. }
      rewrite Hsuf.
      replace (1 + size value <? 2 + size value + (4 + size iri) - 2)%N with true
        by (symmetry; apply N.ltb_lt; lia).
      simpl andb. cbv iota. simpl negb. cbv iota.
      replace (2 + size value + (4 + size iri) <? 1 + size value + 5)%N with false
        by (symmetry; apply N.ltb_ge; lia).
      pose proof (quoted_suffix_from value "^^<" (iri +:+ ">") Hlt) as Hs.
      replace (1 + size value + 4)%N with (1 + size value + 1 + size "^^<")%N
        by (change (size "^^<") with 3%N; lia).
      rewrite Hs.
      replace (substr (iri +:+ ">") 0 (size (iri +:+ ">") - 1)) with iri;
        [reflexivity|].
      symmetry. apply (substr_middle "" iri ">").
      rewrite size_app. change (size ">") with 1%N. lia.
  - intros s Hno Hlt Hbn. unfold stringAndTypeToBinding.
    rewrite Hlt, Hbn. unfold rfind. by rewrite rfindFrom_no_quote.
Qed.

(** ** Generators: loops that poll once per element *)

Lemma pollLoop_notCancelled points handle n :
  (∀ k, k < points → handle (n + k) = false) →
  pollLoop points handle n = (n + points, None).
Proof.
  revert n. induction points as [|p IH]; intros n Hq; simpl.
  - f_equal. lia.
  - rewrite <- (Nat.add_0_r n) at 1. rewrite Hq by lia.
    rewrite IH.
    + f_equal. lia.
    + intros k Hk. replace (S n + k) with (n + S k) by lia. apply Hq. lia.
Qed.

Lemma pollLoop_firstSetAt points handle n j :
  j < points → firstSetAt handle n j →
  pollLoop points handle n = (n + S j, Some (CancellationException None)).
Proof.
  revert n j. induction points as [|p IH]; intros n j Hj [Hq Hset]; [lia|].
  simpl. destruct j as [|j].
  - rewrite Nat.add_0_r in Hset. rewrite Hset. f_equal. lia.
  - rewrite <- (Nat.add_0_r n) at 1. rewrite Hq by lia.
    rewrite (IH (S n) j).
    + f_equal. lia.
    + lia.
    + split.
      * intros k Hk. replace (S n + k) with (n + S k) by lia. apply Hq. lia.
      * replace (S n + j) with (n + S j) by lia. exact Hset.
Qed.

Lemma forEach_summary {Y A} (l : list A) (body : A → Gen Y ()) chunks handle n :
  pollsAfter body chunks l handle →
  summary (forEach l body handle n) = pollLoop (length l) handle n.
Proof.
  revert n. induction l as [|x l IH]; intros n Hbody; [reflexivity|].
  simpl. unfold bind. rewrite (Hbody x n) by left. simpl.
  destruct (handle n); [reflexivity|].
  rewrite <- IH.
  - reflexivity.
  - intros y m Hy. apply Hbody. by right.
Qed.

Lemma forEach_notCancelled {Y A} (l : list A) (body : A → Gen Y ()) chunks
    handle n :
  pollsAfter body chunks l handle → notCancelled handle →
  forEach l body handle n = mkRun (l ≫= chunks) (n + length l) (inr ()).
Proof.
  intros Hbody Hq. revert n. induction l as [|x l IH]; intros n.
  - simpl. unfold ret. f_equal. lia.
  - simpl. unfold bind. rewrite (Hbody x n) by left. simpl. rewrite Hq.
    rewrite IH.
    + simpl. f_equal. lia.
    + intros y m Hy. apply Hbody. by right.
Qed.

Lemma mapM_cons_inr {A B} (f : A → Exception + B) x l out :
  mapM f (x :: l) = inr out →
  ∃ y ys, f x = inr y ∧ mapM f l = inr ys ∧ out = y :: ys.
Proof.
  simpl. destruct (f x) as [e|y]; [discriminate|].
  destruct (mapM f l) as [e|ys]; [discriminate|].
  intros [= <-]. eauto.
Qed.

Lemma mapM_succeeds_elem {A B} (f : A → Exception + B) l x :
  succeeds (mapM f l) = true → x ∈ l → succeeds (f x) = true.
Proof.
  induction l as [|y l IH]; intros Hs Hx; [by apply elem_of_nil in Hx|].
  simpl in Hs. destruct (f y) as [e|b] eqn:Hy; [discriminate|].
  destruct (mapM f l) as [e|bs] eqn:Hl; [discriminate|].
  apply elem_of_cons in Hx as [->|Hx].
  - by rewrite Hy.
  - by apply IH.
Qed.

Lemma mapM_length {A B} (f : A → Exception + B) l out :
  mapM f l = inr out → length out = length l.
Proof.
  revert out. induction l as [|x l IH]; intros out; simpl.
  - by intros [= <-].
  - destruct (f x) as [e|y]; [discriminate|].
    destruct (mapM f l) as [e|ys]; [discriminate|].
    intros [= <-]. simpl. f_equal. by apply IH.
Qed.

Lemma mapM_elem {A B} (f : A → Exception + B) l out x :
  mapM f l = inr out → x ∈ l → ∃ y, f x = inr y.
Proof.
  intros Hm Hx. pose proof (mapM_succeeds_elem f l x) as Hs.
  rewrite Hm in Hs. specialize (Hs eq_refl Hx).
  destruct (f x) as [e|y]; [discriminate|eauto].
Qed.

(** A loop whose body renders the row (which may fail), yields the chunks and
    polls. *)
Lemma forEach_rendered_summary {Y} (l : list nat)
    (body : nat → Gen Y ()) (render : nat → Exception + list Y) handle n :
  (∀ i m chunks, render i = inr chunks →
     body i handle m =
     mkRun chunks (S m)
       (if handle m then inl (CancellationException None) else inr ())) →
  succeeds (mapM render l) = true →
  summary (forEach l body handle n) = pollLoop (length l) handle n.
Proof.
  intros Hbody Hs.
  apply (forEach_summary l body (λ i, match render i with inr c => c | inl _ => [] end)).
  intros x m Hx. pose proof (mapM_succeeds_elem _ _ _ Hs Hx) as Hx'.
  destruct (render x) as [e|c] eqn:Hr; [discriminate|]. by apply Hbody.
Qed.

Lemma forEach_rendered_notCancelled {Y} (l : list nat)
    (body : nat → Gen Y ()) (render : nat → Exception + list Y) handle n out :
  (∀ i m chunks, render i = inr chunks →
     body i handle m =
     mkRun chunks (S m)
       (if handle m then inl (CancellationException None) else inr ())) →
  mapM render l = inr out → notCancelled handle →
  forEach l body handle n = mkRun (concat out) (n + length l) (inr ()).
Proof.
  intros Hbody Hm Hq. revert n out Hm.
  induction l as [|x l IH]; intros n out Hm.
  - simpl in Hm. injection Hm as <-. simpl. unfold ret. f_equal. lia.
  - apply mapM_cons_inr in Hm as (y & ys & Hy & Hys & ->).
    simpl. unfold bind. rewrite (Hbody _ _ _ Hy). simpl. rewrite Hq.
    rewrite (IH _ _ Hys). simpl. f_equal. lia.
Qed.

(** The loop of the buffered JSON exports. *)
Lemma appendRows_summary {Y} (rows : list nat) (row : nat → Exception + Json)
    json handle n :
  succeeds (mapM row rows) = true →
  summary (appendRows (Y:=Y) rows row json handle n)
  = pollLoop (length rows) handle n.
Proof.
  revert json n. induction rows as [|i rows IH]; intros json n Hs;
    [reflexivity|].
  simpl in Hs. destruct (row i) as [e|r] eqn:Hr; [discriminate|].
  destruct (mapM row rows) as [e|rs] eqn:Hrs; [discriminate|].
  simpl. unfold bind, lift, throwIfCancelled. rewrite Hr. simpl.
  destruct (handle n); [reflexivity|].
  specialize (IH (json ++ [r]) (S n) eq_refl).
  unfold summary, ending in *. simpl in *.
  destruct (appendRows rows row (json ++ [r]) handle (S n)) as [ys ps [e|a]];
    simpl in *; exact IH.
Qed.

Lemma appendRows_notCancelled {Y} (rows : list nat)
    (row : nat → Exception + Json) json handle n out :
  mapM row rows = inr out → notCancelled handle →
  appendRows (Y:=Y) rows row json handle n
  = mkRun [] (n + length rows) (inr (json ++ out)).
Proof.
  intros Hm Hq. revert json n out Hm.
  induction rows as [|i rows IH]; intros json n out Hm.
  - simpl in Hm. injection Hm as <-. simpl. unfold ret.
    rewrite app_nil_r. f_equal. lia.
  - apply mapM_cons_inr in Hm as (y & ys & Hy & Hys & ->).
    simpl. unfold bind, lift, throwIfCancelled. rewrite Hy. simpl.
    rewrite Hq. rewrite (IH _ _ _ Hys). simpl.
    rewrite <- app_assoc. simpl. f_equal. lia.
Qed.

Lemma yieldBindings_rendered `{env : Environment} res i columns out handle n :
  mapM (λ val, idToXMLBinding (variable_ val)
                 (idAt (idTable res) i (columnIndex_ val)) (localVocab res))
    columns = inr out →
  yieldBindings res i columns handle n = mkRun out n (inr ()).
Proof.
  revert out. induction columns as [|val rest IH]; intros out Hm.
  - simpl in Hm. by injection Hm as <-.
  - apply mapM_cons_inr in Hm as (y & ys & Hy & Hys & ->).
    simpl. unfold bind, lift, co_yield. rewrite Hy. simpl.
    by rewrite (IH _ Hys).
Qed.

(** The nested loops of the CONSTRUCT exports are one loop over the
    generated triples. *)
Lemma forEach_app {Y A} (l1 l2 : list A) (body : A → Gen Y ()) handle n :
  forEach (l1 ++ l2) body handle n
  = bind (forEach l1 body) (λ _, forEach l2 body) handle n.
Proof.
  revert n. induction l1 as [|x l1 IH]; intros n.
  - simpl. unfold bind, ret. simpl.
    by destruct (forEach l2 body handle n).
  - simpl. unfold bind in *. destruct (body x handle n) as [ys ps [e|[]]];
      simpl; [reflexivity|].
    rewrite IH.
    destruct (forEach l1 body handle ps) as [ys1 ps1 [e|[]]]; simpl;
      [reflexivity|].
    by rewrite app_assoc.
Qed.

Lemma forEach_cons {Y A} (x : A) (l : list A) (body : A → Gen Y ()) handle n :
  forEach (x :: l) body handle n
  = match outcome (body x handle n) with
    | inl e => mkRun (yielded (body x handle n)) (polls (body x handle n)) (inl e)
    | inr _ =>
        let r' := forEach l body handle (polls (body x handle n)) in
        mkRun (yielded (body x handle n) ++ yielded r') (polls r') (outcome r')
    end.
Proof. reflexivity. Qed.

Lemma forEach_template `{env : Environment} res i (template : Triples)
    handle n :
  forEach template
    (λ triple,
       match evaluateTriple res i triple with
       | None => ret ()
       | Some t => _ ← co_yield t; throwIfCancelled
       end) handle n
  = forEach (omap (evaluateTriple res i) template)
      (λ t : StringTriple, _ ← co_yield t; throwIfCancelled) handle n.
Proof.
  revert n. induction template as [|triple rest IH]; intros n; [reflexivity|].
  rewrite forEach_cons. cbv beta.
  change (omap (evaluateTriple res i) (triple :: rest))
    with (match evaluateTriple res i triple with
          | Some t => t :: omap (evaluateTriple res i) rest
          | None => omap (evaluateTriple res i) rest
          end).
  destruct (evaluateTriple res i triple) as [t|].
  - rewrite forEach_cons. cbv beta. by rewrite IH.
  - cbn. rewrite IH. by destruct (forEach _ _ handle n).
Qed.

Lemma constructQueryResultToTriples_flat `{env : Environment} qet template
    limitAndOffset res handle n :
  constructQueryResultToTriples qet template limitAndOffset res handle n
  = forEach (generatedTriples template limitAndOffset res)
      (λ t : StringTriple, _ ← co_yield t; throwIfCancelled) handle n.
Proof.
  unfold constructQueryResultToTriples, generatedTriples.
  generalize (getRowIndices limitAndOffset res) as rows.
  intros rows. revert n. induction rows as [|i rows IH]; intros n;
    [reflexivity|].
  simpl. rewrite forEach_app. unfold bind.
  rewrite forEach_template.
  destruct (forEach (omap _ template) _ handle n) as [ys ps [e|[]]]; simpl;
    [reflexivity|].
  by rewrite IH.
Qed.

Lemma triple_pollsAfter {Y} (l : list Y) handle :
  pollsAfter (λ t : Y, _ ← co_yield t; throwIfCancelled) (λ t, [t]) l handle.
Proof. intros t n _. reflexivity. Qed.

Lemma constructQueryResultToTriples_summary `{env : Environment} qet template
    limitAndOffset res handle n :
  summary (constructQueryResultToTriples qet template limitAndOffset res
             handle n)
  = pollLoop (length (generatedTriples template limitAndOffset res)) handle n.
Proof.
  rewrite constructQueryResultToTriples_flat.
  apply (forEach_summary _ _ (λ t, [t])), triple_pollsAfter.
Qed.

Lemma constructQueryResultToTriples_notCancelled `{env : Environment} qet
    template limitAndOffset res handle n :
  notCancelled handle →
  constructQueryResultToTriples qet template limitAndOffset res handle n
  = mkRun (generatedTriples template limitAndOffset res)
      (n + length (generatedTriples template limitAndOffset res)) (inr ()).
Proof.
  intros Hq. rewrite constructQueryResultToTriples_flat.
  rewrite (forEach_notCancelled _ _ (λ t, [t])); [|apply triple_pollsAfter|done].
  f_equal. induction (generatedTriples template limitAndOffset res) as [|t l IH];
    [reflexivity|]. simpl. by f_equal.
Qed.

Section ExportLoops.
Context `{env : Environment}.

(** ** Rows that cannot fail *)

Lemma separatedRow_succeeds format res i columns :
  ∃ row, separatedRow format res i columns = inr row.
Proof.
  induction columns as [|column rest [others IH]]; [by eexists|].
  simpl. rewrite IH. destruct column as [val|]; [|by eexists].
  destruct (idToStringAndType_never_throws (bool_decide (format = csv)) false
              (if bool_decide (format = tsv) then escapeForTsv else escapeForCsv)
              (idAt (idTable res) i (columnIndex_ val)) (localVocab res))
    as [r ->].
  destruct r as [[str ty]|]; by eexists.
Qed.

Lemma mapM_total {A B} (f : A → Exception + B) l :
  (∀ x, ∃ y, f x = inr y) → ∃ out, mapM f l = inr out.
Proof.
  intros Hf. induction l as [|x l [ys IH]]; [by eexists|].
  simpl. destruct (Hf x) as [y ->]. rewrite IH. by eexists.
Qed.

Lemma qleverJsonValue_succeeds res i opt :
  ∃ j, qleverJsonValue res i opt = inr j.
Proof.
  destruct opt as [column|]; [|by eexists]. simpl.
  unfold idToStringAndTypeDefault.
  destruct (idToStringAndType_never_throws false false (λ s, s)
              (idAt (idTable res) i (columnIndex_ column)) (localVocab res))
    as [r ->].
  destruct r as [[str [ty|]]|]; by eexists.
Qed.

Lemma idTableToQLeverJSONRow_succeeds columns res i :
  ∃ j, idTableToQLeverJSONRow columns res i = inr j.
Proof.
  unfold idTableToQLeverJSONRow.
  destruct (mapM_total (qleverJsonValue res i) columns
              (qleverJsonValue_succeeds res i)) as [row ->].
  by eexists.
Qed.

Lemma succeeds_mapM_total {A B} (f : A → Exception + B) l :
  (∀ x, ∃ y, f x = inr y) → succeeds (mapM f l) = true.
Proof. intros Hf. by destruct (mapM_total f l Hf) as [out ->]. Qed.

Lemma succeeds_mapM_fmap {A B C} (f : A → Exception + B) (g : A → B → C) l :
  succeeds (mapM f l) = true →
  succeeds (mapM (λ x, match f x with inl e => inl e | inr y => inr (g x y) end) l)
  = true.
Proof.
  induction l as [|x l IH]; [done|]. simpl.
  destruct (f x) as [e|y]; [done|].
  destruct (mapM f l) as [e|ys]; [done|]. intros _.
  specialize (IH eq_refl).
  by destruct (mapM _ l).
Qed.

(** ** Generator plumbing *)

Lemma summary_yield_first {Y A} (ys : list Y) (m : Gen Y A) handle n :
  summary (bind (yieldAll ys) (λ _, m) handle n) = summary (m handle n).
Proof. reflexivity. Qed.

Lemma summary_yield_last {Y} (m : Gen Y ()) (k : () → Gen Y ()) handle n :
  (∀ u h p, polls (k u h p) = p ∧ outcome (k u h p) = inr ()) →
  summary (bind m k handle n) = summary (m handle n).
Proof.
  intros Hk. unfold summary, ending, bind.
  destruct (m handle n) as [ys ps [e|u]]; simpl; [reflexivity|].
  destruct (Hk u handle ps) as [-> ->]. reflexivity.
Qed.

Lemma summary_setOperationOnCancel {Y A} op (m : Gen Y A) handle n :
  summary (setOperationOnCancel op m handle n)
  = tagged (Some op) (summary (m handle n)).
Proof.
  unfold summary, ending, setOperationOnCancel, tagged. simpl.
  destruct (outcome (m handle n)) as [[o|w|w]|a]; reflexivity.
Qed.

Lemma summary_forEachYielded {Y Z A} (g : Gen Y A) (body : Y → list Z)
    handle n :
  summary (forEachYielded g body handle n) = summary (g handle n).
Proof. reflexivity. Qed.

Lemma summary_collect_mret {Y Z B} (g : Gen Y ()) (f : list Y → B) handle n :
  summary (bind (collect (Z:=Z) g) (λ l, ret (f l)) handle n)
  = summary (g handle n).
Proof.
  unfold summary, ending, bind, collect, ret. simpl.
  destruct (outcome (g handle n)); reflexivity.
Qed.

Lemma summary_bind_ret {Y A B} (m : Gen Y A) (f : A → B) handle n :
  summary (bind m (λ a, ret (f a)) handle n) = summary (m handle n).
Proof.
  unfold summary, ending, bind, ret.
  destruct (m handle n) as [ys ps [e|a]]; reflexivity.
Qed.

Lemma summary_yieldBindingsAndSuffix (g : Gen string ()) timer handle n :
  summary (yieldBindingsAndSuffix g timer handle n) = summary (g handle n).
Proof.
  unfold summary, ending, yieldBindingsAndSuffix.
  destruct (outcome (g handle n)) eqn:Ho; simpl; by rewrite ?Ho.
Qed.

Lemma tagged_pollLoop_Some op points handle n j :
  j < points → firstSetAt handle n j →
  tagged op (pollLoop points handle n)
  = (n + S j, Some (CancellationException op)).
Proof. intros Hj Hs. by rewrite (pollLoop_firstSetAt _ _ _ j). Qed.

Lemma tagged_pollLoop_None op points handle n :
  notCancelled handle →
  tagged op (pollLoop points handle n) = (n + points, None).
Proof. intros Hq. rewrite pollLoop_notCancelled; [done|]. intros; apply Hq. Qed.

Lemma tagged_None_pollLoop points handle n :
  tagged None (pollLoop points handle n) = pollLoop points handle n.
Proof.
  revert n. induction points as [|p IH]; intros n; [reflexivity|].
  simpl. destruct (handle n); [reflexivity|apply IH].
Qed.

(** ** The loops of the SELECT exports *)

Lemma selectQueryResultToStream_summary format qet selectClause limitAndOffset
    handle n :
  format = csv ∨ format = tsv ∨ format = octetStream →
  summary (selectQueryResultToStream format qet selectClause limitAndOffset
             handle n)
  = pollLoop (length (getRowIndices limitAndOffset (getResult qet))) handle n.
Proof.
  intros Hf. unfold selectQueryResultToStream.
  rewrite bool_decide_eq_false_2
    by (intros ->; destruct Hf as [|[|]]; discriminate).
  cbv zeta. case_bool_decide as Ho.
  - apply (forEach_summary _ _
             (octetStreamRow (getResult qet)
                (selectedVariablesToColumnIndices qet selectClause true))).
    intros i m _. unfold mbind, Gen_bind, bind, yieldAll, throwIfCancelled.
    simpl. by rewrite app_nil_r.
  - unfold mbind at 1, Gen_bind. rewrite summary_yield_first.
    apply (forEach_rendered_summary _ _
             (λ i, separatedRow format (getResult qet) i
                     (selectedVariablesToColumnIndices qet selectClause true))).
    + intros i m chunks Hr. unfold mbind, Gen_bind, bind, lift, yieldAll,
        throwIfCancelled. rewrite Hr. simpl. by rewrite app_nil_r.
    + apply succeeds_mapM_total. intros i. apply separatedRow_succeeds.
Qed.

Lemma xmlRow_body res columns i chunks handle m :
  xmlRow res columns i = inr chunks →
  (_ ← co_yield (newline +:+ "  <result>");
   _ ← yieldBindings res i (omap id columns);
   _ ← co_yield (newline +:+ "  </result>");
   throwIfCancelled) handle m
  = mkRun chunks (S m)
      (if handle m then inl (CancellationException None) else inr ()).
Proof.
  unfold xmlRow.
  destruct (mapM _ (omap id columns)) as [e|bindings] eqn:Hm; [discriminate|].
  intros [= <-].
  unfold mbind, Gen_bind, bind, co_yield, throwIfCancelled.
  rewrite (yieldBindings_rendered _ _ _ _ _ _ Hm). simpl.
  by rewrite ?app_nil_r.
Qed.

Lemma selectQueryResultToStream_sparqlXml_summary qet selectClause
    limitAndOffset handle n :
  succeeds
    (mapM (xmlRow (getResult qet)
             (selectedVariablesToColumnIndices qet selectClause false))
       (getRowIndices limitAndOffset (getResult qet))) = true →
  summary (selectQueryResultToStream_sparqlXml qet selectClause limitAndOffset
             handle n)
  = pollLoop (length (getRowIndices limitAndOffset (getResult qet))) handle n.
Proof.
  intros Hs. unfold selectQueryResultToStream_sparqlXml.
  unfold mbind at 1, Gen_bind. rewrite summary_yield_first. cbv zeta.
  unfold mbind at 1. rewrite summary_yield_last by (intros; done).
  apply (forEach_rendered_summary _ _ _ _ _ (λ i m c, xmlRow_body _ _ i c handle m) Hs).
Qed.

Lemma sparqlJsonRow_body res columns i binding handle m :
  rowBinding res columns i = inr binding →
  (chunk ← lift (sparqlJsonRowChunk res columns i);
   _ ← co_yield chunk;
   throwIfCancelled) handle m
  = mkRun [(if bool_decide (i = 0) then "" else ",") +:+ dump binding] (S m)
      (if handle m then inl (CancellationException None) else inr ()).
Proof.
  intros Hr. unfold mbind, Gen_bind, bind, lift, co_yield, throwIfCancelled,
    sparqlJsonRowChunk. rewrite Hr. reflexivity.
Qed.

Lemma selectQueryResultToStream_sparqlJson_summary qet selectClause
    limitAndOffset handle n :
  let columns :=
    eraseNullopt (selectedVariablesToColumnIndices qet selectClause false) in
  succeeds
    (mapM (rowBinding (getResult qet) columns)
       (getRowIndices limitAndOffset (getResult qet))) = true →
  summary (selectQueryResultToStream_sparqlJson qet selectClause limitAndOffset
             handle n)
  = pollLoop (if bool_decide (columns = []) then 0
              else length (getRowIndices limitAndOffset (getResult qet)))
      handle n.
Proof.
  intros columns Hs. unfold selectQueryResultToStream_sparqlJson.
  cbv zeta. fold columns.
  change (summary ((_ ← co_yield ?p; ?m) handle n)) with (summary (m handle n)).
  case_bool_decide as Hc; [reflexivity|].
  etrans; [apply (summary_yield_last _ (λ _, co_yield "]}}")); by intros|].
  apply (forEach_rendered_summary _ _
           (λ i, match rowBinding (getResult qet) columns i with
                 | inl e => inl e
                 | inr b => inr [(if bool_decide (i = 0) then "" else ",")
                                 +:+ dump b]
                 end)).
  - intros i m chunks Hr.
    destruct (rowBinding (getResult qet) columns i) as [e|b] eqn:Hb;
      [discriminate|]. injection Hr as <-. by apply sparqlJsonRow_body.
  - by apply (succeeds_mapM_fmap _
                 (λ i b, [(if bool_decide (i = 0) then "" else ",") +:+ dump b])).
Qed.

Lemma selectQueryResultToSparqlJSON_summary qet selectClause limitAndOffset
    handle n :
  let columns :=
    eraseNullopt (selectedVariablesToColumnIndices qet selectClause false) in
  succeeds
    (mapM (rowBinding (getResult qet) columns)
       (getRowIndices limitAndOffset (getResult qet))) = true →
  summary (selectQueryResultToSparqlJSON qet selectClause limitAndOffset
             (getResult qet) handle n)
  = pollLoop (if bool_decide (columns = []) then 0
              else length (getRowIndices limitAndOffset (getResult qet)))
      handle n.
Proof.
  intros columns Hs. unfold selectQueryResultToSparqlJSON. cbv zeta.
  fold columns. case_bool_decide as Hc; [reflexivity|].
  unfold mbind, Gen_bind, mret, Gen_ret. rewrite summary_bind_ret.
  by apply appendRows_summary.
Qed.

Lemma selectQueryResultBindingsToQLeverJSON_summary qet selectClause
    limitAndOffset handle n :
  summary (selectQueryResultBindingsToQLeverJSON qet selectClause
             limitAndOffset (getResult qet) handle n)
  = pollLoop (length (getRowIndices limitAndOffset (getResult qet))) handle n.
Proof.
  unfold selectQueryResultBindingsToQLeverJSON, idTableToQLeverJSONArray.
  unfold mbind, Gen_bind, mret, Gen_ret. rewrite summary_bind_ret.
  apply appendRows_summary, succeeds_mapM_total.
  intros i. apply idTableToQLeverJSONRow_succeeds.
Qed.

Lemma selectQueryResultBindingsToQLeverJSONStream_summary qet selectClause
    limitAndOffset handle n :
  summary (selectQueryResultBindingsToQLeverJSONStream qet selectClause
             limitAndOffset (getResult qet) handle n)
  = pollLoop (length (getRowIndices limitAndOffset (getResult qet))) handle n.
Proof.
  unfold selectQueryResultBindingsToQLeverJSONStream,
    idTableToQLeverJSONBindingsStream.
  apply (forEach_rendered_summary _ _
           (λ i, match idTableToQLeverJSONRow
                         (selectedVariablesToColumnIndices qet selectClause true)
                         (getResult qet) i with
                 | inl e => inl e
                 | inr row => inr [dump row]
                 end)).
  - intros i m chunks Hr.
    unfold mbind, Gen_bind, bind, lift, co_yield, throwIfCancelled.
    destruct (idTableToQLeverJSONRow _ _ i) as [e|row]; [discriminate|].
    by injection Hr as <-.
  - apply (succeeds_mapM_fmap _ (λ _ row, [dump row])), succeeds_mapM_total.
    intros i. apply idTableToQLeverJSONRow_succeeds.
Qed.

(** ** Every entry point *)

Lemma runExport_pollLoop call query qet timer handle n :
  reachesRows call query = true → rowsRender call query qet = true →
  runExport call query qet timer handle n
  = tagged (operationOf call) (pollLoop (pollPoints call query qet) handle n).
Proof.
  intros Hreach Hrender.
  destruct query as [original clause limitAndOffset].
  destruct call as [mediaType|mediaType|]; destruct clause as [selectClause|triples];
    try destruct mediaType; try discriminate Hreach;
    unfold runExport, computeResultAsStream, computeResultAsJSON,
      computeResultAsQLeverJSONStream, computeStream,
      computeSelectQueryResultAsSparqlJSON, computeQueryResultAsQLeverJSON,
      pollPoints, rowsRender, operationOf in *;
    simpl _clause in *; simpl _limitOffset in *; cbv zeta;
    rewrite ?summary_setOperationOnCancel, ?tagged_None_pollLoop;
    try (f_equal).
  all: try (apply selectQueryResultToStream_summary; naive_solver).
  all: try (by apply selectQueryResultToStream_sparqlXml_summary).
  all: try (by apply selectQueryResultToStream_sparqlJson_summary).
  all: try (by apply selectQueryResultToSparqlJSON_summary).
  all: try (unfold constructQueryResultToStream_turtle, constructQueryResultToStream;
            simpl; rewrite summary_forEachYielded;
            apply constructQueryResultToTriples_summary).
  all: unfold mbind, Gen_bind, mret, Gen_ret.
  all: try rewrite summary_bind_ret.
  all: try (change (summary (bind (co_yield ?p) (λ _, ?m) handle n))
              with (summary (m handle n));
            rewrite summary_yieldBindingsAndSuffix).
  all: try apply selectQueryResultBindingsToQLeverJSON_summary.
  all: try apply selectQueryResultBindingsToQLeverJSONStream_summary.
  all: try (unfold constructQueryResultBindingsToQLeverJSON,
              constructQueryResultBindingsToQLeverJSONStream;
            unfold mbind, Gen_bind, mret, Gen_ret;
            rewrite ?summary_collect_mret, ?summary_forEachYielded;
            apply constructQueryResultToTriples_summary).
Qed.

End ExportLoops.

(** ** Row ranges and cancellation *)

Section ExportClaims.
Context `{env : Environment}.

Lemma forEach_rendered1_notCancelled {Y} (l : list nat)
    (body : nat → Gen Y ()) (render : nat → Exception + Y) handle n out :
  (∀ i m chunk, render i = inr chunk →
     body i handle m =
     mkRun [chunk] (S m)
       (if handle m then inl (CancellationException None) else inr ())) →
  mapM render l = inr out → notCancelled handle →
  forEach l body handle n = mkRun out (n + length l) (inr ()).
Proof.
  intros Hbody Hm Hq. revert n out Hm.
  induction l as [|x l IH]; intros n out Hm.
  - simpl in Hm. injection Hm as <-. simpl. unfold ret. f_equal. lia.
  - apply mapM_cons_inr in Hm as (y & ys & Hy & Hys & ->).
    rewrite forEach_cons, (Hbody _ _ _ Hy). simpl. rewrite Hq.
    rewrite (IH _ _ Hys). simpl. f_equal. lia.
Qed.

Lemma mapM_fmap_inr {A B C} (f : A → Exception + B) (g : B → C) l out :
  mapM f l = inr out →
  mapM (λ x, match f x with inl e => inl e | inr y => inr (g y) end) l
  = inr (g <$> out).
Proof.
  revert out. induction l as [|x l IH]; intros out.
  - by intros [= <-].
  - intros Hm. apply mapM_cons_inr in Hm as (y & ys & Hy & Hys & ->).
    simpl. rewrite Hy. by rewrite (IH _ Hys).
Qed.

Lemma getRowIndices_length clause res :
  length (getRowIndices clause res)
  = match _limit clause with
    | Some limit => limit `min` (length (idTable res) - _offset clause)
    | None => length (idTable res) - _offset clause
    end.
Proof.
  unfold getRowIndices, actualOffset, upperBound. rewrite length_seq.
  destruct (_limit clause); lia.
Qed.

Lemma elem_of_getRowIndices clause res i :
  i ∈ getRowIndices clause res ↔
  _offset clause ≤ i < length (idTable res) ∧
  ∀ limit, _limit clause = Some limit → i < _offset clause + limit.
Proof.
  unfold getRowIndices, actualOffset, upperBound. rewrite elem_of_seq.
  destruct (_limit clause) as [limit|].
  - split.
    + intros H. split; [lia|]. intros ? [= <-]. lia.
    + intros [H1 H2]. specialize (H2 _ eq_refl). lia.
  - split.
    + intros H. split; [lia|]. intros ? [=].
    + intros [H1 _]. lia.
Qed.

Lemma range_bounds clause n :
  actualOffset clause n ≤ upperBound clause n ∧ upperBound clause n ≤ n.
Proof. unfold actualOffset, upperBound. destruct (_limit clause); lia. Qed.

(** C3, amended.  While the handle is never set: [getRowIndices] is the
    range from [actualOffset n] to [upperBound n], which lies within the
    table; it has [min limit (n - offset)] rows ([n - offset] without
    LIMIT), exactly the indices [i] with [offset <= i < n] and
    [i < offset + limit].  The binary, CSV, TSV and QLever JSON exports
    consist of the renderings of exactly these rows, in this order; so do
    the SPARQL XML export and, when at least one selected variable is
    bound, the SPARQL JSON exports, provided no row fails to render.  With
    no selected variable bound the SPARQL JSON exports have no binding at
    all.  A CONSTRUCT export generates, row by row of the range, the
    template triples all of whose terms evaluate. *)
Theorem exports_emit_the_rows_of_the_range qet selectClause clause handle n0 :
  notCancelled handle →
  let res := getResult qet in
  let n := length (idTable res) in
  let rows := getRowIndices clause res in
  let withQuestionMark := selectedVariablesToColumnIndices qet selectClause true in
  let columnsOrNullopt := selectedVariablesToColumnIndices qet selectClause false in
  let columns := eraseNullopt columnsOrNullopt in
  (rows = seq (actualOffset clause n) (upperBound clause n - actualOffset clause n)
   ∧ actualOffset clause n ≤ upperBound clause n ∧ upperBound clause n ≤ n
   ∧ length rows
     = match _limit clause with
       | Some limit => limit `min` (n - _offset clause)
       | None => n - _offset clause
       end
   ∧ ∀ i, i ∈ rows ↔
       _offset clause ≤ i < n ∧
       ∀ limit, _limit clause = Some limit → i < _offset clause + limit) ∧
  yielded (selectQueryResultToStream octetStream qet selectClause clause handle n0)
  = rows ≫= octetStreamRow res withQuestionMark ∧
  (∀ format, format = csv ∨ format = tsv →
     ∃ out,
       mapM (λ i, separatedRow format res i withQuestionMark) rows = inr out ∧
       yielded (selectQueryResultToStream format qet selectClause clause handle n0)
       = separatedHeader format selectClause ++ concat out) ∧
  (∀ out, mapM (xmlRow res columnsOrNullopt) rows = inr out →
     yielded (selectQueryResultToStream_sparqlXml qet selectClause clause handle n0)
     = xmlPreamble selectClause ++ concat out ++ xmlEpilogue) ∧
  (columns ≠ [] →
     (∀ out, mapM (sparqlJsonRowChunk res columns) rows = inr out →
        yielded (selectQueryResultToStream_sparqlJson qet selectClause clause
                   handle n0)
        = sparqlJsonPreamble selectClause :: out ++ ["]}}"]) ∧
     (∀ out, mapM (rowBinding res columns) rows = inr out →
        outcome (selectQueryResultToSparqlJSON qet selectClause clause res
                   handle n0)
        = inr (sparqlJsonDocument
                 (stripQuestionMark <$> getSelectedVariablesAsStrings selectClause)
                 out))) ∧
  (columns = [] →
     yielded (selectQueryResultToStream_sparqlJson qet selectClause clause
                handle n0)
     = [sparqlJsonPreamble selectClause; "]}}"] ∧
     outcome (selectQueryResultToSparqlJSON qet selectClause clause res
                handle n0)
     = inr (sparqlJsonDocument
              (stripQuestionMark <$> getSelectedVariablesAsStrings selectClause)
              [])) ∧
  (∃ out,
     mapM (idTableToQLeverJSONRow withQuestionMark res) rows = inr out ∧
     length out = length rows ∧
     outcome (selectQueryResultBindingsToQLeverJSON qet selectClause clause res
                handle n0) = inr (JArray out) ∧
     yielded (selectQueryResultBindingsToQLeverJSONStream qet selectClause
                clause res handle n0) = dump <$> out) ∧
  (∀ constructTriples,
     yielded (constructQueryResultToTriples qet constructTriples clause res
                handle n0)
     = i ← rows; omap (evaluateTriple res i) constructTriples).
Proof.
  intros Hq res n rows withQuestionMark columnsOrNullopt columns.
  split; [|split; [|split; [|split; [|split; [|split; [|split]]]]]].
  - split; [reflexivity|]. split; [apply range_bounds|].
    split; [apply range_bounds|].
    split; [apply getRowIndices_length|]. intros i. apply elem_of_getRowIndices.
  - unfold selectQueryResultToStream. simpl.
    rewrite (forEach_notCancelled _ _ (octetStreamRow res withQuestionMark));
      [reflexivity| |exact Hq].
    intros i m _. unfold mbind, Gen_bind, bind, yieldAll, throwIfCancelled.
    simpl. by rewrite app_nil_r.
  - intros format Hf.
    destruct (mapM_total (λ i, separatedRow format res i withQuestionMark) rows)
      as [out Hout]; [intros i; apply separatedRow_succeeds|].
    exists out. split; [exact Hout|].
    unfold selectQueryResultToStream.
    rewrite !bool_decide_eq_false_2 by (intros ->; destruct Hf; discriminate).
    cbv zeta. unfold mbind at 1, Gen_bind, bind at 1. simpl.
    rewrite (forEach_rendered_notCancelled _ _
               (λ i, separatedRow format res i withQuestionMark) _ _ out);
      [reflexivity| |exact Hout|exact Hq].
    intros i m chunks Hr. unfold mbind, Gen_bind, bind, lift, yieldAll,
      throwIfCancelled. fold res. fold withQuestionMark. rewrite Hr. simpl.
    by rewrite app_nil_r.
  - intros out Hout. unfold selectQueryResultToStream_sparqlXml.
    cbv zeta. unfold mbind at 1 2, Gen_bind, bind at 1 2. simpl.
    rewrite (forEach_rendered_notCancelled _ _ (xmlRow res columnsOrNullopt)
               _ _ out); [reflexivity| |exact Hout|exact Hq].
    intros i m chunks Hr. by apply xmlRow_body.
  - intros Hcols. split.
    + intros out Hout. unfold selectQueryResultToStream_sparqlJson. cbv zeta.
      fold res. fold columnsOrNullopt. fold columns.
      rewrite bool_decide_eq_false_2 by exact Hcols.
      unfold mbind at 1 2, Gen_bind, bind at 1 2. simpl.
      rewrite (forEach_rendered1_notCancelled _ _
                 (sparqlJsonRowChunk res columns) _ _ out);
        [reflexivity| |exact Hout|exact Hq].
      intros i m chunk Hr.
      unfold mbind, Gen_bind, bind, lift, co_yield, throwIfCancelled.
      by rewrite Hr.
    + intros out Hout. unfold selectQueryResultToSparqlJSON. cbv zeta.
      fold columnsOrNullopt. fold columns.
      rewrite bool_decide_eq_false_2 by exact Hcols.
      unfold mbind, Gen_bind, bind.
      by rewrite (appendRows_notCancelled _ _ _ _ _ out Hout Hq).
  - intros Hcols. split.
    + unfold selectQueryResultToStream_sparqlJson. cbv zeta.
      fold columnsOrNullopt. fold columns.
      by rewrite bool_decide_eq_true_2 by exact Hcols.
    + unfold selectQueryResultToSparqlJSON. cbv zeta.
      fold columnsOrNullopt. fold columns.
      by rewrite bool_decide_eq_true_2 by exact Hcols.
  - destruct (mapM_total (idTableToQLeverJSONRow withQuestionMark res) rows)
      as [out Hout]; [intros i; apply idTableToQLeverJSONRow_succeeds|].
    exists out. split; [exact Hout|]. split; [by eapply mapM_length|]. split.
    + unfold selectQueryResultBindingsToQLeverJSON, idTableToQLeverJSONArray.
      unfold mbind, Gen_bind, bind.
      by rewrite (appendRows_notCancelled _ _ _ _ _ out Hout Hq).
    + unfold selectQueryResultBindingsToQLeverJSONStream,
        idTableToQLeverJSONBindingsStream.
      rewrite (forEach_rendered1_notCancelled _ _
                 (λ i, match idTableToQLeverJSONRow withQuestionMark res i with
                       | inl e => inl e
                       | inr row => inr (dump row)
                       end) _ _ (dump <$> out)); [reflexivity| | |exact Hq].
      * intros i m chunk Hr.
        unfold mbind, Gen_bind, bind, lift, co_yield, throwIfCancelled.
        fold withQuestionMark.
        destruct (idTableToQLeverJSONRow withQuestionMark res i); [done|].
        by injection Hr as <-.
      * by apply mapM_fmap_inr.
  - intros constructTriples.
    by rewrite constructQueryResultToTriples_notCancelled.
Qed.

(** For every CONSTRUCT query the binary and SPARQL XML streams and the
    buffered SPARQL JSON export are refused before anything is yielded,
    while the SPARQL JSON stream is the CSV stream. *)
Theorem construct_sparqlJson_stream_is_csv original constructTriples clause qet
    requestTimer handle n :
  let query := mkParsedQuery original (Construct constructTriples) clause in
  computeResultAsStream query qet octetStream handle n
  = mkRun [] n
      (inl (RuntimeError "Binary export is not supported for CONSTRUCT queries")) ∧
  computeResultAsStream query qet sparqlXml handle n
  = mkRun [] n
      (inl (RuntimeError
              "XML export is currently not supported for CONSTRUCT queries")) ∧
  computeResultAsJSON query qet requestTimer sparqlJson handle n
  = mkRun [] n
      (inl (RuntimeError
              "SPARQL-compliant JSON format is only supported for SELECT queries")) ∧
  computeResultAsStream query qet sparqlJson handle n
  = computeResultAsStream query qet csv handle n ∧
  (notCancelled handle →
   computeResultAsStream query qet sparqlJson handle n
   = mkRun (generatedTriples constructTriples clause (getResult qet)
              ≫= separatedTriple csv)
       (n + length (generatedTriples constructTriples clause (getResult qet)))
       (inr ())).
Proof.
  intros query. repeat split; try reflexivity.
  intros Hq. unfold computeResultAsStream, computeStream, query,
    setOperationOnCancel, constructQueryResultToStream, forEachYielded.
  simpl. by rewrite constructQueryResultToTriples_notCancelled.
Qed.

End ExportClaims.

(** * Further properties of the result exporter *)

(** ** Resolving identifiers, all cases *)

Section MoreResolution.
Context `{env : Environment}.

(** [idToStringAndType] returns for every id and every choice of its
    template arguments, although both functions it dispatches to can run
    into [AD_FAIL()]: [idToStringAndTypeForEncodedValue] on exactly the ids
    of the four index datatypes, [getLiteralOrIriFromVocabIndex] on exactly
    the ids that are neither a vocabulary nor a local vocabulary index. *)
Theorem idToStringAndType_never_reaches_AD_FAIL :
  (∀ removeQuotesAndAngleBrackets onlyReturnLiterals escapeFunction id
     localVocab,
     ∃ r, idToStringAndType removeQuotesAndAngleBrackets onlyReturnLiterals
            escapeFunction id localVocab = inr r) ∧
  (∀ id,
     idToStringAndTypeForEncodedValue id = inl (CheckFailed "AD_FAIL()") ↔
     getDatatype id ∈
       [VocabIndex; LocalVocabIndex; TextRecordIndex; WordVocabIndex]) ∧
  (∀ id localVocab,
     getLiteralOrIriFromVocabIndex id localVocab = inl (CheckFailed "AD_FAIL()") ↔
     getDatatype id ∉ [VocabIndex; LocalVocabIndex]).
Proof.
  split_and!.
  - intros. apply idToStringAndType_never_throws.
  - intros id. destruct id; simpl;
      (split; intros Hyp;
       [try discriminate Hyp; set_solver
       |try reflexivity;
        repeat (apply elem_of_cons in Hyp as [Hyp|Hyp]; [discriminate Hyp|]);
        by apply elem_of_nil in Hyp]).
  - intros id localVocab. destruct id; simpl;
      (split; intros Hyp;
       [try discriminate Hyp; intros Hin;
        repeat (apply elem_of_cons in Hin as [Hin|Hin]; [discriminate Hin|]);
        by apply elem_of_nil in Hin
       |try reflexivity; exfalso; apply Hyp; set_solver]).
Qed.

(** With [onlyReturnLiterals] on, [idToStringAndType] gives no value for
    every id that is neither a vocabulary nor a local vocabulary index, and
    for a word that is no literal; what it returns is always the escaped
    form of a literal and never has a datatype. *)
Theorem idToStringAndType_onlyReturnLiterals
    removeQuotesAndAngleBrackets escapeFunction id localVocab :
  let resolve :=
    idToStringAndType removeQuotesAndAngleBrackets true escapeFunction id
      localVocab in
  (getDatatype id ∉ [VocabIndex; LocalVocabIndex] → resolve = inr None) ∧
  (∀ word,
     getLiteralOrIriFromVocabIndex id localVocab = inr word →
     resolve =
       inr (if isLiteral word
            then Some (escapeFunction
                         (if removeQuotesAndAngleBrackets then getContent word
                          else toStringRepresentation word), None)
            else None)) ∧
  (∀ str type, resolve = inr (Some (str, type)) →
     type = None ∧
     ∃ word, getLiteralOrIriFromVocabIndex id localVocab = inr word ∧
             isLiteral word = true).
Proof.
  simpl. split_and!.
  - intros Hnot. unfold idToStringAndType.
    destruct id; simpl; try reflexivity; exfalso; apply Hnot; set_solver.
  - intros word Hword. unfold idToStringAndType.
    destruct id; simpl in *; try discriminate Hword;
      injection Hword as <-;
      destruct (isLiteral _), removeQuotesAndAngleBrackets; reflexivity.
  - intros str type. unfold idToStringAndType.
    destruct id; simpl; try discriminate;
      destruct (isLiteral _) eqn:Hlit; simpl; try discriminate;
      destruct removeQuotesAndAngleBrackets; intros [= <- <-];
      (split; [reflexivity|eexists; split; [reflexivity|exact Hlit]]).
Qed.

End MoreResolution.

(** ** Rows of the QLever JSON export *)

Lemma mapM_lookup {A B} (f : A → Exception + B) l out k x :
  mapM f l = inr out → l !! k = Some x →
  ∃ y, f x = inr y ∧ out !! k = Some y.
Proof.
  revert out k. induction l as [|a l IH]; intros out k Hm Hk; [done|].
  apply mapM_cons_inr in Hm as (y & ys & Hy & Hys & ->).
  destruct k as [|k]; simpl in *.
  - injection Hk as <-. eauto.
  - eauto.
Qed.

Section MoreExports.
Context `{env : Environment}.

(** [idTableToQLeverJSONRow] never fails and returns an array with one
    entry per selected column, in their order: [null] for a column that is
    not bound or an id without value, the string itself for a value
    without datatype, and the quoted string followed by [^^<type>] for a
    value with a datatype. *)
Theorem idTableToQLeverJSONRow_has_one_entry_per_column columns res rowIndex :
  ∃ row,
    idTableToQLeverJSONRow columns res rowIndex = inr (JArray row) ∧
    length row = length columns ∧
    ∀ k opt, columns !! k = Some opt →
      match opt with
      | None => row !! k = Some JNull
      | Some column =>
          match idToStringAndTypeDefault
                  (idAt (idTable res) rowIndex (columnIndex_ column))
                  (localVocab res) with
          | inr (Some (stringValue, Some xsdType)) =>
              row !! k =
              Some (JString (String quote stringValue +:+ String quote "^^<"
                             +:+ xsdType +:+ ">"))
          | inr (Some (stringValue, None)) => row !! k = Some (JString stringValue)
          | _ => row !! k = Some JNull
          end
      end.
Proof.
  unfold idTableToQLeverJSONRow.
  destruct (mapM_total (qleverJsonValue res rowIndex) columns
              (qleverJsonValue_succeeds res rowIndex)) as [row Hrow].
  rewrite Hrow. exists row. split; [reflexivity|].
  split; [by eapply mapM_length|].
  intros k opt Hk.
  destruct (mapM_lookup _ _ _ _ _ Hrow Hk) as (y & Hy & ->).
  destruct opt as [column|]; simpl in Hy.
  - destruct (idToStringAndTypeDefault _ _) as [e|[[s [ty|]]|]];
      by try injection Hy as <-.
  - by injection Hy as <-.
Qed.

End MoreExports.

(** ** The text of a stream *)

Lemma string_app_empty_r (s : string) : s +:+ "" = s.
Proof.
  induction s as [|c s IH]; [done|].
  change (String c (s +:+ "") = String c s). by rewrite IH.
Qed.

Lemma streamText_cons (chunk : string) (chunks : list string) :
  streamText (chunk :: chunks) = chunk +:+ streamText chunks.
Proof.
  unfold streamText. destruct chunks as [|c cs]; cbn.
  - by rewrite string_app_empty_r.
  - reflexivity.
Qed.

Lemma streamText_app (a b : list string) :
  streamText (a ++ b) = streamText a +:+ streamText b.
Proof.
  induction a as [|x a IH]; [reflexivity|].
  rewrite <- app_comm_cons, !streamText_cons, IH.
  by rewrite string_app_assoc.
Qed.

Lemma streamText_separated_tail (sep : string) (l : list string) :
  streamText (l ≫= λ b, [sep; b])
  = String.concat "" ((λ b, sep +:+ b) <$> l).
Proof.
  induction l as [|x l IH]; [reflexivity|].
  cbn [mbind list_bind fmap list_fmap app].
  change (streamText (sep :: x :: (l ≫= λ b, [sep; b]))
          = streamText ((sep +:+ x) :: ((λ b, sep +:+ b) <$> l))).
  rewrite !streamText_cons, IH. by rewrite string_app_assoc.
Qed.

Lemma concat_sep_cons (sep x : string) (l : list string) :
  String.concat sep (x :: l)
  = x +:+ String.concat "" ((λ b, sep +:+ b) <$> l).
Proof.
  revert x. induction l as [|y l IH]; intros x.
  - cbn. by rewrite string_app_empty_r.
  - change (String.concat sep (x :: y :: l))
      with (x +:+ sep +:+ String.concat sep (y :: l)).
    rewrite IH.
    change (String.concat "" ((λ b, sep +:+ b) <$> y :: l))
      with (streamText ((sep +:+ y) :: ((λ b, sep +:+ b) <$> l))).
    rewrite streamText_cons. by rewrite !string_app_assoc.
Qed.

Lemma imap_const_bind {A B} (f : A → list B) (g : nat → A → list B) l :
  (∀ k x, g k x = f x) → mjoin (imap g l) = l ≫= f.
Proof.
  intros Hg. revert g Hg. induction l as [|x l IH]; intros g Hg; [reflexivity|].
  cbn. rewrite Hg. f_equal. apply IH. intros k y. apply Hg.
Qed.

Lemma streamText_commaSeparated (bindings : list string) :
  streamText (commaSeparated bindings) = String.concat "," bindings.
Proof.
  destruct bindings as [|b rest]; [reflexivity|].
  unfold commaSeparated. cbn [imap mjoin list_join].
  rewrite (imap_const_bind (λ b, [","; b])) by done.
  change (streamText (b :: (rest ≫= λ b, [","; b])) = String.concat "," (b :: rest)).
  by rewrite streamText_cons, streamText_separated_tail, concat_sep_cons.
Qed.

Section QLeverJson.
Context `{env : Environment}.

Lemma selectQueryResultBindingsToQLeverJSONStream_notCancelled qet selectClause
    clause handle n :
  notCancelled handle →
  ∃ out,
    mapM (idTableToQLeverJSONRow
            (selectedVariablesToColumnIndices qet selectClause true)
            (getResult qet))
      (getRowIndices clause (getResult qet)) = inr out ∧
    length out = length (getRowIndices clause (getResult qet)) ∧
    selectQueryResultBindingsToQLeverJSONStream qet selectClause clause
      (getResult qet) handle n
    = mkRun (dump <$> out)
        (n + length (getRowIndices clause (getResult qet))) (inr ()) ∧
    selectQueryResultBindingsToQLeverJSON qet selectClause clause
      (getResult qet) handle n
    = mkRun [] (n + length (getRowIndices clause (getResult qet)))
        (inr (JArray out)).
Proof.
  intros Hq.
  destruct (mapM_total
              (idTableToQLeverJSONRow
                 (selectedVariablesToColumnIndices qet selectClause true)
                 (getResult qet))
              (getRowIndices clause (getResult qet))) as [out Hout];
    [intros i; apply idTableToQLeverJSONRow_succeeds|].
  exists out. split; [exact Hout|]. split; [by eapply mapM_length|]. split.
  - unfold selectQueryResultBindingsToQLeverJSONStream,
      idTableToQLeverJSONBindingsStream.
    apply (forEach_rendered1_notCancelled _ _
             (λ i, match idTableToQLeverJSONRow
                           (selectedVariablesToColumnIndices qet selectClause true)
                           (getResult qet) i with
                   | inl e => inl e
                   | inr row => inr (dump row)
                   end)); [|by apply mapM_fmap_inr|exact Hq].
    intros i m chunk Hr.
    unfold mbind, Gen_bind, bind, lift, co_yield, throwIfCancelled.
    destruct (idTableToQLeverJSONRow _ _ i); [done|]. by injection Hr as <-.
  - unfold selectQueryResultBindingsToQLeverJSON, idTableToQLeverJSONArray.
    unfold mbind, Gen_bind, bind.
    by rewrite (appendRows_notCancelled _ _ _ _ _ out Hout Hq).
Qed.

(** The suffix object of the stream. *)
Lemma qleverJson_stream_run (bindings : Gen string ()) timer handle n chunks
    polled prefix :
  bindings handle n = mkRun chunks polled (inr ()) →
  (_ ← co_yield prefix; yieldBindingsAndSuffix bindings timer) handle n
  = mkRun
      ([prefix] ++ commaSeparated chunks
       ++ ["]," +:+
           substrFrom
             (dump (jsonSet "time"
                      (jsonTimes (secondReading timer) (firstReading timer))
                      (jsonSet "resultsize"
                         (JNumber (Z.of_nat (length chunks))) JNull))) 1])
      polled (inr ()).
Proof.
  intros Hrun. unfold mbind, Gen_bind, bind, co_yield, yieldBindingsAndSuffix.
  simpl. by rewrite Hrun.
Qed.

(** While the handle is never set, the chunks of
    [computeResultAsQLeverJSONStream], one after the other, are the dump of
    the preamble without its closing brace, the member [res] with the dumps
    of the rows (or triples) separated by commas, and the times and
    [resultsize], which is the number of rows (or triples) that were
    exported. *)
Theorem computeResultAsQLeverJSONStream_text original clause qet requestTimer
    handle n :
  notCancelled handle →
  let res := getResult qet in
  let rows := getRowIndices clause res in
  let text resultSize (bindings : list string) query :=
    dropLast (dump (qleverJsonPreamble query qet))
    +:+ ("," +:+ String quote "res" +:+ String quote ":[")
    +:+ String.concat "," bindings
    +:+ "]," +:+
        substrFrom
          (dump (jsonSet "time"
                   (jsonTimes (secondReading requestTimer)
                      (firstReading requestTimer))
                   (jsonSet "resultsize" (JNumber (Z.of_nat resultSize))
                      JNull))) 1 in
  (∀ selectClause,
     let query := mkParsedQuery original (Select selectClause) clause in
     let run := computeResultAsQLeverJSONStream query qet requestTimer handle n in
     ∃ out,
       mapM (idTableToQLeverJSONRow
               (selectedVariablesToColumnIndices qet selectClause true) res)
         rows = inr out ∧
       outcome run = inr () ∧
       streamText (yielded run) = text (length rows) (dump <$> out) query) ∧
  (∀ constructTriples,
     let query := mkParsedQuery original (Construct constructTriples) clause in
     let run := computeResultAsQLeverJSONStream query qet requestTimer handle n in
     let triples := generatedTriples constructTriples clause res in
     outcome run = inr () ∧
     streamText (yielded run)
     = text (length triples) ((λ t, dump (tripleToJson t)) <$> triples) query).
Proof.
  intros Hq res rows text. split.
  - intros selectClause query run.
    destruct (selectQueryResultBindingsToQLeverJSONStream_notCancelled qet
                selectClause clause handle n Hq)
      as (out & Hout & Hlen & Hstream & _).
    exists out. split; [exact Hout|].
    unfold run, computeResultAsQLeverJSONStream. cbv zeta.
    rewrite (qleverJson_stream_run _ _ _ _ _ _ _ Hstream). split; [reflexivity|].
    cbn [yielded]. rewrite !streamText_app, streamText_commaSeparated.
    rewrite length_fmap, Hlen. unfold text.
    change (streamText [?a]) with a.
    by rewrite !string_app_assoc.
  - intros constructTriples query run triples.
    assert (constructQueryResultBindingsToQLeverJSONStream qet constructTriples
              clause res handle n
            = mkRun ((λ t, dump (tripleToJson t)) <$> triples)
                (n + length triples) (inr ())) as Hstream.
    { unfold constructQueryResultBindingsToQLeverJSONStream, forEachYielded.
      rewrite (constructQueryResultToTriples_notCancelled _ _ _ _ _ _ Hq).
      cbn [yielded polls outcome]. f_equal. }
    unfold run, computeResultAsQLeverJSONStream. cbv zeta.
    rewrite (qleverJson_stream_run _ _ _ _ _ _ _ Hstream). split; [reflexivity|].
    cbn [yielded]. rewrite !streamText_app, streamText_commaSeparated.
    rewrite length_fmap. unfold text.
    change (streamText [?a]) with a.
    by rewrite !string_app_assoc.
Qed.

(** While the handle is never set, [computeQueryResultAsQLeverJSON] yields
    nothing, polls once per exported row or triple and returns a document
    with the query string, the status OK, the selected variables and the
    rows under [res].  For a SELECT query [resultsize] is the size of the
    whole table, whatever LIMIT and OFFSET are; for a CONSTRUCT query it is
    the number of exported triples. *)
Theorem computeQueryResultAsQLeverJSON_members original clause qet requestTimer
    handle n :
  notCancelled handle →
  let res := getResult qet in
  let rows := getRowIndices clause res in
  (∀ selectClause,
     let query := mkParsedQuery original (Select selectClause) clause in
     ∃ out doc,
       mapM (idTableToQLeverJSONRow
               (selectedVariablesToColumnIndices qet selectClause true) res)
         rows = inr out ∧
       length out = length rows ∧
       computeQueryResultAsQLeverJSON query qet requestTimer handle n
       = mkRun [] (n + length rows) (inr doc) ∧
       jsonGet "query" doc = Some (JString original) ∧
       jsonGet "status" doc = Some (JString "OK") ∧
       jsonGet "selected" doc
       = Some (jsonStrings (getSelectedVariablesAsStrings selectClause)) ∧
       jsonGet "res" doc = Some (JArray out) ∧
       jsonGet "resultsize" doc
       = Some (JNumber (Z.of_nat (length (idTable res))))) ∧
  (∀ constructTriples,
     let query := mkParsedQuery original (Construct constructTriples) clause in
     let triples := generatedTriples constructTriples clause res in
     ∃ doc,
       computeQueryResultAsQLeverJSON query qet requestTimer handle n
       = mkRun [] (n + length triples) (inr doc) ∧
       jsonGet "selected" doc
       = Some (jsonStrings ["?subject"; "?predicate"; "?object"]) ∧
       jsonGet "res" doc = Some (JArray (tripleToJson <$> triples)) ∧
       jsonGet "resultsize" doc = Some (JNumber (Z.of_nat (length triples)))).
Proof.
  intros Hq res rows. split.
  - intros selectClause query.
    destruct (selectQueryResultBindingsToQLeverJSONStream_notCancelled qet
                selectClause clause handle n Hq)
      as (out & Hout & Hlen & _ & Hbuffered).
    exists out. eexists. split; [exact Hout|]. split; [exact Hlen|].
    unfold computeQueryResultAsQLeverJSON, query. cbv zeta.
    cbn [_clause _limitOffset].
    unfold mbind, Gen_bind, bind. rewrite Hbuffered.
    cbn [outcome yielded polls mret Gen_ret ret app].
    split; [reflexivity|]. by vm_compute.
  - intros constructTriples query triples. eexists.
    unfold computeQueryResultAsQLeverJSON, query. cbv zeta.
    cbn [_clause _limitOffset].
    unfold constructQueryResultBindingsToQLeverJSON, collect.
    unfold mbind, Gen_bind, bind.
    rewrite (constructQueryResultToTriples_notCancelled _ _ _ _ _ _ Hq).
    cbn [outcome yielded polls mret Gen_ret ret app].
    fold triples.
    split; [reflexivity|]. split; [by vm_compute|]. split; [by vm_compute|].
    cbn. by rewrite length_fmap.
Qed.

End QLeverJson.

(** ** Cancelled streams *)

Lemma firstSetAt_S handle n j :
  firstSetAt handle n (S j) → handle n = false ∧ firstSetAt handle (S n) j.
Proof.
  intros [Hq Hset]. split.
  - rewrite <- (Nat.add_0_r n). apply Hq. lia.
  - split.
    + intros k Hk. replace (S n + k) with (n + S k) by lia. apply Hq. lia.
    + by replace (S n + j) with (n + S j) by lia.
Qed.

Lemma forEach_rendered_cancelled {Y} (l : list nat)
    (body : nat → Gen Y ()) (render : nat → Exception + list Y) handle n out j :
  (∀ i m chunks, render i = inr chunks →
     body i handle m =
     mkRun chunks (S m)
       (if handle m then inl (CancellationException None) else inr ())) →
  mapM render l = inr out → j < length l → firstSetAt handle n j →
  forEach l body handle n
  = mkRun (concat (take (S j) out)) (n + S j)
      (inl (CancellationException None)).
Proof.
  intros Hbody. revert n out j.
  induction l as [|x l IH]; intros n out j Hm Hj Hset; [simpl in Hj; lia|].
  apply mapM_cons_inr in Hm as (y & ys & Hy & Hys & ->).
  rewrite forEach_cons, (Hbody _ _ _ Hy). cbn [outcome yielded polls].
  destruct j as [|j].
  - destruct Hset as [_ Hset]. rewrite Nat.add_0_r in Hset. rewrite Hset.
    cbn. rewrite app_nil_r. f_equal. lia.
  - apply firstSetAt_S in Hset as [Hn Hset]. rewrite Hn.
    rewrite (IH (S n) ys j Hys); [|simpl in Hj; lia|exact Hset].
    cbn. f_equal. lia.
Qed.

Lemma mapM_fmap_total {A B} (f : A → B) (l : list A) :
  mapM (λ x, inr (f x)) l = inr (f <$> l).
Proof. induction l as [|x l IH]; [reflexivity|]. simpl. by rewrite IH. Qed.

Section MoreStreams.
Context `{env : Environment}.

(** When the handle is first found set at the poll after row [j] of the
    range, the CSV, TSV and binary streams of a SELECT query have yielded
    the header and the rows up to and including row [j], and end with the
    cancellation that names the stream export. *)
Theorem cancelled_stream_keeps_the_rows_up_to_the_poll original selectClause
    clause qet handle n j :
  let res := getResult qet in
  let rows := getRowIndices clause res in
  let columns := selectedVariablesToColumnIndices qet selectClause true in
  let query := mkParsedQuery original (Select selectClause) clause in
  j < length rows → firstSetAt handle n j →
  (∀ format, format = csv ∨ format = tsv →
     ∃ out,
       mapM (λ i, separatedRow format res i columns) rows = inr out ∧
       computeResultAsStream query qet format handle n
       = mkRun (separatedHeader format selectClause ++ concat (take (S j) out))
           (n + S j)
           (inl (CancellationException (Some "Stream query export")))) ∧
  computeResultAsStream query qet octetStream handle n
  = mkRun (take (S j) rows ≫= octetStreamRow res columns) (n + S j)
      (inl (CancellationException (Some "Stream query export"))).
Proof.
  intros res rows columns query Hj Hset. split.
  - intros format Hf.
    destruct (mapM_total (λ i, separatedRow format res i columns) rows)
      as [out Hout]; [intros i; apply separatedRow_succeeds|].
    exists out. split; [exact Hout|].
    assert (computeStream format query qet handle n
            = mkRun (separatedHeader format selectClause
                     ++ concat (take (S j) out))
                (n + S j) (inl (CancellationException None))) as Hrun.
    { unfold computeStream, query. cbn [_clause _limitOffset].
      transitivity (selectQueryResultToStream format qet selectClause clause
                      handle n); [by destruct Hf as [-> | ->]|].
      unfold selectQueryResultToStream.
      rewrite !bool_decide_eq_false_2 by (intros ->; destruct Hf; discriminate).
      cbv zeta. unfold mbind at 1, Gen_bind, bind at 1.
      cbn [yieldAll outcome yielded polls].
      rewrite (forEach_rendered_cancelled _ _
                 (λ i, separatedRow format res i columns) _ _ out j);
        [reflexivity| |exact Hout|exact Hj|exact Hset].
      intros i m chunks Hr. unfold mbind, Gen_bind, bind, lift, yieldAll,
        throwIfCancelled. fold res. fold columns. rewrite Hr. simpl.
      by rewrite app_nil_r. }
    unfold computeResultAsStream, setOperationOnCancel.
    destruct Hf as [-> | ->]; by rewrite Hrun.
  - unfold computeResultAsStream, setOperationOnCancel, computeStream, query.
    cbn [_clause _limitOffset]. unfold selectQueryResultToStream. simpl.
    fold res. fold columns. fold rows.
    rewrite (forEach_rendered_cancelled _ _
               (λ i, inr (octetStreamRow res columns i)) _ _
               (octetStreamRow res columns <$> rows) j);
      [| |by apply mapM_fmap_total|exact Hj|exact Hset].
    + cbn [outcome yielded polls]. f_equal.
      rewrite <- fmap_take. generalize (take (S j) rows). intros l.
      induction l as [|x l IH]; [reflexivity|]. cbn. by rewrite IH.
    + intros i m chunks [= <-].
      unfold mbind, Gen_bind, bind, yieldAll, throwIfCancelled. simpl.
      by rewrite app_nil_r.
Qed.

End MoreStreams.

(** ** The text of the SPARQL JSON stream *)

Section SparqlJsonStream.
Context `{env : Environment}.

Lemma sparqlJsonRowChunk_mapM res columns rows bindings :
  mapM (rowBinding res columns) rows = inr bindings →
  mapM (sparqlJsonRowChunk res columns) rows
  = inr (zip_with
           (λ i b, (if bool_decide (i = 0) then "" else ",") +:+ dump b)
           rows bindings).
Proof.
  revert bindings. induction rows as [|i rows IH]; intros bindings Hm.
  - by injection Hm as <-.
  - apply mapM_cons_inr in Hm as (b & bs & Hb & Hbs & ->).
    cbn [mapM]. unfold sparqlJsonRowChunk at 1. rewrite Hb, (IH _ Hbs).
    reflexivity.
Qed.

Lemma streamText_later_chunks first len (bindings : list Json) :
  0 < first →
  streamText
    (zip_with (λ i b, (if bool_decide (i = 0) then "" else ",") +:+ dump b)
       (seq first len) bindings)
  = String.concat "" ((λ b, "," +:+ b) <$> (dump <$> take len bindings)).
Proof.
  revert first bindings. induction len as [|len IH]; intros first bindings Hf.
  - by destruct bindings.
  - destruct bindings as [|b bs]; [reflexivity|].
    cbn [seq zip_with take fmap list_fmap].
    rewrite bool_decide_eq_false_2 by lia.
    change (String.concat "" (("," +:+ dump b) :: ?l))
      with (streamText (("," +:+ dump b) :: l)).
    rewrite !streamText_cons, (IH (S first) bs) by lia. reflexivity.
Qed.

(** While the handle is never set, with a bound selected variable and a
    range that is not empty, the chunks of the SPARQL JSON stream, one
    after the other, are the preamble, the dumps of the bindings separated
    by commas, and the closing brackets; when the range does not start at
    row 0, a comma stands before the first binding. *)
Theorem sparqlJson_stream_text qet selectClause clause handle n bindings :
  let res := getResult qet in
  let rows := getRowIndices clause res in
  let columns :=
    eraseNullopt (selectedVariablesToColumnIndices qet selectClause false) in
  notCancelled handle → columns ≠ [] → rows ≠ [] →
  mapM (rowBinding res columns) rows = inr bindings →
  streamText
    (yielded (selectQueryResultToStream_sparqlJson qet selectClause clause
                handle n))
  = sparqlJsonPreamble selectClause
    +:+ (if bool_decide (actualOffset clause (length (idTable res)) = 0)
         then "" else ",")
    +:+ String.concat "," (dump <$> bindings)
    +:+ "]}}".
Proof.
  intros res rows columns Hq Hcols Hrows Hm.
  pose proof (sparqlJsonRowChunk_mapM _ _ _ _ Hm) as Hchunks.
  unfold selectQueryResultToStream_sparqlJson. cbv zeta.
  fold res. fold columns. fold rows.
  rewrite bool_decide_eq_false_2 by exact Hcols.
  unfold mbind at 1 2, Gen_bind, bind at 1 2.
  cbn [co_yield outcome yielded polls].
  assert (∀ i m chunk, sparqlJsonRowChunk res columns i = inr chunk →
            (chunk ← lift (sparqlJsonRowChunk res columns i);
             _ ← co_yield chunk;
             throwIfCancelled) handle m
            = mkRun [chunk] (S m)
                (if handle m then inl (CancellationException None)
                 else inr ())) as Hbody.
  { intros i m chunk Hr.
    unfold mbind, Gen_bind, bind, lift, co_yield, throwIfCancelled.
    by rewrite Hr. }
  rewrite (forEach_rendered1_notCancelled _ _ _ _ _ _ Hbody Hchunks Hq).
  cbn [outcome yielded polls co_yield app].
  rewrite streamText_cons, streamText_app. f_equal.
  change (streamText ["]}}"]) with "]}}".
  rewrite <- string_app_assoc. f_equal.
  pose proof (mapM_length _ _ _ Hm) as Hlen.
  unfold rows, getRowIndices in *. fold res in Hlen, Hrows |- *.
  set (first := actualOffset clause (length (idTable res))) in *.
  destruct (upperBound clause (length (idTable res)) - first) as [|len];
    [done|].
  destruct bindings as [|b bs]; [done|].
  cbn [seq zip_with fmap list_fmap].
  rewrite streamText_cons, streamText_later_chunks by lia.
  rewrite concat_sep_cons, string_app_assoc.
  simpl in Hlen. rewrite length_seq in Hlen.
  rewrite firstn_all2 by lia. reflexivity.
Qed.

End SparqlJsonStream.

(** ** Failures of the decoders and of the entry points *)

Section Decoders.
Context `{env : Environment}.

Lemma xmlLiteralOrIri_fails_like_stringAndTypeToBinding entitystr :
  succeeds (xmlLiteralOrIri entitystr)
  = succeeds (stringAndTypeToBinding entitystr None).
Proof.
  unfold xmlLiteralOrIri, stringAndTypeToBinding.
  repeat (case_match; try reflexivity).
Qed.

Lemma idToXMLBinding_fails_like_stringAndTypeToBinding variable id localVocab :
  succeeds (idToXMLBinding variable id localVocab)
  = match idToStringAndTypeDefault id localVocab with
    | inr (Some (stringValue, xsdType)) =>
        succeeds (stringAndTypeToBinding stringValue xsdType)
    | _ => true
    end.
Proof.
  unfold idToXMLBinding, idToStringAndTypeDefault.
  destruct (idToStringAndType_never_throws false false (λ s, s) id localVocab)
    as [r ->].
  destruct r as [[stringValue [ty|]]|]; [reflexivity| |reflexivity].
  rewrite <- xmlLiteralOrIri_fails_like_stringAndTypeToBinding.
  by destruct (xmlLiteralOrIri stringValue).
Qed.

Lemma fillBinding_succeeds res i columns binding :
  succeeds (fillBinding res i columns binding)
  = succeeds
      (mapM (λ val, idToXMLBinding (variable_ val)
                      (idAt (idTable res) i (columnIndex_ val))
                      (localVocab res))
         columns).
Proof.
  revert binding. induction columns as [|column rest IH]; intros binding;
    [reflexivity|].
  cbn [fillBinding mapM].
  pose proof (idToXMLBinding_fails_like_stringAndTypeToBinding
                (variable_ column)
                (idAt (idTable res) i (columnIndex_ column)) (localVocab res))
    as Hx.
  destruct (idToStringAndType_never_throws false false (λ s, s)
              (idAt (idTable res) i (columnIndex_ column)) (localVocab res))
    as [r Hr].
  unfold idToStringAndTypeDefault in *. rewrite Hr in Hx |- *.
  destruct r as [[stringValue xsdType]|].
  - destruct (stringAndTypeToBinding stringValue xsdType) as [e|b];
      destruct (idToXMLBinding _ _ _) as [e'|x]; try discriminate Hx;
      [reflexivity|].
    rewrite (IH (jsonSet (variable_ column) b binding)).
    by destruct (mapM _ rest).
  - destruct (idToXMLBinding _ _ _) as [e'|x]; [discriminate Hx|].
    rewrite (IH binding). by destruct (mapM _ rest).
Qed.

(** The SPARQL XML rendering of a row fails exactly when its SPARQL JSON
    binding fails: the two decoders fail on the same strings, and none
    fails on a value that has a datatype. *)
Theorem sparqlXml_and_sparqlJson_fail_on_the_same_rows res columns i :
  succeeds (xmlRow res columns i)
  = succeeds (rowBinding res (eraseNullopt columns) i) ∧
  (∀ entitystr,
     succeeds (xmlLiteralOrIri entitystr)
     = succeeds (stringAndTypeToBinding entitystr None)) ∧
  (∀ entitystr xsdType,
     succeeds (stringAndTypeToBinding entitystr (Some xsdType)) = true).
Proof.
  split_and!.
  - unfold rowBinding, xmlRow, eraseNullopt. rewrite fillBinding_succeeds.
    by destruct (mapM _ (omap id columns)).
  - apply xmlLiteralOrIri_fails_like_stringAndTypeToBinding.
  - reflexivity.
Qed.

(** [computeResultAsJSON] runs into [AD_FAIL()] for every media type
    other than QLever JSON and SPARQL JSON, and the Turtle stream of a
    SELECT query fails its check; both before a row is read or the handle
    polled. *)
Theorem unsupported_media_types_fail_before_any_output query qet requestTimer
    handle n :
  (∀ mediaType, mediaType ≠ qleverJson → mediaType ≠ sparqlJson →
     computeResultAsJSON query qet requestTimer mediaType handle n
     = mkRun [] n (inl (CheckFailed "AD_FAIL()"))) ∧
  (∀ selectClause, _clause query = Select selectClause →
     computeResultAsStream query qet turtle handle n
     = mkRun [] n (inl (CheckFailed "format != MediaType::turtle"))).
Proof.
  split.
  - intros mediaType H1 H2. by destruct mediaType.
  - intros selectClause Hc.
    unfold computeResultAsStream, setOperationOnCancel, computeStream.
    by rewrite Hc.
Qed.

(** ** The shape of a CSV or TSV row *)

(** A CSV or TSV row never fails to render; it consists of one field per
    selected column, each of at most one chunk and empty for a column that
    is not bound, each followed by the separator, the last one by a
    newline. *)
Theorem separatedRow_has_one_separator_per_column format res i columns :
  let separator := if bool_decide (format = tsv) then tab else "," in
  ∃ row fields,
    separatedRow format res i columns = inr row ∧
    length fields = length columns ∧
    row
    = mjoin
        (zip_with (λ field sep, field ++ [sep]) fields
           (replicate (length columns - 1) separator ++ [newline])) ∧
    ∀ k field, fields !! k = Some field →
      length field ≤ 1 ∧ (columns !! k = Some None → field = []).
Proof.
  intros separator.
  induction columns as [|column rest (row & fields & Hrow & Hlen & Hshape & Hfields)].
  - exists [], []. repeat split; try done.
  - cbn [separatedRow]. rewrite Hrow.
    set (value := match column with
                  | Some val => _
                  | None => inr []
                  end).
    assert (∃ v, value = inr v ∧ length v ≤ 1 ∧ (column = None → v = []))
      as (v & Hv & Hv1 & Hvnone).
    { unfold value. destruct column as [val|];
        [|exists []; split; [done|split; [simpl; lia|done]]].
      destruct (idToStringAndType_never_throws (bool_decide (format = csv))
                  false
                  (if bool_decide (format = tsv) then escapeForTsv
                   else escapeForCsv)
                  (idAt (idTable res) i (columnIndex_ val)) (localVocab res))
        as [r ->].
      destruct r as [[str ty]|]; eexists; (split; [reflexivity|]);
        (split; [simpl; lia|intros [=]]). }
    rewrite Hv. eexists _, (v :: fields). split; [reflexivity|].
    split; [simpl; by rewrite Hlen|]. split.
    + destruct rest as [|column' rest'].
      * destruct fields; [|done]. simpl in Hshape. subst row.
        rewrite bool_decide_eq_true_2 by done. cbn. by rewrite !app_nil_r.
      * rewrite bool_decide_eq_false_2 by done.
        cbn [length Nat.sub replicate app zip_with mjoin list_join].
        rewrite Hshape. cbn [length Nat.sub]. rewrite Nat.sub_0_r.
        fold separator. by rewrite <- app_assoc.
    + intros [|k] field Hk; simpl in Hk.
      * injection Hk as <-. split; [done|]. simpl. by intros [= ->%Hvnone].
      * simpl. by apply Hfields.
Qed.

End Decoders.

(** ** The rest after the last double quote *)

(** What [stringAndTypeToBinding] does once the last double quote of a
    quoted string is found. *)
Lemma stringAndTypeToBinding_quoted value suffix :
  hasNoQuote suffix →
  (size (String quote value +:+ String quote suffix) < 2 ^ 64)%N →
  stringAndTypeToBinding (String quote value +:+ String quote suffix) None
  = let s := String quote value +:+ String quote suffix in
    let b := literalBinding value in
    if (0 <? size suffix)%N &&
       Ascii.eqb (default "000"%char (String.get 0 suffix)) "@"
    then inr (jsonSet "xml:lang"
                (JString (substrFrom s (1 + size value + 2))) b)
    else if (1 <? size suffix)%N &&
            Ascii.eqb (default "000"%char (String.get 0 suffix)) "^"
    then
      if negb (Ascii.eqb (default "000"%char (String.get 1 suffix)) "^")
      then inl (CheckFailed "entitystr[quotePos + 2] == '^'")
      else if (size suffix <? 4)%N
      then inl (CheckFailed "datatype.size() >= quotePos + 5")
      else
        let datatype := substrFrom s (1 + size value + 4) in
        inr (jsonSet "datatype"
               (JString (substr datatype 0 (size datatype - 1))) b)
    else inr b.
Proof.
  intros Hno Hlt. pose proof (quoted_size value suffix) as Hsize.
  unfold stringAndTypeToBinding.
  replace (starts_with (String quote value +:+ String quote suffix) "<")
    with false by reflexivity.
  replace (starts_with (String quote value +:+ String quote suffix) "_:")
    with false by reflexivity.
  rewrite rfind_quoted by done. rewrite quoted_value by done.
  rewrite !sizeSub_small by lia. rewrite Hsize.
  pose proof (quoted_tail value suffix 0) as Hc0.
  pose proof (quoted_tail value suffix 1) as Hc1.
  rewrite N.add_0_r in Hc0.
  replace (1 + size value + 1 + N.of_nat 1)%N with (1 + size value + 2)%N
    in Hc1 by lia.
  rewrite Hc0, Hc1. cbv zeta.
  replace (1 + size value <? 2 + size value + size suffix - 1)%N
    with (0 <? size suffix)%N
    by (destruct (N.ltb_spec 0 (size suffix));
        symmetry; [apply N.ltb_lt|apply N.ltb_ge]; lia).
  replace (1 + size value <? 2 + size value + size suffix - 2)%N
    with (1 <? size suffix)%N
    by (destruct (N.ltb_spec 1 (size suffix));
        symmetry; [apply N.ltb_lt|apply N.ltb_ge]; lia).
  replace (2 + size value + size suffix <? 1 + size value + 5)%N
    with (size suffix <? 4)%N
    by (destruct (N.ltb_spec (size suffix) 4);
        symmetry; [apply N.ltb_lt|apply N.ltb_ge]; lia).
  reflexivity.
Qed.

(** What [stringAndTypeToBinding] makes of the rest after the last double
    quote: a rest that starts with neither [@] nor [^], and the rest [^]
    alone, are dropped; a [^] followed by another character fails the
    check for the second [^]; [^^] followed by less than two characters
    fails the check of the length; and after [^^] the first and the last
    character are cut off and what lies between is the datatype, whether
    or not they are angle brackets. *)
Theorem stringAndTypeToBinding_suffix_edge_cases value suffix :
  let s := String quote value +:+ String quote suffix in
  hasNoQuote suffix → (size s < 2 ^ 64)%N →
  (∀ c rest, suffix = String c rest → c ≠ "@"%char → c ≠ "^"%char →
     stringAndTypeToBinding s None = inr (literalBinding value)) ∧
  (suffix = "^" →
     stringAndTypeToBinding s None = inr (literalBinding value)) ∧
  (∀ c rest, suffix = "^" +:+ String c rest → c ≠ "^"%char →
     stringAndTypeToBinding s None
     = inl (CheckFailed "entitystr[quotePos + 2] == '^'")) ∧
  (∀ rest, suffix = "^^" +:+ rest → (size rest < 2)%N →
     stringAndTypeToBinding s None
     = inl (CheckFailed "datatype.size() >= quotePos + 5")) ∧
  (∀ opening datatype closing,
     suffix = "^^" +:+ String opening (datatype +:+ String closing "") →
     stringAndTypeToBinding s None
     = inr (jsonSet "datatype" (JString datatype) (literalBinding value))).
Proof.
  intros s Hno Hlt. unfold s in *.
  rewrite (stringAndTypeToBinding_quoted value suffix Hno Hlt). cbv zeta.
  split_and!.
  - intros c rest -> Hat Hcaret.
    change (default "000"%char (String.get 0 (String c rest))) with c.
    rewrite (proj2 (Ascii.eqb_neq c "@") Hat),
      (proj2 (Ascii.eqb_neq c "^") Hcaret).
    by rewrite !andb_false_r.
  - intros ->. reflexivity.
  - intros c rest -> Hcaret.
    change (default "000"%char (String.get 0 ("^" +:+ String c rest)))
      with "^"%char.
    change (default "000"%char (String.get 1 ("^" +:+ String c rest))) with c.
    rewrite (proj2 (Ascii.eqb_neq c "^") Hcaret).
    change (Ascii.eqb "^" "@") with false. change (Ascii.eqb "^" "^") with true.
    rewrite andb_false_r, andb_true_r. cbn [negb].
    replace (1 <? size ("^" +:+ String c rest))%N with true; [reflexivity|].
    symmetry. apply N.ltb_lt.
    change ("^" +:+ String c rest) with (String "^" (String c rest)).
    rewrite !size_String. lia.
  - intros rest -> Hrest.
    change (default "000"%char (String.get 0 ("^^" +:+ rest))) with "^"%char.
    change (default "000"%char (String.get 1 ("^^" +:+ rest))) with "^"%char.
    change (Ascii.eqb "^" "@") with false. change (Ascii.eqb "^" "^") with true.
    rewrite andb_false_r, andb_true_r. cbn [negb].
    change ("^^" +:+ rest) with (String "^" (String "^" rest)).
    rewrite !size_String.
    replace (1 + (1 + size rest))%N with (2 + size rest)%N by lia.
    replace (1 <? 2 + size rest)%N with true
      by (symmetry; apply N.ltb_lt; lia).
    replace (2 + size rest <? 4)%N with true
      by (symmetry; apply N.ltb_lt; lia).
    reflexivity.
  - intros opening datatype closing ->.
    set (suffix := "^^" +:+ String opening (datatype +:+ String closing "")).
    change (default "000"%char (String.get 0 suffix)) with "^"%char.
    change (default "000"%char (String.get 1 suffix)) with "^"%char.
    change (Ascii.eqb "^" "@") with false. change (Ascii.eqb "^" "^") with true.
    rewrite andb_false_r, andb_true_r. cbn [negb].
    assert (size suffix = 4 + size datatype)%N as Hsuf.
    { unfold suffix.
      change ("^^" +:+ String opening (datatype +:+ String closing ""))
        with (String "^" (String "^"
                (String opening (datatype +:+ String closing "")))).
      rewrite !size_String, size_app, size_String.
      change (size "") with 0%N. lia. }
    rewrite Hsuf.
    replace (1 <? 4 + size datatype)%N with true
      by (symmetry; apply N.ltb_lt; lia).
    replace (4 + size datatype <? 4)%N with false
      by (symmetry; apply N.ltb_ge; lia).
    pose proof (quoted_suffix_from value ("^^" +:+ String opening "")
                  (datatype +:+ String closing "")) as Hs.
    replace (("^^" +:+ String opening "") +:+ datatype +:+ String closing "")
      with suffix in Hs by reflexivity.
    specialize (Hs Hlt).
    replace (1 + size value + 1 + size ("^^" +:+ String opening ""))%N
      with (1 + size value + 4)%N in Hs
      by (change (size ("^^" +:+ String opening "")) with 3%N; lia).
    rewrite Hs.
    replace (substr (datatype +:+ String closing "") 0
               (size (datatype +:+ String closing "") - 1)) with datatype;
      [reflexivity|].
    symmetry. apply (substr_middle "" datatype (String closing "")).
    rewrite size_app, size_String. change (size "") with 0%N. lia.
Qed.

(** ** The exports in closed form *)

Import ExportForms.

(** ** Loops that yield and poll *)

Lemma progress_unset len handle n :
  (∀ k, k < len → handle (n + k) = false) →
  progress len handle n = (len, n + len, inr ()).
Proof.
  revert n. induction len as [|len IH]; intros n Hq; simpl.
  - by rewrite Nat.add_0_r.
  - assert (handle n = false) as ->
      by (rewrite <- (Nat.add_0_r n); apply Hq; lia).
    rewrite IH.
    + by replace (S n + len) with (n + S len) by lia.
    + intros k Hk. replace (S n + k) with (n + S k) by lia. apply Hq. lia.
Qed.

Lemma progress_firstSetAt len handle n j :
  j < len → firstSetAt handle n j →
  progress len handle n = (S j, n + S j, inl (CancellationException None)).
Proof.
  revert n j. induction len as [|len IH]; intros n j Hj Hset; [lia|].
  simpl. destruct j as [|j].
  - destruct Hset as [_ Hset]. rewrite Nat.add_0_r in Hset. rewrite Hset.
    by replace (n + 1) with (S n) by lia.
  - apply firstSetAt_S in Hset as [Hn Hset]. rewrite Hn.
    rewrite (IH (S n) j) by (done || lia).
    by replace (S n + S j) with (n + S (S j)) by lia.
Qed.

Lemma progress_done len handle n k p u :
  progress len handle n = (k, p, inr u) → k = len.
Proof.
  revert n k p. induction len as [|len IH]; intros n k p; simpl.
  - by intros [= <- _].
  - destruct (handle n); [discriminate|].
    destruct (progress len handle (S n)) as [[k' p'] o'] eqn:Hp.
    intros [= <- <- ->]. f_equal. by eapply IH.
Qed.

Lemma forEach_rendered_progress {Y A} (l : list A) (body : A → Gen Y ())
    (render : A → Exception + list Y) handle out :
  (∀ x m chunks, render x = inr chunks →
     body x handle m =
     mkRun chunks (S m)
       (if handle m then inl (CancellationException None) else inr ())) →
  mapM render l = inr out →
  ∀ n k p o,
    progress (length l) handle n = (k, p, o) →
    forEach l body handle n = mkRun (concat (take k out)) p o.
Proof.
  intros Hbody. revert out.
  induction l as [|x l IH]; intros out Hm n k p o Hp.
  - simpl in Hm, Hp. injection Hm as <-. by injection Hp as <- <- <-.
  - apply mapM_cons_inr in Hm as (y & ys & Hy & Hys & ->).
    rewrite forEach_cons, (Hbody _ _ _ Hy). cbn [outcome yielded polls].
    simpl in Hp. destruct (handle n).
    + injection Hp as <- <- <-. cbn. by rewrite app_nil_r.
    + destruct (progress (length l) handle (S n)) as [[k' p'] o'] eqn:Hp'.
      injection Hp as <- <- <-.
      by rewrite (IH ys Hys (S n) k' p' o' Hp').
Qed.

Lemma appendRows_progress {Y} (rows : list nat)
    (row : nat → Exception + Json) handle out :
  mapM row rows = inr out →
  ∀ json n k p o,
    progress (length rows) handle n = (k, p, o) →
    appendRows (Y:=Y) rows row json handle n
    = mkRun [] p
        (match o with
         | inl e => inl e
         | inr _ => inr (json ++ out)
         end).
Proof.
  revert out. induction rows as [|i rows IH]; intros out Hm json n k p o Hp.
  - simpl in Hm, Hp. injection Hm as <-. injection Hp as <- <- <-.
    simpl. unfold ret. by rewrite app_nil_r.
  - apply mapM_cons_inr in Hm as (y & ys & Hy & Hys & ->).
    simpl in Hp |- *. unfold bind, lift, throwIfCancelled. rewrite Hy. simpl.
    destruct (handle n).
    + by injection Hp as <- <- <-.
    + destruct (progress (length rows) handle (S n)) as [[k' p'] o'] eqn:Hp'.
      injection Hp as <- <- <-.
      rewrite (IH ys Hys (json ++ [y]) (S n) k' p' o' Hp'). simpl.
      destruct o'; [done|]. by rewrite <- app_assoc.
Qed.

Lemma mapM_rendered {A B} (f : A → Exception + list B) l out :
  mapM f l = inr out → out = (λ x, rendered (f x)) <$> l.
Proof.
  revert out. induction l as [|x l IH]; intros out Hm.
  - by injection Hm as <-.
  - apply mapM_cons_inr in Hm as (y & ys & Hy & Hys & ->).
    cbn. rewrite Hy. cbn. f_equal. by apply IH.
Qed.

Lemma concat_take_singletons {A} (l : list A) k :
  concat (take k ((λ x, [x]) <$> l)) = take k l.
Proof.
  revert k. induction l as [|x l IH]; intros [|k]; try done.
  cbn. by rewrite IH.
Qed.

Lemma bind_take_fmap {A B} (f : A → list B) (l : list A) k :
  take k l ≫= f = concat (take k (f <$> l)).
Proof.
  revert k. induction l as [|x l IH]; intros [|k]; try done.
  cbn. by rewrite IH.
Qed.

Lemma take_commaGroups bindings k :
  commaSeparated (take k bindings) = concat (take k (commaGroups bindings)).
Proof.
  unfold commaSeparated, commaGroups.
  change (@mjoin list _ (list string)) with (@concat string).
  f_equal. generalize (λ k0 b, if bool_decide (0 < k0) then [","; b] else [b]).
  intros f. revert f k. induction bindings as [|b bs IH]; intros f [|k]; try done.
  cbn. f_equal. apply IH.
Qed.

Lemma length_commaGroups bindings :
  length (commaGroups bindings) = length bindings.
Proof. unfold commaGroups. by rewrite length_imap. Qed.

(** ** What is seen of a run *)

Lemma closedForm_seen pre rows post handle n k p o :
  progress (length rows) handle n = (k, p, o) →
  closedForm pre rows post handle n
  = (pre ++ concat (take k rows)
       ++ (match o with inr _ => post | inl _ => [] end),
     p, match o with inl e => Some e | inr _ => None end).
Proof.
  intros Hp. unfold closedForm. rewrite Hp.
  destruct o; [by rewrite app_nil_r|done].
Qed.

Lemma observe_setOperationOnCancel {A} op (m : Gen string A) handle n :
  observe (setOperationOnCancel op m handle n) = retag op (observe (m handle n)).
Proof.
  unfold observe, setOperationOnCancel, ending, retag. cbn.
  destruct (outcome (m handle n)) as [[]|]; reflexivity.
Qed.

Lemma closedForm_unset pre rows post handle n :
  (∀ k, k < length rows → handle (n + k) = false) →
  closedForm pre rows post handle n
  = (pre ++ concat rows ++ post, n + length rows, None).
Proof.
  intros Hq. rewrite (closedForm_seen _ _ _ _ _ _ _ _ (progress_unset _ _ _ Hq)).
  by rewrite firstn_all.
Qed.

Lemma closedForm_firstSetAt pre rows post handle n j :
  j < length rows → firstSetAt handle n j →
  closedForm pre rows post handle n
  = (pre ++ concat (take (S j) rows), n + S j,
     Some (CancellationException None)).
Proof.
  intros Hj Hset.
  rewrite (closedForm_seen _ _ _ _ _ _ _ _ (progress_firstSetAt _ _ _ _ Hj Hset)).
  by rewrite app_nil_r.
Qed.

Lemma concat_take_nils {A B} (l : list A) k :
  concat (take k ((λ _, []) <$> l)) = ([] : list B).
Proof. revert k. induction l as [|x l IH]; intros [|k]; try done. apply IH. Qed.

Lemma observe_bind_mret {A B} (m : Gen string A) (f : A → B) handle n :
  observe ((x ← m; mret (f x)) handle n) = observe (m handle n).
Proof.
  unfold observe, ending, mbind, mret, Gen_bind, Gen_ret, bind, ret.
  destruct (m handle n) as [ys ps [e|a]]; cbn; [done|].
  by rewrite app_nil_r.
Qed.

Section ClosedForms.
Context `{env : Environment}.

(** ** The SELECT streams *)

Lemma octetStream_closed qet selectClause limitAndOffset handle n :
  observe (selectQueryResultToStream octetStream qet selectClause
             limitAndOffset handle n)
  = closedForm []
      (octetStreamRow (getResult qet)
         (selectedVariablesToColumnIndices qet selectClause true)
         <$> getRowIndices limitAndOffset (getResult qet))
      [] handle n.
Proof.
  unfold selectQueryResultToStream. cbn [bool_decide decide_rel].
  rewrite bool_decide_eq_false_2 by done.
  rewrite bool_decide_eq_true_2 by done. cbv zeta.
  set (rows := getRowIndices limitAndOffset (getResult qet)).
  set (row := octetStreamRow (getResult qet)
                (selectedVariablesToColumnIndices qet selectClause true)).
  destruct (progress (length (row <$> rows)) handle n) as [[k p] o] eqn:Hp.
  rewrite (closedForm_seen _ _ _ _ _ _ _ _ Hp). rewrite length_fmap in Hp.
  rewrite (forEach_rendered_progress rows _ (λ i, inr (row i)) handle
             (row <$> rows)) with (k := k) (p := p) (o := o);
    [|intros i m chunks [= <-]|apply mapM_fmap_total|exact Hp].
  - unfold observe, ending. cbn. by destruct o; rewrite ?app_nil_r.
  - unfold mbind, Gen_bind, bind, yieldAll, throwIfCancelled. simpl.
    by rewrite app_nil_r.
Qed.

Lemma separated_closed format qet selectClause limitAndOffset handle n :
  format = csv ∨ format = tsv →
  observe (selectQueryResultToStream format qet selectClause limitAndOffset
             handle n)
  = closedForm (separatedHeader format selectClause)
      ((λ i,
          rendered
            (separatedRow format (getResult qet) i
               (selectedVariablesToColumnIndices qet selectClause true)))
         <$> getRowIndices limitAndOffset (getResult qet))
      [] handle n.
Proof.
  intros Hf. unfold selectQueryResultToStream.
  rewrite !bool_decide_eq_false_2 by (intros ->; destruct Hf; discriminate).
  cbv zeta.
  set (rows := getRowIndices limitAndOffset (getResult qet)).
  set (render := λ i, separatedRow format (getResult qet) i
                        (selectedVariablesToColumnIndices qet selectClause true)).
  destruct (mapM_total render rows) as [out Hout];
    [intros i; apply separatedRow_succeeds|].
  fold (render) in |- *.
  change (λ i, rendered (separatedRow format (getResult qet) i
                           (selectedVariablesToColumnIndices qet selectClause true)))
    with (λ i, rendered (render i)).
  rewrite <- (mapM_rendered _ _ _ Hout).
  destruct (progress (length out) handle n) as [[k p] o] eqn:Hp.
  rewrite (closedForm_seen _ _ _ _ _ _ _ _ Hp).
  rewrite (mapM_length _ _ _ Hout) in Hp.
  unfold mbind at 1, Gen_bind, bind at 1. cbn [yieldAll outcome yielded polls].
  rewrite (forEach_rendered_progress rows _ render handle out)
    with (k := k) (p := p) (o := o); [| |exact Hout|exact Hp].
  - unfold observe, ending. cbn. by destruct o; rewrite ?app_nil_r.
  - intros i m chunks Hr. unfold mbind, Gen_bind, bind, lift, yieldAll,
      throwIfCancelled. unfold render in Hr. rewrite Hr. simpl.
    by rewrite app_nil_r.
Qed.

Lemma sparqlXml_closed qet selectClause limitAndOffset handle n :
  succeeds
    (mapM (xmlRow (getResult qet)
             (selectedVariablesToColumnIndices qet selectClause false))
       (getRowIndices limitAndOffset (getResult qet))) = true →
  observe (selectQueryResultToStream_sparqlXml qet selectClause limitAndOffset
             handle n)
  = closedForm (xmlPreamble selectClause)
      ((λ i,
          rendered
            (xmlRow (getResult qet)
               (selectedVariablesToColumnIndices qet selectClause false) i))
         <$> getRowIndices limitAndOffset (getResult qet))
      xmlEpilogue handle n.
Proof.
  intros Hs. unfold selectQueryResultToStream_sparqlXml. cbv zeta.
  set (rows := getRowIndices limitAndOffset (getResult qet)) in *.
  set (render := xmlRow (getResult qet)
                   (selectedVariablesToColumnIndices qet selectClause false)) in *.
  destruct (mapM render rows) as [e|out] eqn:Hout; [discriminate|].
  rewrite <- (mapM_rendered _ _ _ Hout).
  destruct (progress (length out) handle n) as [[k p] o] eqn:Hp.
  rewrite (closedForm_seen _ _ _ _ _ _ _ _ Hp).
  rewrite (mapM_length _ _ _ Hout) in Hp.
  unfold mbind at 1 2, Gen_bind, bind at 1 2.
  cbn [yieldAll outcome yielded polls].
  rewrite (forEach_rendered_progress rows _ render handle out)
    with (k := k) (p := p) (o := o); [| |exact Hout|exact Hp].
  - unfold observe, ending. cbn. by destruct o; rewrite ?app_nil_r.
  - intros i m chunks Hr. by apply xmlRow_body.
Qed.

Lemma sparqlJson_stream_closed qet selectClause limitAndOffset handle n :
  let bound :=
    eraseNullopt (selectedVariablesToColumnIndices qet selectClause false) in
  succeeds
    (mapM (rowBinding (getResult qet) bound)
       (getRowIndices limitAndOffset (getResult qet))) = true →
  observe (selectQueryResultToStream_sparqlJson qet selectClause
             limitAndOffset handle n)
  = closedForm [sparqlJsonPreamble selectClause]
      (if bool_decide (bound = [])
       then []
       else
         (λ i,
            match sparqlJsonRowChunk (getResult qet) bound i with
            | inr chunk => [chunk]
            | inl _ => []
            end) <$> getRowIndices limitAndOffset (getResult qet))
      ["]}}"] handle n.
Proof.
  intros bound Hs. unfold selectQueryResultToStream_sparqlJson. cbv zeta.
  fold bound.
  set (rows := getRowIndices limitAndOffset (getResult qet)) in *.
  case_bool_decide as Hb.
  { reflexivity. }
  destruct (mapM (rowBinding (getResult qet) bound) rows) as [e|bindings]
    eqn:Hbindings; [discriminate|].
  pose proof (sparqlJsonRowChunk_mapM _ _ _ _ Hbindings) as Hchunks.
  set (render := λ i, match sparqlJsonRowChunk (getResult qet) bound i with
                      | inr chunk => inr [chunk]
                      | inl e => inl e
                      end).
  assert (∃ out, mapM render rows = inr out) as [out Hout].
  { clear -Hchunks. revert Hchunks. generalize (zip_with
      (λ i b, (if bool_decide (i = 0) then "" else ",") +:+ dump b)
      rows bindings). intros chunks. revert chunks.
    induction rows as [|i rows IH]; intros chunks Hm; [by eexists|].
    apply mapM_cons_inr in Hm as (y & ys & Hy & Hys & ->).
    destruct (IH _ Hys) as [out Hout]. cbn. unfold render at 1.
    rewrite Hy, Hout. by eexists. }
  assert ((λ i, match sparqlJsonRowChunk (getResult qet) bound i with
                | inr chunk => [chunk]
                | inl _ => []
                end) <$> rows = out) as ->.
  { rewrite (mapM_rendered _ _ _ Hout). apply list_fmap_ext. intros _ i _.
    unfold render. by destruct (sparqlJsonRowChunk _ _ i). }
  destruct (progress (length out) handle n) as [[k p] o] eqn:Hp.
  rewrite (closedForm_seen _ _ _ _ _ _ _ _ Hp).
  rewrite (mapM_length _ _ _ Hout) in Hp.
  unfold mbind at 1 2, Gen_bind, bind at 1 2.
  cbn [co_yield outcome yielded polls].
  rewrite (forEach_rendered_progress rows _ render handle out)
    with (k := k) (p := p) (o := o); [| |exact Hout|exact Hp].
  - unfold observe, ending. cbn. by destruct o; rewrite ?app_nil_r.
  - intros i m chunks Hr. unfold render in Hr.
    unfold mbind, Gen_bind, bind, lift, co_yield, throwIfCancelled.
    destruct (sparqlJsonRowChunk (getResult qet) bound i); [done|].
    by injection Hr as <-.
Qed.

(** ** The CONSTRUCT streams *)

Lemma constructQueryResultToTriples_progress qet triples limitAndOffset res
    handle n k p o :
  progress (length (generatedTriples triples limitAndOffset res)) handle n
  = (k, p, o) →
  constructQueryResultToTriples qet triples limitAndOffset res handle n
  = mkRun (take k (generatedTriples triples limitAndOffset res)) p o.
Proof.
  intros Hp. rewrite constructQueryResultToTriples_flat.
  rewrite (forEach_rendered_progress _ _ (λ t, inr [t]) handle
             ((λ t, [t]) <$> generatedTriples triples limitAndOffset res))
    with (k := k) (p := p) (o := o);
    [|by intros t m chunks [= <-]|apply mapM_fmap_total|exact Hp].
  by rewrite concat_take_singletons.
Qed.

Lemma forEachYielded_triples_closed qet triples limitAndOffset res
    (chunks : StringTriple → list string) handle n :
  observe (forEachYielded
             (constructQueryResultToTriples qet triples limitAndOffset res)
             chunks handle n)
  = closedForm [] (chunks <$> generatedTriples triples limitAndOffset res) []
      handle n.
Proof.
  destruct (progress (length (chunks <$> generatedTriples triples
                                limitAndOffset res)) handle n)
    as [[k p] o] eqn:Hp.
  rewrite (closedForm_seen _ _ _ _ _ _ _ _ Hp). rewrite length_fmap in Hp.
  unfold forEachYielded.
  rewrite (constructQueryResultToTriples_progress _ _ _ _ _ _ _ _ _ Hp).
  unfold observe, ending. cbn. rewrite bind_take_fmap.
  by destruct o; rewrite ?app_nil_r.
Qed.

(** ** The buffered exports *)

Lemma appendRows_closed {A} rows (row : nat → Exception + Json)
    (f : list Json → A) handle n :
  succeeds (mapM row rows) = true →
  observe ((json ← appendRows rows row []; mret (f json)) handle n)
  = closedForm [] ((λ _, []) <$> rows) [] handle n.
Proof.
  intros Hs. destruct (mapM row rows) as [e|out] eqn:Hout; [discriminate|].
  rewrite observe_bind_mret.
  destruct (progress (length ((λ _ : nat, [] : list string) <$> rows))
              handle n) as [[k p] o] eqn:Hp.
  rewrite (closedForm_seen _ _ _ _ _ _ _ _ Hp). rewrite length_fmap in Hp.
  rewrite (appendRows_progress rows row handle out Hout [] n k p o Hp).
  unfold observe, ending. cbn. rewrite concat_take_nils.
  by destruct o.
Qed.

Lemma collect_triples_closed {A} qet triples limitAndOffset res
    (f : list StringTriple → A) handle n :
  observe ((jsonArray ←
              collect (constructQueryResultToTriples qet triples
                         limitAndOffset res);
            mret (f jsonArray)) handle n)
  = closedForm []
      ((λ _, []) <$> generatedTriples triples limitAndOffset res) []
      handle n.
Proof.
  rewrite observe_bind_mret.
  destruct (progress
              (length ((λ _ : StringTriple, [] : list string)
                         <$> generatedTriples triples limitAndOffset res))
              handle n) as [[k p] o] eqn:Hp.
  rewrite (closedForm_seen _ _ _ _ _ _ _ _ Hp). rewrite length_fmap in Hp.
  unfold collect.
  rewrite (constructQueryResultToTriples_progress _ _ _ _ _ _ _ _ _ Hp).
  unfold observe, ending. cbn. rewrite concat_take_nils.
  by destruct o.
Qed.

(** ** The QLever JSON stream *)

Lemma yieldBindingsAndSuffix_closed (bindings : Gen string ()) timer
    (dumps : list string) handle n :
  (∀ k p o, progress (length dumps) handle n = (k, p, o) →
            bindings handle n = mkRun (take k dumps) p o) →
  observe (yieldBindingsAndSuffix bindings timer handle n)
  = closedForm [] (commaGroups dumps)
      ["]," +:+
       substrFrom
         (dump
            (jsonSet "time"
               (jsonTimes (secondReading timer) (firstReading timer))
               (jsonSet "resultsize" (JNumber (Z.of_nat (length dumps)))
                  JNull)))
         1]
      handle n.
Proof.
  intros Hrun.
  destruct (progress (length (commaGroups dumps)) handle n) as [[k p] o]
    eqn:Hp.
  rewrite (closedForm_seen _ _ _ _ _ _ _ _ Hp).
  rewrite length_commaGroups in Hp.
  unfold yieldBindingsAndSuffix. rewrite (Hrun k p o Hp).
  cbn [outcome yielded polls]. rewrite take_commaGroups.
  destruct o as [e|[]].
  { unfold observe, ending. cbn. by rewrite app_nil_r. }
  pose proof (progress_done _ _ _ _ _ _ Hp) as ->.
  unfold observe, ending. cbn. by rewrite !firstn_all.
Qed.

Lemma qleverJson_select_bindings qet selectClause limitAndOffset handle n
    k p o :
  let rows := getRowIndices limitAndOffset (getResult qet) in
  let dumps :=
    (λ i,
       match idTableToQLeverJSONRow
               (selectedVariablesToColumnIndices qet selectClause true)
               (getResult qet) i with
       | inr row => dump row
       | inl _ => ""
       end) <$> rows in
  progress (length dumps) handle n = (k, p, o) →
  selectQueryResultBindingsToQLeverJSONStream qet selectClause limitAndOffset
    (getResult qet) handle n
  = mkRun (take k dumps) p o.
Proof.
  intros rows dumps Hp. unfold dumps in Hp. rewrite length_fmap in Hp.
  unfold selectQueryResultBindingsToQLeverJSONStream,
    idTableToQLeverJSONBindingsStream. fold rows.
  set (render := λ i,
         match idTableToQLeverJSONRow
                 (selectedVariablesToColumnIndices qet selectClause true)
                 (getResult qet) i with
         | inr row => inr [dump row]
         | inl e => inl e
         end).
  assert (mapM render rows = inr ((λ d, [d]) <$> dumps)) as Hout.
  { unfold dumps. clear. induction rows as [|i rows IH]; [done|].
    cbn. unfold render at 1.
    destruct (idTableToQLeverJSONRow_succeeds
                (selectedVariablesToColumnIndices qet selectClause true)
                (getResult qet) i) as [row ->].
    by rewrite IH. }
  rewrite (forEach_rendered_progress rows _ render handle
             ((λ d, [d]) <$> dumps))
    with (k := k) (p := p) (o := o); [| |exact Hout|exact Hp].
  - by rewrite concat_take_singletons.
  - intros i m chunks Hr. unfold render in Hr.
    unfold mbind, Gen_bind, bind, lift, co_yield, throwIfCancelled.
    destruct (idTableToQLeverJSONRow _ _ i); [done|]. by injection Hr as <-.
Qed.

Lemma qleverJson_construct_bindings qet triples limitAndOffset handle n
    k p o :
  let dumps :=
    (λ triple, dump (tripleToJson triple))
      <$> generatedTriples triples limitAndOffset (getResult qet) in
  progress (length dumps) handle n = (k, p, o) →
  constructQueryResultBindingsToQLeverJSONStream qet triples limitAndOffset
    (getResult qet) handle n
  = mkRun (take k dumps) p o.
Proof.
  intros dumps Hp. unfold dumps in Hp. rewrite length_fmap in Hp.
  unfold constructQueryResultBindingsToQLeverJSONStream, forEachYielded.
  rewrite (constructQueryResultToTriples_progress _ _ _ _ _ _ _ _ _ Hp).
  cbn. f_equal. unfold dumps. rewrite <- fmap_take.
  generalize (take k (generatedTriples triples limitAndOffset (getResult qet))).
  intros l. induction l as [|t l IH]; [done|]. cbn. by rewrite IH.
Qed.

End ClosedForms.

Section ExportRuns.
Context `{env : Environment}.

Lemma length_rowChunks call query qet :
  length (rowChunks call query qet) = pollPoints call query qet.
Proof.
  destruct query as [original clause limitAndOffset].
  unfold rowChunks, pollPoints. simpl _clause. simpl _limitOffset. cbv zeta.
  destruct clause as [selectClause|triples];
    destruct call as [mediaType|mediaType|]; try destruct mediaType;
    repeat case_bool_decide;
    rewrite ?length_commaGroups, ?length_fmap; done.
Qed.

Lemma qleverJson_buffered_closed query qet requestTimer handle n :
  observe (computeQueryResultAsQLeverJSON query qet requestTimer handle n)
  = closedForm []
      (match _clause query with
       | Select _ =>
           (λ _, []) <$> getRowIndices (_limitOffset query) (getResult qet)
       | Construct triples =>
           (λ _, [])
             <$> generatedTriples triples (_limitOffset query) (getResult qet)
       end) [] handle n.
Proof.
  unfold computeQueryResultAsQLeverJSON. cbv zeta.
  etrans; [apply (observe_bind_mret _ (λ res, jsonSet _ _ (jsonSet _ _ (jsonSet _ res _))))|].
  destruct (_clause query) as [selectClause|triples].
  - unfold selectQueryResultBindingsToQLeverJSON, idTableToQLeverJSONArray.
    apply (appendRows_closed _ _ JArray).
    destruct (mapM_total
                (idTableToQLeverJSONRow
                   (selectedVariablesToColumnIndices qet selectClause true)
                   (getResult qet))
                (getRowIndices (_limitOffset query) (getResult qet)))
      as [out ->]; [|done].
    intros i. apply idTableToQLeverJSONRow_succeeds.
  - unfold constructQueryResultBindingsToQLeverJSON.
    apply (collect_triples_closed _ _ _ _ _).
Qed.

Lemma qleverJson_stream_closed query qet requestTimer handle n :
  observe (computeResultAsQLeverJSONStream query qet requestTimer handle n)
  = closedForm (preamble AsQLeverJSONStream query qet)
      (rowChunks AsQLeverJSONStream query qet)
      (epilogue AsQLeverJSONStream query qet requestTimer) handle n.
Proof.
  unfold epilogue. rewrite <- length_rowChunks.
  destruct query as [original clause limitAndOffset].
  unfold computeResultAsQLeverJSONStream, preamble, rowChunks.
  simpl _clause. simpl _limitOffset. cbv zeta.
  set (prefix := dropLast _ +:+ _).
  assert (∀ bindings dumps,
            (∀ k p o, progress (length dumps) handle n = (k, p, o) →
                      bindings handle n = mkRun (take k dumps) p o) →
            observe ((_ ← co_yield prefix;
                      yieldBindingsAndSuffix bindings requestTimer) handle n)
            = closedForm [prefix] (commaGroups dumps)
                ["]," +:+
                 substrFrom
                   (dump
                      (jsonSet "time"
                         (jsonTimes (secondReading requestTimer)
                            (firstReading requestTimer))
                         (jsonSet "resultsize"
                            (JNumber (Z.of_nat (length (commaGroups dumps))))
                            JNull)))
                   1]
                handle n) as Hstream.
  { intros bindings dumps Hrun.
    pose proof (yieldBindingsAndSuffix_closed bindings requestTimer dumps
                  handle n Hrun) as Hclosed.
    rewrite length_commaGroups.
    unfold mbind, Gen_bind, bind, co_yield. cbn [outcome yielded polls].
    unfold observe, ending in *. cbn [outcome yielded polls].
    unfold closedForm in *.
    destruct (progress (length (commaGroups dumps)) handle n) as [[k p] o].
    destruct o; injection Hclosed as -> -> ->; reflexivity. }
  destruct clause as [selectClause|triples]; cbn [qleverJsonPreamble].
  - apply Hstream. intros k p o. apply qleverJson_select_bindings.
  - apply Hstream. intros k p o. apply qleverJson_construct_bindings.
Qed.

(** Every export that reaches its rows, and whose rows render, in closed
    form. *)
Lemma exportRun_closedForm call query qet requestTimer handle n :
  reachesRows call query = true → rowsRender call query qet = true →
  exportRun call query qet requestTimer handle n
  = match operationOf call with
    | Some operation =>
        retag operation
          (closedForm (preamble call query qet) (rowChunks call query qet)
             (epilogue call query qet requestTimer) handle n)
    | None =>
        closedForm (preamble call query qet) (rowChunks call query qet)
          (epilogue call query qet requestTimer) handle n
    end.
Proof.
  intros Hreach Hrender.
  destruct call as [mediaType|mediaType|]; cbn [operationOf exportRun];
    [| |apply qleverJson_stream_closed].
  - destruct query as [original clause limitAndOffset].
    destruct clause as [selectClause|triples]; destruct mediaType;
      try discriminate Hreach;
      unfold computeResultAsStream, computeStream, preamble, rowChunks,
        epilogue, rowsRender in *;
      simpl _clause in *; simpl _limitOffset in *; cbv zeta;
      rewrite observe_setOperationOnCancel; f_equal.
    all: first
      [ by apply sparqlXml_closed
      | by apply sparqlJson_stream_closed
      | apply octetStream_closed
      | apply separated_closed; by auto
      | apply forEachYielded_triples_closed ].
  - destruct query as [original clause limitAndOffset].
    destruct clause as [selectClause|triples]; destruct mediaType;
      try discriminate Hreach;
      unfold computeResultAsJSON, computeSelectQueryResultAsSparqlJSON,
        preamble, rowChunks, epilogue, rowsRender in *;
      simpl _clause in *; simpl _limitOffset in *; cbv zeta;
      rewrite observe_setOperationOnCancel; f_equal.
    + unfold selectQueryResultToSparqlJSON. cbv zeta.
      case_bool_decide; [reflexivity|].
      by apply (appendRows_closed _ _ (sparqlJsonDocument _)).
    + exact (qleverJson_buffered_closed
               (mkParsedQuery original (Select selectClause) limitAndOffset)
               qet requestTimer handle n).
    + exact (qleverJson_buffered_closed
               (mkParsedQuery original (Construct triples) limitAndOffset)
               qet requestTimer handle n).
Qed.

End ExportRuns.

Section PollingClaims.
Context `{env : Environment}.

(** C5, amended.  For every entry point, media type and query form that
    reach the loop over the rows, and when no row fails to render:
    [rowChunks] lists what is yielded for each exported row of a SELECT
    query (no row at all for SPARQL JSON when no selected variable is
    bound) or for each generated triple of a CONSTRUCT query, and the
    handle is polled once right after each of them.  If none of these polls
    finds the handle set, the export yields the preamble, the chunks of
    every row and the epilogue, and has polled once per row.  If the poll
    after row [j] is the first that finds the handle set, the export has
    yielded the preamble and the chunks of the rows up to and including row
    [j], nothing else, and ends there with a cancellation; the
    cancellation carries the operation name ["Stream query export"] out of
    [computeResultAsStream] and ["Query export"] out of
    [computeResultAsJSON]. *)
Theorem exports_poll_after_each_row_or_triple call query qet requestTimer
    handle n :
  reachesRows call query = true → rowsRender call query qet = true →
  length (rowChunks call query qet) = pollPoints call query qet ∧
  ((∀ k, k < pollPoints call query qet → handle (n + k) = false) →
     exportRun call query qet requestTimer handle n
     = (preamble call query qet ++ concat (rowChunks call query qet)
          ++ epilogue call query qet requestTimer,
        n + pollPoints call query qet, None)) ∧
  (∀ j, j < pollPoints call query qet → firstSetAt handle n j →
     ∃ operation,
       exportRun call query qet requestTimer handle n
       = (preamble call query qet
            ++ concat (take (S j) (rowChunks call query qet)),
          n + S j, Some (CancellationException operation)) ∧
       (∀ mediaType, call = AsStream mediaType →
                     operation = Some "Stream query export") ∧
       (∀ mediaType, call = AsJSON mediaType →
                     operation = Some "Query export")).
Proof.
  intros Hreach Hrender.
  rewrite (exportRun_closedForm _ _ _ _ _ _ Hreach Hrender).
  split; [apply length_rowChunks|]. rewrite <- length_rowChunks. split.
  - intros Hq. rewrite (closedForm_unset _ _ _ _ _ Hq).
    by destruct (operationOf call).
  - intros j Hj Hset. rewrite (closedForm_firstSetAt _ _ _ _ _ _ Hj Hset).
    destruct call as [mediaType|mediaType|]; cbn [operationOf retag];
      eexists; (split; [reflexivity|]); split; intros m [=]; reflexivity.
Qed.

(** When the poll after row (or triple) [j] is the first that finds the
    handle set, [computeResultAsQLeverJSONStream] has yielded the prefix
    and the rows up to and including row [j], separated by commas, and not
    the suffix; it ends with a cancellation without operation name, since
    it has no handler that sets one. *)
Theorem qleverJson_stream_cancellation_has_no_operation query qet requestTimer
    handle n j :
  j < pollPoints AsQLeverJSONStream query qet → firstSetAt handle n j →
  observe (computeResultAsQLeverJSONStream query qet requestTimer handle n)
  = (preamble AsQLeverJSONStream query qet
       ++ concat (take (S j) (rowChunks AsQLeverJSONStream query qet)),
     n + S j, Some (CancellationException None)).
Proof.
  intros Hj Hset. rewrite qleverJson_stream_closed.
  rewrite <- length_rowChunks in Hj.
  apply (closedForm_firstSetAt _ _ _ _ _ _ Hj Hset).
Qed.

End PollingClaims.

(** ** The exporter on concrete inputs *)

Import ExportDemo.

(** [SELECT ?x ... LIMIT 2 OFFSET 2] over five rows as CSV: the header and
    the rows 2 and 3. *)
Lemma exports_emit_the_rows_of_the_range_witness :
  notCancelled neverCancelled ∧
  getRowIndices limit2offset2 fiveRows = [2; 3] ∧
  yielded (selectQueryResultToStream (env:=environment) csv
             (treeOf fiveRows [("?x", 0)]) (mkSelectClause ["?x"])
             limit2offset2 neverCancelled 0)
  = ["x"; newline; "2"; newline; "3"; newline].
Proof.
  assert (Hq : notCancelled neverCancelled) by (intros k; reflexivity).
  split; [exact Hq|]. split; [reflexivity|].
  destruct (exports_emit_the_rows_of_the_range (env:=environment)
              (treeOf fiveRows [("?x", 0)]) (mkSelectClause ["?x"])
              limit2offset2 neverCancelled 0 Hq)
    as (_ & _ & Hcsv & _).
  destruct (Hcsv csv (or_introl eq_refl)) as (out & Hout & Hyielded).
  vm_compute in Hout. injection Hout as <-. exact Hyielded.
Defined.

(** C3 does not hold for every format: selecting a variable that the tree
    does not bind over five rows, the range has five rows, the CSV export
    has five (empty) lines, and both SPARQL JSON exports have no binding. *)
Lemma sparqlJson_without_bound_variable_emits_no_row :
  let qet := treeOf fiveRows [("?x", 0)] in
  let selectClause := mkSelectClause ["?y"] in
  getRowIndices noLimit (getResult qet) = [0; 1; 2; 3; 4] ∧
  selectQueryResultToSparqlJSON (env:=environment) qet selectClause noLimit
    (getResult qet) neverCancelled 0
  = mkRun [] 0 (inr (sparqlJsonDocument ["y"] [])) ∧
  yielded (selectQueryResultToStream_sparqlJson (env:=environment) qet
             selectClause noLimit neverCancelled 0)
  = [sparqlJsonPreamble (env:=environment) selectClause; "]}}"] ∧
  yielded (selectQueryResultToStream (env:=environment) csv qet selectClause
             noLimit neverCancelled 0)
  = ["y"; newline; newline; newline; newline; newline; newline].
Proof. vm_compute. repeat split. Qed.

(** A CSV stream over five rows with the handle set from the third poll
    on: the header and three rows are yielded, and the third poll ends the
    stream. *)
Lemma exports_poll_after_each_row_or_triple_witness :
  let qet := treeOf fiveRows [("?x", 0)] in
  reachesRows (AsStream csv) selectX = true ∧
  rowsRender (env:=environment) (AsStream csv) selectX qet = true ∧
  pollPoints (AsStream csv) selectX qet = 5 ∧
  firstSetAt (setFrom 2) 0 2 ∧
  exportRun (env:=environment) (AsStream csv) selectX qet timer (setFrom 2) 0
  = (["x"; newline; "0"; newline; "1"; newline; "2"; newline], 3,
     Some (CancellationException (Some "Stream query export"))).
Proof.
  intros qet.
  assert (Hset : firstSetAt (setFrom 2) 0 2).
  { split; [|reflexivity]. intros k Hk. unfold setFrom.
    apply bool_decide_eq_false_2. simpl. lia. }
  assert (Hj : 2 < pollPoints (AsStream csv) selectX qet)
    by (vm_compute; lia).
  split; [reflexivity|]. split; [reflexivity|]. split; [reflexivity|].
  split; [exact Hset|].
  destruct (proj2 (proj2 (exports_poll_after_each_row_or_triple
                            (env:=environment) (AsStream csv) selectX qet
                            timer (setFrom 2) 0 eq_refl eq_refl)) 2 Hj Hset)
    as (operation & Hrun & Hstream & _).
  rewrite Hrun, (Hstream csv eq_refl). vm_compute. reflexivity.
Defined.

(** C5 does not hold at every row boundary: with the handle set from the
    start, the CONSTRUCT exports of five rows whose template never
    evaluates, and the SPARQL JSON stream of a query whose selected variable
    is not bound, end normally without a single poll. *)
Lemma construct_rows_without_triple_are_not_polled :
  let qet := treeOf fiveRows [] in
  getRowIndices (_limitOffset constructUnbound) (getResult qet)
  = [0; 1; 2; 3; 4] ∧
  exportRun (env:=environment) (AsStream turtle) constructUnbound qet timer
    alwaysCancelled 0 = ([], 0, None) ∧
  exportRun (env:=environment) (AsJSON qleverJson) constructUnbound qet timer
    alwaysCancelled 0 = ([], 0, None) ∧
  exportRun (env:=environment) (AsStream sparqlJson) selectY
    (treeOf fiveRows [("?x", 0)]) timer alwaysCancelled 0
  = ([sparqlJsonPreamble (env:=environment) (mkSelectClause ["?y"]); "]}}"],
     0, None).
Proof. vm_compute. repeat split. Qed.

(** A QLever JSON stream over five rows with the handle set from the
    second poll on: the prefix and two rows. *)
Lemma qleverJson_stream_cancellation_witness :
  let qet := treeOf fiveRows [("?x", 0)] in
  pollPoints AsQLeverJSONStream selectX qet = 5 ∧
  firstSetAt (setFrom 1) 0 1 ∧
  observe (computeResultAsQLeverJSONStream (env:=environment) selectX qet
             timer (setFrom 1) 0)
  = (preamble (env:=environment) AsQLeverJSONStream selectX qet
       ++ [dump (Environment:=environment)
             (JArray [JString (String quote "0" +:+ String quote
                                 "^^<http://www.w3.org/2001/XMLSchema#int>")]);
           ",";
           dump (Environment:=environment)
             (JArray [JString (String quote "1" +:+ String quote
                                 "^^<http://www.w3.org/2001/XMLSchema#int>")])],
     2, Some (CancellationException None)).
Proof.
  intros qet.
  assert (Hset : firstSetAt (setFrom 1) 0 1).
  { split; [|reflexivity]. intros k Hk. unfold setFrom.
    apply bool_decide_eq_false_2. simpl. lia. }
  assert (Hj : 1 < pollPoints AsQLeverJSONStream selectX qet)
    by (vm_compute; lia).
  split; [reflexivity|]. split; [exact Hset|].
  rewrite (qleverJson_stream_cancellation_has_no_operation
             (env:=environment) selectX qet timer (setFrom 1) 0 1 Hj Hset).
  vm_compute. reflexivity.
Defined.

(** C4.  For [CONSTRUCT { <s> <p> <o> }] over a result of one row: the
    SPARQL JSON stream is not refused, it yields the triple as a line of
    CSV; the binary stream, the SPARQL XML stream and the buffered SPARQL
    JSON export are refused. *)
Theorem construct_sparqlJson_stream_yields_csv :
  let qet := treeOf undefinedRow [] in
  computeResultAsStream (env:=environment) constructConstant qet sparqlJson
    neverCancelled 0
  = mkRun ["<s>"; ","; "<p>"; ","; "<o>"; newline] 1 (inr ()) ∧
  computeResultAsStream (env:=environment) constructConstant qet octetStream
    neverCancelled 0
  = mkRun [] 0
      (inl (RuntimeError "Binary export is not supported for CONSTRUCT queries")) ∧
  computeResultAsStream (env:=environment) constructConstant qet sparqlXml
    neverCancelled 0
  = mkRun [] 0
      (inl (RuntimeError
              "XML export is currently not supported for CONSTRUCT queries")) ∧
  computeResultAsJSON (env:=environment) constructConstant qet timer sparqlJson
    neverCancelled 0
  = mkRun [] 0
      (inl (RuntimeError
              "SPARQL-compliant JSON format is only supported for SELECT queries")).
Proof. vm_compute. repeat split. Qed.

(** C10.  For [SELECT ?x] over one row whose [?x] is undefined, the
    binding of the row is JSON [null], not an empty object: in the buffered
    document the bindings array is [[null]], and the stream yields the
    chunk ["null"]. *)
Theorem sparqlJson_binding_of_unresolved_row_is_null :
  let qet := treeOf undefinedRow [("?x", 0)] in
  idToStringAndTypeDefault (env:=environment) makeUndefined emptyLocalVocab
  = inr None ∧
  rowBinding (env:=environment) undefinedRow [mkColumn "x" 0] 0 = inr JNull ∧
  computeResultAsJSON (env:=environment) selectX qet timer sparqlJson
    neverCancelled 0
  = mkRun [] 1 (inr (sparqlJsonDocument ["x"] [JNull])) ∧
  computeResultAsStream (env:=environment) selectX qet sparqlJson
    neverCancelled 0
  = mkRun [sparqlJsonPreamble (env:=environment) (mkSelectClause ["?x"]);
           "null"; "]}}"] 1 (inr ()).
Proof. vm_compute. repeat split. Qed.

(** C8.  A text record reaches [stringAndTypeToBinding] as it is, without
    datatype.  For the text [He said "hi"] the value of the SPARQL JSON
    binding runs from the second character of the text to the character
    before its last double quote: it is neither the part between the first
    and the last double quote nor the whole text, which the CSV export of
    the same row gives.  For the text [see "x"@home] the binding gets the
    language [home], and for the text [note "a"^b] the export fails a
    check. *)
Theorem text_excerpt_with_quotes_is_cut :
  let said := "He said " +:+ String quote "hi" +:+ String quote EmptyString in
  let cut := "e said " +:+ String quote "hi" in
  getTextExcerpt (Environment:=quotingEnvironment) 0 = said ∧
  idToStringAndTypeDefault (env:=quotingEnvironment)
    (makeFromTextRecordIndex 0) emptyLocalVocab
  = inr (Some (said, None)) ∧
  stringAndTypeToBinding said None = inr (literalBinding cut) ∧
  cut ≠ said ∧ cut ≠ "hi" ∧
  computeResultAsJSON (env:=quotingEnvironment) selectX
    (treeOf (textRow 0) [("?x", 0)]) timer sparqlJson neverCancelled 0
  = mkRun [] 1
      (inr (sparqlJsonDocument ["x"]
              [JObject [("x", literalBinding cut)]])) ∧
  computeResultAsStream (env:=quotingEnvironment) selectX
    (treeOf (textRow 0) [("?x", 0)]) csv neverCancelled 0
  = mkRun ["x"; newline; said; newline] 1 (inr ()) ∧
  rowBinding (env:=quotingEnvironment) (textRow 1) [mkColumn "x" 0] 0
  = inr (JObject
           [("x",
             JObject [("value", JString ("ee " +:+ String quote "x"));
                      ("type", JString "literal");
                      ("xml:lang", JString "home")])]) ∧
  outcome (computeResultAsJSON (env:=quotingEnvironment) selectX
             (treeOf (textRow 2) [("?x", 0)]) timer sparqlJson
             neverCancelled 0)
  = inl (CheckFailed "entitystr[quotePos + 2] == '^'").
Proof. vm_compute. repeat split; discriminate. Qed.

(** ** The further properties at the example results *)

#[local] Existing Instance environment.

(** [SELECT ?x ... LIMIT 2 OFFSET 2] over five rows as a QLever JSON
    stream: two rows and [resultsize] 2. *)
Lemma computeResultAsQLeverJSONStream_text_witness :
  notCancelled neverCancelled ∧
  let query :=
    mkParsedQuery "SELECT ?x" (Select (mkSelectClause ["?x"])) limit2offset2 in
  let run :=
    computeResultAsQLeverJSONStream (env:=environment) query
      (treeOf fiveRows [("?x", 0)]) timer neverCancelled 0 in
  outcome run = inr () ∧
  ∃ out,
    length out = 2 ∧
    streamText (yielded run)
    = dropLast (dump (qleverJsonPreamble query (treeOf fiveRows [("?x", 0)])))
      +:+ ("," +:+ String quote "res" +:+ String quote ":[")
      +:+ String.concat "," (dump <$> out)
      +:+ "]," +:+
          substrFrom
            (dump (jsonSet "time" (jsonTimes 2 1)
                     (jsonSet "resultsize" (JNumber 2) JNull))) 1.
Proof.
  assert (Hq : notCancelled neverCancelled) by (intros k; reflexivity).
  split; [exact Hq|].
  destruct (proj1 (computeResultAsQLeverJSONStream_text (env:=environment)
                     "SELECT ?x" limit2offset2 (treeOf fiveRows [("?x", 0)])
                     timer neverCancelled 0 Hq) (mkSelectClause ["?x"]))
    as (out & Hout & Hrun & Htext).
  cbv zeta. split; [exact Hrun|]. exists out. split.
  - vm_compute in Hout. by injection Hout as <-.
  - exact Htext.
Defined.

(** The same query as a buffered document: two rows and [resultsize]
    5. *)
Lemma computeQueryResultAsQLeverJSON_members_witness :
  notCancelled neverCancelled ∧
  ∃ out doc,
    computeQueryResultAsQLeverJSON (env:=environment)
      (mkParsedQuery "SELECT ?x" (Select (mkSelectClause ["?x"])) limit2offset2)
      (treeOf fiveRows [("?x", 0)]) timer neverCancelled 0
    = mkRun [] 2 (inr doc) ∧
    length out = 2 ∧
    jsonGet "res" doc = Some (JArray out) ∧
    jsonGet "resultsize" doc = Some (JNumber 5).
Proof.
  assert (Hq : notCancelled neverCancelled) by (intros k; reflexivity).
  split; [exact Hq|].
  destruct (proj1 (computeQueryResultAsQLeverJSON_members (env:=environment)
                     "SELECT ?x" limit2offset2 (treeOf fiveRows [("?x", 0)])
                     timer neverCancelled 0 Hq) (mkSelectClause ["?x"]))
    as (out & doc & _ & Hlen & Hrun & _ & _ & _ & Hres & Hsize).
  exists out, doc. split; [exact Hrun|]. split; [exact Hlen|].
  split; [exact Hres|exact Hsize].
Defined.

(** A CSV stream over five rows with the handle set from the third poll
    on: the header and three rows. *)
Lemma cancelled_stream_keeps_the_rows_witness :
  firstSetAt (setFrom 2) 0 2 ∧
  computeResultAsStream (env:=environment) selectX
    (treeOf fiveRows [("?x", 0)]) csv (setFrom 2) 0
  = mkRun ["x"; newline; "0"; newline; "1"; newline; "2"; newline] 3
      (inl (CancellationException (Some "Stream query export"))).
Proof.
  assert (Hset : firstSetAt (setFrom 2) 0 2).
  { split; [|reflexivity]. intros k Hk. unfold setFrom.
    apply bool_decide_eq_false_2. simpl. lia. }
  split; [exact Hset|].
  destruct (proj1 (cancelled_stream_keeps_the_rows_up_to_the_poll
                     (env:=environment) "SELECT ?x" (mkSelectClause ["?x"])
                     noLimit (treeOf fiveRows [("?x", 0)]) (setFrom 2) 0 2
                     ltac:(vm_compute; lia) Hset) csv (or_introl eq_refl))
    as (out & Hout & Hrun).
  vm_compute in Hout. injection Hout as <-. exact Hrun.
Defined.

(** [SELECT ?x ... LIMIT 2 OFFSET 2] over five rows as a SPARQL JSON
    stream: a comma stands before the first of the two bindings. *)
Lemma sparqlJson_stream_text_witness :
  notCancelled neverCancelled ∧
  ∃ bindings,
    length bindings = 2 ∧
    streamText
      (yielded (selectQueryResultToStream_sparqlJson (env:=environment)
                  (treeOf fiveRows [("?x", 0)]) (mkSelectClause ["?x"])
                  limit2offset2 neverCancelled 0))
    = sparqlJsonPreamble (mkSelectClause ["?x"])
      +:+ "," +:+ String.concat "," (dump <$> bindings) +:+ "]}}".
Proof.
  assert (Hq : notCancelled neverCancelled) by (intros k; reflexivity).
  split; [exact Hq|].
  eexists. split; [|
    refine (sparqlJson_stream_text (env:=environment)
              (treeOf fiveRows [("?x", 0)]) (mkSelectClause ["?x"])
              limit2offset2 neverCancelled 0 _ Hq _ _ _);
    [vm_compute; discriminate|vm_compute; discriminate|
     vm_compute; reflexivity]].
  reflexivity.
Defined.

(** The literal 1 with the rest [^^<int>] gets the datatype [int]. *)
Lemma stringAndTypeToBinding_suffix_witness :
  hasNoQuote "^^<int>" ∧
  stringAndTypeToBinding
    (String quote "1" +:+ String quote "^^<int>") None
  = inr (jsonSet "datatype" (JString "int") (literalBinding "1")).
Proof.
  assert (hasNoQuote "^^<int>") as Hno.
  { unfold hasNoQuote. vm_compute. intros H.
    repeat (apply elem_of_cons in H as [H|H]; [discriminate H|]).
    by apply elem_of_nil in H. }
  split; [exact Hno|].
  refine (proj2 (proj2 (proj2 (proj2
            (stringAndTypeToBinding_suffix_edge_cases "1" "^^<int>" Hno _))))
            "<"%char "int" ">"%char eq_refl).
  vm_compute. reflexivity.
Defined.
